(** * AirwayLabel: post-processing of the airway tree

    A shallow embedding of [tree_extraction/post_processing.py]: the
    node-removal rules with their fixed-point loop and the recolouring
    passes, over a model of the part of networkx the script uses
    (an undirected [nx.Graph] with insertion-ordered node and adjacency
    dictionaries, [bfs_edges], [bfs_successors], [bfs_predecessors]).

    Conventions.
    - A Python exception (KeyError, ValueError, ZeroDivisionError,
      OverflowError, NetworkXError) is [None] in the [option] monad.
    - A Python [dict] is an association list with unique keys in insertion
      order; a Python [set] is a duplicate-free list (the script observes
      membership, size and the element of a singleton, and where it
      iterates over a set the order does not change the result).
    - Python floats are IEEE-754 binary64 numbers: Rocq's primitive floats.
    - A Python [str] is the string of the bytes of its UTF-8 encoding.
    - The trees are [nx.Graph] objects (see the annotation
      [trees: List[nx.Graph]] in [classification/lobe_validation.py]):
      [graph[n]] is the whole neighbourhood of [n], parent and children. *)

From Stdlib Require Import String Ascii.
From Stdlib Require Import ZArith List Bool Arith Lia Permutation.
From Stdlib Require Import PrimFloat FloatOps SpecFloat.
Import ListNotations.

Local Open Scope string_scope.
Local Open Scope list_scope.
Local Open Scope Z_scope.

(** ** The exception monad *)

Notation "x <- e ;; k" :=
  (match e with Some x => k | None => None end)
  (at level 61, e at next level, right associativity).

Notation "' p <- e ;; k" :=
  (match e with Some p => k | None => None end)
  (at level 61, p pattern, e at next level, right associativity).

(** [for x in l: acc = f(acc, x)] where the body may raise. *)
Fixpoint foldM {A B : Type} (f : A -> B -> option A) (l : list B) (acc : A)
  : option A :=
  match l with
  | [] => Some acc
  | b :: l' => a <- f acc b ;; foldM f l' a
  end.

(** ** Python dictionaries and sets *)

Section Dict.
Context {K V : Type}.
Variable eqb : K -> K -> bool.

(** [d[k]] (KeyError is [None]) and [d.get(k)]. *)
Fixpoint dget (d : list (K * V)) (k : K) : option V :=
  match d with
  | [] => None
  | (k', v) :: d' => if eqb k' k then Some v else dget d' k
  end.

(** [k in d]. *)
Definition dmem (d : list (K * V)) (k : K) : bool :=
  match dget d k with Some _ => true | None => false end.

(** [d[k] = v]: an existing key keeps its position, a new key goes last. *)
Fixpoint dset (d : list (K * V)) (k : K) (v : V) : list (K * V) :=
  match d with
  | [] => [(k, v)]
  | (k', v') :: d' =>
      if eqb k' k then (k', v) :: d' else (k', v') :: dset d' k v
  end.

(** [del d[k]]. *)
Fixpoint ddel (d : list (K * V)) (k : K) : list (K * V) :=
  match d with
  | [] => []
  | (k', v') :: d' => if eqb k' k then d' else (k', v') :: ddel d' k
  end.

(** [dict(pairs)]. *)
Definition dict_of_list (l : list (K * V)) : list (K * V) :=
  fold_left (fun d kv => dset d (fst kv) (snd kv)) l [].

(** [x in s] for a list or a set. *)
Fixpoint mem (x : K) (s : list K) : bool :=
  match s with
  | [] => false
  | y :: s' => eqb y x || mem x s'
  end.

(** [s.add(x)]. *)
Definition set_add (s : list K) (x : K) : list K :=
  if mem x s then s else s ++ [x].

(** [set(l)], and [s |= l]. *)
Definition set_union (s l : list K) : list K := fold_left set_add l s.
Definition set_of_list (l : list K) : list K := set_union [] l.
End Dict.

Definition sdict (V : Type) : Type := list (string * V).
Definition zdict (V : Type) : Type := list (Z * V).

(** ** Floating-point helpers *)

(** The literal [math.pi]. *)
Definition math_pi : float := 0x1.921fb54442d18p+1%float.

(** [math.sqrt]: a ValueError on a negative argument. *)
Definition math_sqrt (v : float) : option float :=
  if PrimFloat.ltb v 0%float then None else Some (PrimFloat.sqrt v).

(** A Python int as an unrounded binary number. *)
Definition SF_of_Z (n : Z) : spec_float :=
  match n with
  | Z0 => S754_zero false
  | Zpos m => S754_finite false m 0
  | Zneg m => S754_finite true m 0
  end.

(** [a / b] on Python ints: the exact quotient rounded once to the nearest
    binary64 number, ties to even; a ZeroDivisionError when [b = 0] and an
    OverflowError when the rounded quotient is out of range. *)
Definition int_truediv (a b : Z) : option float :=
  if b =? 0 then None
  else
    match SFdiv prec emax (SF_of_Z a) (SF_of_Z b) with
    | S754_infinity _ => None
    | q => Some (SF2Prim q)
    end.

(** ** Constants *)

Definition REMOVE_IF_GROUP_SIZE_LESS_THAN : Z := 6.
Definition DIAMETER_TO_WEIGHT_RATIO : float := 0x1.b333333333333p-1%float.

(** ** Mathematical helping functions *)

Definition calc_diameter (area : float) : option float :=
  math_sqrt (PrimFloat.div (PrimFloat.mul 4%float area) math_pi).

(** ** The graph: [nx.Graph] with the attributes the script reads *)

Record NodeAttr : Type := mkNode {
  x : float;
  y : float;
  z : float;
  lobe : Z;
  level : Z;
  successor_count : option Z
}.

Record EdgeAttr : Type := mkEdge {
  weight : float;
  group_sizes : string
}.

(** [_node]: node -> attributes; [_adj]: node -> neighbour -> edge
    attributes.  An undirected edge is stored in both rows. *)
Record Graph : Type := mkGraph {
  g_node : sdict NodeAttr;
  g_adj : sdict (sdict EdgeAttr)
}.

Definition seqb := String.eqb.

(** [graph.nodes[n]]. *)
Definition node_attr (g : Graph) (n : string) : option NodeAttr :=
  dget seqb (g_node g) n.

(** [graph[n]]: the adjacency row of [n]. *)
Definition adj_row (g : Graph) (n : string) : option (sdict EdgeAttr) :=
  dget seqb (g_adj g) n.

(** [graph[u][v]]. *)
Definition edge_attr (g : Graph) (u v : string) : option EdgeAttr :=
  row <- adj_row g u ;; dget seqb row v.

(** [graph.neighbors(n)], in adjacency order. *)
Definition neighbors (g : Graph) (n : string) : option (list string) :=
  row <- adj_row g n ;; Some (map fst row).

(** [graph.nodes()], in insertion order. *)
Definition node_ids (g : Graph) : list string := map fst (g_node g).

Definition has_node (g : Graph) (n : string) : bool := dmem seqb (g_node g) n.

Definition number_of_nodes (g : Graph) : nat := length (g_node g).

(** One direction of [add_edge]: [_adj[u][v] = attr]. *)
Definition adj_set (adj : sdict (sdict EdgeAttr)) (u v : string) (a : EdgeAttr)
  : sdict (sdict EdgeAttr) :=
  match dget seqb adj u with
  | Some row => dset seqb adj u (dset seqb row v a)
  | None => dset seqb adj u [(v, a)]
  end.

(** [graph.add_edge(u, v, weight=.., group_sizes=..)] between two nodes
    that exist (the script looks both up in [distance] just before): the
    edge is created, or its two attributes are overwritten in place. *)
Definition add_edge (g : Graph) (u v : string) (a : EdgeAttr) : Graph :=
  mkGraph (g_node g) (adj_set (adj_set (g_adj g) u v a) v u a).

(** [graph.remove_node(n)]: NetworkXError when [n] is not a node. *)
Definition remove_node (g : Graph) (n : string) : option Graph :=
  if has_node g n then
    nbrs <- neighbors g n ;;
    let adj' :=
      fold_left
        (fun adj u =>
           match dget seqb adj u with
           | Some row => dset seqb adj u (ddel seqb row n)
           | None => adj
           end)
        nbrs (g_adj g) in
    Some (mkGraph (ddel seqb (g_node g) n) (ddel seqb adj' n))
  else None.

(** [graph.nodes[n]['lobe'] = v]. *)
Definition set_lobe (g : Graph) (n : string) (v : Z) : option Graph :=
  a <- node_attr g n ;;
  Some (mkGraph
          (dset seqb (g_node g) n
             (mkNode (x a) (y a) (z a) v (level a) (successor_count a)))
          (g_adj g)).

(** [graph.nodes[n]['successor_count'] = c]. *)
Definition set_successor_count (g : Graph) (n : string) (c : Z)
  : option Graph :=
  a <- node_attr g n ;;
  Some (mkGraph
          (dset seqb (g_node g) n
             (mkNode (x a) (y a) (z a) (lobe a) (level a) (Some c)))
          (g_adj g)).

(** ** Breadth-first search, as networkx runs it *)

(** The neighbours of the node at the head of the queue are taken in
    adjacency order; each one not yet visited is yielded as a child and
    marked visited at once.  [bfs_scan] is the list of children the node
    yields. *)
Fixpoint bfs_scan (nbrs visited : list string) : list string :=
  match nbrs with
  | [] => []
  | c :: rest =>
      if mem seqb c visited then bfs_scan rest visited
      else c :: bfs_scan rest (visited ++ [c])
  end.

(** The queue loop: every node that leaves the queue, with the children it
    yields.  A node leaves the queue at most once and needs an adjacency
    row to do so, hence one more unit of fuel than there are rows is
    enough (lemma [bfs_visit_fuel] below). *)
Fixpoint bfs_visit (fuel : nat) (g : Graph) (visited queue : list string)
  : option (list (string * list string)) :=
  match fuel with
  | O => Some []
  | S fuel' =>
      match queue with
      | [] => Some []
      | parent :: queue' =>
          nbrs <- neighbors g parent ;;
          let new := bfs_scan nbrs visited in
          rest <- bfs_visit fuel' g (visited ++ new) (queue' ++ new) ;;
          Some ((parent, new) :: rest)
      end
  end.

Definition bfs_blocks (g : Graph) (source : string)
  : option (list (string * list string)) :=
  bfs_visit (S (length (g_adj g))) g [source] [source].

(** The edges [(parent, child)] in the order they are yielded. *)
Definition edges_of (blocks : list (string * list string))
  : list (string * string) :=
  flat_map (fun b => map (pair (fst b)) (snd b)) blocks.

(** [nx.bfs_edges(graph, source)]. *)
Definition bfs_edges (g : Graph) (source : string)
  : option (list (string * string)) :=
  blocks <- bfs_blocks g source ;; Some (edges_of blocks).

(** [nx.bfs_successors]: consecutive edges with the same parent are grouped;
    the last group is yielded after the loop, so a source without any edge
    still yields [(source, [])]. *)
Fixpoint group_successors (parent : string) (children : list string)
    (edges : list (string * string)) : list (string * list string) :=
  match edges with
  | [] => [(parent, children)]
  | (p, c) :: edges' =>
      if seqb p parent then group_successors parent (children ++ [c]) edges'
      else (parent, children) :: group_successors p [c] edges'
  end.

Definition bfs_successors (g : Graph) (source : string)
  : option (list (string * list string)) :=
  edges <- bfs_edges g source ;;
  Some (group_successors source [] edges).

(** [nx.bfs_predecessors]: [(child, parent)] for every edge. *)
Definition bfs_predecessors (g : Graph) (source : string)
  : option (list (string * string)) :=
  edges <- bfs_edges g source ;;
  Some (map (fun e => (snd e, fst e)) edges).

(** [dict(nx.bfs_successors(graph, "0"))]. *)
Definition successors_dict (g : Graph) : option (sdict (list string)) :=
  l <- bfs_successors g "0" ;; Some (dict_of_list seqb l).

(** [dict(nx.bfs_predecessors(graph, "0"))]. *)
Definition predecessors_dict (g : Graph) : option (sdict string) :=
  l <- bfs_predecessors g "0" ;; Some (dict_of_list seqb l).

(** ** Strings: [str.count], [str.split], [int]

    A Python [str] is a sequence of Unicode characters.  It is held here
    as the bytes of its UTF-8 encoding: concatenation, comparison and
    [count(' ')] are the same on both, and [split] and [int], which look
    at the characters, decode them. *)

Definition space : ascii := " "%char.

(** [s.count(' ')]. *)
Fixpoint count_spaces (s : string) : Z :=
  match s with
  | EmptyString => 0
  | String c s' => (if Ascii.eqb c space then 1 else 0) + count_spaces s'
  end.

(** The low six bits of each of the [k] continuation bytes (0x80 to 0xBF)
    that [s] begins with. *)
Fixpoint continuations (k : nat) (s : string) : option (list N) :=
  match k with
  | O => Some []
  | S k' =>
      match s with
      | String c s' =>
          let b := N_of_ascii c in
          if ((0x80 <=? b) && (b <? 0xC0))%N
          then option_map (cons (b - 0x80)%N) (continuations k' s')
          else None
      | EmptyString => None
      end
  end.

(** The character that begins with the byte [c] in front of [s]: its code
    point and the number of continuation bytes it takes from [s].  A byte
    that begins no well-formed sequence (which the encoding of a [str]
    never holds) counts as a character of its own that is neither white
    space nor a digit. *)
Definition utf8_head (c : ascii) (s : string) : N * nat :=
  (let b0 := N_of_ascii c in
   let other := (0xDC00 + b0, 0%nat) in
   if b0 <? 0x80 then (b0, 0%nat)
   else if (0xC2 <=? b0) && (b0 <? 0xE0) then
     match continuations 1 s with
     | Some [b1] => ((b0 - 0xC0) * 0x40 + b1, 1%nat)
     | _ => other
     end
   else if (0xE0 <=? b0) && (b0 <? 0xF0) then
     match continuations 2 s with
     | Some [b1; b2] =>
         let cp := ((b0 - 0xE0) * 0x40 + b1) * 0x40 + b2 in
         if (0x800 <=? cp) && negb ((0xD800 <=? cp) && (cp <? 0xE000))
         then (cp, 2%nat) else other
     | _ => other
     end
   else if (0xF0 <=? b0) && (b0 <? 0xF5) then
     match continuations 3 s with
     | Some [b1; b2; b3] =>
         let cp := (((b0 - 0xF0) * 0x40 + b1) * 0x40 + b2) * 0x40 + b3 in
         if (0x10000 <=? cp) && (cp <? 0x110000)
         then (cp, 3%nat) else other
     | _ => other
     end
   else other)%N.

(** The characters [str.split()] separates at, those [str.isspace]
    accepts: U+0009 to U+000D, U+001C to U+0020, U+0085, U+00A0, U+1680,
    U+2000 to U+200A, U+2028, U+2029, U+202F, U+205F and U+3000. *)
Definition is_space (cp : N) : bool :=
  ((0x09 <=? cp) && (cp <=? 0x0D) || (0x1C <=? cp) && (cp <=? 0x20)
   || (cp =? 0x85) || (cp =? 0xA0) || (cp =? 0x1680)
   || (0x2000 <=? cp) && (cp <=? 0x200A)
   || (cp =? 0x2028) || (cp =? 0x2029) || (cp =? 0x202F) || (cp =? 0x205F)
   || (cp =? 0x3000))%N.

Definition is_empty (s : string) : bool :=
  match s with EmptyString => true | _ => false end.

(** [s.split()]: maximal runs of characters that are no white space.
    [cur] is the run being read and [skip] the number of continuation
    bytes of a white-space character still to pass.  The bytes of any
    other character go to [cur] one at a time: a continuation byte begins
    no character, so it is no white space. *)
Fixpoint split_ws (skip : nat) (cur s : string) : list string :=
  match s with
  | EmptyString => if is_empty cur then [] else [cur]
  | String c s' =>
      match skip with
      | S skip' => split_ws skip' cur s'
      | O =>
          let '(cp, more) := utf8_head c s' in
          if is_space cp then
            if is_empty cur then split_ws more "" s'
            else cur :: split_ws more "" s'
          else split_ws 0 (cur ++ String c "")%string s'
      end
  end.

Definition str_split (s : string) : list string := split_ws 0 "" s.

(** The digit zero of each run of ten decimal digits (general category
    Nd) of Unicode 14.0, the version of CPython 3.11; a run holds the
    digits 0 to 9 in order. *)
Definition decimal_zeros : list N :=
  [
    0x30; 0x660; 0x6F0; 0x7C0; 0x966; 0x9E6; 0xA66; 0xAE6; 0xB66; 0xBE6;
    0xC66; 0xCE6; 0xD66; 0xDE6; 0xE50; 0xED0; 0xF20; 0x1040; 0x1090;
    0x17E0; 0x1810; 0x1946; 0x19D0; 0x1A80; 0x1A90; 0x1B50; 0x1BB0; 0x1C40;
    0x1C50; 0xA620; 0xA8D0; 0xA900; 0xA9D0; 0xA9F0; 0xAA50; 0xABF0; 0xFF10;
    0x104A0; 0x10D30; 0x11066; 0x110F0; 0x11136; 0x111D0; 0x112F0; 0x11450;
    0x114D0; 0x11650; 0x116C0; 0x11730; 0x118E0; 0x11950; 0x11C50; 0x11D50;
    0x11DA0; 0x16A60; 0x16AC0; 0x16B50; 0x1D7CE; 0x1D7D8; 0x1D7E2; 0x1D7EC;
    0x1D7F6; 0x1E140; 0x1E2F0; 0x1E950; 0x1FBF0
  ]%N.

(** The value of a decimal digit, as [int] reads it. *)
Definition digit_of (cp : N) : option Z :=
  option_map (fun zero => Z.of_N (cp - zero))
    (find (fun zero => ((zero <=? cp) && (cp <? zero + 10))%N) decimal_zeros).

(** Decimal digits, single underscores allowed between two digits.
    [skip] is the number of continuation bytes of the digit just read that
    are still to pass. *)
Fixpoint parse_digits (skip : nat) (acc : Z) (after_digit : bool) (s : string)
  : option Z :=
  match s with
  | EmptyString => if after_digit then Some acc else None
  | String c s' =>
      match skip with
      | S skip' => parse_digits skip' acc after_digit s'
      | O =>
          let '(cp, more) := utf8_head c s' in
          match digit_of cp with
          | Some d => parse_digits more (10 * acc + d) true s'
          | None =>
              if (cp =? 0x5F)%N && after_digit
              then parse_digits 0 acc false s'
              else None
          end
      end
  end.

(** [int(s)] on a token without surrounding space: ValueError is [None].
    The interpreter's limit on the number of digits
    ([sys.set_int_max_str_digits]) is a setting of the interpreter and is
    not modelled. *)
Definition python_int (s : string) : option Z :=
  match s with
  | String "+"%char s' => parse_digits 0 0 false s'
  | String "-"%char s' => option_map Z.opp (parse_digits 0 0 false s')
  | _ => parse_digits 0 0 false s
  end.

Fixpoint mapM {A B : Type} (f : A -> option B) (l : list A) : option (list B) :=
  match l with
  | [] => Some []
  | a :: l' => b <- f a ;; bs <- mapM f l' ;; Some (b :: bs)
  end.

(** [list(map(int, s.split()))]: the caliber samples of an edge. *)
Definition samples (s : string) : option (list Z) := mapM python_int (str_split s).

Definition sum_Z (l : list Z) : Z := fold_left Z.add l 0.

(** ** Helping functions of the script *)

(** [v ** 2] on a float: an OverflowError when the square of a finite
    number is out of range. *)
Definition float_square (v : float) : option float :=
  let r := PrimFloat.mul v v in
  if PrimFloat.is_infinity r && negb (PrimFloat.is_infinity v) then None
  else Some r.

(** The Pythagorean distance between two nodes' coordinates. *)
Definition node_distance (fr to : NodeAttr) : option float :=
  dx <- float_square (PrimFloat.sub (x fr) (x to)) ;;
  dy <- float_square (PrimFloat.sub (y fr) (y to)) ;;
  dz <- float_square (PrimFloat.sub (z fr) (z to)) ;;
  math_sqrt (PrimFloat.add (PrimFloat.add dx dy) dz).

Definition distance (g : Graph) (node_a node_b : string) : option float :=
  fr <- node_attr g node_a ;;
  to <- node_attr g node_b ;;
  node_distance fr to.

Definition remove_nodes (g : Graph) (nodes_to_be_removed : list string)
  : option Graph :=
  foldM remove_node nodes_to_be_removed g.

Definition combine_group_sizes (g : Graph) (node_pre node node_suc : string)
  : option string :=
  e1 <- edge_attr g node_pre node ;;
  e2 <- edge_attr g node node_suc ;;
  Some (group_sizes e1 ++ " " ++ group_sizes e2)%string.

Definition merge_edges (g : Graph) (predecessor node successor : string)
  : option Graph :=
  w <- distance g predecessor successor ;;
  gs <- combine_group_sizes g predecessor node successor ;;
  Some (add_edge g predecessor successor (mkEdge w gs)).

(** ** Removing nodes *)

(** The nodes [remove_minor_edges] collects. *)
Definition minor_edge_nodes (g : Graph) : option (list string) :=
  succ <- bfs_successors g "0" ;;
  let has_successors := set_of_list seqb (map fst succ) in
  edges <- bfs_edges g "0" ;;
  foldM
    (fun nodes_to_be_removed e =>
       let '(fr, to) := e in
       if mem seqb to has_successors then Some nodes_to_be_removed
       else
         a <- edge_attr g fr to ;;
         if count_spaces (group_sizes a) <? REMOVE_IF_GROUP_SIZE_LESS_THAN
         then Some (nodes_to_be_removed ++ [to])
         else Some nodes_to_be_removed)
    edges [].

Definition remove_minor_edges (g : Graph) : option Graph :=
  nodes_to_be_removed <- minor_edge_nodes g ;;
  remove_nodes g nodes_to_be_removed.

(** [(n, *s) for n, s in nx.bfs_successors(graph, "0") if len(s) == 1]. *)
Fixpoint only_single_successor (succ : list (string * list string))
  : list (string * string) :=
  match succ with
  | [] => []
  | (n, [s]) :: rest => (n, s) :: only_single_successor rest
  | _ :: rest => only_single_successor rest
  end.

(** The loop state of [straighten_edges]: the graph (edges are merged while
    the loop runs), [nodes_to_be_removed] and [cant_be_removed]. *)
Definition straighten_step (predecessors : sdict string)
    (st : Graph * list string * list string) (e : string * string)
  : option (Graph * list string * list string) :=
  let '(g, nodes_to_be_removed, cant_be_removed) := st in
  let '(node, successor) := e in
  if mem seqb node cant_be_removed then Some st
  else
    predecessor <- dget seqb predecessors node ;;
    g' <- merge_edges g predecessor node successor ;;
    Some (g', nodes_to_be_removed ++ [node], set_add seqb cant_be_removed successor).

Definition straighten_edges (g : Graph) : option Graph :=
  predecessors <- predecessors_dict g ;;
  succ <- bfs_successors g "0" ;;
  '(g', nodes_to_be_removed, _) <-
    foldM (straighten_step predecessors) (only_single_successor succ)
      (g, [], ["0"]) ;;
  remove_nodes g' nodes_to_be_removed.

(** [weight < calc_diameter(sum(nums) / len(nums)) * DIAMETER_TO_WEIGHT_RATIO]
    for the edge attributes [curr]. *)
Definition is_close (curr : EdgeAttr) : option bool :=
  nums <- samples (group_sizes curr) ;;
  area <- int_truediv (sum_Z nums) (Z.of_nat (length nums)) ;;
  diameter <- calc_diameter area ;;
  Some (PrimFloat.ltb (weight curr)
          (PrimFloat.mul diameter DIAMETER_TO_WEIGHT_RATIO)).

(** The loop state of [merge_close_nodes]: [nodes_to_be_removed],
    [edges_to_be_merged] and [cant_be_removed]. *)
Definition close_state : Type :=
  (list string * list (string * string * string) * list string)%type.

Definition merge_close_step (g : Graph) (has_successors : sdict (list string))
    (st : close_state) (e : string * string) : option close_state :=
  let '(nodes_to_be_removed, edges_to_be_merged, cant_be_removed) := st in
  let '(predecessor, node) := e in
  if mem seqb node cant_be_removed then Some st
  else
    curr <- edge_attr g predecessor node ;;
    close <- is_close curr ;;
    if close then
      let succs :=
        match dget seqb has_successors node with
        | Some l => l
        | None => []
        end in
      Some (nodes_to_be_removed ++ [node],
            edges_to_be_merged
              ++ map (fun successor => (predecessor, node, successor)) succs,
            set_union seqb cant_be_removed succs)
    else Some st.

(** What one pass of [merge_close_nodes] decides before it touches the
    graph. *)
Definition merge_close_plan (g : Graph) : option close_state :=
  has_successors <- successors_dict g ;;
  edges <- bfs_edges g "0" ;;
  foldM (merge_close_step g has_successors) edges ([], [], ["0"]).

Definition merge_close_nodes (g : Graph) : option Graph :=
  '(nodes_to_be_removed, edges_to_be_merged, _) <- merge_close_plan g ;;
  g' <- foldM
          (fun g1 m => let '(p, n, s) := m in merge_edges g1 p n s)
          edges_to_be_merged g ;;
  remove_nodes g' nodes_to_be_removed.

(** One round of [for _ in range(3)]: the children of every node to check
    join the set. *)
Definition check_round (successors : sdict (list string))
    (nodes_to_check : list string) : list string :=
  let new_nodes :=
    fold_left
      (fun new node =>
         match dget seqb successors node with
         | Some l => set_union seqb new l
         | None => new
         end)
      nodes_to_check [] in
  set_union seqb nodes_to_check new_nodes.

Definition nodes_to_check (successors : sdict (list string)) : list string :=
  check_round successors (check_round successors (check_round successors ["0"])).

(** The nodes [remove_children_without_children] collects. *)
Definition childless_nodes (g : Graph) : option (list string) :=
  successors <- successors_dict g ;;
  Some (filter (fun adj => negb (dmem seqb successors adj))
          (nodes_to_check successors)).

Definition remove_children_without_children (g : Graph) : option Graph :=
  nodes_to_be_removed <- childless_nodes g ;;
  remove_nodes g nodes_to_be_removed.

(** ** The node-removal loop of [main] *)

Definition removal_cycle (g : Graph) : option Graph :=
  g1 <- remove_minor_edges g ;;
  g2 <- straighten_edges g1 ;;
  g3 <- merge_close_nodes g2 ;;
  remove_children_without_children g3.

Inductive outcome : Type :=
| Finished (g : Graph)
| Raised
| OutOfFuel.

(** [while True: ...; if node_count == graph.number_of_nodes(): break]. *)
Fixpoint removal_loop (fuel : nat) (g : Graph) : outcome :=
  match fuel with
  | O => OutOfFuel
  | S fuel' =>
      match removal_cycle g with
      | None => Raised
      | Some g' =>
          if (number_of_nodes g =? number_of_nodes g')%nat then Finished g'
          else removal_loop fuel' g'
      end
  end.

(** ** Attribute recomputation *)

(** [sum([successor_count(succ) for succ in l])]: the calls run left to
    right and thread [all_successors]. *)
Definition sum_calls (call : sdict Z -> string -> option (sdict Z * Z))
    (l : list string) (all : sdict Z) : option (sdict Z * Z) :=
  foldM
    (fun acc succ =>
       let '(all1, total) := acc in
       '(all2, c) <- call all1 succ ;;
       Some (all2, total + c))
    l (all, 0).

(** The inner function [successor_count] of [assign_children_count].
    [fuel] bounds the recursion depth and running out of it is [None]; no
    chain of children is longer than the number of adjacency rows, which
    is what [assign_children_count] provides.  The recursion limit of the
    Python interpreter is not modelled. *)
Fixpoint successor_count_rec (fuel : nat) (successors : sdict (list string))
    (all_successors : sdict Z) (curr_node : string)
  : option (sdict Z * Z) :=
  match fuel with
  | O => None
  | S fuel' =>
      '(all1, count) <-
        match dget seqb successors curr_node with
        | Some l =>
            sum_calls (successor_count_rec fuel' successors) l all_successors
        | None => Some (all_successors, 0)
        end ;;
      Some (dset seqb all1 curr_node count, count + 1)
  end.

Definition assign_children_count (g : Graph) : option Graph :=
  successors <- successors_dict g ;;
  '(all_successors, _) <-
    successor_count_rec (S (length (g_adj g))) successors [] "0" ;;
  foldM
    (fun g1 item => set_successor_count g1 (fst item) (snd item))
    all_successors g.

(** *** Descendant lobes

    [successor_lobes] stores the dictionary [lobes] in [all_successors]
    and goes on writing to it, so the objects live in a store and
    [all_successors] holds their addresses. *)

Record lobes_state : Type := mkLobes {
  objs : list (zdict Z);
  all_succ : sdict nat
}.

Fixpoint update_at {A : Type} (l : list A) (i : nat) (f : A -> A) : list A :=
  match l, i with
  | [], _ => []
  | a :: l', O => f a :: l'
  | a :: l', S i' => a :: update_at l' i' f
  end.

Definition zget (d : zdict Z) (k : Z) : Z :=
  match dget Z.eqb d k with Some v => v | None => 0 end.

(** [lobes[key] = lobes.get(key, 0) + occ]. *)
Definition add_occ (d : zdict Z) (key occ : Z) : zdict Z :=
  dset Z.eqb d key (zget d key + occ).

(** [for key, occ in child.items(): lobes[key] = lobes.get(key, 0) + occ]
    on the object at address [r]. *)
Definition absorb (st : lobes_state) (r : nat) (child : zdict Z) : lobes_state :=
  mkLobes
    (update_at (objs st) r
       (fun d => fold_left (fun d1 kv => add_occ d1 (fst kv) (snd kv)) child d))
    (all_succ st).

(** The inner function [successor_lobes] of [get_successor_lobes]: the
    address of the dictionary it returns, and the store.  [fuel] bounds the
    recursion depth as in [successor_count_rec]. *)
Fixpoint successor_lobes (fuel : nat) (g : Graph)
    (successors : sdict (list string)) (st : lobes_state) (curr_node : string)
  : option (lobes_state * nat) :=
  match fuel with
  | O => None
  | S fuel' =>
      let r := length (objs st) in
      let st0 := mkLobes (objs st ++ [[]]) (all_succ st) in
      st1 <-
        match dget seqb successors curr_node with
        | Some l =>
            foldM
              (fun st' succ =>
                 '(st'', r_s) <- successor_lobes fuel' g successors st' succ ;;
                 child <- nth_error (objs st'') r_s ;;
                 Some (absorb st'' r child))
              l st0
        | None => Some st0
        end ;;
      let st2 := mkLobes (objs st1) (dset seqb (all_succ st1) curr_node r) in
      a <- node_attr g curr_node ;;
      let curr_lobe := lobe a in
      if curr_lobe =? 0 then Some (st2, r)
      else
        Some (mkLobes
                (update_at (objs st2) r (fun d => add_occ d curr_lobe 1))
                (all_succ st2),
              r)
  end.

(** [get_successor_lobes(graph, return_count=True)]. *)
Definition get_successor_lobes_count (g : Graph) : option (sdict (zdict Z)) :=
  successors <- successors_dict g ;;
  '(st, _) <-
    successor_lobes (S (length (g_adj g))) g successors (mkLobes [] []) "0" ;;
  mapM
    (fun item => occ <- nth_error (objs st) (snd item) ;; Some (fst item, occ))
    (all_succ st).

(** [get_successor_lobes(graph)]: [set(occ.keys())] for every node. *)
Definition get_successor_lobes (g : Graph) : option (sdict (list Z)) :=
  all <- get_successor_lobes_count g ;;
  Some (map (fun item => (fst item, map fst (snd item))) all).

(** The inner function [rec_traverse] of [set_attribute_recursively], for
    the attribute ['lobe'], the only one the script passes; [fuel] bounds
    the recursion depth as in [successor_count_rec]. *)
Fixpoint rec_traverse (fuel : nat) (successors : sdict (list string))
    (value : Z) (g : Graph) (curr_node : string) : option Graph :=
  match fuel with
  | O => None
  | S fuel' =>
      g1 <- set_lobe g curr_node value ;;
      match dget seqb successors curr_node with
      | Some l => foldM (rec_traverse fuel' successors value) l g1
      | None => Some g1
      end
  end.

(** [set_attribute_recursively(graph, node, 'lobe', value)]. *)
Definition set_attribute_recursively (g : Graph) (node : string) (value : Z)
  : option Graph :=
  successors <- successors_dict g ;;
  rec_traverse (S (length (g_adj g))) successors value g node.

(** ** Recoloring *)

(** [{n[adj]['lobe'] for adj in graph[node] if n[adj]['lobe'] != 0}]. *)
Definition adjacent_lobes (g : Graph) (node : string) : option (list Z) :=
  nbrs <- neighbors g node ;;
  lobes <- mapM (fun adj => a <- node_attr g adj ;; Some (lobe a)) nbrs ;;
  Some (set_of_list Z.eqb (filter (fun l => negb (l =? 0)) lobes)).

(** The body of the loop of [recolor_if_all_adjacent_have_different_color]
    for one node; the state is the graph and the dictionary
    [root_successors]. *)
Definition adjacent_recolor_step (st : Graph * zdict Z) (node : string)
  : option (Graph * zdict Z) :=
  let '(g, root_successors) := st in
  a <- node_attr g node ;;
  if lobe a =? 0 then Some st
  else
    adjacent <- adjacent_lobes g node ;;
    match adjacent with
    | [surrounding_lobe] =>
        if surrounding_lobe =? lobe a then Some st
        else
          c <- dget Z.eqb root_successors (lobe a) ;;
          if 1 <? c then
            g1 <- set_lobe g node surrounding_lobe ;;
            a1 <- node_attr g1 node ;;
            c1 <- dget Z.eqb root_successors (lobe a1) ;;
            let root1 := dset Z.eqb root_successors (lobe a1) (c1 - 1) in
            c2 <- dget Z.eqb root1 surrounding_lobe ;;
            Some (g1, dset Z.eqb root1 surrounding_lobe (c2 + 1))
          else Some st
    | _ => Some st
    end.

(** The pass, with the final value of [root_successors]. *)
Definition recolor_adjacent_run (g : Graph) : option (Graph * zdict Z) :=
  all <- get_successor_lobes_count g ;;
  root_successors <- dget seqb all "0" ;;
  foldM adjacent_recolor_step (node_ids g) (g, root_successors).

Definition recolor_if_all_adjacent_have_different_color (g : Graph)
  : option Graph :=
  '(g', _) <- recolor_adjacent_run g ;; Some g'.

Definition successors_recolor_step (g : Graph) (item : string * list Z)
  : option Graph :=
  let '(node, successor_lobes) := item in
  a <- node_attr g node ;;
  let curr_lobe := lobe a in
  if curr_lobe =? 0 then Some g
  else if (length successor_lobes =? 1)%nat
          && negb (mem Z.eqb curr_lobe successor_lobes)
  then
    match successor_lobes with
    | c :: _ => set_lobe g node c
    | [] => None
    end
  else Some g.

Definition recolor_if_successors_all_different_color (g : Graph)
  : option Graph :=
  items <- get_successor_lobes g ;;
  foldM successors_recolor_step items g.

(** [sorted(successor_lobes.items(), key=lambda x: x[1], reverse=True)]:
    stable, descending by count. *)
Fixpoint insert_desc (e : Z * Z) (l : list (Z * Z)) : list (Z * Z) :=
  match l with
  | [] => [e]
  | e' :: l' => if snd e <? snd e' then e' :: insert_desc e l' else e :: l
  end.

Definition sorted_desc (l : list (Z * Z)) : list (Z * Z) :=
  fold_right insert_desc [] l.

(** [all(difference_per_lobe_root_and_curr_node)] for the candidate
    [new_lobe]. *)
Definition keeps_every_lobe (root_successors successor_lobes : zdict Z)
    (new_lobe : Z) : bool :=
  forallb
    (fun item => negb (snd item - zget successor_lobes (fst item) =? 0))
    (filter (fun item => negb (fst item =? new_lobe)) root_successors).

(** [(n['level'] == 4 and not any(exc)) or (n['level'] == 5 and all(exc))]
    with [exc = [lobe_type in successor_lobes for lobe_type in [4, 5]]]. *)
Definition at_level_4_or_5 (lvl : Z) (successor_lobes : zdict Z) : bool :=
  let exc := map (fun lobe_type => dmem Z.eqb successor_lobes lobe_type) [4; 5] in
  ((lvl =? 4) && negb (existsb (fun b => b) exc))
  || ((lvl =? 5) && forallb (fun b => b) exc).

(** The two guards in front of the body of the loop of
    [recolor_entire_subtree_to_majority_at_level_4_or_5]. *)
Definition considered (lvl : Z) (successor_lobes : zdict Z) : bool :=
  (1 <? length successor_lobes)%nat && at_level_4_or_5 lvl successor_lobes.

Definition drastic_step (root_successors : zdict Z) (g : Graph)
    (item : string * zdict Z) : option Graph :=
  let '(node, successor_lobes) := item in
  if (1 <? length successor_lobes)%nat then
    n <- node_attr g node ;;
    if at_level_4_or_5 (level n) successor_lobes then
      let possible_new_lobes := map fst (sorted_desc successor_lobes) in
      match find (keeps_every_lobe root_successors successor_lobes)
                 possible_new_lobes with
      | Some new_lobe => set_attribute_recursively g node new_lobe
      | None => Some g
      end
    else Some g
  else Some g.

Definition recolor_entire_subtree_to_majority_at_level_4_or_5 (g : Graph)
  : option Graph :=
  all_successor_lobes <- get_successor_lobes_count g ;;
  root_successors <- dget seqb all_successor_lobes "0" ;;
  foldM (drastic_step root_successors) all_successor_lobes g.

(** ** Building graphs *)

(** [graph.add_node(n, **attrs)] for a new node. *)
Definition add_node (g : Graph) (n : string) (a : NodeAttr) : Graph :=
  mkGraph (dset seqb (g_node g) n a)
          (if dmem seqb (g_adj g) n then g_adj g else g_adj g ++ [(n, [])]).

(** The graph with the given nodes, then the given edges, added in order. *)
Definition graph_of (nodes : list (string * NodeAttr))
    (edges : list (string * string * EdgeAttr)) : Graph :=
  fold_left
    (fun g e => let '(u, v, a) := e in add_edge g u v a)
    edges
    (fold_left (fun g na => add_node g (fst na) (snd na)) nodes
       (mkGraph [] [])).

(** A node at the origin with the given lobe and level. *)
Definition plain_node (l lvl : Z) : NodeAttr :=
  mkNode 0%float 0%float 0%float l lvl None.

(** ** The shape of a breadth-first visit *)

(** All the children a visit yields, in order. *)
Definition children_of (blocks : list (string * list string)) : list string :=
  flat_map snd blocks.

(** A run of the queue loop: the head of the queue leaves it and its
    children join it at the back. *)
Inductive bfs_run : list string -> list (string * list string) -> Prop :=
| run_stop : forall queue, bfs_run queue []
| run_pop : forall parent queue new blocks,
    bfs_run (queue ++ new) blocks ->
    bfs_run (parent :: queue) ((parent, new) :: blocks).

(** The visit of a search from [source]: a run from the queue [[source]]
    in which no node is yielded twice and the source is never yielded. *)
Definition is_forest (source : string) (blocks : list (string * list string))
  : Prop :=
  bfs_run [source] blocks /\ NoDup (source :: children_of blocks).

Definition has_children (b : string * list string) : bool :=
  negb (length (snd b) =? 0)%nat.

(** What [dict(nx.bfs_successors(..))] holds for a visit: the first block,
    and every later block that has children. *)
Definition successor_table (blocks : list (string * list string))
  : sdict (list string) :=
  match blocks with
  | [] => []
  | b :: blocks' =>
      b :: filter has_children blocks'
  end.

(** ** Example trees *)

(** The root and one leaf whose edge carries exactly six caliber samples. *)
Definition six_sample_leaf : Graph :=
  graph_of
    [("0", plain_node 0 0); ("1", plain_node 1 1)]
    [("0", "1", mkEdge 30%float "10 11 12 13 14 15")].

(** A root of lobe 1 with a single child of lobe 2. *)
Definition parent_child_tree : Graph :=
  graph_of
    [("0", plain_node 1 0); ("1", plain_node 2 1)]
    [("0", "1", mkEdge 30%float "10 11 12 13 14 15 16")].

(** A neutral chain "0" - "1" - "2" - "3" from the root down to node "4"
    of lobe 2 at depth 4, and two leaves "5" and "6" of lobe 1 below "4". *)
Definition two_leaf_tree : Graph :=
  graph_of
    [("0", plain_node 0 0); ("1", plain_node 0 1); ("2", plain_node 0 2);
     ("3", plain_node 0 3); ("4", plain_node 2 4);
     ("5", plain_node 1 5); ("6", plain_node 1 5)]
    [("0", "1", mkEdge 30%float "10 11 12 13 14 15 16");
     ("1", "2", mkEdge 30%float "10 11 12 13 14 15 16");
     ("2", "3", mkEdge 30%float "10 11 12 13 14 15 16");
     ("3", "4", mkEdge 30%float "10 11 12 13 14 15 16");
     ("4", "5", mkEdge 30%float "10 11 12 13 14 15 16");
     ("4", "6", mkEdge 30%float "10 11 12 13 14 15 16")].

(** The lobe of a node, for reading results. *)
Definition lobe_of (g : Graph) (n : string) : option Z :=
  a <- node_attr g n ;; Some (lobe a).

(** The number of nodes of lobe [l] at or below the root, recomputed from
    the tree. *)
Definition root_occurrences (g : Graph) (l : Z) : option Z :=
  all <- get_successor_lobes_count g ;;
  root <- dget seqb all "0" ;;
  Some (zget root l).

(** The state of [recolor_if_all_adjacent_have_different_color] on
    [two_leaf_tree] after the loop has visited the given nodes; the pass
    starts from the root counts [{1: 2, 2: 1}]. *)
Definition two_leaf_visits (nodes : list string) : option (Graph * zdict Z) :=
  foldM adjacent_recolor_step nodes (two_leaf_tree, [(1, 2); (2, 1)]).

(** ** Vocabulary for the store of [successor_lobes] *)

(** Every object of [o] is still in [o'], with at least the same keys. *)
Definition store_grows (o o' : list (zdict Z)) : Prop :=
  forall r occ,
    nth_error o r = Some occ ->
    exists occ', nth_error o' r = Some occ' /\ incl (map fst occ) (map fst occ').

(** Every node recorded in [all_successors] points to an object that holds
    the node's own lobe, unless the node is neutral. *)
Definition own_lobe_recorded (g : Graph) (st : lobes_state) : Prop :=
  forall node r,
    In (node, r) (all_succ st) ->
    exists occ,
      nth_error (objs st) r = Some occ
      /\ forall a, node_attr g node = Some a -> lobe a <> 0 ->
                   In (lobe a) (map fst occ).

(** ** The drastic pass: the guard as the specification words it *)

(** More than one distinct descendant lobe, and depth 4, or depth 5 with
    the descendant lobes drawn only from the pair {4, 5}. *)
Definition considered_as_specified (lvl : Z) (successor_lobes : zdict Z) : Prop :=
  (1 < length successor_lobes)%nat
  /\ (lvl = 4
      \/ (lvl = 5
          /\ forall k, In k (map fst successor_lobes) -> k = 4 \/ k = 5)).

(** A tree whose node "4" lies at depth 4 above a leaf of lobe 3 and a leaf
    of lobe 4; lobes 3 and 4 also occur next to the root. *)
Definition depth_four_tree : Graph :=
  graph_of
    [("0", plain_node 0 0); ("1", plain_node 0 1); ("2", plain_node 0 2);
     ("3", plain_node 0 3); ("4", plain_node 3 4); ("5", plain_node 3 5);
     ("6", plain_node 4 5); ("7", plain_node 4 1); ("8", plain_node 3 1)]
    [("0", "1", mkEdge 30%float "10 11 12 13 14 15 16");
     ("1", "2", mkEdge 30%float "10 11 12 13 14 15 16");
     ("2", "3", mkEdge 30%float "10 11 12 13 14 15 16");
     ("3", "4", mkEdge 30%float "10 11 12 13 14 15 16");
     ("4", "5", mkEdge 30%float "10 11 12 13 14 15 16");
     ("4", "6", mkEdge 30%float "10 11 12 13 14 15 16");
     ("0", "7", mkEdge 30%float "10 11 12 13 14 15 16");
     ("0", "8", mkEdge 30%float "10 11 12 13 14 15 16")].

(** The same tree with lobes 1 and 2 in place of 3 and 4. *)
Definition depth_four_tree_low : Graph :=
  graph_of
    [("0", plain_node 0 0); ("1", plain_node 0 1); ("2", plain_node 0 2);
     ("3", plain_node 0 3); ("4", plain_node 1 4); ("5", plain_node 1 5);
     ("6", plain_node 2 5); ("7", plain_node 2 1); ("8", plain_node 1 1)]
    [("0", "1", mkEdge 30%float "10 11 12 13 14 15 16");
     ("1", "2", mkEdge 30%float "10 11 12 13 14 15 16");
     ("2", "3", mkEdge 30%float "10 11 12 13 14 15 16");
     ("3", "4", mkEdge 30%float "10 11 12 13 14 15 16");
     ("4", "5", mkEdge 30%float "10 11 12 13 14 15 16");
     ("4", "6", mkEdge 30%float "10 11 12 13 14 15 16");
     ("0", "7", mkEdge 30%float "10 11 12 13 14 15 16");
     ("0", "8", mkEdge 30%float "10 11 12 13 14 15 16")].

(** ** Iterating the removal cycle *)

(** The tree after [k] cycles. *)
Fixpoint cycles (k : nat) (g : Graph) : option Graph :=
  match k with
  | O => Some g
  | S k' => g' <- removal_cycle g ;; cycles k' g'
  end.

(** The chain root - "1" - "2" with a short last edge. *)
Definition short_chain : Graph :=
  graph_of
    [("0", plain_node 0 0); ("1", plain_node 1 1); ("2", plain_node 1 2)]
    [("0", "1", mkEdge 30%float "10 11 12 13 14");
     ("1", "2", mkEdge 30%float "10 11")].

(** ** The chain root - A - B - C *)

Definition chain_graph (a b c : string) (n0 na nb nc : NodeAttr)
    (e1 e2 e3 : EdgeAttr) : Graph :=
  mkGraph
    [("0", n0); (a, na); (b, nb); (c, nc)]
    [("0", [(a, e1)]);
     (a, [("0", e1); (b, e2)]);
     (b, [(a, e2); (c, e3)]);
     (c, [(b, e3)])].

(** The chain after its first straightening: root - B - C, where the edge
    [eb] between the root and B was added last to the row of B. *)
Definition chain_after_first (b c : string) (n0 nb nc : NodeAttr)
    (eb e3 : EdgeAttr) : Graph :=
  mkGraph
    [("0", n0); (b, nb); (c, nc)]
    [("0", [(b, eb)]); (b, [(c, e3); ("0", eb)]); (c, [(b, e3)])].

(** The tree root - C with the single edge [e]. *)
Definition single_edge_graph (c : string) (n0 nc : NodeAttr) (e : EdgeAttr)
  : Graph :=
  mkGraph [("0", n0); (c, nc)] [("0", [(c, e)]); (c, [("0", e)])].

(** [straighten_edges] applied [k] times. *)
Fixpoint straighten_iter (k : nat) (g : Graph) : option Graph :=
  match k with
  | O => Some g
  | S k' => g' <- straighten_edges g ;; straighten_iter k' g'
  end.

(** The value of an [option Graph], for reading results. *)
Definition force (o : option Graph) : Graph :=
  match o with
  | Some g => g
  | None => mkGraph [] []
  end.

(** A node at the given coordinates. *)
Definition node_at (px py pz : float) (l lvl : Z) : NodeAttr :=
  mkNode px py pz l lvl None.

(** ** Vocabulary for the loop of [merge_close_nodes] *)

(** What holds of the loop state once the edges [done] of the search
    [edges] have been handled. *)
Definition close_invariant (edges done : list (string * string))
    (st : close_state) : Prop :=
  let '(nodes_to_be_removed, edges_to_be_merged, cant_be_removed) := st in
  In "0" cant_be_removed
  /\ (forall n, In n nodes_to_be_removed -> In n (map snd done))
  /\ (forall n s, In n nodes_to_be_removed -> In (n, s) edges ->
                  In s cant_be_removed)
  /\ (forall n s, In n nodes_to_be_removed -> In (n, s) edges ->
                  ~ In s nodes_to_be_removed)
  /\ (forall n s, In n nodes_to_be_removed -> In (n, s) edges ->
                  exists p, In (p, n) edges /\ In (p, n, s) edges_to_be_merged).

(** Two edges in a row that both pass the closeness test. *)
Definition close_chain : Graph :=
  graph_of
    [("0", node_at 0 0 0 0 0); ("1", node_at 1 0 0 1 1);
     ("2", node_at 2 0 0 1 2)]
    [("0", "1", mkEdge 1%float "100 100");
     ("1", "2", mkEdge 1%float "100 100")].

(** ** Depth and descendants in the tree the search from "0" orients *)

(** [at_depth edges k n]: [n] is [k] edges below the root. *)
Inductive at_depth (edges : list (string * string)) : nat -> string -> Prop :=
| depth_root : at_depth edges 0 "0"
| depth_child : forall k p c,
    at_depth edges k p -> In (p, c) edges -> at_depth edges (S k) c.

(** [descendant edges n d]: [d] is a strict descendant of [n]. *)
Inductive descendant (edges : list (string * string))
  : string -> string -> Prop :=
| desc_child : forall n c, In (n, c) edges -> descendant edges n c
| desc_below : forall n c d,
    In (n, c) edges -> descendant edges c d -> descendant edges n d.

(** The tree that is only its root. *)
Definition root_only : Graph := graph_of [("0", plain_node 1 0)] [].

(** A root with a childless child "1" and a chain "2" - "3" - "4" - "5"
    whose last node lies at depth 4. *)
Definition deep_tree : Graph :=
  graph_of
    [("0", plain_node 0 0); ("1", plain_node 1 1); ("2", plain_node 1 1);
     ("3", plain_node 1 2); ("4", plain_node 1 3); ("5", plain_node 1 4)]
    [("0", "1", mkEdge 30%float "10 11 12 13 14 15 16");
     ("0", "2", mkEdge 30%float "10 11 12 13 14 15 16");
     ("2", "3", mkEdge 30%float "10 11 12 13 14 15 16");
     ("3", "4", mkEdge 30%float "10 11 12 13 14 15 16");
     ("4", "5", mkEdge 30%float "10 11 12 13 14 15 16")].

(** ** Valid trees *)

Fixpoint nodupb (l : list string) : bool :=
  match l with
  | [] => true
  | a :: l' => negb (mem seqb a l') && nodupb l'
  end.

(** What networkx keeps true of every graph object: node ids are unique,
    every node has an adjacency row, and every row belongs to a node and
    lists nodes only. *)
Definition well_formed (g : Graph) : bool :=
  nodupb (node_ids g)
  && forallb (fun n => dmem seqb (g_adj g) n) (node_ids g)
  && forallb
       (fun kr => has_node g (fst kr) && forallb (has_node g) (map fst (snd kr)))
       (g_adj g).

(** [graph.number_of_edges()]: half the sum of the degrees, a self-loop
    counting twice. *)
Definition number_of_edges (g : Graph) : nat :=
  Nat.div2
    (fold_left
       (fun acc kr =>
          acc + length (snd kr)
          + (if dmem seqb (snd kr) (fst kr) then 1 else 0))%nat
       (g_adj g) 0%nat).

(** Every node is reached by the search from the root. *)
Definition is_connected (g : Graph) : bool :=
  match bfs_edges g "0" with
  | Some edges => forallb (fun n => mem seqb n ("0" :: map snd edges)) (node_ids g)
  | None => false
  end.

(** The tree invariant of [main]: one component and one edge less than
    there are nodes, on a well-formed graph that holds the root "0". *)
Definition valid_tree (g : Graph) : bool :=
  well_formed g
  && (number_of_nodes g =? S (number_of_edges g))%nat
  && is_connected g.

(** The strict descendants of [n] listed from the blocks of a visit: the
    children of [n], each followed by its own descendants, which later
    blocks hold. *)
Fixpoint desc_in (blocks : list (string * list string)) (n : string)
  : list string :=
  match blocks with
  | [] => []
  | (p, cs) :: blocks' =>
      if seqb p n then flat_map (fun c => c :: desc_in blocks' c) cs
      else desc_in blocks' n
  end.

(** The nodes in [roots] with their descendants. *)
Definition forest_list (blocks : list (string * list string))
    (roots : list string) : list string :=
  flat_map (fun c => c :: desc_in blocks c) roots.

(** [all'] records the descendant count of every node of [nodes] and is
    [all0] elsewhere. *)
Definition counts_recorded (blocks : list (string * list string))
    (all0 all' : sdict Z) (nodes : list string) : Prop :=
  (forall m, In m nodes ->
             dget seqb all' m = Some (Z.of_nat (length (desc_in blocks m))))
  /\ (forall m, ~ In m nodes -> dget seqb all' m = dget seqb all0 m)
  /\ (NoDup (map fst all0) -> NoDup (map fst all')).

(** ** The fuel of the search *)

(** The rows whose node can still leave the queue: it is not visited yet,
    or it waits in the queue. *)
Definition pending (g : Graph) (visited queue : list string) : list string :=
  filter (fun k => negb (mem seqb k visited) || mem seqb k queue)
    (nodup string_dec (map fst (g_adj g))).

(** Every node recorded in [all_successors] has attributes and points to an
    object of the store. *)
Definition recorded_nodes_known (g : Graph) (st : lobes_state) : Prop :=
  forall node r,
    In (node, r) (all_succ st) ->
    node_attr g node <> None /\ (r < length (objs st))%nat.

(** ** Recoloring: the last two passes and the schedule of [main] *)

(** The body of the loop of [possibly_make_neutral_above_level_4] for one
    item of [get_successor_lobes(graph)]. *)
Definition neutral_step (g : Graph) (item : string * list Z) : option Graph :=
  let '(node, successor_lobes) := item in
  a <- node_attr g node ;;
  if (level a <=? 4) && negb (lobe a =? 0) then
    if (1 <? length successor_lobes)%nat then set_lobe g node 0 else Some g
  else Some g.

Definition possibly_make_neutral_above_level_4 (g : Graph) : option Graph :=
  items <- get_successor_lobes g ;;
  foldM neutral_step items g.

(** [lobes.count(lobe)]. *)
Fixpoint count_of (lobes : list Z) (lobe : Z) : Z :=
  match lobes with
  | [] => 0
  | l :: rest => (if l =? lobe then 1 else 0) + count_of rest lobe
  end.

(** [max(values)]: a ValueError on an empty sequence. *)
Definition max_values (values : list Z) : option Z :=
  match values with
  | [] => None
  | v :: rest => Some (fold_left Z.max rest v)
  end.

(** [[a for a in l if f(a)]] where the condition may raise. *)
Fixpoint filterM {A : Type} (f : A -> option bool) (l : list A)
  : option (list A) :=
  match l with
  | [] => Some []
  | a :: l' =>
      b <- f a ;;
      rest <- filterM f l' ;;
      Some (if b then a :: rest else rest)
  end.

(** [occ = {lobe: lobes.count(lobe) for lobe in lobes}]. *)
Definition occurrences (lobes : list Z) : zdict Z :=
  dict_of_list Z.eqb (map (fun lobe => (lobe, count_of lobes lobe)) lobes).

(** [[lobe for lobe, count in occ.items() if 1 < count == max(occ.values())]]:
    the chained comparison reads [max] only when [1 < count] holds. *)
Definition new_lobe_list (lobes : list Z) : option (list Z) :=
  let occ := occurrences lobes in
  items <-
    filterM
      (fun item =>
         if 1 <? snd item then
           m <- max_values (map snd occ) ;; Some (snd item =? m)
         else Some false)
      occ ;;
  Some (map fst items).

(** The body of the loop of [add_new_parent_for_lobe] for one node. *)
Definition new_parent_step (successors : sdict (list string)) (g : Graph)
    (node : string) : option Graph :=
  a <- node_attr g node ;;
  let curr_lobe := lobe a in
  if curr_lobe =? 0 then
    match dget seqb successors node with
    | Some succs =>
        lobes <- mapM (fun succ => s <- node_attr g succ ;; Some (lobe s)) succs ;;
        new_lobe <- new_lobe_list lobes ;;
        match new_lobe with
        | l :: _ => if negb (l =? curr_lobe) then set_lobe g node l else Some g
        | [] => Some g
        end
    | None => Some g
    end
  else Some g.

Definition add_new_parent_for_lobe (g : Graph) : option Graph :=
  successors <- successors_dict g ;;
  foldM (new_parent_step successors) (node_ids g) g.

(** [for _ in range(k)]: the neighbour pass, then the subtree pass. *)
Fixpoint recolor_rounds (k : nat) (g : Graph) : option Graph :=
  match k with
  | O => Some g
  | S k' =>
      g1 <- recolor_if_all_adjacent_have_different_color g ;;
      g2 <- recolor_if_successors_all_different_color g1 ;;
      recolor_rounds k' g2
  end.

(** The recoloring part of [main]: five rounds of the first two passes,
    then the other three passes once each. *)
Definition recoloring (g : Graph) : option Graph :=
  g1 <- recolor_rounds 5 g ;;
  g2 <- recolor_entire_subtree_to_majority_at_level_4_or_5 g1 ;;
  g3 <- possibly_make_neutral_above_level_4 g2 ;;
  add_new_parent_for_lobe g3.

(** ** Command-line arguments ([util/util.py]) *)

(** A [pathlib.Path] made from an argument. *)
Record Path : Type := mkPath { path_of : string }.

(** [get_data_paths_from_args(outputs, inputs)] with [sys.argv] as an
    argument, for counts that are not negative: [sys.exit(1)] and an
    IndexError are [None]; the generator is consumed at once by the
    caller. *)
Definition get_data_paths_from_args (argv : list string) (outputs inputs : nat)
  : option (list Path) :=
  if (length (tl argv) <? outputs + inputs)%nat then None
  else
    mapM (fun index => option_map mkPath (nth_error argv (index + 1)))
      (seq 0 (outputs + inputs)).

(** ** Vocabulary for the recoloring passes *)

(** The attributes of a node with another lobe. *)
Definition with_lobe (v : Z) (a : NodeAttr) : NodeAttr :=
  mkNode (x a) (y a) (z a) v (level a) (successor_count a).

(** The graph with every lobe set to 0: two graphs with the same image
    differ in their lobes at most. *)
Definition erase_lobes (g : Graph) : Graph :=
  mkGraph (map (fun na => (fst na, with_lobe 0 (snd na))) (g_node g)) (g_adj g).

(** The lobes of the nodes, in node order. *)
Definition lobes_in (g : Graph) : list Z :=
  map (fun na => lobe (snd na)) (g_node g).

(** The number of nodes of [nodes] that carry lobe [l]. *)
Fixpoint lobe_count (g : Graph) (nodes : list string) (l : Z) : Z :=
  match nodes with
  | [] => 0
  | m :: rest =>
      (match node_attr g m with
       | Some a => if lobe a =? l then 1 else 0
       | None => 0
       end) + lobe_count g rest l
  end.

(** What the dictionary of a node holds under key [l] when [v] nodes at or
    below it carry lobe [l]: nothing for the neutral lobe or a lobe that
    does not occur. *)
Definition occurrence_entry (v l : Z) : option Z :=
  if (l =? 0) || (v =? 0) then None else Some v.

(** The dictionary [occ] holds the occurrences of each lobe among [nodes]. *)
Definition counts_lobes (g : Graph) (nodes : list string) (occ : zdict Z)
  : Prop :=
  NoDup (map fst occ)
  /\ forall l, dget Z.eqb occ l = occurrence_entry (lobe_count g nodes l) l.

(** [g2] is [g1] with lobe [v] written on the nodes of [nodes]. *)
Definition painted (v : Z) (g1 g2 : Graph) (nodes : list string) : Prop :=
  g_adj g2 = g_adj g1
  /\ node_ids g2 = node_ids g1
  /\ forall m,
      node_attr g2 m
      = if mem seqb m nodes then option_map (with_lobe v) (node_attr g1 m)
        else node_attr g1 m.

(** Every lobe of [g'] is neutral or a lobe of [g]. *)
Definition no_new_lobe (g g' : Graph) : Prop :=
  forall l, In l (lobes_in g') -> l = 0 \/ In l (lobes_in g).

(** ** Vocabulary for the removal rules *)

(** What one pass of [straighten_edges] decides: the graph with the merged
    edges, [nodes_to_be_removed] and [cant_be_removed]. *)
Definition straighten_plan (g : Graph)
  : option (Graph * list string * list string) :=
  predecessors <- predecessors_dict g ;;
  succ <- bfs_successors g "0" ;;
  foldM (straighten_step predecessors) (only_single_successor succ)
    (g, [], ["0"]).

(** In a table of successors, no child is the key of an earlier entry. *)
Definition children_later (T : list (string * list string)) : Prop :=
  forall T1 n cs T2 c,
    T = T1 ++ (n, cs) :: T2 -> In c cs -> ~ In c (map fst (T1 ++ [(n, cs)])).

(** The loop of [straighten_edges] after the entries [done] of [todo]. *)
Definition straighten_invariant (todo done : list (string * string))
    (rem cant : list string) : Prop :=
  In "0" cant
  /\ (forall n, In n rem -> In n (map fst done) /\ ~ In n cant)
  /\ (forall n s, In n rem -> In (n, s) todo -> In s cant)
  /\ NoDup rem.

(** The path "0" - "1" - "2" with two leaves below "2": "3" behind an
    edge of two samples and "4" behind an edge of seven. *)
Definition minor_tree : Graph :=
  graph_of
    [("0", plain_node 0 0); ("1", plain_node 1 1); ("2", plain_node 1 2);
     ("3", plain_node 2 3); ("4", plain_node 2 3)]
    [("0", "1", mkEdge 30%float "10 11 12 13 14 15 16");
     ("1", "2", mkEdge 30%float "10 11 12 13 14 15 16");
     ("2", "3", mkEdge 30%float "10 11");
     ("2", "4", mkEdge 30%float "10 11 12 13 14 15 16")].

(** A neutral root with three children of lobes 2, 2 and 3 and, below the
    first child, two leaves of lobes 2 and 3. *)
Definition lobes_tree : Graph :=
  graph_of
    [("0", plain_node 0 0); ("1", plain_node 2 1); ("2", plain_node 2 1);
     ("3", plain_node 3 1); ("4", plain_node 2 2); ("5", plain_node 3 2)]
    [("0", "1", mkEdge 30%float "10 11 12 13 14 15 16");
     ("0", "2", mkEdge 30%float "10 11 12 13 14 15 16");
     ("0", "3", mkEdge 30%float "10 11 12 13 14 15 16");
     ("1", "4", mkEdge 30%float "10 11 12 13 14 15 16");
     ("1", "5", mkEdge 30%float "10 11 12 13 14 15 16")].

(** A tree no removal rule applies to: the root has one child, every other
    inner node has two, and the eight leaves lie at depth 4 behind long
    edges. *)
Definition stable_tree : Graph :=
  graph_of
    (map (fun n => (n, plain_node 1 0))
       ["0"; "1"; "2"; "3"; "4"; "5"; "6"; "7"; "8"; "9"; "10"; "11"; "12";
        "13"; "14"; "15"])
    (map (fun e => (fst e, snd e, mkEdge 30%float "10 11 12 13 14 15 16"))
       [("0", "1"); ("1", "2"); ("1", "3"); ("2", "4"); ("2", "5");
        ("3", "6"); ("3", "7"); ("4", "8"); ("4", "9"); ("5", "10");
        ("5", "11"); ("6", "12"); ("6", "13"); ("7", "14"); ("7", "15")]).

(** The same tree with a short leaf "16" below the root. *)
Definition nearly_stable_tree : Graph :=
  add_edge (add_node stable_tree "16" (plain_node 1 0)) "0" "16"
    (mkEdge 30%float "10 11").

(** ** Vocabulary for the store of [successor_lobes], continued *)

(** [all_successors] points for node [m] to an object allocated at address
    [lo] or later that holds the occurrences of each lobe among [m] and
    its descendants. *)
Definition lobes_recorded (g : Graph) (blocks : list (string * list string))
    (lo : nat) (st : lobes_state) (m : string) : Prop :=
  exists r occ,
    dget seqb (all_succ st) m = Some r
    /\ (lo <= r)%nat
    /\ nth_error (objs st) r = Some occ
    /\ counts_lobes g (m :: desc_in blocks m) occ.

(** Every lobe of [g'] is [v] or a lobe of [g]. *)
Definition no_new_lobe_but (v : Z) (g g' : Graph) : Prop :=
  forall l, In l (lobes_in g') -> l = v \/ In l (lobes_in g).

(** ** Vocabulary for the sample texts *)

(** [' '.join(tokens)]: words with a single space between two of them, the
    way [combine_group_sizes] puts the samples of two edges together. *)
Fixpoint join_spaces (tokens : list string) : string :=
  match tokens with
  | [] => ""
  | [t] => t
  | t :: rest => (t ++ " " ++ join_spaces rest)%string
  end.

(** ** Vocabulary for the drastic pass *)

(** The levels grow along every edge of the search from "0", from the
    parent to the child, as the depths of the nodes do. *)
Definition levels_grow (g : Graph) : bool :=
  match bfs_edges g "0" with
  | Some E =>
      forallb
        (fun e : string * string =>
           match node_attr g (fst e), node_attr g (snd e) with
           | Some p, Some c => level p <? level c
           | _, _ => false
           end)
        E
  | None => false
  end.

(** The node [node] with the dictionary [sl] passes the two guards of the
    drastic pass, and [l] is the first candidate the pass accepts for it. *)
Definition drastic_choice (g : Graph) (root : zdict Z) (node : string)
    (sl : zdict Z) (l : Z) : Prop :=
  exists n,
    node_attr g node = Some n
    /\ (1 < length sl)%nat
    /\ at_level_4_or_5 (level n) sl = true
    /\ find (keeps_every_lobe root sl) (map fst (sorted_desc sl)) = Some l.

(** The loop of the drastic pass after the items [done], at the graph
    [gi]: the subtrees of the items with an accepted candidate carry that
    candidate, and the nodes outside these subtrees are as in [g]. *)
Definition drastic_invariant (g : Graph) (B : list (string * list string))
    (root : zdict Z) (done : sdict (zdict Z)) (gi : Graph) : Prop :=
  erase_lobes gi = erase_lobes g
  /\ (forall node sl l m,
         In (node, sl) done -> drastic_choice g root node sl l ->
         In m (node :: desc_in B node) -> lobe_of gi m = Some l)
  /\ (forall m,
         (forall node sl l,
             In (node, sl) done -> In m (node :: desc_in B node) ->
             ~ drastic_choice g root node sl l) ->
         node_attr gi m = node_attr g m).

(** * Facts about dictionaries and sets *)

Section DictFacts.
Context {K V : Type}.
Variable eqb : K -> K -> bool.
Hypothesis eqb_eq : forall a b, eqb a b = true <-> a = b.

Lemma eqb_refl_gen : forall a, eqb a a = true.
Proof. intros a. apply eqb_eq. reflexivity. Qed.

Lemma eqb_neq_gen : forall a b, eqb a b = false <-> a <> b.
Proof.
  intros a b. split.
  - intros H E. apply eqb_eq in E. congruence.
  - intros H. destruct (eqb a b) eqn:E; [apply eqb_eq in E; contradiction | reflexivity].
Qed.

Lemma mem_In : forall (x : K) s, mem eqb x s = true <-> In x s.
Proof.
  intros x s. induction s as [|y s IH]; simpl.
  - split; [discriminate | tauto].
  - rewrite orb_true_iff, IH, eqb_eq. tauto.
Qed.

Lemma mem_not_In : forall (x : K) s, mem eqb x s = false <-> ~ In x s.
Proof.
  intros x s. rewrite <- mem_In. destruct (mem eqb x s); split; congruence.
Qed.

Lemma dget_In : forall (d : list (K * V)) k v,
    dget eqb d k = Some v -> In (k, v) d.
Proof.
  induction d as [|[k' v'] d IH]; simpl; intros k v H; [discriminate|].
  destruct (eqb k' k) eqn:E.
  - apply eqb_eq in E. inversion H. subst. now left.
  - right. now apply IH.
Qed.

Lemma dget_None : forall (d : list (K * V)) k,
    dget eqb d k = None <-> ~ In k (map fst d).
Proof.
  induction d as [|[k' v'] d IH]; simpl; intros k.
  - tauto.
  - destruct (eqb k' k) eqn:E.
    + apply eqb_eq in E. split; [discriminate | intros H; exfalso; apply H; now left].
    + apply eqb_neq_gen in E. rewrite IH. tauto.
Qed.

Lemma dget_Some_key : forall (d : list (K * V)) k v,
    dget eqb d k = Some v -> In k (map fst d).
Proof.
  intros d k v H. apply dget_In in H. apply (in_map fst) in H. exact H.
Qed.

Lemma dget_NoDup : forall (d : list (K * V)) k v,
    NoDup (map fst d) -> In (k, v) d -> dget eqb d k = Some v.
Proof.
  induction d as [|[k' v'] d IH]; simpl; intros k v ND H; [contradiction|].
  inversion ND as [|? ? Hn ND']; subst.
  destruct H as [H|H].
  - inversion H; subst. now rewrite eqb_refl_gen.
  - destruct (eqb k' k) eqn:E.
    + apply eqb_eq in E. subst. exfalso. apply Hn.
      apply (in_map fst) in H. exact H.
    + now apply IH.
Qed.

Lemma dmem_In : forall (d : list (K * V)) k,
    dmem eqb d k = true <-> In k (map fst d).
Proof.
  intros d k. unfold dmem. destruct (dget eqb d k) eqn:E.
  - split; [intros _; eapply dget_Some_key; eauto | reflexivity].
  - split; [discriminate | intros H; apply dget_None in E; contradiction].
Qed.

Lemma dget_dset : forall (d : list (K * V)) k v k',
    dget eqb (dset eqb d k v) k'
    = if eqb k k' then Some v else dget eqb d k'.
Proof.
  induction d as [|[k0 v0] d IH]; simpl; intros k v k'.
  - reflexivity.
  - destruct (eqb k0 k) eqn:E0; simpl.
    + apply eqb_eq in E0. subst. destruct (eqb k k'); reflexivity.
    + rewrite IH. destruct (eqb k0 k') eqn:E1; [|reflexivity].
      apply eqb_eq in E1. subst.
      destruct (eqb k k') eqn:E2; [|reflexivity].
      apply eqb_eq in E2. subst. rewrite eqb_refl_gen in E0. discriminate.
Qed.

Lemma dset_keys_old : forall (d : list (K * V)) k v,
    In k (map fst d) -> map fst (dset eqb d k v) = map fst d.
Proof.
  induction d as [|[k0 v0] d IH]; simpl; intros k v H; [contradiction|].
  destruct (eqb k0 k) eqn:E; simpl; [reflexivity|].
  f_equal. apply IH. destruct H as [H|H]; [|exact H].
  subst. rewrite eqb_refl_gen in E. discriminate.
Qed.

Lemma dset_new : forall (d : list (K * V)) k v,
    ~ In k (map fst d) -> dset eqb d k v = d ++ [(k, v)].
Proof.
  induction d as [|[k0 v0] d IH]; simpl; intros k v H; [reflexivity|].
  destruct (eqb k0 k) eqn:E.
  - apply eqb_eq in E. subst. exfalso. apply H. now left.
  - f_equal. apply IH. tauto.
Qed.

Lemma dset_length_old : forall (d : list (K * V)) k v,
    In k (map fst d) -> length (dset eqb d k v) = length d.
Proof.
  intros d k v H. rewrite <- (length_map fst), dset_keys_old by exact H.
  apply length_map.
Qed.

Lemma dset_same : forall (d : list (K * V)) k v,
    dget eqb d k = Some v -> dset eqb d k v = d.
Proof.
  induction d as [|[k0 v0] d IH]; simpl; intros k v H; [discriminate|].
  destruct (eqb k0 k) eqn:E.
  - inversion H. reflexivity.
  - f_equal. now apply IH.
Qed.

Lemma dset_dset : forall (d : list (K * V)) k v v',
    dset eqb (dset eqb d k v) k v' = dset eqb d k v'.
Proof.
  induction d as [|[k0 v0] d IH]; simpl; intros k v v'.
  - now rewrite eqb_refl_gen.
  - destruct (eqb k0 k) eqn:E; simpl; rewrite E; [reflexivity|].
    f_equal. apply IH.
Qed.

Lemma ddel_keys : forall (d : list (K * V)) k x,
    In x (map fst (ddel eqb d k)) -> In x (map fst d).
Proof.
  induction d as [|[k0 v0] d IH]; simpl; intros k x H; [exact H|].
  destruct (eqb k0 k); simpl in *; [now right|].
  destruct H as [H|H]; [now left | right; eauto].
Qed.

Lemma ddel_length : forall (d : list (K * V)) k,
    (length (ddel eqb d k) <= length d)%nat.
Proof.
  induction d as [|[k0 v0] d IH]; simpl; intros k; [lia|].
  destruct (eqb k0 k); simpl; [lia|]. specialize (IH k). lia.
Qed.

Lemma ddel_length_In : forall (d : list (K * V)) k,
    In k (map fst d) -> S (length (ddel eqb d k)) = length d.
Proof.
  induction d as [|[k0 v0] d IH]; simpl; intros k H; [contradiction|].
  destruct (eqb k0 k) eqn:E; simpl; [reflexivity|].
  f_equal. apply IH. destruct H as [H|H]; [|exact H].
  subst. rewrite eqb_refl_gen in E. discriminate.
Qed.

Lemma dget_ddel_other : forall (d : list (K * V)) k k',
    k <> k' -> dget eqb (ddel eqb d k) k' = dget eqb d k'.
Proof.
  induction d as [|[k0 v0] d IH]; simpl; intros k k' H; [reflexivity|].
  destruct (eqb k0 k) eqn:E; simpl.
  - apply eqb_eq in E. subst.
    destruct (eqb k k') eqn:E'; [apply eqb_eq in E'; contradiction | reflexivity].
  - destruct (eqb k0 k'); [reflexivity | now apply IH].
Qed.

Lemma dict_of_list_NoDup : forall (l : list (K * V)),
    NoDup (map fst l) -> dict_of_list eqb l = l.
Proof.
  intros l. unfold dict_of_list.
  assert (G : forall acc, NoDup (map fst (acc ++ l)) ->
              fold_left (fun d kv => dset eqb d (fst kv) (snd kv)) l acc
              = acc ++ l).
  { induction l as [|[k v] l IH]; simpl; intros acc ND.
    - now rewrite app_nil_r.
    - rewrite dset_new.
      + rewrite IH; rewrite <- app_assoc; simpl; [reflexivity | exact ND].
      + rewrite map_app in ND. simpl in ND.
        apply NoDup_remove_2 in ND. intros H. apply ND.
        apply in_or_app. now left. }
  intros ND. apply (G []). exact ND.
Qed.

Lemma set_add_In : forall (s : list K) x y,
    In y (set_add eqb s x) <-> In y s \/ y = x.
Proof.
  intros s x y. unfold set_add. destruct (mem eqb x s) eqn:E.
  - apply mem_In in E. split; [tauto | intros [H|H]; subst; assumption].
  - rewrite in_app_iff. simpl. intuition.
Qed.

Lemma set_union_In : forall (l s : list K) y,
    In y (set_union eqb s l) <-> In y s \/ In y l.
Proof.
  unfold set_union. induction l as [|x l IH]; simpl; intros s y.
  - tauto.
  - rewrite IH, set_add_In. intuition.
Qed.

Lemma set_add_NoDup : forall (s : list K) x,
    NoDup s -> NoDup (set_add eqb s x).
Proof.
  intros s x ND. unfold set_add. destruct (mem eqb x s) eqn:E; [exact ND|].
  apply mem_not_In in E. apply NoDup_app; [exact ND | repeat constructor; simpl; tauto |].
  intros a Ha [Hb|[]]. subst. contradiction.
Qed.

Lemma set_union_NoDup : forall (l s : list K),
    NoDup s -> NoDup (set_union eqb s l).
Proof.
  unfold set_union. induction l as [|x l IH]; simpl; intros s ND; [exact ND|].
  apply IH. now apply set_add_NoDup.
Qed.
Lemma dset_keys_In : forall (d : list (K * V)) k v x,
    In x (map fst (dset eqb d k v)) <-> In x (map fst d) \/ x = k.
Proof.
  induction d as [|[k0 v0] d IH]; simpl; intros k v x.
  - intuition.
  - destruct (eqb k0 k) eqn:E; simpl.
    + apply eqb_eq in E. subst. intuition.
    + rewrite IH. intuition.
Qed.

Lemma dset_In : forall (d : list (K * V)) k v k' v',
    In (k', v') (dset eqb d k v) -> (k', v') = (k, v) \/ In (k', v') d.
Proof.
  induction d as [|[k0 v0] d IH]; simpl; intros k v k' v' H.
  - destruct H as [H|[]]. left. now symmetry.
  - destruct (eqb k0 k) eqn:E; simpl in H.
    + apply eqb_eq in E. subst. destruct H as [H|H]; [left; now symmetry | tauto].
    + destruct H as [H|H]; [tauto|]. apply IH in H. tauto.
Qed.
Lemma dset_NoDup : forall (d : list (K * V)) k v,
    NoDup (map fst d) -> NoDup (map fst (dset eqb d k v)).
Proof.
  intros d k v ND. destruct (dget eqb d k) as [v0|] eqn:E.
  - rewrite dset_keys_old; [exact ND|]. eapply dget_Some_key; eauto.
  - apply dget_None in E. rewrite dset_new by exact E.
    rewrite map_app. simpl. apply NoDup_app; [exact ND | repeat constructor; simpl; tauto |].
    intros a Ha [Hb|[]]. subst. contradiction.
Qed.
End DictFacts.

(** * Breadth-first search *)

Lemma seqb_eq : forall a b, seqb a b = true <-> a = b.
Proof. exact String.eqb_eq. Qed.

Lemma bfs_scan_In : forall nbrs visited c,
    In c (bfs_scan nbrs visited) -> In c nbrs /\ ~ In c visited.
Proof.
  induction nbrs as [|n nbrs IH]; simpl; intros visited c H; [contradiction|].
  destruct (mem seqb n visited) eqn:E.
  - apply IH in H. tauto.
  - apply (mem_not_In seqb seqb_eq) in E. destruct H as [H|H].
    + subst. tauto.
    + apply IH in H. destruct H as [H1 H2]. split; [now right|].
      intros H3. apply H2. apply in_or_app. now left.
Qed.

Lemma bfs_scan_NoDup : forall nbrs visited, NoDup (bfs_scan nbrs visited).
Proof.
  induction nbrs as [|n nbrs IH]; simpl; intros visited; [constructor|].
  destruct (mem seqb n visited) eqn:E; [apply IH|].
  constructor; [|apply IH].
  intros H. apply bfs_scan_In in H. destruct H as [_ H]. apply H.
  apply in_or_app. right. now left.
Qed.

Lemma children_of_app : forall B1 B2,
    children_of (B1 ++ B2) = children_of B1 ++ children_of B2.
Proof. intros. unfold children_of. apply flat_map_app. Qed.

Lemma edges_of_app : forall B1 B2,
    edges_of (B1 ++ B2) = edges_of B1 ++ edges_of B2.
Proof. intros. unfold edges_of. apply flat_map_app. Qed.

Lemma edges_of_In : forall B p c,
    In (p, c) (edges_of B) <-> exists cs, In (p, cs) B /\ In c cs.
Proof.
  intros B p c. unfold edges_of. rewrite in_flat_map. split.
  - intros [[p' cs] [H1 H2]]. simpl in H2. apply in_map_iff in H2.
    destruct H2 as [c' [H2 H3]]. inversion H2; subst. eauto.
  - intros [cs [H1 H2]]. exists (p, cs). split; [exact H1|].
    simpl. apply in_map_iff. eauto.
Qed.

Lemma edges_of_children : forall B, map snd (edges_of B) = children_of B.
Proof.
  induction B as [|[p cs] B IH]; simpl; [reflexivity|].
  unfold edges_of, children_of in *. simpl.
  rewrite map_app, IH, map_map. simpl. now rewrite map_id.
Qed.

Lemma children_of_In : forall B c,
    In c (children_of B) <-> exists p cs, In (p, cs) B /\ In c cs.
Proof.
  intros B c. unfold children_of. rewrite in_flat_map. split.
  - intros [[p cs] [H1 H2]]. eauto.
  - intros [p [cs [H1 H2]]]. exists (p, cs). eauto.
Qed.

(** Every stage of the queue loop is a run; the children are new, distinct
    and read off the adjacency rows. *)
Lemma bfs_visit_run : forall fuel g visited queue B,
    bfs_visit fuel g visited queue = Some B ->
    bfs_run queue B
    /\ NoDup (children_of B)
    /\ (forall c, In c (children_of B) -> ~ In c visited)
    /\ (forall p cs, In (p, cs) B ->
          exists nbrs, neighbors g p = Some nbrs /\ incl cs nbrs).
Proof.
  induction fuel as [|fuel IH]; simpl; intros g visited queue B H.
  - inversion H; subst. repeat split; try constructor; simpl; tauto.
  - destruct queue as [|parent queue].
    + inversion H; subst. repeat split; try constructor; simpl; tauto.
    + destruct (neighbors g parent) as [nbrs|] eqn:En; [|discriminate].
      destruct (bfs_visit fuel g (visited ++ bfs_scan nbrs visited)
                  (queue ++ bfs_scan nbrs visited)) as [rest|] eqn:Er;
        [|discriminate].
      inversion H; subst. clear H.
      destruct (IH _ _ _ _ Er) as (R & ND & Fresh & Rows).
      split; [now constructor|]. split; [|split].
      * change (NoDup (bfs_scan nbrs visited ++ children_of rest)).
        apply NoDup_app; [apply bfs_scan_NoDup | exact ND |].
        intros c Hc Hr. apply (Fresh c Hr). apply in_or_app. now right.
      * change (forall c, In c (bfs_scan nbrs visited ++ children_of rest)
                          -> ~ In c visited).
        intros c Hc. apply in_app_or in Hc. destruct Hc as [Hc|Hc].
        -- apply bfs_scan_In in Hc. tauto.
        -- intros Hv. apply (Fresh c Hc). apply in_or_app. now left.
      * intros p cs [Hp|Hp].
        -- inversion Hp; subst. exists nbrs. split; [exact En|].
           intros c Hc. apply bfs_scan_In in Hc. tauto.
        -- eauto.
Qed.

Lemma bfs_blocks_forest : forall g source B,
    bfs_blocks g source = Some B -> is_forest source B.
Proof.
  intros g source B H. unfold bfs_blocks in H.
  apply bfs_visit_run in H. destruct H as (R & ND & Fresh & _).
  split; [exact R|]. constructor; [|exact ND].
  intros Hc. apply (Fresh _ Hc). now left.
Qed.

(** *** Consequences of the forest shape *)

Lemma bfs_run_parents : forall queue B,
    bfs_run queue B -> incl (map fst B) (queue ++ children_of B).
Proof.
  intros queue B R. induction R as [|p q new B R IH]; simpl.
  - intros ? [].
  - intros a [Ha|Ha]; [now left|]. right.
    apply IH in Ha. change (In a (q ++ new ++ children_of B)).
    now rewrite app_assoc.
Qed.

Lemma bfs_run_NoDup_parents : forall queue B,
    bfs_run queue B -> NoDup (queue ++ children_of B) -> NoDup (map fst B).
Proof.
  intros queue B R. induction R as [|p q new B R IH]; simpl; intros ND.
  - constructor.
  - change (NoDup (p :: q ++ new ++ children_of B)) in ND.
    rewrite app_assoc in ND. inversion ND as [|? ? Hn ND']; subst.
    constructor; [|now apply IH].
    intros Hp. apply Hn. now apply (bfs_run_parents _ _ R).
Qed.

(** A parent was in the queue from the start or was yielded by an earlier
    block. *)
Lemma bfs_run_order : forall queue B,
    bfs_run queue B ->
    forall B1 p cs B2, B = B1 ++ (p, cs) :: B2 ->
                       In p queue \/ In p (children_of B1).
Proof.
  intros queue B R. induction R as [|p0 q new B R IH]; intros B1 p cs B2 E.
  - destruct B1; discriminate.
  - destruct B1 as [|b B1]; simpl in E; inversion E; subst.
    + left. now left.
    + destruct (IH _ _ _ _ eq_refl) as [H|H].
      * apply in_app_or in H. destruct H as [H|H].
        -- left. now right.
        -- right. simpl. apply in_or_app. now left.
      * right. simpl. apply in_or_app. now right.
Qed.

Lemma bfs_run_head : forall source B,
    bfs_run [source] B -> B = [] \/ exists cs B', B = (source, cs) :: B'.
Proof.
  intros source B R. inversion R; subst; [now left | right; eauto].
Qed.

Section Forest.
Variable source : string.
Variable B : list (string * list string).
Hypothesis F : is_forest source B.

Lemma forest_NoDup_parents : NoDup (map fst B).
Proof.
  destruct F as [R ND]. apply (bfs_run_NoDup_parents _ _ R). exact ND.
Qed.

Lemma forest_NoDup_children : NoDup (children_of B).
Proof. destruct F as [_ ND]. now inversion ND. Qed.

Lemma forest_source_not_child : ~ In source (children_of B).
Proof. destruct F as [_ ND]. now inversion ND. Qed.

Lemma forest_order : forall B1 p cs B2,
    B = B1 ++ (p, cs) :: B2 -> p = source \/ In p (children_of B1).
Proof.
  intros B1 p cs B2 E. destruct F as [R _].
  destruct (bfs_run_order _ _ R _ _ _ _ E) as [[H|[]]|H]; [now left | now right].
Qed.

(** A node has at most one block. *)
Lemma forest_block_unique : forall p cs cs',
    In (p, cs) B -> In (p, cs') B -> cs = cs'.
Proof.
  intros p cs cs' H1 H2. pose proof forest_NoDup_parents as ND.
  pose proof (dget_NoDup seqb seqb_eq _ _ _ ND H1) as G1.
  pose proof (dget_NoDup seqb seqb_eq _ _ _ ND H2) as G2.
  congruence.
Qed.

(** A node has at most one parent. *)
Lemma forest_parent_unique : forall p p' c,
    In (p, c) (edges_of B) -> In (p', c) (edges_of B) -> p = p'.
Proof.
  pose proof forest_NoDup_children as ND. clear F.
  induction B as [|[q cs] B' IH]; simpl; intros p p' c H1 H2; [contradiction|].
  unfold edges_of in H1, H2. simpl in H1, H2.
  change (NoDup (cs ++ children_of B')) in ND.
  apply in_app_or in H1. apply in_app_or in H2.
  assert (Hl : forall r, In (r, c) (map (pair q) cs) -> r = q /\ In c cs).
  { intros r Hr. apply in_map_iff in Hr. destruct Hr as [c' [Hr Hc]].
    inversion Hr; subst. tauto. }
  assert (Hr : forall r, In (r, c) (flat_map (fun b => map (pair (fst b)) (snd b)) B')
                         -> In c (children_of B')).
  { intros r Hr. apply (in_map snd) in Hr. simpl in Hr.
    rewrite <- edges_of_children. exact Hr. }
  assert (Disj : In c cs -> In c (children_of B') -> False).
  { intros Ha Hb. revert Hb. revert Ha. revert ND. clear.
    induction cs as [|a cs IHc]; simpl; intros ND Ha Hb; [contradiction|].
    inversion ND; subst. destruct Ha as [Ha|Ha].
    - subst. apply H1. apply in_or_app. now right.
    - now apply IHc. }
  destruct H1 as [H1|H1], H2 as [H2|H2].
  - apply Hl in H1. apply Hl in H2. destruct H1, H2. congruence.
  - apply Hl in H1. apply Hr in H2. exfalso. tauto.
  - apply Hl in H2. apply Hr in H1. exfalso. tauto.
  - apply (IH (NoDup_app_remove_l _ _ ND) p p' c); assumption.
Qed.
End Forest.

(** *** The dictionary of successors *)

Lemma group_same_parent : forall cs p ch rest,
    group_successors p ch (map (pair p) cs ++ rest)
    = group_successors p (ch ++ cs) rest.
Proof.
  induction cs as [|c cs IH]; simpl; intros p ch rest.
  - now rewrite app_nil_r.
  - unfold seqb at 1. rewrite String.eqb_refl. rewrite IH.
    now rewrite <- app_assoc.
Qed.

Lemma group_blocks : forall B parent children,
    NoDup (parent :: map fst B) ->
    group_successors parent children (edges_of B)
    = (parent, children) :: filter has_children B.
Proof.
  induction B as [|[p cs] B IH]; intros parent children ND.
  - reflexivity.
  - assert (NDp : NoDup (p :: map fst B)).
    { inversion ND; subst. assumption. }
    assert (NDparent : NoDup (parent :: map fst B)).
    { inversion ND as [|? ? Hn ND']; subst. simpl in *. inversion ND'; subst.
      constructor; [tauto | assumption]. }
    assert (Hne : p <> parent).
    { inversion ND as [|? ? Hn ND']; subst. simpl in Hn. intros E. subst. tauto. }
    change (edges_of ((p, cs) :: B)) with (map (pair p) cs ++ edges_of B).
    destruct cs as [|c cs]; simpl.
    + now apply IH.
    + apply String.eqb_neq in Hne. unfold seqb at 1. rewrite Hne.
      f_equal. rewrite group_same_parent. simpl. now apply IH.
Qed.

Lemma bfs_blocks_head : forall g source B,
    bfs_blocks g source = Some B -> exists cs B', B = (source, cs) :: B'.
Proof.
  intros g source B H. unfold bfs_blocks in H. simpl in H.
  destruct (neighbors g source); [|discriminate].
  destruct (bfs_visit _ _ _ _); [|discriminate].
  inversion H. eauto.
Qed.

Lemma successor_table_keys : forall B,
    NoDup (map fst B) -> NoDup (map fst (successor_table B)).
Proof.
  intros [|b B] ND; simpl; [constructor|].
  simpl in ND. inversion ND as [|? ? Hn ND']; subst. constructor.
  - intros H. apply Hn. apply in_map_iff in H. destruct H as [x [H1 H2]].
    apply filter_In in H2. apply in_map_iff. exists x. tauto.
  - clear Hn ND. induction B as [|x B IH]; simpl; [constructor|].
    inversion ND'; subst. destruct (has_children x); simpl; [|now apply IH].
    constructor; [|now apply IH].
    intros H. apply H1. apply in_map_iff in H. destruct H as [y [Hy1 Hy2]].
    apply filter_In in Hy2. apply in_map_iff. exists y. tauto.
Qed.

Lemma successors_dict_table : forall g B,
    bfs_blocks g "0" = Some B ->
    successors_dict g = Some (successor_table B).
Proof.
  intros g B H. pose proof (bfs_blocks_forest _ _ _ H) as F.
  destruct (bfs_blocks_head _ _ _ H) as (cs & B' & E). subst B.
  unfold successors_dict, bfs_successors, bfs_edges. rewrite H.
  pose proof (forest_NoDup_parents _ _ F) as ND.
  change (edges_of (("0", cs) :: B')) with (map (pair "0") cs ++ edges_of B').
  rewrite group_same_parent. simpl app.
  rewrite group_blocks by exact ND.
  rewrite dict_of_list_NoDup; [reflexivity | exact seqb_eq |].
  apply (successor_table_keys (("0", cs) :: B') ND).
Qed.

Section ForestTable.
Variable source : string.
Variable B : list (string * list string).
Hypothesis F : is_forest source B.
Hypothesis Hhead : exists cs B', B = (source, cs) :: B'.

Lemma table_get : forall n cs,
    dget seqb (successor_table B) n = Some cs
    <-> In (n, cs) B /\ (cs <> [] \/ n = source).
Proof.
  intros n cs. pose proof (forest_NoDup_parents _ _ F) as ND.
  pose proof (successor_table_keys B ND) as NDt.
  destruct Hhead as (cs0 & B' & E).
  assert (Hin : In (n, cs) (successor_table B)
                <-> In (n, cs) B /\ (cs <> [] \/ n = source)).
  { subst B. simpl. rewrite filter_In. simpl. split.
    - intros [H|[H1 H2]].
      + inversion H; subst. split; [now left | now right].
      + split; [now right|]. left. intros Ec. subst. discriminate.
    - intros [[H|H] [Hc|Hc]].
      + now left.
      + now left.
      + right. split; [exact H|]. destruct cs; [congruence | reflexivity].
      + left. subst n. f_equal.
        apply (forest_block_unique _ _ F source); simpl; [now left | now right]. }
  split.
  - intros H. apply Hin. eapply dget_In; [exact seqb_eq | exact H].
  - intros H. apply dget_NoDup; [exact seqb_eq | exact NDt | now apply Hin].
Qed.

Lemma table_children : forall n c,
    (exists cs, dget seqb (successor_table B) n = Some cs /\ In c cs)
    <-> In (n, c) (edges_of B).
Proof.
  intros n c. rewrite edges_of_In. split.
  - intros [cs [H1 H2]]. apply table_get in H1. exists cs. tauto.
  - intros [cs [H1 H2]]. exists cs. split; [|exact H2].
    apply table_get. split; [exact H1|]. left. intros E. subst. contradiction.
Qed.

Lemma table_mem : forall n,
    dmem seqb (successor_table B) n = true
    <-> n = source \/ exists c, In (n, c) (edges_of B).
Proof.
  intros n. unfold dmem.
  destruct (dget seqb (successor_table B) n) as [cs|] eqn:E.
  - split; [intros _ | reflexivity].
    apply table_get in E. destruct E as [E1 [E2|E2]]; [right | now left].
    destruct cs as [|c cs]; [congruence|]. exists c.
    apply edges_of_In. exists (c :: cs). split; [exact E1 | now left].
  - split; [discriminate|]. intros H. exfalso.
    assert (G : exists cs, dget seqb (successor_table B) n = Some cs).
    { destruct H as [H|[c H]].
      - subst. destruct Hhead as (cs0 & B' & EB). exists cs0.
        apply table_get. split; [subst B; now left | now right].
      - apply table_children in H. destruct H as [cs [H _]]. eauto. }
    destruct G as [cs G]. congruence.
Qed.
End ForestTable.

(** * Minor-edge removal *)

(** What the rule collects: the nodes without children whose incoming edge
    has fewer than six separating spaces in its [group_sizes]. *)
Lemma minor_edge_fold : forall g has_successors edges acc rem,
    foldM
      (fun nodes_to_be_removed (e : string * string) =>
         let '(fr, to) := e in
         if mem seqb to has_successors then Some nodes_to_be_removed
         else
           a <- edge_attr g fr to ;;
           if count_spaces (group_sizes a) <? REMOVE_IF_GROUP_SIZE_LESS_THAN
           then Some (nodes_to_be_removed ++ [to])
           else Some nodes_to_be_removed)
      edges acc = Some rem ->
    forall n,
      In n rem
      <-> In n acc
          \/ exists fr a,
               In (fr, n) edges
               /\ mem seqb n has_successors = false
               /\ edge_attr g fr n = Some a
               /\ count_spaces (group_sizes a) < 6.
Proof.
  intros g hs edges. induction edges as [|[fr to] edges IH]; simpl; intros acc rem H n.
  - inversion H; subst. split; [tauto | intros [Hn|(fr & a & [] & _)]; exact Hn].
  - destruct (mem seqb to hs) eqn:Em.
    + rewrite (IH _ _ H). split.
      * intros [Hn|(fr' & a & H1 & H2)]; [now left|].
        right. exists fr', a. tauto.
      * intros [Hn|(fr' & a & [H1|H1] & H2 & H3)]; [now left | |].
        -- inversion H1; subst. congruence.
        -- right. exists fr', a. tauto.
    + destruct (edge_attr g fr to) as [a|] eqn:Ea; [|discriminate].
      unfold REMOVE_IF_GROUP_SIZE_LESS_THAN in H.
      destruct (count_spaces (group_sizes a) <? 6) eqn:Ec.
      * rewrite (IH _ _ H). rewrite in_app_iff. simpl.
        apply Z.ltb_lt in Ec. split.
        -- intros [[Hn|[Hn|[]]]|(fr' & a' & H1 & H2)].
           ++ now left.
           ++ subst. right. exists fr, a. tauto.
           ++ right. exists fr', a'. tauto.
        -- intros [Hn|(fr' & a' & [H1|H1] & H2 & H3)].
           ++ left. now left.
           ++ inversion H1; subst. left. right. now left.
           ++ right. exists fr', a'. tauto.
      * rewrite (IH _ _ H). apply Z.ltb_ge in Ec. split.
        -- intros [Hn|(fr' & a' & H1 & H2)]; [now left|].
           right. exists fr', a'. tauto.
        -- intros [Hn|(fr' & a' & [H1|H1] & H2 & H3 & H4)]; [now left | |].
           ++ inversion H1; subst. rewrite Ea in H3. inversion H3; subst. lia.
           ++ right. exists fr', a'. tauto.
Qed.

(** C4, counterexample.  A leaf whose edge carries exactly six caliber
    samples is removed by one application of minor-edge removal: the rule
    compares the number of separating spaces of [group_sizes], five here,
    with the threshold 6. *)
Lemma six_sample_leaf_removed :
  edge_attr six_sample_leaf "0" "1"
  = Some (mkEdge 30%float "10 11 12 13 14 15")
  /\ samples "10 11 12 13 14 15" = Some [10; 11; 12; 13; 14; 15]
  /\ count_spaces "10 11 12 13 14 15" = 5
  /\ minor_edge_nodes six_sample_leaf = Some ["1"]
  /\ option_map node_ids (remove_minor_edges six_sample_leaf) = Some ["0"].
Proof. repeat split; vm_compute; reflexivity. Qed.

(** * Neighbor-majority recoloring *)

Lemma node_attr_set_lobe : forall g n v g',
    set_lobe g n v = Some g' ->
    exists a, node_attr g n = Some a
              /\ node_attr g' n
                 = Some (mkNode (x a) (y a) (z a) v (level a) (successor_count a)).
Proof.
  intros g n v g' H. unfold set_lobe in H.
  destruct (node_attr g n) as [a|] eqn:E; [|discriminate].
  inversion H; subst. exists a. split; [reflexivity|].
  unfold node_attr. simpl. rewrite (dget_dset seqb seqb_eq).
  unfold seqb. now rewrite String.eqb_refl.
Qed.

(** The two updates of [root_successors] cancel: after the assignment
    [n[node]['lobe'] = surrounding_lobe] both read the new lobe. *)
Lemma adjacent_step_counters : forall g root node g' root',
    adjacent_recolor_step (g, root) node = Some (g', root') -> root' = root.
Proof.
  intros g root node g' root' H. unfold adjacent_recolor_step in H.
  destruct (node_attr g node) as [a|] eqn:Ea; [|discriminate].
  destruct (lobe a =? 0); [now inversion H|].
  destruct (adjacent_lobes g node) as [adjacent|]; [|discriminate].
  destruct adjacent as [|s [|? ?]]; try (now inversion H).
  destruct (s =? lobe a); [now inversion H|].
  destruct (dget Z.eqb root (lobe a)) as [c|]; [|discriminate].
  destruct (1 <? c); [|now inversion H].
  destruct (set_lobe g node s) as [g1|] eqn:Es; [|discriminate].
  destruct (node_attr_set_lobe _ _ _ _ Es) as (a0 & _ & Ea1).
  rewrite Ea1 in H. simpl in H.
  destruct (dget Z.eqb root s) as [c1|] eqn:Ec1; [|discriminate].
  rewrite (dget_dset Z.eqb Z.eqb_eq) in H. rewrite Z.eqb_refl in H.
  inversion H; subst.
  rewrite (dset_dset Z.eqb Z.eqb_eq).
  replace (c1 - 1 + 1) with c1 by lia.
  apply (dset_same Z.eqb). exact Ec1.
Qed.

(** What one visit decides: the node is reassigned to the single lobe [s]
    of its non-neutral neighbours when [s] differs from its own lobe and
    the counter of its own lobe exceeds one; otherwise nothing changes. *)
Lemma adjacent_step_decision : forall g root node a g' root',
    node_attr g node = Some a ->
    adjacent_recolor_step (g, root) node = Some (g', root') ->
    (exists s c,
        lobe a <> 0
        /\ adjacent_lobes g node = Some [s]
        /\ s <> lobe a
        /\ dget Z.eqb root (lobe a) = Some c /\ 1 < c
        /\ set_lobe g node s = Some g')
    \/ (g' = g
        /\ ~ exists s c,
              lobe a <> 0
              /\ adjacent_lobes g node = Some [s]
              /\ s <> lobe a
              /\ dget Z.eqb root (lobe a) = Some c /\ 1 < c).
Proof.
  intros g root node a g' root' Ha H. unfold adjacent_recolor_step in H.
  rewrite Ha in H.
  destruct (lobe a =? 0) eqn:Ez.
  { inversion H; subst. right. split; [reflexivity|].
    apply Z.eqb_eq in Ez. intros (s & c & Hz & _). contradiction. }
  apply Z.eqb_neq in Ez.
  destruct (adjacent_lobes g node) as [adjacent|] eqn:Eadj; [|discriminate].
  destruct adjacent as [|s [|s2 rest]].
  - inversion H; subst. right. split; [reflexivity|].
    intros (s & c & _ & Hs & _). discriminate.
  - destruct (s =? lobe a) eqn:Es.
    { inversion H; subst. right. split; [reflexivity|].
      apply Z.eqb_eq in Es. intros (s' & c & _ & Hs & Hne & _).
      inversion Hs; subst. contradiction. }
    apply Z.eqb_neq in Es.
    destruct (dget Z.eqb root (lobe a)) as [c|] eqn:Ec; [|discriminate].
    destruct (1 <? c) eqn:Elt.
    + apply Z.ltb_lt in Elt.
      destruct (set_lobe g node s) as [g1|] eqn:Eset; [|discriminate].
      destruct (node_attr g1 node) as [a1|]; [|discriminate].
      destruct (dget Z.eqb root (lobe a1)) as [c1|]; [|discriminate].
      destruct (dget Z.eqb _ s) as [c2|]; [|discriminate].
      inversion H; subst. left. exists s, c. tauto.
    + inversion H; subst. right. split; [reflexivity|].
      apply Z.ltb_ge in Elt. intros (s' & c' & _ & _ & _ & Hc & Hlt).
      inversion Hc; subst. lia.
  - inversion H; subst. right. split; [reflexivity|].
    intros (s' & c & _ & Hs & _). discriminate.
Qed.

(** C2 (the code departs from the claim).  On [two_leaf_tree] the visit of
    node "5" reassigns it from lobe 1 to the surrounding lobe 2, and the
    maintained counters are the same before and after, [{1: 2, 2: 1}],
    while the tree now holds one node of lobe 1 and two of lobe 2. *)
Theorem adjacent_counters_unchanged :
  (all <- get_successor_lobes_count two_leaf_tree ;; dget seqb all "0")
  = Some [(1, 2); (2, 1)]
  /\ two_leaf_visits ["0"; "1"; "2"; "3"; "4"]
     = Some (two_leaf_tree, [(1, 2); (2, 1)])
  /\ lobe_of two_leaf_tree "5" = Some 1
  /\ adjacent_lobes two_leaf_tree "5" = Some [2]
  /\ ('(g1, root) <- adjacent_recolor_step (two_leaf_tree, [(1, 2); (2, 1)]) "5" ;;
      l <- lobe_of g1 "5" ;;
      c1 <- root_occurrences g1 1 ;;
      c2 <- root_occurrences g1 2 ;;
      Some (l, root, c1, c2))
     = Some (2, [(1, 2); (2, 1)], 1, 2).
Proof. repeat split; vm_compute; reflexivity. Qed.

(** C3 (the code departs from the claim).  When the loop reaches node "6"
    of [two_leaf_tree], lobe 1 occurs exactly once in the tree (node "6"
    itself); the node is reassigned all the same, because the counter of
    lobe 1 still reads 2, and lobe 1 disappears from the tree. *)
Theorem adjacent_recolors_last_occurrence :
  ('(g1, root) <- two_leaf_visits ["0"; "1"; "2"; "3"; "4"; "5"] ;;
   l <- lobe_of g1 "6" ;;
   adjacent <- adjacent_lobes g1 "6" ;;
   c <- root_occurrences g1 1 ;;
   Some (l, adjacent, c, zget root 1))
  = Some (1, [2], 1, 2)
  /\ ('(g2, _) <- two_leaf_visits ["0"; "1"; "2"; "3"; "4"; "5"; "6"] ;;
      l <- lobe_of g2 "6" ;;
      c <- root_occurrences g2 1 ;;
      Some (l, c))
     = Some (2, 0)
  /\ option_map (fun g => map (lobe_of g) (node_ids g))
       (recolor_if_all_adjacent_have_different_color two_leaf_tree)
     = Some [Some 0; Some 0; Some 0; Some 0; Some 2; Some 2; Some 2].
Proof. repeat split; vm_compute; reflexivity. Qed.

(** * Subtree-majority recoloring *)

Lemma mapM_In : forall (A C : Type) (f : A -> option C) l l' y,
    mapM f l = Some l' -> In y l' -> exists a, In a l /\ f a = Some y.
Proof.
  induction l as [|a l IH]; simpl; intros l' y H Hy.
  - inversion H; subst. contradiction.
  - destruct (f a) as [b|] eqn:Ef; [|discriminate].
    destruct (mapM f l) as [bs|]; [|discriminate].
    inversion H; subst. destruct Hy as [Hy|Hy].
    + subst. exists a. split; [now left | exact Ef].
    + destruct (IH _ _ eq_refl Hy) as (a' & H1 & H2). exists a'. split; [now right | exact H2].
Qed.

Lemma nth_error_update_at : forall (A : Type) (f : A -> A) l i j,
    nth_error (update_at l i f) j
    = if (i =? j)%nat then option_map f (nth_error l j) else nth_error l j.
Proof.
  induction l as [|a l IH]; intros i j.
  - destruct i, j; simpl; try reflexivity; destruct (_ =? _)%nat; reflexivity.
  - destruct i, j; simpl; try reflexivity. apply IH.
Qed.

Lemma store_grows_refl : forall o, store_grows o o.
Proof. intros o r occ H. exists occ. split; [exact H | apply incl_refl]. Qed.

Lemma store_grows_trans : forall o1 o2 o3,
    store_grows o1 o2 -> store_grows o2 o3 -> store_grows o1 o3.
Proof.
  intros o1 o2 o3 H12 H23 r occ H.
  destruct (H12 _ _ H) as (occ2 & H2 & I2).
  destruct (H23 _ _ H2) as (occ3 & H3 & I3).
  exists occ3. split; [exact H3 | eapply incl_tran; eauto].
Qed.

Lemma store_grows_alloc : forall o d, store_grows o (o ++ [d]).
Proof.
  intros o d r occ H. exists occ. split; [|apply incl_refl].
  rewrite nth_error_app1; [exact H|]. apply nth_error_Some. congruence.
Qed.

Lemma store_grows_update : forall o r f,
    (forall d, incl (map fst d) (map fst (f d))) ->
    store_grows o (update_at o r f).
Proof.
  intros o r f Hf r' occ H. rewrite nth_error_update_at.
  destruct (r =? r')%nat.
  - rewrite H. simpl. exists (f occ). split; [reflexivity | apply Hf].
  - exists occ. split; [exact H | apply incl_refl].
Qed.

Lemma add_occ_keys : forall d k v, incl (map fst d) (map fst (add_occ d k v)).
Proof.
  intros d k v a Ha. unfold add_occ.
  apply (dset_keys_In Z.eqb Z.eqb_eq). now left.
Qed.

Lemma add_occ_key : forall d k v, In k (map fst (add_occ d k v)).
Proof.
  intros d k v. unfold add_occ. apply (dset_keys_In Z.eqb Z.eqb_eq). now right.
Qed.

Lemma absorb_keys : forall child d,
    incl (map fst d)
      (map fst (fold_left (fun d1 kv => add_occ d1 (fst kv) (snd kv)) child d)).
Proof.
  induction child as [|[k v] child IH]; simpl; intros d.
  - apply incl_refl.
  - eapply incl_tran; [apply add_occ_keys | apply IH].
Qed.

Lemma own_lobe_recorded_grows : forall g st o',
    own_lobe_recorded g st -> store_grows (objs st) o' ->
    own_lobe_recorded g (mkLobes o' (all_succ st)).
Proof.
  intros g st o' Hown Hgrow node r Hin. simpl in *.
  destruct (Hown _ _ Hin) as (occ & Hocc & Hl).
  destruct (Hgrow _ _ Hocc) as (occ' & Hocc' & Hincl).
  exists occ'. split; [exact Hocc'|]. intros a Ha Hz. apply Hincl. eauto.
Qed.

Lemma successor_lobes_inv : forall fuel g T st curr st' r,
    successor_lobes fuel g T st curr = Some (st', r) ->
    own_lobe_recorded g st ->
    own_lobe_recorded g st' /\ store_grows (objs st) (objs st').
Proof.
  induction fuel as [|fuel IH]; intros g T st curr st' r H Hown; [discriminate|].
  simpl in H.
  set (r0 := length (objs st)) in *.
  set (st0 := mkLobes (objs st ++ [[]]) (all_succ st)) in *.
  assert (Hown0 : own_lobe_recorded g st0).
  { apply (own_lobe_recorded_grows _ _ _ Hown). apply store_grows_alloc. }
  assert (Hr0 : nth_error (objs st0) r0 = Some []).
  { unfold st0, r0. simpl. rewrite nth_error_app2 by lia.
    now rewrite Nat.sub_diag. }
  assert (Fold : forall l sta stb,
             foldM
               (fun st' succ =>
                  '(st'', r_s) <- successor_lobes fuel g T st' succ ;;
                  child <- nth_error (objs st'') r_s ;;
                  Some (absorb st'' r0 child)) l sta = Some stb ->
             own_lobe_recorded g sta ->
             own_lobe_recorded g stb /\ store_grows (objs sta) (objs stb)).
  { induction l as [|succ l IHl]; simpl; intros sta stb Hf Ha.
    - inversion Hf; subst. split; [exact Ha | apply store_grows_refl].
    - destruct (successor_lobes fuel g T sta succ) as [[st'' r_s]|] eqn:Ec;
        [|discriminate].
      destruct (nth_error (objs st'') r_s) as [child|]; [|discriminate].
      destruct (IH _ _ _ _ _ _ Ec Ha) as (Hb & Hg).
      assert (Hg2 : store_grows (objs st'') (objs (absorb st'' r0 child))).
      { simpl. apply store_grows_update. intros d. apply absorb_keys. }
      assert (Hc : own_lobe_recorded g (absorb st'' r0 child)).
      { apply (own_lobe_recorded_grows _ _ _ Hb Hg2). }
      destruct (IHl _ _ Hf Hc) as (Hd & Hg3).
      split; [exact Hd|].
      eapply store_grows_trans; [exact Hg|].
      eapply store_grows_trans; [exact Hg2 | exact Hg3]. }
  assert (Hst1 : exists st1,
             own_lobe_recorded g st1 /\ store_grows (objs st0) (objs st1)
             /\ (a <- node_attr g curr ;;
                 (if lobe a =? 0
                  then Some (mkLobes (objs st1) (dset seqb (all_succ st1) curr r0), r0)
                  else Some (mkLobes
                               (update_at (objs st1) r0 (fun d => add_occ d (lobe a) 1))
                               (dset seqb (all_succ st1) curr r0), r0)))
                = Some (st', r)).
  { destruct (dget seqb T curr) as [l|].
    - match type of H with
      | context [foldM ?f l st0] => destruct (foldM f l st0) as [st1|] eqn:Ef
      end; [|discriminate].
      destruct (Fold _ _ _ Ef Hown0) as (H1 & H2).
      exists st1. split; [exact H1|]. split; [exact H2 | exact H].
    - exists st0. split; [exact Hown0|]. split; [apply store_grows_refl | exact H]. }
  destruct Hst1 as (st1 & Hown1 & Hg1 & Hres). clear H Fold.
  destruct (node_attr g curr) as [a|] eqn:Ea; [|discriminate].
  destruct (Hg1 _ _ Hr0) as (occ1 & Hocc1 & _).
  assert (Hg0 : store_grows (objs st) (objs st1)).
  { eapply store_grows_trans; [apply store_grows_alloc | exact Hg1]. }
  destruct (lobe a =? 0) eqn:Ez; inversion Hres; subst; clear Hres.
  - split.
    + intros node r1 Hin. simpl in Hin.
      apply (dset_In seqb seqb_eq) in Hin. destruct Hin as [Hin|Hin].
      * inversion Hin; subst. exists occ1. split; [exact Hocc1|].
        intros a' Ha' Hz. rewrite Ea in Ha'. inversion Ha'; subst.
        apply Z.eqb_eq in Ez. contradiction.
      * apply Hown1. exact Hin.
    + exact Hg0.
  - assert (Hg2 : store_grows (objs st1)
                    (update_at (objs st1) r0 (fun d => add_occ d (lobe a) 1))).
    { apply store_grows_update. intros d. apply add_occ_keys. }
    split.
    + intros node r1 Hin. simpl in Hin.
      apply (dset_In seqb seqb_eq) in Hin. destruct Hin as [Hin|Hin].
      * inversion Hin; subst. simpl. rewrite nth_error_update_at.
        rewrite Nat.eqb_refl, Hocc1. simpl.
        exists (add_occ occ1 (lobe a) 1). split; [reflexivity|].
        intros a' Ha' Hz. rewrite Ea in Ha'. inversion Ha'; subst.
        apply add_occ_key.
      * destruct (Hown1 _ _ Hin) as (occ & Hocc & Hl).
        destruct (Hg2 _ _ Hocc) as (occ' & Hocc' & Hincl).
        exists occ'. split; [exact Hocc'|].
        intros a' Ha' Hz. apply Hincl. eauto.
    + simpl. eapply store_grows_trans; [exact Hg0 | exact Hg2].
Qed.

(** Every set [get_successor_lobes] returns for a non-neutral node holds
    the node's own lobe. *)
Lemma get_successor_lobes_own : forall g items node lobes a,
    get_successor_lobes g = Some items ->
    In (node, lobes) items ->
    node_attr g node = Some a -> lobe a <> 0 ->
    In (lobe a) lobes.
Proof.
  intros g items node lobes a H Hin Ha Hz.
  unfold get_successor_lobes, get_successor_lobes_count in H.
  destruct (successors_dict g) as [T|]; [|discriminate].
  destruct (successor_lobes _ g T (mkLobes [] []) "0") as [[st r]|] eqn:Es;
    [|discriminate].
  match type of H with
  | context [mapM ?f ?l] => destruct (mapM f l) as [all|] eqn:Em
  end; [|discriminate].
  inversion H; subst. clear H.
  apply in_map_iff in Hin. destruct Hin as ([n occ] & Hn & Hin).
  simpl in Hn. inversion Hn; subst.
  destruct (mapM_In _ _ _ _ _ _ Em Hin) as ([n' r'] & Hin' & Hf). simpl in Hf.
  destruct (nth_error (objs st) r') as [occ'|] eqn:Eo; [|discriminate].
  inversion Hf; subst.
  assert (Hnil : own_lobe_recorded g (mkLobes [] [])).
  { intros ? ? []. }
  destruct (successor_lobes_inv _ _ _ _ _ _ _ Es Hnil) as (Hown & _).
  destruct (Hown _ _ Hin') as (occ2 & Ho2 & Hl).
  rewrite Eo in Ho2. inversion Ho2; subst. eauto.
Qed.

(** The pass never changes the tree: the test
    [curr_lobe not in successor_lobes] always fails. *)
Lemma recolor_successors_identity : forall g g',
    recolor_if_successors_all_different_color g = Some g' -> g' = g.
Proof.
  intros g g' H. unfold recolor_if_successors_all_different_color in H.
  destruct (get_successor_lobes g) as [items|] eqn:Ei; [|discriminate].
  assert (G : forall l, incl l items -> foldM successors_recolor_step l g = Some g' -> g' = g).
  { induction l as [|[node lobes] l IHl]; simpl; intros Hincl Hf.
    - now inversion Hf.
    - destruct (node_attr g node) as [a|] eqn:Ea; [|discriminate].
      assert (Hl : incl l items) by (intros y Hy; apply Hincl; now right).
      destruct (lobe a =? 0) eqn:Ez; [now apply IHl|].
      apply Z.eqb_neq in Ez.
      assert (Hm : mem Z.eqb (lobe a) lobes = true).
      { apply (mem_In Z.eqb Z.eqb_eq).
        eapply get_successor_lobes_own; eauto. apply Hincl. now left. }
      rewrite Hm in Hf. rewrite andb_false_r in Hf. now apply IHl. }
  apply (G items); [apply incl_refl | exact H].
Qed.

(** C1 (the code departs from the claim).  In [parent_child_tree] the
    only descendant of the root carries lobe 2 and the root carries lobe 1,
    so the claim has the root reassigned to lobe 2.  The aggregate of the
    root holds its own lobe as well, [{2, 1}], and the pass returns the
    tree as it was. *)
Theorem subtree_majority_leaves_root :
  lobe_of parent_child_tree "0" = Some 1
  /\ lobe_of parent_child_tree "1" = Some 2
  /\ bfs_edges parent_child_tree "0" = Some [("0", "1")]
  /\ get_successor_lobes parent_child_tree = Some [("1", [2]); ("0", [2; 1])]
  /\ recolor_if_successors_all_different_color parent_child_tree
     = Some parent_child_tree.
Proof. repeat split; vm_compute; reflexivity. Qed.

(** * The drastic subtree recolor *)

Lemma at_level_4_or_5_spec : forall lvl sl,
    at_level_4_or_5 lvl sl = true
    <-> (lvl = 4 /\ ~ In 4 (map fst sl) /\ ~ In 5 (map fst sl))
        \/ (lvl = 5 /\ In 4 (map fst sl) /\ In 5 (map fst sl)).
Proof.
  intros lvl sl. unfold at_level_4_or_5. simpl.
  rewrite <- !(dmem_In Z.eqb Z.eqb_eq).
  destruct (Z.eqb_spec lvl 4) as [E4|E4], (Z.eqb_spec lvl 5) as [E5|E5];
    destruct (dmem Z.eqb sl 4), (dmem Z.eqb sl 5); simpl;
    intuition (try congruence; try lia).
Qed.


(** * The node-removal loop *)

Lemma foldM_app : forall (A C : Type) (f : A -> C -> option A) l1 l2 acc,
    foldM f (l1 ++ l2) acc = (a <- foldM f l1 acc ;; foldM f l2 a).
Proof.
  induction l1 as [|b l1 IH]; simpl; intros l2 acc; [reflexivity|].
  destruct (f acc b); [apply IH | reflexivity].
Qed.

Lemma foldM_invariant : forall (A C : Type) (P : A -> Prop)
    (f : A -> C -> option A) l acc acc',
    (forall a b a', P a -> f a b = Some a' -> P a') ->
    P acc -> foldM f l acc = Some acc' -> P acc'.
Proof.
  induction l as [|b l IH]; simpl; intros acc acc' Hf Hp H.
  - inversion H; subst. exact Hp.
  - destruct (f acc b) as [a|] eqn:E; [|discriminate].
    apply (IH a acc' Hf); [exact (Hf _ _ _ Hp E) | exact H].
Qed.

Lemma merge_edges_nodes : forall g p n s g',
    merge_edges g p n s = Some g' -> g_node g' = g_node g.
Proof.
  intros g p n s g' H. unfold merge_edges in H.
  destruct (distance g p s); [|discriminate].
  destruct (combine_group_sizes g p n s); [|discriminate].
  now inversion H.
Qed.

Lemma remove_node_nodes : forall g n g',
    remove_node g n = Some g' ->
    has_node g n = true /\ g_node g' = ddel seqb (g_node g) n.
Proof.
  intros g n g' H. unfold remove_node in H.
  destruct (has_node g n) eqn:E; [|discriminate].
  destruct (neighbors g n); [|discriminate].
  inversion H. now split.
Qed.

Lemma remove_node_count : forall g n g',
    remove_node g n = Some g' ->
    S (number_of_nodes g') = number_of_nodes g.
Proof.
  intros g n g' H. apply remove_node_nodes in H. destruct H as [H1 H2].
  unfold number_of_nodes. rewrite H2.
  apply (ddel_length_In seqb seqb_eq). now apply (dmem_In seqb seqb_eq).
Qed.

Lemma remove_nodes_count : forall l g g',
    remove_nodes g l = Some g' ->
    (number_of_nodes g' + length l = number_of_nodes g)%nat.
Proof.
  unfold remove_nodes. induction l as [|n l IH]; simpl; intros g g' H.
  - inversion H. lia.
  - destruct (remove_node g n) as [g1|] eqn:E; [|discriminate].
    apply remove_node_count in E. apply IH in H. lia.
Qed.

Lemma remove_minor_edges_count : forall g g',
    remove_minor_edges g = Some g' ->
    (number_of_nodes g' <= number_of_nodes g)%nat.
Proof.
  intros g g' H. unfold remove_minor_edges in H.
  destruct (minor_edge_nodes g); [|discriminate].
  apply remove_nodes_count in H. lia.
Qed.

Lemma straighten_edges_count : forall g g',
    straighten_edges g = Some g' ->
    (number_of_nodes g' <= number_of_nodes g)%nat.
Proof.
  intros g g' H. unfold straighten_edges in H.
  destruct (predecessors_dict g) as [preds|]; [|discriminate].
  destruct (bfs_successors g "0") as [succ|]; [|discriminate].
  match type of H with
  | context [foldM ?f ?l ?a] => destruct (foldM f l a) as [[[g1 rem] cant]|] eqn:Ef
  end; [|discriminate].
  assert (Hn : g_node g1 = g_node g).
  { apply (foldM_invariant _ _
             (fun st : Graph * list string * list string =>
                g_node (fst (fst st)) = g_node g)
             (straighten_step preds) (only_single_successor succ)
             (g, [], ["0"]) (g1, rem, cant));
      [| reflexivity | exact Ef].
    intros [[ga ra] ca] [node successor] [[gb rb] cb] Ha Hs. simpl in *.
    destruct (mem seqb node ca); [inversion Hs; subst; exact Ha|].
    destruct (dget seqb preds node); [|discriminate].
    destruct (merge_edges ga s node successor) as [gm|] eqn:Em; [|discriminate].
    inversion Hs; subst. apply merge_edges_nodes in Em. congruence. }
  apply remove_nodes_count in H. unfold number_of_nodes in *.
  rewrite Hn in H. lia.
Qed.

Lemma merge_close_nodes_count : forall g g',
    merge_close_nodes g = Some g' ->
    (number_of_nodes g' <= number_of_nodes g)%nat.
Proof.
  intros g g' H. unfold merge_close_nodes in H.
  destruct (merge_close_plan g) as [[[rem merges] cant]|]; [|discriminate].
  match type of H with
  | context [foldM ?f ?l ?a] => destruct (foldM f l a) as [g1|] eqn:Ef
  end; [|discriminate].
  assert (Hn : g_node g1 = g_node g).
  { apply (foldM_invariant _ _ (fun ga : Graph => g_node ga = g_node g)
             (fun g1 (m : string * string * string) =>
                let '(p, n, s) := m in merge_edges g1 p n s)
             merges g g1); [| reflexivity | exact Ef].
    intros ga [[p n] s] gb Ha Hm. apply merge_edges_nodes in Hm. congruence. }
  apply remove_nodes_count in H. unfold number_of_nodes in *.
  rewrite Hn in H. lia.
Qed.

Lemma remove_children_without_children_count : forall g g',
    remove_children_without_children g = Some g' ->
    (number_of_nodes g' <= number_of_nodes g)%nat.
Proof.
  intros g g' H. unfold remove_children_without_children in H.
  destruct (childless_nodes g); [|discriminate].
  apply remove_nodes_count in H. lia.
Qed.

Lemma removal_cycle_count : forall g g',
    removal_cycle g = Some g' ->
    (number_of_nodes g' <= number_of_nodes g)%nat.
Proof.
  intros g g' H. unfold removal_cycle in H.
  destruct (remove_minor_edges g) as [g1|] eqn:E1; [|discriminate].
  destruct (straighten_edges g1) as [g2|] eqn:E2; [|discriminate].
  destruct (merge_close_nodes g2) as [g3|] eqn:E3; [|discriminate].
  apply remove_minor_edges_count in E1. apply straighten_edges_count in E2.
  apply merge_close_nodes_count in E3.
  apply remove_children_without_children_count in H. lia.
Qed.

Lemma removal_loop_fuel : forall fuel g,
    (number_of_nodes g < fuel)%nat -> removal_loop fuel g <> OutOfFuel.
Proof.
  induction fuel as [|fuel IH]; intros g Hlt; [lia|].
  simpl. destruct (removal_cycle g) as [g'|] eqn:E; [|discriminate].
  destruct (number_of_nodes g =? number_of_nodes g')%nat eqn:En; [discriminate|].
  apply IH. apply removal_cycle_count in E. apply Nat.eqb_neq in En. lia.
Qed.

Lemma removal_loop_first_stable : forall fuel g g',
    removal_loop fuel g = Finished g' ->
    exists k gk,
      (k < fuel)%nat
      /\ cycles k g = Some gk
      /\ removal_cycle gk = Some g'
      /\ number_of_nodes gk = number_of_nodes g'
      /\ forall j, (j < k)%nat ->
           exists gj gj', cycles j g = Some gj
                          /\ removal_cycle gj = Some gj'
                          /\ (number_of_nodes gj' < number_of_nodes gj)%nat.
Proof.
  induction fuel as [|fuel IH]; intros g g' H; [discriminate|].
  simpl in H. destruct (removal_cycle g) as [g1|] eqn:E; [|discriminate].
  destruct (number_of_nodes g =? number_of_nodes g1)%nat eqn:En.
  - inversion H; subst. exists 0%nat, g. apply Nat.eqb_eq in En.
    split; [lia|]. split; [reflexivity|]. split; [exact E|].
    split; [exact En|]. intros j Hj. lia.
  - destruct (IH _ _ H) as (k & gk & Hk & Hc & Hr & Hn & Hbefore).
    exists (S k), gk.
    split; [lia|]. split; [simpl; now rewrite E|]. split; [exact Hr|].
    split; [exact Hn|].
    intros [|j] Hj.
    + exists g, g1. split; [reflexivity|]. split; [exact E|].
      pose proof (removal_cycle_count _ _ E). apply Nat.eqb_neq in En. lia.
    + destruct (Hbefore j) as (gj & gj' & H1 & H2 & H3); [lia|].
      exists gj, gj'. simpl. rewrite E. tauto.
Qed.

(** C6.  The node-removal loop terminates on every tree: started with one
    unit of fuel more than the tree has nodes it never runs out (it ends
    normally, or a rule raises and the run aborts).  A cycle is the four
    rules in their order, none of which lets the node count grow, and the
    loop returns at the first cycle that leaves the node count unchanged:
    every earlier cycle removed at least one node. *)
Theorem removal_loop_terminates :
  forall g : Graph,
    removal_loop (S (number_of_nodes g)) g <> OutOfFuel
    /\ (forall g1 g2 g3 g4,
           remove_minor_edges g = Some g1 ->
           straighten_edges g1 = Some g2 ->
           merge_close_nodes g2 = Some g3 ->
           remove_children_without_children g3 = Some g4 ->
           removal_cycle g = Some g4
           /\ (number_of_nodes g1 <= number_of_nodes g)%nat
           /\ (number_of_nodes g2 <= number_of_nodes g1)%nat
           /\ (number_of_nodes g3 <= number_of_nodes g2)%nat
           /\ (number_of_nodes g4 <= number_of_nodes g3)%nat)
    /\ (forall fuel g',
           removal_loop fuel g = Finished g' ->
           exists k gk,
             (k < fuel)%nat
             /\ cycles k g = Some gk
             /\ removal_cycle gk = Some g'
             /\ number_of_nodes gk = number_of_nodes g'
             /\ forall j, (j < k)%nat ->
                  exists gj gj', cycles j g = Some gj
                                 /\ removal_cycle gj = Some gj'
                                 /\ (number_of_nodes gj' < number_of_nodes gj)%nat).
Proof.
  intros g. split; [|split].
  - apply removal_loop_fuel. lia.
  - intros g1 g2 g3 g4 H1 H2 H3 H4. split.
    + unfold removal_cycle. now rewrite H1, H2, H3.
    + repeat split.
      * now apply remove_minor_edges_count.
      * now apply straighten_edges_count.
      * now apply merge_close_nodes_count.
      * now apply remove_children_without_children_count.
  - intros fuel g' H. now apply removal_loop_first_stable.
Qed.

Lemma removal_loop_terminates_witness :
  removal_loop 4 short_chain <> OutOfFuel
  /\ (number_of_nodes (force (remove_minor_edges short_chain))
      <= number_of_nodes short_chain)%nat
  /\ exists k gk,
      (k < 4)%nat
      /\ cycles k short_chain = Some gk
      /\ removal_cycle gk = Some (force (cycles 2 short_chain))
      /\ number_of_nodes gk = number_of_nodes (force (cycles 2 short_chain))
      /\ forall j, (j < k)%nat ->
           exists gj gj', cycles j short_chain = Some gj
                          /\ removal_cycle gj = Some gj'
                          /\ (number_of_nodes gj' < number_of_nodes gj)%nat.
Proof.
  destruct (removal_loop_terminates short_chain) as (H1 & H2 & H3).
  split; [exact H1|]. split.
  - assert (E1 : remove_minor_edges short_chain
                 = Some (force (remove_minor_edges short_chain)))
      by (vm_compute; reflexivity).
    assert (E2 : straighten_edges (force (remove_minor_edges short_chain))
                 = Some (force (remove_minor_edges short_chain)))
      by (vm_compute; reflexivity).
    assert (E3 : merge_close_nodes (force (remove_minor_edges short_chain))
                 = Some (force (remove_minor_edges short_chain)))
      by (vm_compute; reflexivity).
    assert (E4 : remove_children_without_children
                   (force (remove_minor_edges short_chain))
                 = Some (force (cycles 1 short_chain)))
      by (vm_compute; reflexivity).
    destruct (H2 _ _ _ _ E1 E2 E3 E4) as (_ & H & _). exact H.
  - apply (H3 4%nat (force (cycles 2 short_chain))). vm_compute. reflexivity.
Defined.

(** * Straightening a chain *)

(** A space after [s1] ends whatever character [s1] ends with. *)
Lemma continuations_join : forall k s1 s2,
    continuations k (s1 ++ String space s2)%string = continuations k s1.
Proof.
  induction k as [|k IH]; intros s1 s2; [reflexivity|].
  destruct s1 as [|c s1]; [reflexivity|].
  cbn [continuations append]. now rewrite IH.
Qed.

Lemma continuations_length : forall k s l,
    continuations k s = Some l -> (k <= String.length s)%nat.
Proof.
  induction k as [|k IH]; intros s l H; [lia|].
  destruct s as [|c s]; [discriminate|]. cbn [continuations] in H.
  destruct ((0x80 <=? N_of_ascii c) && (N_of_ascii c <? 0xC0))%N; [|discriminate].
  destruct (continuations k s) as [l'|] eqn:E; [|discriminate].
  apply IH in E. simpl. lia.
Qed.

Lemma utf8_head_join : forall c s1 s2,
    utf8_head c (s1 ++ String space s2)%string = utf8_head c s1.
Proof.
  intros c s1 s2. unfold utf8_head. now rewrite !continuations_join.
Qed.

Lemma utf8_head_length : forall c s cp more,
    utf8_head c s = (cp, more) -> (more <= String.length s)%nat.
Proof.
  intros c s cp more H. unfold utf8_head in H.
  repeat match type of H with
         | (if ?b then _ else _) = _ => destruct b
         | match continuations ?k s with _ => _ end = _ =>
             let E := fresh "E" in
             destruct (continuations k s) as [[|? [|? [|? [|? ?]]]]|] eqn:E;
             try apply continuations_length in E
         end;
    inversion H; subst; lia.
Qed.

Lemma split_ws_join : forall s1 s2 skip cur,
    (skip <= String.length s1)%nat ->
    split_ws skip cur (s1 ++ String space s2)%string
    = split_ws skip cur s1 ++ split_ws 0 "" s2.
Proof.
  induction s1 as [|ch s1 IH]; intros s2 skip cur Hskip.
  - simpl in Hskip. assert (skip = 0%nat) by lia. subst skip.
    cbn [append split_ws].
    change (utf8_head space s2) with (32%N, 0%nat).
    change (is_space 32) with true. cbv iota beta.
    destruct (is_empty cur); reflexivity.
  - cbn [append split_ws]. destruct skip as [|skip].
    + rewrite utf8_head_join.
      destruct (utf8_head ch s1) as [cp more] eqn:Eh.
      pose proof (utf8_head_length ch s1 cp more Eh) as Hmore.
      destruct (is_space cp).
      * destruct (is_empty cur); rewrite (IH s2 more "" Hmore); reflexivity.
      * apply IH. lia.
    + apply IH. simpl in Hskip. lia.
Qed.

Lemma str_split_join : forall s1 s2,
    str_split (s1 ++ " " ++ s2)%string = str_split s1 ++ str_split s2.
Proof. intros. unfold str_split. apply split_ws_join. lia. Qed.

Lemma mapM_app : forall (A C : Type) (f : A -> option C) l1 l2 r1 r2,
    mapM f l1 = Some r1 -> mapM f l2 = Some r2 ->
    mapM f (l1 ++ l2) = Some (r1 ++ r2).
Proof.
  induction l1 as [|a l1 IH]; simpl; intros l2 r1 r2 H1 H2.
  - inversion H1. exact H2.
  - destruct (f a) as [b|]; [|discriminate].
    destruct (mapM f l1) as [bs|] eqn:E; [|discriminate].
    inversion H1; subst. now rewrite (IH l2 bs r2 eq_refl H2).
Qed.

Lemma samples_join : forall s1 s2 l1 l2,
    samples s1 = Some l1 -> samples s2 = Some l2 ->
    samples (s1 ++ " " ++ s2)%string = Some (l1 ++ l2).
Proof.
  intros s1 s2 l1 l2 H1 H2. unfold samples in *.
  rewrite str_split_join. now apply mapM_app.
Qed.

Lemma dget_here : forall (V : Type) k (v : V) d, dget seqb ((k, v) :: d) k = Some v.
Proof. intros. simpl. unfold seqb. now rewrite String.eqb_refl. Qed.
Lemma dget_next : forall (V : Type) k k' (v : V) d, k' <> k -> dget seqb ((k', v) :: d) k = dget seqb d k.
Proof. intros V k k' v d H. simpl. apply String.eqb_neq in H. unfold seqb. now rewrite H. Qed.
Lemma dget_nil : forall (V : Type) k, dget seqb (@nil (string * V)) k = None.
Proof. reflexivity. Qed.
Lemma dset_here : forall (V : Type) k (v v' : V) d, dset seqb ((k, v) :: d) k v' = (k, v') :: d.
Proof. intros. simpl. unfold seqb. now rewrite String.eqb_refl. Qed.
Lemma dset_next : forall (V : Type) k k' (v v' : V) d, k' <> k -> dset seqb ((k', v) :: d) k v' = (k', v) :: dset seqb d k v'.
Proof. intros V k k' v v' d H. simpl. apply String.eqb_neq in H. unfold seqb. now rewrite H. Qed.
Lemma dset_nil : forall (V : Type) k (v : V), dset seqb [] k v = [(k, v)].
Proof. reflexivity. Qed.
Lemma ddel_here : forall (V : Type) k (v : V) d, ddel seqb ((k, v) :: d) k = d.
Proof. intros. simpl. unfold seqb. now rewrite String.eqb_refl. Qed.
Lemma ddel_next : forall (V : Type) k k' (v : V) d, k' <> k -> ddel seqb ((k', v) :: d) k = (k', v) :: ddel seqb d k.
Proof. intros V k k' v d H. simpl. apply String.eqb_neq in H. unfold seqb. now rewrite H. Qed.
Lemma ddel_nil : forall (V : Type) k, ddel seqb (@nil (string * V)) k = [].
Proof. reflexivity. Qed.
Lemma mem_here : forall k s, mem seqb k (k :: s) = true.
Proof. intros. simpl. unfold seqb. now rewrite String.eqb_refl. Qed.
Lemma mem_next : forall k k' s, k' <> k -> mem seqb k (k' :: s) = mem seqb k s.
Proof. intros k k' s H. simpl. apply String.eqb_neq in H. unfold seqb. now rewrite H. Qed.
Lemma mem_nil : forall k, mem seqb k [] = false.
Proof. reflexivity. Qed.
Lemma seqb_same : forall k, seqb k k = true.
Proof. intros. unfold seqb. apply String.eqb_refl. Qed.
Lemma seqb_diff : forall k k', k <> k' -> seqb k k' = false.
Proof. intros. unfold seqb. now apply String.eqb_neq. Qed.

(** Evaluation of dictionary operations on keys that are equal or known
    to differ. *)
Ltac dstep :=
  first
    [ rewrite dget_here | rewrite dget_next by congruence | rewrite dget_nil
    | rewrite dset_here | rewrite dset_next by congruence | rewrite dset_nil
    | rewrite ddel_here | rewrite ddel_next by congruence | rewrite ddel_nil
    | rewrite mem_here | rewrite mem_next by congruence | rewrite mem_nil
    | rewrite seqb_same | rewrite seqb_diff by congruence ].

Ltac graph_eval :=
  repeat (progress
            (cbn;
             unfold neighbors, adj_row, edge_attr, node_attr, has_node, dmem,
               set_add, set_union, set_of_list, dict_of_list, remove_nodes,
               remove_node, add_edge, adj_set, merge_edges, distance,
               combine_group_sizes, straighten_step;
             repeat dstep)).

Section Chain.
Variables a b c : string.
Variables n0 na nb nc : NodeAttr.
Variables e1 e2 e3 : EdgeAttr.
Variables wb wc : float.
Hypothesis Ha : a <> "0".
Hypothesis Hb : b <> "0".
Hypothesis Hc : c <> "0".
Hypothesis Hab : a <> b.
Hypothesis Hac : a <> c.
Hypothesis Hbc : b <> c.
Hypothesis Hwb : node_distance n0 nb = Some wb.
Hypothesis Hwc : node_distance n0 nc = Some wc.

Local Arguments dget : simpl never.
Local Arguments dset : simpl never.
Local Arguments ddel : simpl never.
Local Arguments mem : simpl never.
Local Arguments seqb : simpl never.
Local Arguments node_distance : simpl never.

Let eb : EdgeAttr :=
  mkEdge wb (group_sizes e1 ++ " " ++ group_sizes e2)%string.
Let ec : EdgeAttr :=
  mkEdge wc ((group_sizes e1 ++ " " ++ group_sizes e2) ++ " " ++ group_sizes e3)%string.

Lemma chain_blocks :
  bfs_blocks (chain_graph a b c n0 na nb nc e1 e2 e3) "0"
  = Some [("0", [a]); (a, [b]); (b, [c]); (c, [])].
Proof. unfold bfs_blocks, chain_graph. graph_eval. reflexivity. Qed.

Lemma chain_first_pass :
  straighten_edges (chain_graph a b c n0 na nb nc e1 e2 e3)
  = Some (chain_after_first b c n0 nb nc eb e3).
Proof.
  unfold straighten_edges, predecessors_dict, bfs_predecessors,
    bfs_successors, bfs_edges.
  rewrite chain_blocks. unfold chain_graph. graph_eval.
  rewrite Hwb. graph_eval. reflexivity.
Qed.

Lemma chain_second_pass :
  straighten_edges (chain_after_first b c n0 nb nc eb e3)
  = Some (single_edge_graph c n0 nc ec).
Proof.
  unfold straighten_edges, predecessors_dict, bfs_predecessors,
    bfs_successors, bfs_edges, bfs_blocks, chain_after_first.
  graph_eval. rewrite Hwc. graph_eval. reflexivity.
Qed.

Lemma chain_fixpoint :
  straighten_edges (single_edge_graph c n0 nc ec)
  = Some (single_edge_graph c n0 nc ec).
Proof.
  unfold straighten_edges, predecessors_dict, bfs_predecessors,
    bfs_successors, bfs_edges, bfs_blocks, single_edge_graph.
  graph_eval. reflexivity.
Qed.

Lemma chain_iter : forall k,
    straighten_iter (2 + k) (chain_graph a b c n0 na nb nc e1 e2 e3)
    = Some (single_edge_graph c n0 nc ec).
Proof.
  intros k. simpl. rewrite chain_first_pass, chain_second_pass.
  induction k as [|k IH]; simpl; [reflexivity|].
  rewrite chain_fixpoint. exact IH.
Qed.
End Chain.



(** * Close-node merging *)

Lemma bfs_run_edge_order : forall queue B,
    bfs_run queue B ->
    forall X p c Y, edges_of B = X ++ (p, c) :: Y ->
                    In p queue \/ In p (map snd X).
Proof.
  intros queue B R. induction R as [|p0 q new B R IH]; intros X p c Y E.
  - destruct X; discriminate.
  - change (edges_of ((p0, new) :: B)) with (map (pair p0) new ++ edges_of B) in E.
    symmetry in E. apply app_eq_app in E. destruct E as [l [[E1 E2]|[E1 E2]]].
    + destruct (IH l p c Y E2) as [H|H].
      * apply in_app_or in H. destruct H as [H|H]; [left; now right|].
        right. subst X. rewrite map_app, map_map. simpl. rewrite map_id.
        apply in_or_app. now left.
      * right. subst X. rewrite map_app. apply in_or_app. now right.
    + destruct l as [|e l].
      * simpl in E2. rewrite app_nil_r in E1. subst X.
        destruct (IH [] p c Y) as [H|[]]; [symmetry; exact E2|].
        apply in_app_or in H. destruct H as [H|H]; [left; now right|].
        right. rewrite map_map. simpl. now rewrite map_id.
      * simpl in E2. inversion E2; subst. left. left.
        assert (Hin : In (p, c) (map (pair p0) new)).
        { rewrite E1. apply in_or_app. right. now left. }
        apply in_map_iff in Hin. destruct Hin as [c' [Hc _]]. now inversion Hc.
Qed.

Lemma forest_edge_order : forall source B,
    is_forest source B ->
    forall X p c Y, edges_of B = X ++ (p, c) :: Y ->
                    p = source \/ In p (map snd X).
Proof.
  intros source B [R _] X p c Y E.
  destruct (bfs_run_edge_order _ _ R _ _ _ _ E) as [[H|[]]|H]; [now left | now right].
Qed.

Lemma NoDup_app_disjoint : forall (A : Type) (l1 l2 : list A) x,
    NoDup (l1 ++ l2) -> In x l1 -> In x l2 -> False.
Proof.
  induction l1 as [|a l1 IH]; simpl; intros l2 x ND H1 H2; [contradiction|].
  inversion ND as [|? ? Hn ND']; subst. destruct H1 as [H1|H1].
  - subst. apply Hn. apply in_or_app. now right.
  - eapply IH; eauto.
Qed.

(** A node yielded by an edge is the parent of later edges only. *)
Lemma forest_child_then_parent : forall source B X p c Y s,
    is_forest source B ->
    edges_of B = X ++ (p, c) :: Y ->
    In (c, s) (edges_of B) -> In (c, s) Y.
Proof.
  intros source B X p c Y s F E Hin.
  pose proof (forest_NoDup_children _ _ F) as ND.
  pose proof (forest_source_not_child _ _ F) as Hs.
  rewrite <- edges_of_children in ND, Hs. rewrite E in ND, Hs.
  rewrite map_app in ND, Hs. simpl in ND, Hs.
  rewrite E in Hin. apply in_app_or in Hin. destruct Hin as [Hin|[Hin|Hin]].
  - exfalso. apply in_split in Hin. destruct Hin as (X1 & X2 & EX).
    assert (E' : edges_of B = X1 ++ (c, s) :: (X2 ++ (p, c) :: Y)).
    { rewrite E, EX. now rewrite <- app_assoc. }
    destruct (forest_edge_order _ _ F _ _ _ _ E') as [H|H].
    + subst c. apply Hs. apply in_or_app. right. now left.
    + apply (NoDup_app_disjoint _ _ _ c ND); [|now left].
      subst X. rewrite map_app. apply in_or_app. now left.
  - exfalso. inversion Hin; subst.
    destruct (forest_edge_order _ _ F _ _ _ _ E) as [H|H].
    + subst s. apply Hs. apply in_or_app. right. now left.
    + apply (NoDup_app_disjoint _ _ _ s ND); [exact H | now left].
  - exact Hin.
Qed.

Lemma merge_close_step_invariant : forall g source B E1 p c E2 st st',
    is_forest source B ->
    source = "0" ->
    (exists cs B', B = (source, cs) :: B') ->
    edges_of B = E1 ++ (p, c) :: E2 ->
    close_invariant (edges_of B) E1 st ->
    merge_close_step g (successor_table B) st (p, c) = Some st' ->
    close_invariant (edges_of B) (E1 ++ [(p, c)]) st'.
Proof.
  intros g source B E1 p c E2 [[rem merges] cant] st' F Hsrc Hhead E Inv Hstep.
  destruct Inv as (I1 & I2 & I3 & I4 & I5).
  assert (Keep : close_invariant (edges_of B) (E1 ++ [(p, c)]) (rem, merges, cant)).
  { repeat split; try assumption.
    intros n Hn. rewrite map_app. apply in_or_app. left. now apply I2. }
  unfold merge_close_step in Hstep.
  destruct (mem seqb c cant) eqn:Ec; [inversion Hstep; subst; exact Keep|].
  destruct (edge_attr g p c) as [curr|]; [|discriminate].
  destruct (is_close curr) as [[|]|]; [| inversion Hstep; subst; exact Keep | discriminate].
  inversion Hstep; subst st'. clear Hstep Keep.
  apply (mem_not_In seqb seqb_eq) in Ec.
  set (succs := match dget seqb (successor_table B) c with
                | Some l => l
                | None => []
                end).
  assert (Hsuccs : forall s, In (c, s) (edges_of B) -> In s succs).
  { intros s Hs. apply (table_children source B F Hhead) in Hs.
    destruct Hs as (cs & Hg & Hs). unfold succs. now rewrite Hg. }
  assert (Hpc : In (p, c) (edges_of B)).
  { rewrite E. apply in_or_app. right. now left. }
  assert (Hfresh : ~ In c (map snd E1)).
  { pose proof (forest_NoDup_children _ _ F) as ND.
    rewrite <- edges_of_children, E, map_app in ND. simpl in ND.
    intros H. apply (NoDup_app_disjoint _ _ _ c ND); [exact H | now left]. }
  assert (Hcrem : ~ In c rem) by (intros H; apply Hfresh; now apply I2).
  repeat split.
  - apply (set_union_In seqb seqb_eq). now left.
  - intros n Hn. rewrite map_app. apply in_or_app. simpl.
    apply in_app_or in Hn. destruct Hn as [Hn|[Hn|[]]]; [left; now apply I2 | right; now left].
  - intros n s Hn Hs. apply (set_union_In seqb seqb_eq).
    apply in_app_or in Hn. destruct Hn as [Hn|[Hn|[]]].
    + left. eapply I3; eauto.
    + subst n. right. now apply Hsuccs.
  - intros n s Hn Hs Hsr.
    apply in_app_or in Hn. apply in_app_or in Hsr.
    destruct Hn as [Hn|[Hn|[]]], Hsr as [Hsr|[Hsr|[]]].
    + exact (I4 n s Hn Hs Hsr).
    + subst s. apply Ec. eapply I3; eauto.
    + subst n. pose proof (forest_child_then_parent _ _ _ _ _ _ s F E Hs) as HY.
      apply I2 in Hsr.
      pose proof (forest_NoDup_children _ _ F) as ND.
      rewrite <- edges_of_children, E, map_app in ND. simpl in ND.
      apply (NoDup_app_disjoint _ _ _ s ND); [exact Hsr|].
      right. apply (in_map snd) in HY. exact HY.
    + subst n s. pose proof (forest_child_then_parent _ _ _ _ _ _ c F E Hs) as HY.
      pose proof (forest_NoDup_children _ _ F) as ND.
      rewrite <- edges_of_children, E, map_app in ND. simpl in ND.
      apply NoDup_app_remove_l in ND. inversion ND as [|? ? Hn ND']; subst.
      apply Hn. apply (in_map snd) in HY. exact HY.
  - intros n s Hn Hs. apply in_app_or in Hn. destruct Hn as [Hn|[Hn|[]]].
    + destruct (I5 n s Hn Hs) as (p' & H1 & H2). exists p'.
      split; [exact H1 | apply in_or_app; now left].
    + subst n. exists p. split; [exact Hpc|].
      apply in_or_app. right. apply in_map_iff. exists s.
      split; [reflexivity | now apply Hsuccs].
Qed.

Lemma merge_close_fold_invariant : forall g source B,
    is_forest source B ->
    source = "0" ->
    (exists cs B', B = (source, cs) :: B') ->
    forall E2 E1 st st',
      edges_of B = E1 ++ E2 ->
      close_invariant (edges_of B) E1 st ->
      foldM (merge_close_step g (successor_table B)) E2 st = Some st' ->
      close_invariant (edges_of B) (edges_of B) st'.
Proof.
  intros g source B F Hsrc Hhead.
  induction E2 as [|[p c] E2 IH]; simpl; intros E1 st st' E Inv H.
  - inversion H; subst. rewrite app_nil_r in E.
    replace (close_invariant (edges_of B) (edges_of B) st')
      with (close_invariant (edges_of B) E1 st') by (now rewrite E).
    exact Inv.
  - destruct (merge_close_step g (successor_table B) st (p, c)) as [st1|] eqn:Es;
      [|discriminate].
    apply (IH (E1 ++ [(p, c)]) st1 st'); [| | exact H].
    + rewrite <- app_assoc. exact E.
    + eapply merge_close_step_invariant; eauto.
Qed.

Lemma merge_close_plan_invariant : forall g st,
    merge_close_plan g = Some st ->
    exists E, bfs_edges g "0" = Some E /\ close_invariant E E st.
Proof.
  intros g st H. unfold merge_close_plan in H.
  destruct (successors_dict g) as [T|] eqn:ET; [|discriminate].
  destruct (bfs_edges g "0") as [E|] eqn:EE; [|discriminate].
  exists E. split; [reflexivity|].
  unfold bfs_edges in EE.
  destruct (bfs_blocks g "0") as [B|] eqn:EB; [|discriminate].
  inversion EE; subst E. clear EE.
  rewrite (successors_dict_table _ _ EB) in ET. inversion ET; subst T.
  apply (merge_close_fold_invariant g "0" B (bfs_blocks_forest _ _ _ EB)
           eq_refl (bfs_blocks_head _ _ _ EB) (edges_of B) [] ([], [], ["0"]) st);
    [reflexivity | | exact H].
  repeat split; simpl; tauto.
Qed.

Lemma remove_node_keeps : forall g n g' m,
    remove_node g n = Some g' -> m <> n ->
    has_node g m = true -> has_node g' m = true.
Proof.
  intros g n g' m H Hne Hm. apply remove_node_nodes in H. destruct H as [_ H].
  unfold has_node, dmem in *. rewrite H.
  rewrite (dget_ddel_other seqb seqb_eq); [exact Hm | congruence].
Qed.

Lemma remove_nodes_keeps : forall l g g' m,
    remove_nodes g l = Some g' -> ~ In m l ->
    has_node g m = true -> has_node g' m = true.
Proof.
  unfold remove_nodes. induction l as [|n l IH]; simpl; intros g g' m H Hn Hm.
  - inversion H; subst. exact Hm.
  - destruct (remove_node g n) as [g1|] eqn:E; [|discriminate].
    apply (IH g1 g' m H); [tauto|].
    apply (remove_node_keeps g n g1 m E); [intros Heq; subst; tauto | exact Hm].
Qed.

Lemma merge_close_nodes_keeps : forall g g' rem merges cant m,
    merge_close_plan g = Some (rem, merges, cant) ->
    merge_close_nodes g = Some g' ->
    ~ In m rem -> has_node g m = true -> has_node g' m = true.
Proof.
  intros g g' rem merges cant m Hp H Hn Hm. unfold merge_close_nodes in H.
  rewrite Hp in H.
  match type of H with
  | context [foldM ?f ?l ?a] => destruct (foldM f l a) as [g1|] eqn:Ef
  end; [|discriminate].
  assert (Hnodes : g_node g1 = g_node g).
  { apply (foldM_invariant _ _ (fun ga : Graph => g_node ga = g_node g)
             (fun g1 (m : string * string * string) =>
                let '(p, n, s) := m in merge_edges g1 p n s)
             merges g g1); [| reflexivity | exact Ef].
    intros ga [[p n] s] gb Ha Hmg. apply merge_edges_nodes in Hmg. congruence. }
  apply (remove_nodes_keeps rem g1 g' m H Hn).
  unfold has_node in *. now rewrite Hnodes.
Qed.

(** C9.  One pass of close-node merging never puts the root "0" among the
    nodes to remove and never removes a child [s] of a node [n] it removes,
    whatever the weight and the samples of the edge into [s]: [s] is
    re-attached to the parent [p] of [n] by a merge recorded in the same
    pass, and both the root and [s] are still nodes of the tree the pass
    returns.  Merging [s] itself is left to a later pass. *)
Theorem merge_close_protects :
  forall (g : Graph) (rem : list string)
         (merges : list (string * string * string)) (cant : list string),
    merge_close_plan g = Some (rem, merges, cant) ->
    ~ In "0" rem
    /\ (forall E n s,
           bfs_edges g "0" = Some E -> In n rem -> In (n, s) E ->
           ~ In s rem /\ exists p, In (p, n) E /\ In (p, n, s) merges)
    /\ (forall g',
           merge_close_nodes g = Some g' ->
           (has_node g "0" = true -> has_node g' "0" = true)
           /\ (forall E n s,
                  bfs_edges g "0" = Some E -> In n rem -> In (n, s) E ->
                  has_node g s = true -> has_node g' s = true)).
Proof.
  intros g rem merges cant Hp.
  destruct (merge_close_plan_invariant g _ Hp) as (E & HE & I1 & I2 & I3 & I4 & I5).
  assert (Hroot : ~ In "0" rem).
  { intros H. apply I2 in H.
    unfold bfs_edges in HE.
    destruct (bfs_blocks g "0") as [B|] eqn:EB; [|discriminate].
    inversion HE; subst E.
    rewrite edges_of_children in H.
    exact (forest_source_not_child _ _ (bfs_blocks_forest _ _ _ EB) H). }
  split; [exact Hroot|]. split.
  - intros E' n s HE' Hn Hs. rewrite HE in HE'. inversion HE'; subst E'.
    split; [exact (I4 n s Hn Hs) | exact (I5 n s Hn Hs)].
  - intros g' Hg'. split.
    + apply (merge_close_nodes_keeps g g' rem merges cant "0" Hp Hg' Hroot).
    + intros E' n s HE' Hn Hs. rewrite HE in HE'. inversion HE'; subst E'.
      apply (merge_close_nodes_keeps g g' rem merges cant s Hp Hg').
      exact (I4 n s Hn Hs).
Qed.

Lemma merge_close_protects_witness :
  (a <- edge_attr close_chain "1" "2" ;; is_close a) = Some true
  /\ ~ In "0" ["1"]
  /\ ~ In "2" ["1"]
  /\ has_node (force (merge_close_nodes close_chain)) "2" = true.
Proof.
  destruct (merge_close_protects close_chain ["1"] [("0", "1", "2")] ["0"; "2"])
    as (H1 & H2 & H3); [vm_compute; reflexivity|].
  split; [vm_compute; reflexivity|]. split; [exact H1|].
  destruct (H2 [("0", "1"); ("1", "2")] "1" "2") as (H4 & _);
    [vm_compute; reflexivity | now left | right; now left |].
  split; [exact H4|].
  destruct (H3 (force (merge_close_nodes close_chain))) as (_ & H5);
    [vm_compute; reflexivity|].
  apply (H5 [("0", "1"); ("1", "2")] "1" "2");
    [vm_compute; reflexivity | now left | right; now left | vm_compute; reflexivity].
Defined.

(** * Childless pruning *)

Lemma check_round_new : forall T Q acc n,
    In n (fold_left
            (fun new node =>
               match dget seqb T node with
               | Some l => set_union seqb new l
               | None => new
               end) Q acc)
    <-> In n acc \/ exists p cs, In p Q /\ dget seqb T p = Some cs /\ In n cs.
Proof.
  intros T Q. induction Q as [|q Q IH]; simpl; intros acc n.
  - split; [tauto | intros [H|(p & cs & [] & _)]; exact H].
  - rewrite IH. destruct (dget seqb T q) as [l|] eqn:Eq.
    + rewrite (set_union_In seqb seqb_eq). split.
      * intros [[H|H]|(p & cs & H1 & H2 & H3)].
        -- now left.
        -- right. exists q, l. tauto.
        -- right. exists p, cs. tauto.
      * intros [H|(p & cs & [H1|H1] & H2 & H3)].
        -- left. now left.
        -- subst p. rewrite Eq in H2. inversion H2; subst. left. now right.
        -- right. exists p, cs. tauto.
    + split.
      * intros [H|(p & cs & H1 & H2 & H3)]; [now left|].
        right. exists p, cs. tauto.
      * intros [H|(p & cs & [H1|H1] & H2 & H3)]; [now left | congruence |].
        right. exists p, cs. tauto.
Qed.

Lemma check_round_In : forall T Q n,
    In n (check_round T Q)
    <-> In n Q \/ exists p cs, In p Q /\ dget seqb T p = Some cs /\ In n cs.
Proof.
  intros T Q n. unfold check_round.
  rewrite (set_union_In seqb seqb_eq), check_round_new. simpl. tauto.
Qed.

Lemma at_depth_succ : forall E k n,
    at_depth E (S k) n <-> exists p, at_depth E k p /\ In (p, n) E.
Proof.
  intros E k n. split.
  - intros H. inversion H; subst. eauto.
  - intros (p & H1 & H2). econstructor; eauto.
Qed.

Lemma at_depth_zero : forall E n, at_depth E 0 n <-> n = "0".
Proof.
  intros E n. split.
  - intros H. now inversion H.
  - intros H. subst. constructor.
Qed.

Section Pruning.
Variable B : list (string * list string).
Hypothesis F : is_forest "0" B.
Hypothesis Hhead : exists cs B', B = ("0", cs) :: B'.

Lemma check_round_depth : forall Q k,
    (forall n, In n Q <-> exists j, (j <= k)%nat /\ at_depth (edges_of B) j n) ->
    forall n, In n (check_round (successor_table B) Q)
              <-> exists j, (j <= S k)%nat /\ at_depth (edges_of B) j n.
Proof.
  intros Q k HS n. rewrite check_round_In. split.
  - intros [H|(p & cs & H1 & H2 & H3)].
    + apply HS in H. destruct H as (j & Hj & Hd). exists j. split; [lia | exact Hd].
    + apply HS in H1. destruct H1 as (j & Hj & Hd). exists (S j).
      split; [lia|]. apply at_depth_succ. exists p. split; [exact Hd|].
      apply (table_children "0" B F Hhead). eauto.
  - intros (j & Hj & Hd). destruct j as [|j].
    + left. apply HS. exists 0%nat. split; [lia | exact Hd].
    + apply at_depth_succ in Hd. destruct Hd as (p & Hp & He).
      apply (table_children "0" B F Hhead) in He. destruct He as (cs & H1 & H2).
      right. exists p, cs. split; [|tauto].
      apply HS. exists j. split; [lia | exact Hp].
Qed.

Lemma nodes_to_check_depth : forall n,
    In n (nodes_to_check (successor_table B))
    <-> exists j, (j <= 3)%nat /\ at_depth (edges_of B) j n.
Proof.
  unfold nodes_to_check.
  apply check_round_depth. apply check_round_depth. apply check_round_depth.
  intros n. simpl. split.
  - intros [H|[]]. subst. exists 0%nat. split; [lia | constructor].
  - intros (j & Hj & Hd). assert (j = 0)%nat by lia. subst.
    apply at_depth_zero in Hd. now left.
Qed.

Lemma childless_filter : forall n,
    In n (filter (fun adj => negb (dmem seqb (successor_table B) adj))
            (nodes_to_check (successor_table B)))
    <-> (exists j, (j <= 3)%nat /\ at_depth (edges_of B) j n)
        /\ n <> "0" /\ forall c, ~ In (n, c) (edges_of B).
Proof.
  intros n. rewrite filter_In, nodes_to_check_depth, negb_true_iff.
  pose proof (table_mem "0" B F Hhead n) as Hm.
  destruct (dmem seqb (successor_table B) n).
  - split; [intros [_ H]; discriminate|].
    intros (_ & H1 & H2). exfalso.
    destruct (proj1 Hm eq_refl) as [H|[c H]]; [contradiction | exact (H2 c H)].
  - split; [|tauto]. intros [H _]. split; [exact H|]. split.
    + intros Hn. assert (false = true) by (apply Hm; now left). discriminate.
    + intros c Hc. assert (false = true) by (apply Hm; right; eauto). discriminate.
Qed.
End Pruning.

Lemma remove_node_ids : forall g n g',
    NoDup (node_ids g) -> remove_node g n = Some g' ->
    node_ids g' = filter (fun m => negb (seqb n m)) (node_ids g).
Proof.
  intros g n g' ND H. apply remove_node_nodes in H. destruct H as [_ H].
  unfold node_ids in *. rewrite H. clear H.
  induction (g_node g) as [|[k v] d IH]; simpl in *; [reflexivity|].
  inversion ND as [|? ? Hn ND']; subst.
  destruct (seqb k n) eqn:E.
  - apply seqb_eq in E. subst k.
    unfold seqb at 1. rewrite String.eqb_refl. simpl.
    symmetry. apply forallb_filter_id. apply forallb_forall.
    intros m Hm. apply negb_true_iff. apply String.eqb_neq.
    intros Heq. subst. contradiction.
  - assert (E' : seqb n k = false).
    { unfold seqb in *. rewrite String.eqb_sym. exact E. }
    rewrite E'. simpl. f_equal. now apply IH.
Qed.

Lemma filter_NoDup : forall (A : Type) (f : A -> bool) l,
    NoDup l -> NoDup (filter f l).
Proof.
  intros A f l ND. induction ND as [|a l Hn ND IH]; simpl; [constructor|].
  destruct (f a); [|exact IH]. constructor; [|exact IH].
  intros H. apply filter_In in H. tauto.
Qed.

Lemma remove_nodes_ids : forall l g g',
    NoDup (node_ids g) -> remove_nodes g l = Some g' ->
    NoDup (node_ids g')
    /\ forall m, In m (node_ids g') <-> In m (node_ids g) /\ ~ In m l.
Proof.
  unfold remove_nodes. induction l as [|n l IH]; simpl; intros g g' ND H.
  - inversion H; subst. split; [exact ND | tauto].
  - destruct (remove_node g n) as [g1|] eqn:E; [|discriminate].
    pose proof (remove_node_ids g n g1 ND E) as Hid.
    assert (ND1 : NoDup (node_ids g1)).
    { rewrite Hid. now apply filter_NoDup. }
    destruct (IH g1 g' ND1 H) as (ND' & Hm). split; [exact ND'|].
    intros m. rewrite Hm, Hid, filter_In, negb_true_iff.
    unfold seqb. rewrite String.eqb_neq. intuition congruence.
Qed.

(** C10, counterexample.  In the tree of only the root, the root has no
    child and lies at depth 0; [bfs_successors] still lists it, with an
    empty list of children, so childless pruning collects nothing and
    returns the tree with its root. *)
Lemma pruning_keeps_lone_root :
  bfs_edges root_only "0" = Some []
  /\ successors_dict root_only = Some [("0", [])]
  /\ childless_nodes root_only = Some []
  /\ remove_children_without_children root_only = Some root_only
  /\ node_ids root_only = ["0"].
Proof. repeat split; vm_compute; reflexivity. Qed.

(** What the pass examines and collects, and what it returns. *)
Lemma childless_pruning_spec :
  forall (g : Graph) (E : list (string * string)) (T : sdict (list string))
         (rem : list string),
    bfs_edges g "0" = Some E ->
    successors_dict g = Some T ->
    childless_nodes g = Some rem ->
    (forall n, In n (nodes_to_check T)
               <-> exists k, (k <= 3)%nat /\ at_depth E k n)
    /\ (forall n, In n rem
                  <-> (exists k, (k <= 3)%nat /\ at_depth E k n)
                      /\ n <> "0" /\ forall c, ~ In (n, c) E)
    /\ (forall g',
           remove_children_without_children g = Some g' ->
           (has_node g "0" = true -> has_node g' "0" = true)
           /\ (NoDup (node_ids g) ->
               forall n, In n (node_ids g')
                         <-> In n (node_ids g) /\ ~ In n rem)).
Proof.
  intros g E T rem HE HT Hrem.
  unfold bfs_edges in HE.
  destruct (bfs_blocks g "0") as [B|] eqn:EB; [|discriminate].
  inversion HE; subst E. clear HE.
  pose proof (bfs_blocks_forest _ _ _ EB) as F.
  pose proof (bfs_blocks_head _ _ _ EB) as Hhead.
  rewrite (successors_dict_table _ _ EB) in HT. inversion HT; subst T. clear HT.
  unfold childless_nodes in Hrem. rewrite (successors_dict_table _ _ EB) in Hrem.
  inversion Hrem; subst rem. clear Hrem.
  split; [exact (nodes_to_check_depth B F Hhead)|].
  split; [exact (childless_filter B F Hhead)|].
  intros g' Hg'. unfold remove_children_without_children, childless_nodes in Hg'.
  rewrite (successors_dict_table _ _ EB) in Hg'.
  split.
  - apply (remove_nodes_keeps _ g g' "0" Hg').
    intros H. apply (childless_filter B F Hhead) in H. tauto.
  - intros ND. exact (proj2 (remove_nodes_ids _ g g' ND Hg')).
Qed.


(** * Descendant counts *)

Lemma flat_map_ext_in : forall (A C : Type) (f f' : A -> list C) l,
    (forall a, In a l -> f a = f' a) -> flat_map f l = flat_map f' l.
Proof.
  induction l as [|a l IH]; simpl; intros H; [reflexivity|].
  rewrite (H a) by now left. f_equal. apply IH. intros b Hb. apply H. now right.
Qed.

(** ** Descendants listed from the blocks *)

Lemma desc_in_skip : forall B1 B2 n,
    ~ In n (map fst B1) -> desc_in (B1 ++ B2) n = desc_in B2 n.
Proof.
  induction B1 as [|[p cs] B1 IH]; simpl; intros B2 n H; [reflexivity|].
  destruct (seqb p n) eqn:E.
  - apply seqb_eq in E. subst. exfalso. apply H. now left.
  - apply IH. tauto.
Qed.

Lemma desc_in_none : forall L n, ~ In n (map fst L) -> desc_in L n = [].
Proof.
  intros L n H. rewrite <- (app_nil_r L). now rewrite desc_in_skip.
Qed.

Lemma desc_in_children : forall L n d,
    In d (desc_in L n) -> In d (children_of L).
Proof.
  induction L as [|[p cs] L IH]; simpl; intros n d H; [contradiction|].
  change (In d (cs ++ children_of L)). apply in_or_app.
  destruct (seqb p n).
  - apply in_flat_map in H. destruct H as (c & Hc & [Hd|Hd]).
    + subst. now left.
    + right. eapply IH; eauto.
  - right. eapply IH; eauto.
Qed.

Lemma last_block_in : forall (A : Type) (Y1 Y2 B1 : list A) (y b : A),
    Y1 ++ y :: Y2 = B1 ++ [b] -> In b (y :: Y2).
Proof.
  intros A Y1 Y2 B1 y b H.
  destruct (@exists_last _ (y :: Y2)) as (Z & z & Ez); [discriminate|].
  rewrite Ez in *. rewrite app_assoc in H. apply app_inj_tail in H.
  destruct H as [_ H]. subst. apply in_or_app. right. now left.
Qed.

(** The block of a node comes after the block that yields the node. *)
Lemma forest_child_block_later : forall source B B1 n cs B2 c,
    is_forest source B ->
    B = B1 ++ (n, cs) :: B2 -> In c cs ->
    ~ In c (map fst (B1 ++ [(n, cs)])).
Proof.
  intros source B B1 n cs B2 c F E Hc Hin.
  apply in_map_iff in Hin. destruct Hin as ([c' cs'] & Hfst & Hin).
  simpl in Hfst. subst c'.
  apply in_split in Hin. destruct Hin as (Y1 & Y2 & EY).
  assert (EB : B = Y1 ++ (c, cs') :: (Y2 ++ B2)).
  { rewrite E. change ((n, cs) :: B2) with ([(n, cs)] ++ B2).
    rewrite app_assoc, EY, <- app_assoc. reflexivity. }
  pose proof (forest_NoDup_children _ _ F) as ND.
  pose proof (forest_source_not_child _ _ F) as Hs.
  assert (Hchild : In c (children_of ((c, cs') :: Y2))).
  { apply children_of_In. exists n, cs. split; [|exact Hc].
    symmetry in EY. exact (last_block_in _ _ _ _ _ _ EY). }
  destruct (forest_order _ _ F _ _ _ _ EB) as [H|H].
  - subst c. apply Hs. apply children_of_In. exists n, cs.
    split; [|exact Hc]. rewrite E. apply in_or_app. right. now left.
  - rewrite EB in ND.
    change (Y1 ++ (c, cs') :: Y2 ++ B2) with (Y1 ++ ((c, cs') :: Y2) ++ B2) in ND.
    rewrite !children_of_app in ND.
    apply (NoDup_app_disjoint _ _ _ c ND H).
    apply in_or_app. now left.
Qed.

(** The descendants of a node are its children, each followed by its own
    descendants. *)
Lemma desc_equation : forall source B n cs,
    is_forest source B -> In (n, cs) B ->
    desc_in B n = flat_map (fun c => c :: desc_in B c) cs.
Proof.
  intros source B n cs F Hin.
  apply in_split in Hin. destruct Hin as (B1 & B2 & E).
  pose proof (forest_NoDup_parents _ _ F) as ND.
  assert (Hn : ~ In n (map fst B1)).
  { rewrite E, map_app in ND. simpl in ND. apply NoDup_remove_2 in ND.
    intros H. apply ND. apply in_or_app. now left. }
  rewrite E at 1. rewrite desc_in_skip by exact Hn. simpl.
  unfold seqb at 1. rewrite String.eqb_refl.
  apply flat_map_ext_in. intros c Hc. f_equal.
  rewrite E. change ((n, cs) :: B2) with ([(n, cs)] ++ B2).
  rewrite app_assoc. symmetry. apply desc_in_skip.
  eapply forest_child_block_later; eauto.
Qed.

Lemma desc_no_block : forall B n,
    (forall cs, ~ In (n, cs) B) -> desc_in B n = [].
Proof.
  intros B n H. apply desc_in_none. intros Hin.
  apply in_map_iff in Hin. destruct Hin as ([p cs] & Hp & Hin).
  simpl in Hp. subst. exact (H cs Hin).
Qed.

Lemma forest_list_app : forall L r1 r2,
    forest_list L (r1 ++ r2) = forest_list L r1 ++ forest_list L r2.
Proof. intros. unfold forest_list. apply flat_map_app. Qed.

Lemma forest_list_cons_other : forall p cs L roots,
    ~ In p roots -> forest_list ((p, cs) :: L) roots = forest_list L roots.
Proof.
  intros p cs L roots H. unfold forest_list. apply flat_map_ext_in.
  intros c Hc. simpl. destruct (seqb p c) eqn:E; [|reflexivity].
  apply seqb_eq in E. subst. contradiction.
Qed.

Lemma forest_list_cons_self : forall p cs L,
    forest_list ((p, cs) :: L) [p] = p :: forest_list L cs.
Proof.
  intros p cs L. unfold forest_list. simpl.
  unfold seqb. rewrite String.eqb_refl. now rewrite app_nil_r.
Qed.

Lemma forest_list_nil : forall roots, forest_list [] roots = roots.
Proof.
  induction roots as [|r roots IH]; [reflexivity|].
  unfold forest_list in *. simpl in *. f_equal. exact IH.
Qed.

(** Along a run, the roots with their descendants are the roots with
    everything the run yields. *)
Lemma forest_list_perm : forall queue L,
    bfs_run queue L -> NoDup (queue ++ children_of L) ->
    Permutation (forest_list L queue) (queue ++ children_of L).
Proof.
  intros queue L R. induction R as [queue|p q new L R IH]; intros ND.
  - rewrite forest_list_nil. simpl. now rewrite app_nil_r.
  - change (children_of ((p, new) :: L)) with (new ++ children_of L) in *.
    simpl in ND. inversion ND as [|? ? Hp NDq]; subst.
    assert (Hpq : ~ In p q).
    { intros H. apply Hp. apply in_or_app. now left. }
    change (p :: q) with ([p] ++ q). rewrite forest_list_app.
    rewrite forest_list_cons_self, (forest_list_cons_other p new L q Hpq).
    simpl. constructor.
    rewrite app_assoc in NDq. specialize (IH NDq).
    rewrite forest_list_app in IH. rewrite app_assoc.
    eapply Permutation_trans; [apply Permutation_app_comm | exact IH].
Qed.

Lemma NoDup_app_drop_middle : forall (A : Type) (l1 l2 l3 : list A),
    NoDup (l1 ++ l2 ++ l3) -> NoDup (l1 ++ l3).
Proof.
  intros A l1 l2 l3 H.
  assert (P : Permutation (l1 ++ l2 ++ l3) (l2 ++ l1 ++ l3)).
  { rewrite !app_assoc. apply Permutation_app_tail. apply Permutation_app_comm. }
  apply (Permutation_NoDup P) in H. now apply NoDup_app_remove_l in H.
Qed.

(** The nodes of [roots] with their descendants are listed once each. *)
Lemma forest_list_NoDup : forall L roots,
    NoDup (map fst L) -> NoDup (roots ++ children_of L) ->
    NoDup (forest_list L roots).
Proof.
  induction L as [|[p cs] L IH]; intros roots NDp ND.
  - rewrite forest_list_nil. simpl in ND. now rewrite app_nil_r in ND.
  - change (children_of ((p, cs) :: L)) with (cs ++ children_of L) in ND.
    simpl in NDp. inversion NDp as [|? ? Hp NDp']; subst.
    destruct (in_dec string_dec p roots) as [Hin|Hout].
    + apply in_split in Hin. destruct Hin as (r1 & r2 & E). subst roots.
      assert (NDr : NoDup (r1 ++ p :: r2)) by (now apply NoDup_app_remove_r in ND).
      assert (H1 : ~ In p r1).
      { apply NoDup_remove_2 in NDr. intros H. apply NDr. apply in_or_app. now left. }
      assert (H2 : ~ In p r2).
      { apply NoDup_remove_2 in NDr. intros H. apply NDr. apply in_or_app. now right. }
      change (r1 ++ p :: r2) with (r1 ++ [p] ++ r2).
      rewrite !forest_list_app, forest_list_cons_self.
      rewrite (forest_list_cons_other p cs L r1 H1).
      rewrite (forest_list_cons_other p cs L r2 H2).
      assert (IH' : NoDup (forest_list L ((r1 ++ p :: r2) ++ cs))).
      { apply IH; [exact NDp'|]. rewrite <- app_assoc. rewrite <- app_assoc in ND.
        simpl in *. now rewrite <- !app_assoc. }
      change (r1 ++ p :: r2) with (r1 ++ [p] ++ r2) in IH'.
      rewrite !forest_list_app in IH'.
      assert (Ep : forest_list L [p] = [p]).
      { unfold forest_list. simpl. now rewrite (desc_in_none L p Hp). }
      rewrite Ep in IH'.
      eapply Permutation_NoDup; [|exact IH'].
      rewrite <- !app_assoc. apply Permutation_app_head. simpl. constructor.
      apply Permutation_app_comm.
    + rewrite (forest_list_cons_other p cs L roots Hout).
      apply IH; [exact NDp'|]. eapply NoDup_app_drop_middle. exact ND.
Qed.

Lemma descendant_mono : forall E E' n d,
    incl E E' -> descendant E n d -> descendant E' n d.
Proof.
  intros E E' n d Hincl H. induction H as [n c H|n c d H _ IH].
  - apply desc_child. now apply Hincl.
  - eapply desc_below; [apply Hincl; exact H | exact IH].
Qed.

Lemma desc_in_sound : forall L n d,
    In d (desc_in L n) -> descendant (edges_of L) n d.
Proof.
  induction L as [|[p cs] L IH]; simpl; intros n d H; [contradiction|].
  assert (Hincl : incl (edges_of L) (edges_of ((p, cs) :: L))).
  { intros e He. unfold edges_of. simpl. apply in_or_app. now right. }
  destruct (seqb p n) eqn:E.
  - apply seqb_eq in E. subst p.
    apply in_flat_map in H. destruct H as (c & Hc & Hd).
    assert (Hnc : In (n, c) (edges_of ((n, cs) :: L))).
    { apply edges_of_In. exists cs. split; [now left | exact Hc]. }
    destruct Hd as [Hd|Hd].
    + subst. now apply desc_child.
    + eapply desc_below; [exact Hnc|].
      eapply descendant_mono; [exact Hincl | now apply IH].
  - eapply descendant_mono; [exact Hincl | now apply IH].
Qed.

Section DescendantCount.
Variable B : list (string * list string).
Hypothesis F : is_forest "0" B.
Hypothesis Hhead : exists cs B', B = ("0", cs) :: B'.

Lemma desc_in_complete : forall n d,
    descendant (edges_of B) n d -> In d (desc_in B n).
Proof.
  intros n d H. induction H as [n c H|n c d H _ IH].
  - apply edges_of_In in H. destruct H as (cs & H1 & H2).
    rewrite (desc_equation "0" B n cs F H1). apply in_flat_map.
    exists c. split; [exact H2 | now left].
  - apply edges_of_In in H. destruct H as (cs & H1 & H2).
    rewrite (desc_equation "0" B n cs F H1). apply in_flat_map.
    exists c. split; [exact H2 | now right].
Qed.

Lemma desc_in_NoDup : forall n, NoDup (desc_in B n).
Proof.
  intros n. destruct (in_dec string_dec n (map fst B)) as [Hin|Hout].
  - apply in_map_iff in Hin. destruct Hin as ([p cs] & Hp & Hin).
    simpl in Hp. subst p.
    apply in_split in Hin. destruct Hin as (B1 & B2 & E).
    pose proof (forest_NoDup_parents _ _ F) as NDp.
    pose proof (forest_NoDup_children _ _ F) as NDc.
    rewrite E in NDp, NDc. rewrite map_app in NDp. simpl in NDp.
    rewrite children_of_app in NDc.
    change (children_of ((n, cs) :: B2)) with (cs ++ children_of B2) in NDc.
    assert (Hn : ~ In n (map fst B1)).
    { apply NoDup_remove_2 in NDp. intros H. apply NDp. apply in_or_app. now left. }
    rewrite E, desc_in_skip by exact Hn. simpl.
    unfold seqb. rewrite String.eqb_refl.
    apply (forest_list_NoDup B2 cs).
    + apply NoDup_app_remove_l in NDp. now inversion NDp.
    + now apply NoDup_app_remove_l in NDc.
  - rewrite desc_in_none by exact Hout. constructor.
Qed.

(** The blocks are a dictionary from the nodes that left the queue to the
    children they yielded. *)
Lemma block_get : forall n cs, dget seqb B n = Some cs <-> In (n, cs) B.
Proof.
  intros n cs. split.
  - apply (dget_In seqb seqb_eq).
  - apply (dget_NoDup seqb seqb_eq). exact (forest_NoDup_parents _ _ F).
Qed.

Lemma table_none_desc : forall n,
    dget seqb (successor_table B) n = None -> desc_in B n = [].
Proof.
  intros n H. destruct (dget seqb B n) as [cs|] eqn:E.
  - apply block_get in E. rewrite (desc_equation "0" B n cs F E).
    destruct cs as [|c cs]; [reflexivity|].
    assert (G : dget seqb (successor_table B) n = Some (c :: cs)).
    { apply (table_get "0" B F Hhead). split; [exact E|]. left. discriminate. }
    congruence.
  - apply desc_no_block. intros cs Hin. apply block_get in Hin. congruence.
Qed.

Lemma counts_recorded_app : forall a b c S1 S2,
    counts_recorded B a b S1 -> counts_recorded B b c S2 ->
    counts_recorded B a c (S1 ++ S2).
Proof.
  intros a b c S1 S2 (A1 & A2 & A3) (B1 & B2 & B3). repeat split.
  - intros m Hm. destruct (in_dec string_dec m S2) as [H2|H2]; [now apply B1|].
    rewrite (B2 m H2). apply A1. apply in_app_or in Hm. tauto.
  - intros m Hm. rewrite B2, A2; [reflexivity | |];
      intros H; apply Hm; apply in_or_app; tauto.
  - intros ND. apply B3. now apply A3.
Qed.

Lemma counts_recorded_refl : forall a, counts_recorded B a a [].
Proof. intros a. repeat split; [intros m [] | tauto]. Qed.

Lemma counts_recorded_set : forall all0 all1 n nodes,
    counts_recorded B all0 all1 nodes ->
    counts_recorded B all0
      (dset seqb all1 n (Z.of_nat (length (desc_in B n)))) (n :: nodes).
Proof.
  intros all0 all1 n nodes (A1 & A2 & A3). repeat split.
  - intros m Hm. rewrite (dget_dset seqb seqb_eq).
    destruct (seqb n m) eqn:E.
    + apply seqb_eq in E. now subst.
    + apply A1. destruct Hm as [Hm|Hm]; [|exact Hm].
      subst. unfold seqb in E. rewrite String.eqb_refl in E. discriminate.
  - intros m Hm. rewrite (dget_dset seqb seqb_eq).
    destruct (seqb n m) eqn:E.
    + apply seqb_eq in E. subst. exfalso. apply Hm. now left.
    + apply A2. intros H. apply Hm. now right.
  - intros ND. apply (dset_NoDup seqb seqb_eq). now apply A3.
Qed.

(** The recursion of [assign_children_count]: a call on a node whose block
    is among the last [fuel - 1] blocks returns the node's number of
    descendants plus one and records the counts of the node and of all
    its descendants. *)
Lemma successor_count_rec_correct : forall fuel B1 B2 n all0,
    B = B1 ++ B2 -> (length B2 < fuel)%nat -> ~ In n (map fst B1) ->
    exists all',
      successor_count_rec fuel (successor_table B) all0 n
      = Some (all', Z.of_nat (length (desc_in B n)) + 1)
      /\ counts_recorded B all0 all' (n :: desc_in B n).
Proof.
  induction fuel as [|fuel IH]; intros B1 B2 n all0 E Hlen Hn; [lia|].
  simpl. destruct (dget seqb (successor_table B) n) as [cs|] eqn:ET.
  - apply (table_get "0" B F Hhead) in ET. destruct ET as [Hin _].
    assert (Hin2 : In (n, cs) B2).
    { rewrite E in Hin. apply in_app_or in Hin. destruct Hin as [Hin|Hin]; [|exact Hin].
      exfalso. apply Hn. apply in_map_iff. exists (n, cs). now split. }
    apply in_split in Hin2. destruct Hin2 as (B2a & B2b & E2).
    assert (EB : B = (B1 ++ B2a) ++ (n, cs) :: B2b).
    { rewrite E, E2. now rewrite <- app_assoc. }
    assert (Hlen' : (length B2b < fuel)%nat).
    { rewrite E2, length_app in Hlen. simpl in Hlen. lia. }
    assert (Hcs : forall c, In c cs -> ~ In c (map fst ((B1 ++ B2a) ++ [(n, cs)]))).
    { intros c Hc. eapply forest_child_block_later; eauto. }
    assert (EB' : B = ((B1 ++ B2a) ++ [(n, cs)]) ++ B2b).
    { rewrite EB at 1.
      rewrite <- (app_assoc (B1 ++ B2a) [(n, cs)] B2b). reflexivity. }
    assert (Sum : forall l all_a total,
               incl l cs ->
               exists all_b,
                 foldM
                   (fun acc succ =>
                      let '(all1, total0) := acc in
                      '(all2, c) <- successor_count_rec fuel (successor_table B) all1 succ ;;
                      Some (all2, total0 + c))
                   l (all_a, total)
                 = Some (all_b, total + Z.of_nat (length (forest_list B l)))
                 /\ counts_recorded B all_a all_b (forest_list B l)).
    { induction l as [|c l IHl]; intros all_a total Hincl.
      - exists all_a. simpl. split; [f_equal; f_equal; lia | apply counts_recorded_refl].
      - assert (Hc : In c cs) by (apply Hincl; now left).
        destruct (IH _ _ c all_a EB' Hlen' (Hcs c Hc)) as (all_m & Hcall & Hrec).
        destruct (IHl all_m (total + (Z.of_nat (length (desc_in B c)) + 1)))
          as (all_b & Hfold & Hrec2).
        { intros y Hy. apply Hincl. now right. }
        exists all_b. split.
        + simpl. rewrite Hcall. rewrite Hfold. f_equal. f_equal.
          unfold forest_list. simpl. rewrite length_app. fold (forest_list B l).
          lia.
        + change (forest_list B (c :: l))
            with ((c :: desc_in B c) ++ forest_list B l).
          eapply counts_recorded_app; eauto. }
    unfold sum_calls.
    destruct (Sum cs all0 0 (incl_refl cs)) as (all_b & Hfold & Hrec).
    rewrite Hfold. rewrite (desc_equation "0" B n cs F Hin).
    fold (forest_list B cs).
    exists (dset seqb all_b n (0 + Z.of_nat (length (forest_list B cs)))).
    split; [reflexivity|].
    replace (0 + Z.of_nat (length (forest_list B cs)))
      with (Z.of_nat (length (desc_in B n))).
    + now apply counts_recorded_set.
    + rewrite (desc_equation "0" B n cs F Hin). reflexivity.
  - pose proof (table_none_desc n ET) as Hd. rewrite Hd. simpl.
    exists (dset seqb all0 n 0). split; [reflexivity|].
    pose proof (counts_recorded_set all0 all0 n [] (counts_recorded_refl all0)) as H.
    rewrite Hd in H. exact H.
Qed.
End DescendantCount.

(** ** Writing the counts to the nodes *)

Lemma set_successor_count_attr : forall g k v g',
    set_successor_count g k v = Some g' ->
    node_ids g' = node_ids g
    /\ g_adj g' = g_adj g
    /\ forall m,
        node_attr g' m
        = if seqb k m
          then option_map
                 (fun a => mkNode (x a) (y a) (z a) (lobe a) (level a) (Some v))
                 (node_attr g m)
          else node_attr g m.
Proof.
  intros g k v g' H. unfold set_successor_count in H.
  destruct (node_attr g k) as [a|] eqn:Ea; [|discriminate].
  inversion H; subst. clear H. split; [|split; [reflexivity|]].
  - unfold node_ids. simpl. apply (dset_keys_old seqb seqb_eq).
    eapply (dget_Some_key seqb seqb_eq); eauto.
  - intros m. unfold node_attr at 1. simpl. rewrite (dget_dset seqb seqb_eq).
    destruct (seqb k m) eqn:E; [|reflexivity].
    apply seqb_eq in E. subst. now rewrite Ea.
Qed.

Lemma assign_fold : forall l g,
    NoDup (map fst l) ->
    (forall k, In k (map fst l) -> has_node g k = true) ->
    exists g',
      foldM (fun g1 (item : string * Z) =>
               set_successor_count g1 (fst item) (snd item)) l g = Some g'
      /\ node_ids g' = node_ids g
      /\ forall m,
          node_attr g' m
          = option_map
              (fun a =>
                 mkNode (x a) (y a) (z a) (lobe a) (level a)
                   (match dget seqb l m with
                    | Some v => Some v
                    | None => successor_count a
                    end))
              (node_attr g m).
Proof.
  induction l as [|[k v] l IH]; intros g ND Hnodes.
  - exists g. split; [reflexivity|]. split; [reflexivity|].
    intros m. simpl. destruct (node_attr g m) as [[] |]; reflexivity.
  - simpl in ND. inversion ND as [|? ? Hk ND']; subst.
    assert (Hhas : has_node g k = true) by (apply Hnodes; now left).
    unfold has_node, dmem in Hhas. fold (node_attr g k) in Hhas.
    destruct (node_attr g k) as [a|] eqn:Ea; [|discriminate].
    destruct (set_successor_count g k v) as [g1|] eqn:Es.
    2:{ unfold set_successor_count in Es. rewrite Ea in Es. discriminate. }
    destruct (set_successor_count_attr g k v g1 Es) as (Hids & _ & Hattr).
    destruct (IH g1 ND') as (g' & Hfold & Hids' & Hattr').
    { intros k' Hk'. unfold has_node. apply (dmem_In seqb seqb_eq).
      fold (node_ids g1). rewrite Hids. apply (dmem_In seqb seqb_eq).
      apply Hnodes. now right. }
    exists g'. split; [simpl; rewrite Es; exact Hfold|].
    split; [congruence|].
    intros m. rewrite Hattr', Hattr. simpl.
    destruct (seqb k m) eqn:E.
    + apply seqb_eq in E. subst m. rewrite Ea. simpl.
      assert (Hnone : dget seqb l k = None).
      { now apply (dget_None seqb seqb_eq). }
      now rewrite Hnone.
    + reflexivity.
Qed.

(** ** Valid trees *)

Lemma nodupb_NoDup : forall l, nodupb l = true -> NoDup l.
Proof.
  induction l as [|a l IH]; simpl; intros H; [constructor|].
  apply andb_true_iff in H. destruct H as [H1 H2].
  apply negb_true_iff in H1. apply (mem_not_In seqb seqb_eq) in H1.
  constructor; [exact H1 | now apply IH].
Qed.

Lemma has_node_In : forall g n, has_node g n = true <-> In n (node_ids g).
Proof. intros g n. unfold has_node, node_ids. apply (dmem_In seqb seqb_eq). Qed.

Lemma well_formed_rows : forall g p nbrs,
    well_formed g = true -> neighbors g p = Some nbrs ->
    In p (node_ids g) /\ incl nbrs (node_ids g) /\ In p (map fst (g_adj g)).
Proof.
  intros g p nbrs Hwf Hn. unfold well_formed in Hwf.
  apply andb_true_iff in Hwf. destruct Hwf as [_ Hrows].
  unfold neighbors, adj_row in Hn.
  destruct (dget seqb (g_adj g) p) as [row|] eqn:Er; [|discriminate].
  inversion Hn; subst. pose proof (dget_In seqb seqb_eq _ _ _ Er) as Hin.
  rewrite forallb_forall in Hrows. specialize (Hrows _ Hin). simpl in Hrows.
  apply andb_true_iff in Hrows. destruct Hrows as [H1 H2].
  split; [now apply has_node_In|]. split.
  - intros u Hu. rewrite forallb_forall in H2. apply has_node_In. now apply H2.
  - apply (in_map fst) in Hin. exact Hin.
Qed.

(** What a valid tree gives: its node ids are distinct, the search from
    the root succeeds, and the nodes it visits are the nodes of the tree. *)
Lemma valid_tree_visit : forall g,
    valid_tree g = true ->
    exists B,
      bfs_blocks g "0" = Some B
      /\ NoDup (node_ids g)
      /\ (forall n, In n (node_ids g) <-> In n ("0" :: children_of B))
      /\ (length B <= length (g_adj g))%nat.
Proof.
  intros g H. unfold valid_tree in H.
  apply andb_true_iff in H. destruct H as [H Hconn].
  apply andb_true_iff in H. destruct H as [Hwf _].
  unfold is_connected, bfs_edges in Hconn.
  destruct (bfs_blocks g "0") as [B|] eqn:EB; [|discriminate].
  exists B. split; [reflexivity|].
  assert (ND : NoDup (node_ids g)).
  { unfold well_formed in Hwf. apply andb_true_iff in Hwf.
    destruct Hwf as [Hwf _]. apply andb_true_iff in Hwf.
    destruct Hwf as [Hwf _]. now apply nodupb_NoDup. }
  split; [exact ND|].
  pose proof EB as Hrun. unfold bfs_blocks in Hrun.
  apply bfs_visit_run in Hrun. destruct Hrun as (_ & _ & _ & Hrows).
  destruct (bfs_blocks_head _ _ _ EB) as (cs0 & B' & EB0).
  split; [|].
  - intros n. split.
    + intros Hn. rewrite forallb_forall in Hconn. specialize (Hconn n Hn).
      apply (mem_In seqb seqb_eq) in Hconn.
      rewrite edges_of_children in Hconn. exact Hconn.
    + intros [Hn|Hn].
      * subst n. destruct (Hrows "0" cs0) as (nbrs & Hnb & _); [rewrite EB0; now left|].
        exact (proj1 (well_formed_rows g "0" nbrs Hwf Hnb)).
      * apply children_of_In in Hn. destruct Hn as (p & cs & Hp & Hc).
        destruct (Hrows p cs Hp) as (nbrs & Hnb & Hincl).
        apply (proj1 (proj2 (well_formed_rows g p nbrs Hwf Hnb))). now apply Hincl.
  - pose proof (forest_NoDup_parents _ _ (bfs_blocks_forest _ _ _ EB)) as NDp.
    rewrite <- (length_map fst B), <- (length_map fst (g_adj g)).
    apply NoDup_incl_length; [exact NDp|].
    intros p Hp. apply in_map_iff in Hp. destruct Hp as ([p' cs] & Hfst & Hin).
    simpl in Hfst. subst p'.
    destruct (Hrows p cs Hin) as (nbrs & Hnb & _).
    exact (proj2 (proj2 (well_formed_rows g p nbrs Hwf Hnb))).
Qed.

(** C7.  On every valid tree rooted at "0" the recomputation succeeds and
    changes no node id; every node then carries as successor_count the
    number of its strict descendants (the length of a duplicate-free list
    of exactly the nodes below it), and the count of the root plus one is
    the number of nodes of the tree. *)
Theorem assign_children_count_correct :
  forall g : Graph,
    valid_tree g = true ->
    exists g' E,
      bfs_edges g "0" = Some E
      /\ assign_children_count g = Some g'
      /\ node_ids g' = node_ids g
      /\ (forall n, In n (node_ids g) ->
            exists a ds,
              node_attr g' n = Some a
              /\ successor_count a = Some (Z.of_nat (length ds))
              /\ NoDup ds
              /\ forall d, In d ds <-> descendant E n d)
      /\ (exists a c,
            node_attr g' "0" = Some a
            /\ successor_count a = Some c
            /\ c + 1 = Z.of_nat (number_of_nodes g')).
Proof.
  intros g Hvalid.
  destruct (valid_tree_visit g Hvalid) as (B & EB & ND & Hnodes & Hlen).
  pose proof (bfs_blocks_forest _ _ _ EB) as F.
  pose proof (bfs_blocks_head _ _ _ EB) as Hhead.
  destruct (successor_count_rec_correct B F Hhead (S (length (g_adj g))) [] B "0" [])
    as (all' & Hcall & Hrec1 & Hrec2 & Hrec3); [reflexivity | lia | simpl; tauto|].
  assert (Hperm : Permutation ("0" :: desc_in B "0") ("0" :: children_of B)).
  { destruct F as [R NDv].
    pose proof (forest_list_perm ["0"] B R NDv) as P.
    unfold forest_list in P. simpl in P. rewrite app_nil_r in P. exact P. }
  assert (Hkeys : forall k, In k (map fst all') -> In k ("0" :: desc_in B "0")).
  { intros k Hk. destruct (in_dec string_dec k ("0" :: desc_in B "0")) as [H|H];
      [exact H|].
    exfalso. specialize (Hrec2 k H). simpl in Hrec2.
    apply (dget_None seqb seqb_eq) in Hrec2. contradiction. }
  destruct (assign_fold all' g) as (g' & Hfold & Hids & Hattr).
  { apply Hrec3. constructor. }
  { intros k Hk. apply has_node_In. apply Hnodes.
    apply (Permutation_in _ Hperm). now apply Hkeys. }
  exists g', (edges_of B).
  split; [unfold bfs_edges; now rewrite EB|].
  split.
  { unfold assign_children_count.
    rewrite (successors_dict_table _ _ EB). rewrite Hcall. exact Hfold. }
  split; [exact Hids|].
  assert (Hnode : forall n, In n (node_ids g) ->
            exists a, node_attr g' n = Some a
                      /\ successor_count a
                         = Some (Z.of_nat (length (desc_in B n)))).
  { intros n Hn.
    assert (Hin : In n ("0" :: desc_in B "0")).
    { apply (Permutation_in _ (Permutation_sym Hperm)). now apply Hnodes. }
    specialize (Hrec1 n Hin).
    apply has_node_In in Hn. unfold has_node, dmem in Hn.
    fold (node_attr g n) in Hn.
    destruct (node_attr g n) as [a|] eqn:Ea; [|discriminate].
    rewrite Hattr, Ea. simpl. rewrite Hrec1. eexists. split; reflexivity. }
  split.
  - intros n Hn. destruct (Hnode n Hn) as (a & Ha & Hc).
    exists a, (desc_in B n). split; [exact Ha|]. split; [exact Hc|].
    split; [apply (desc_in_NoDup B F)|].
    intros d. split; [apply desc_in_sound | apply (desc_in_complete B F)].
  - destruct (Hnode "0") as (a & Ha & Hc); [apply Hnodes; now left|].
    exists a, (Z.of_nat (length (desc_in B "0"))).
    split; [exact Ha|]. split; [exact Hc|].
    unfold number_of_nodes. rewrite <- (length_map fst (g_node g')).
    fold (node_ids g'). rewrite Hids.
    assert (P2 : Permutation (node_ids g) ("0" :: children_of B)).
    { apply NoDup_Permutation; [exact ND | exact (proj2 F) | exact Hnodes]. }
    rewrite (Permutation_length P2), <- (Permutation_length Hperm). simpl. lia.
Qed.

Lemma assign_children_count_correct_witness :
  exists g' E,
    bfs_edges deep_tree "0" = Some E
    /\ assign_children_count deep_tree = Some g'
    /\ node_ids g' = node_ids deep_tree
    /\ (forall n, In n (node_ids deep_tree) ->
          exists a ds,
            node_attr g' n = Some a
            /\ successor_count a = Some (Z.of_nat (length ds))
            /\ NoDup ds
            /\ forall d, In d ds <-> descendant E n d)
    /\ (exists a c,
          node_attr g' "0" = Some a
          /\ successor_count a = Some c
          /\ c + 1 = Z.of_nat (number_of_nodes g')).
Proof.
  apply (assign_children_count_correct deep_tree). vm_compute. reflexivity.
Defined.

(** * The fuel of the search is enough *)

Lemma pending_step : forall g visited p q nbrs,
    NoDup (p :: q) -> incl (p :: q) visited ->
    neighbors g p = Some nbrs ->
    (length (pending g (visited ++ bfs_scan nbrs visited)
                     (q ++ bfs_scan nbrs visited))
     < length (pending g visited (p :: q)))%nat.
Proof.
  intros g visited p q nbrs ND Hincl Hn.
  set (new := bfs_scan nbrs visited).
  assert (Hnew : forall c, In c new -> ~ In c visited).
  { intros c Hc. apply bfs_scan_In in Hc. tauto. }
  inversion ND as [|? ? Hpq NDq]; subst.
  assert (Hpv : In p visited) by (apply Hincl; now left).
  assert (NDk : NoDup (nodup string_dec (map fst (g_adj g)))) by apply NoDup_nodup.
  assert (Hp : In p (pending g visited (p :: q))).
  { unfold pending. apply filter_In. split.
    - apply nodup_In. unfold neighbors, adj_row in Hn.
      destruct (dget seqb (g_adj g) p) as [row|] eqn:E; [|discriminate].
      eapply (dget_Some_key seqb seqb_eq); eauto.
    - apply orb_true_iff. right. apply (mem_In seqb seqb_eq). now left. }
  assert (Hsub : incl (p :: pending g (visited ++ new) (q ++ new))
                      (pending g visited (p :: q))).
  { intros k [Hk|Hk]; [subst; exact Hp|].
    unfold pending in *. apply filter_In in Hk. destruct Hk as [Hk1 Hk2].
    apply filter_In. split; [exact Hk1|].
    apply orb_true_iff in Hk2. apply orb_true_iff. destruct Hk2 as [Hk2|Hk2].
    - left. apply negb_true_iff in Hk2. apply negb_true_iff.
      apply (mem_not_In seqb seqb_eq) in Hk2. apply (mem_not_In seqb seqb_eq).
      intros H. apply Hk2. apply in_or_app. now left.
    - apply (mem_In seqb seqb_eq) in Hk2. apply in_app_or in Hk2.
      destruct Hk2 as [Hk2|Hk2].
      + right. apply (mem_In seqb seqb_eq). now right.
      + left. apply negb_true_iff. apply (mem_not_In seqb seqb_eq). now apply Hnew. }
  assert (NDp : NoDup (p :: pending g (visited ++ new) (q ++ new))).
  { constructor; [|apply filter_NoDup; exact NDk].
    intros H. unfold pending in H. apply filter_In in H. destruct H as [_ H].
    apply orb_true_iff in H. destruct H as [H|H].
    - apply negb_true_iff in H. apply (mem_not_In seqb seqb_eq) in H.
      apply H. apply in_or_app. now left.
    - apply (mem_In seqb seqb_eq) in H. apply in_app_or in H.
      destruct H as [H|H]; [contradiction | exact (Hnew p H Hpv)]. }
  pose proof (NoDup_incl_length NDp Hsub) as Hlen. simpl in Hlen. lia.
Qed.

Lemma bfs_visit_more_fuel : forall g fuel fuel' visited queue,
    NoDup queue -> incl queue visited ->
    (length (pending g visited queue) < fuel)%nat -> (fuel <= fuel')%nat ->
    bfs_visit fuel' g visited queue = bfs_visit fuel g visited queue.
Proof.
  intros g. induction fuel as [|fuel IH]; intros fuel' visited queue ND Hincl Hlen Hle;
    [lia|].
  destruct fuel' as [|fuel']; [lia|].
  simpl. destruct queue as [|p q]; [reflexivity|].
  destruct (neighbors g p) as [nbrs|] eqn:En; [|reflexivity].
  pose proof (pending_step g visited p q nbrs ND Hincl En) as Hstep.
  rewrite (IH fuel'); [reflexivity | | | lia | lia].
  - inversion ND as [|? ? Hpq NDq]; subst.
    apply NoDup_app; [exact NDq | apply bfs_scan_NoDup |].
    intros c Hc Hs. apply bfs_scan_In in Hs. destruct Hs as [_ Hs].
    apply Hs. apply Hincl. now right.
  - intros c Hc. apply in_app_or in Hc. apply in_or_app.
    destruct Hc as [Hc|Hc]; [left; apply Hincl; now right | now right].
Qed.

(** More fuel than [bfs_blocks] gives changes nothing: the search always
    runs to the end of its queue. *)
Lemma bfs_visit_fuel : forall g source k,
    bfs_visit (S (length (g_adj g)) + k) g [source] [source]
    = bfs_blocks g source.
Proof.
  intros g source k. unfold bfs_blocks.
  apply bfs_visit_more_fuel; [repeat constructor; simpl; tauto | apply incl_refl | | lia].
  unfold pending.
  eapply Nat.le_lt_trans; [apply filter_length_le|].
  eapply Nat.le_lt_trans; [apply NoDup_incl_length|].
  - apply NoDup_nodup.
  - intros a Ha. apply nodup_In in Ha. exact Ha.
  - rewrite length_map. lia.
Qed.

(** * Childless pruning on valid trees *)

Lemma remove_node_rows : forall g n g' m,
    remove_node g n = Some g' -> m <> n ->
    dmem seqb (g_adj g) m = true -> dmem seqb (g_adj g') m = true.
Proof.
  intros g n g' m H Hne Hm. unfold remove_node in H.
  destruct (has_node g n); [|discriminate].
  destruct (neighbors g n) as [nbrs|]; [|discriminate].
  inversion H; subst. clear H. simpl.
  assert (Hkeys : forall l (adj : sdict (sdict EdgeAttr)),
             map fst
               (fold_left
                  (fun (adj : sdict (sdict EdgeAttr)) u =>
                     match dget seqb adj u with
                     | Some row => dset seqb adj u (ddel seqb row n)
                     | None => adj
                     end) l adj)
             = map fst adj).
  { induction l as [|u l IH]; simpl; intros adj; [reflexivity|].
    rewrite IH. destruct (dget seqb adj u) as [row|] eqn:E; [|reflexivity].
    apply (dset_keys_old seqb seqb_eq). eapply (dget_Some_key seqb seqb_eq); eauto. }
  apply (dmem_In seqb seqb_eq) in Hm. rewrite <- (Hkeys nbrs (g_adj g)) in Hm.
  apply (dmem_In seqb seqb_eq) in Hm.
  unfold dmem in *. rewrite (dget_ddel_other seqb seqb_eq) by congruence.
  exact Hm.
Qed.

Lemma remove_nodes_succeeds : forall l g,
    NoDup l ->
    (forall n, In n l -> has_node g n = true /\ dmem seqb (g_adj g) n = true) ->
    exists g', remove_nodes g l = Some g'.
Proof.
  unfold remove_nodes. induction l as [|n l IH]; simpl; intros g ND H.
  - eauto.
  - inversion ND as [|? ? Hn ND']; subst.
    destruct (H n (or_introl eq_refl)) as [H1 H2].
    destruct (remove_node g n) as [g1|] eqn:E.
    + apply (IH g1 ND'). intros m Hm.
      assert (Hne : m <> n) by (intros Heq; subst; contradiction).
      destruct (H m (or_intror Hm)) as [H3 H4]. split.
      * exact (remove_node_keeps g n g1 m E Hne H3).
      * exact (remove_node_rows g n g1 m E Hne H4).
    + exfalso. unfold remove_node in E. rewrite H1 in E.
      unfold neighbors, adj_row, dmem in *.
      destruct (dget seqb (g_adj g) n); discriminate.
Qed.

Lemma check_round_NoDup : forall T Q, NoDup Q -> NoDup (check_round T Q).
Proof.
  intros T Q ND. unfold check_round. now apply (set_union_NoDup seqb seqb_eq).
Qed.

Lemma at_depth_visited : forall B k n,
    at_depth (edges_of B) k n -> In n ("0" :: children_of B).
Proof.
  intros B k n H. inversion H; subst; [now left|].
  right. rewrite <- edges_of_children.
  match goal with
  | Hin : In (_, n) (edges_of B) |- _ => apply (in_map snd) in Hin; exact Hin
  end.
Qed.

(** C10, amended.  On every valid tree childless pruning returns a tree.
    It examines exactly the nodes at depth at most 3 below the root and
    removes exactly the examined nodes other than the root that have no
    child; the root stays, also when it is the only node. *)
Theorem childless_pruning :
  forall g : Graph,
    valid_tree g = true ->
    exists E T rem g',
      bfs_edges g "0" = Some E
      /\ successors_dict g = Some T
      /\ childless_nodes g = Some rem
      /\ remove_children_without_children g = Some g'
      /\ (forall n, In n (nodes_to_check T)
                    <-> exists k, (k <= 3)%nat /\ at_depth E k n)
      /\ (forall n, In n rem
                    <-> (exists k, (k <= 3)%nat /\ at_depth E k n)
                        /\ n <> "0" /\ forall c, ~ In (n, c) E)
      /\ has_node g' "0" = true
      /\ (forall n, In n (node_ids g') <-> In n (node_ids g) /\ ~ In n rem).
Proof.
  intros g Hvalid.
  destruct (valid_tree_visit g Hvalid) as (B & EB & ND & Hnodes & _).
  pose proof (bfs_blocks_forest _ _ _ EB) as F.
  pose proof (bfs_blocks_head _ _ _ EB) as Hhead.
  assert (HE : bfs_edges g "0" = Some (edges_of B)).
  { unfold bfs_edges. now rewrite EB. }
  pose proof (successors_dict_table _ _ EB) as HT.
  set (rem := filter (fun adj => negb (dmem seqb (successor_table B) adj))
                (nodes_to_check (successor_table B))).
  assert (Hrem : childless_nodes g = Some rem).
  { unfold childless_nodes. now rewrite HT. }
  destruct (childless_pruning_spec g _ _ _ HE HT Hrem) as (H1 & H2 & H3).
  assert (Hwf : forall n, In n (node_ids g) ->
                          has_node g n = true /\ dmem seqb (g_adj g) n = true).
  { intros n Hn. split; [now apply has_node_In|].
    unfold valid_tree in Hvalid.
    apply andb_true_iff in Hvalid. destruct Hvalid as [Hv _].
    apply andb_true_iff in Hv. destruct Hv as [Hv _].
    unfold well_formed in Hv.
    apply andb_true_iff in Hv. destruct Hv as [Hv _].
    apply andb_true_iff in Hv. destruct Hv as [_ Hv].
    rewrite forallb_forall in Hv. now apply Hv. }
  destruct (remove_nodes_succeeds rem g) as (g' & Hg').
  { apply filter_NoDup. unfold nodes_to_check.
    repeat apply check_round_NoDup. repeat constructor. simpl. tauto. }
  { intros n Hn. apply Hwf. apply Hnodes.
    apply H2 in Hn. destruct Hn as ((k & _ & Hd) & _).
    eapply at_depth_visited; eauto. }
  assert (Hres : remove_children_without_children g = Some g').
  { unfold remove_children_without_children. now rewrite Hrem. }
  exists (edges_of B), (successor_table B), rem, g'.
  destruct (H3 g' Hres) as (H4 & H5).
  repeat (split; [assumption|]).
  split.
  - apply H4. apply has_node_In. apply Hnodes. now left.
  - exact (H5 ND).
Qed.

Lemma childless_pruning_witness :
  exists E T rem g',
    bfs_edges deep_tree "0" = Some E
    /\ successors_dict deep_tree = Some T
    /\ childless_nodes deep_tree = Some rem
    /\ remove_children_without_children deep_tree = Some g'
    /\ (forall n, In n (nodes_to_check T)
                  <-> exists k, (k <= 3)%nat /\ at_depth E k n)
    /\ (forall n, In n rem
                  <-> (exists k, (k <= 3)%nat /\ at_depth E k n)
                      /\ n <> "0" /\ forall c, ~ In (n, c) E)
    /\ has_node g' "0" = true
    /\ (forall n, In n (node_ids g') <-> In n (node_ids deep_tree) /\ ~ In n rem).
Proof.
  apply (childless_pruning deep_tree). vm_compute. reflexivity.
Defined.

(** * The subtree-majority pass on valid trees *)

Lemma update_at_length : forall (A : Type) (f : A -> A) l i,
    length (update_at l i f) = length l.
Proof.
  induction l as [|a l IH]; intros i; destruct i; simpl; try reflexivity.
  now rewrite IH.
Qed.

Lemma mapM_succeeds : forall (A C : Type) (f : A -> option C) l,
    (forall a, In a l -> f a <> None) -> exists l', mapM f l = Some l'.
Proof.
  induction l as [|a l IH]; simpl; intros H; [eauto|].
  destruct (f a) as [b|] eqn:E.
  - destruct IH as (l' & Hl'); [intros a' Ha'; apply H; now right|].
    rewrite Hl'. eauto.
  - exfalso. apply (H a); [now left | exact E].
Qed.

Section LobesReturn.
Variable g : Graph.
Variable B : list (string * list string).
Hypothesis F : is_forest "0" B.
Hypothesis Hhead : exists cs B', B = ("0", cs) :: B'.
Hypothesis Hattr : forall n, In n ("0" :: children_of B) -> node_attr g n <> None.

(** The recursion of [get_successor_lobes] returns on every node of the
    visit, keeps the store growing and records nodes with attributes
    only. *)
Lemma successor_lobes_returns : forall fuel B1 B2 n st,
    B = B1 ++ B2 -> (length B2 < fuel)%nat -> ~ In n (map fst B1) ->
    In n ("0" :: children_of B) ->
    recorded_nodes_known g st ->
    exists st' r,
      successor_lobes fuel g (successor_table B) st n = Some (st', r)
      /\ (r < length (objs st'))%nat
      /\ (length (objs st) <= length (objs st'))%nat
      /\ recorded_nodes_known g st'.
Proof.
  induction fuel as [|fuel IH]; intros B1 B2 n st E Hlen Hn Hin Hknown; [lia|].
  simpl.
  set (r0 := length (objs st)).
  set (st0 := mkLobes (objs st ++ [[]]) (all_succ st)).
  assert (Hknown0 : recorded_nodes_known g st0).
  { intros node r Hr. destruct (Hknown node r Hr) as [H1 H2].
    split; [exact H1|]. unfold st0. simpl. rewrite length_app. simpl. lia. }
  assert (Hlen0 : (r0 < length (objs st0))%nat).
  { unfold st0, r0. simpl. rewrite length_app. simpl. lia. }
  assert (Hst1 : exists st1,
             match dget seqb (successor_table B) n with
             | Some l =>
                 foldM
                   (fun st' succ =>
                      '(st'', r_s) <-
                        successor_lobes fuel g (successor_table B) st' succ ;;
                      child <- nth_error (objs st'') r_s ;;
                      Some (absorb st'' r0 child)) l st0
             | None => Some st0
             end = Some st1
             /\ (length (objs st0) <= length (objs st1))%nat
             /\ recorded_nodes_known g st1).
  { destruct (dget seqb (successor_table B) n) as [cs|] eqn:ET.
    2:{ exists st0. split; [reflexivity|]. split; [lia | exact Hknown0]. }
    apply (table_get "0" B F Hhead) in ET. destruct ET as [HinB _].
    assert (Hin2 : In (n, cs) B2).
    { rewrite E in HinB. apply in_app_or in HinB.
      destruct HinB as [HinB|HinB]; [|exact HinB].
      exfalso. apply Hn. apply in_map_iff. exists (n, cs). now split. }
    apply in_split in Hin2. destruct Hin2 as (B2a & B2b & E2).
    assert (EB : B = (B1 ++ B2a) ++ (n, cs) :: B2b).
    { rewrite E, E2. now rewrite <- app_assoc. }
    assert (EB' : B = ((B1 ++ B2a) ++ [(n, cs)]) ++ B2b).
    { rewrite EB at 1.
      rewrite <- (app_assoc (B1 ++ B2a) [(n, cs)] B2b). reflexivity. }
    assert (Hlen' : (length B2b < fuel)%nat).
    { rewrite E2, length_app in Hlen. simpl in Hlen. lia. }
    assert (Fold : forall l sta,
               incl l cs -> recorded_nodes_known g sta ->
               exists stb,
                 foldM
                   (fun st' succ =>
                      '(st'', r_s) <-
                        successor_lobes fuel g (successor_table B) st' succ ;;
                      child <- nth_error (objs st'') r_s ;;
                      Some (absorb st'' r0 child)) l sta = Some stb
                 /\ (length (objs sta) <= length (objs stb))%nat
                 /\ recorded_nodes_known g stb).
    { induction l as [|c l IHl]; intros sta Hincl Hka.
      - exists sta. split; [reflexivity|]. split; [lia | exact Hka].
      - assert (Hc : In c cs) by (apply Hincl; now left).
        assert (Hcv : In c ("0" :: children_of B)).
        { right. apply children_of_In. exists n, cs. split; [exact HinB | exact Hc]. }
        destruct (IH _ _ c sta EB' Hlen'
                    (forest_child_block_later "0" B _ n cs B2b c F EB Hc) Hcv Hka)
          as (stc & rc & Hcall & Hrc & Hlc & Hkc).
        destruct (nth_error (objs stc) rc) as [child|] eqn:Echild.
        2:{ apply nth_error_None in Echild. lia. }
        assert (Hkabs : recorded_nodes_known g (absorb stc r0 child)).
        { intros node r Hr. destruct (Hkc node r Hr) as [H1 H2].
          split; [exact H1|]. simpl. now rewrite update_at_length. }
        destruct (IHl (absorb stc r0 child)) as (stb & Hfold & Hlb & Hkb);
          [intros y Hy; apply Hincl; now right | exact Hkabs|].
        exists stb. split; [|split; [|exact Hkb]].
        + simpl. rewrite Hcall, Echild. exact Hfold.
        + simpl in Hlb. rewrite update_at_length in Hlb. lia. }
    apply Fold; [apply incl_refl | exact Hknown0]. }
  destruct Hst1 as (st1 & Hst1 & Hl1 & Hknown1).
  rewrite Hst1.
  destruct (node_attr g n) as [a|] eqn:Ea.
  2:{ exfalso. exact (Hattr n Hin Ea). }
  assert (Hset : forall o,
             length o = length (objs st1) ->
             recorded_nodes_known g (mkLobes o (dset seqb (all_succ st1) n r0))).
  { intros o Ho node r Hr. simpl in *.
    apply (dset_In seqb seqb_eq) in Hr. destruct Hr as [Hr|Hr].
    - inversion Hr; subst. split; [congruence | lia].
    - destruct (Hknown1 node r Hr) as [H1 H2]. split; [exact H1 | lia]. }
  assert (Hl0 : (length (objs st) <= length (objs st0))%nat).
  { unfold st0. simpl. rewrite length_app. simpl. lia. }
  destruct (lobe a =? 0).
  - eexists _, r0. split; [reflexivity|]. simpl.
    split; [lia|]. split; [lia|]. now apply Hset.
  - eexists _, r0. split; [reflexivity|]. simpl. rewrite update_at_length.
    split; [lia|]. split; [lia|]. apply Hset. apply update_at_length.
Qed.
End LobesReturn.

Lemma get_successor_lobes_returns : forall g,
    valid_tree g = true ->
    exists items,
      get_successor_lobes g = Some items
      /\ forall node lobes, In (node, lobes) items -> node_attr g node <> None.
Proof.
  intros g Hvalid.
  destruct (valid_tree_visit g Hvalid) as (B & EB & ND & Hnodes & Hlen).
  pose proof (bfs_blocks_forest _ _ _ EB) as F.
  pose proof (bfs_blocks_head _ _ _ EB) as Hhead.
  assert (Hattr : forall n, In n ("0" :: children_of B) -> node_attr g n <> None).
  { intros n Hn. apply Hnodes in Hn. apply has_node_In in Hn.
    unfold has_node, dmem in Hn. fold (node_attr g n) in Hn.
    destruct (node_attr g n); [discriminate | discriminate]. }
  destruct (successor_lobes_returns g B F Hhead Hattr (S (length (g_adj g)))
              [] B "0" (mkLobes [] []))
    as (st & r & Hcall & _ & _ & Hknown);
    [reflexivity | lia | simpl; tauto | now left | intros ? ? [] |].
  unfold get_successor_lobes, get_successor_lobes_count.
  rewrite (successors_dict_table _ _ EB), Hcall.
  destruct (mapM_succeeds _ _
              (fun item : string * nat =>
                 occ <- nth_error (objs st) (snd item) ;; Some (fst item, occ))
              (all_succ st)) as (all & Hall).
  { intros [node r'] Hin. simpl.
    destruct (Hknown node r' Hin) as [_ Hr].
    destruct (nth_error (objs st) r') eqn:En; [discriminate|].
    apply nth_error_None in En. lia. }
  rewrite Hall. eexists. split; [reflexivity|].
  intros node lobes Hin. apply in_map_iff in Hin.
  destruct Hin as ([n occ] & Heq & Hin). simpl in Heq. inversion Heq; subst.
  destruct (mapM_In _ _ _ _ _ _ Hall Hin) as ([n' r'] & Hin' & Hf). simpl in Hf.
  destruct (nth_error (objs st) r'); [|discriminate]. inversion Hf; subst.
  exact (proj1 (Hknown _ _ Hin')).
Qed.

(** On every valid tree the subtree-majority pass returns the tree it was
    given. *)
Lemma recolor_successors_noop : forall g,
    valid_tree g = true ->
    recolor_if_successors_all_different_color g = Some g.
Proof.
  intros g Hvalid.
  destruct (get_successor_lobes_returns g Hvalid) as (items & Hitems & Hknown).
  unfold recolor_if_successors_all_different_color. rewrite Hitems.
  assert (G : forall l, incl l items -> foldM successors_recolor_step l g = Some g).
  { induction l as [|[node lobes] l IHl]; intros Hincl; [reflexivity|].
    assert (Hin : In (node, lobes) items) by (apply Hincl; now left).
    assert (Hl : incl l items) by (intros y Hy; apply Hincl; now right).
    simpl. destruct (node_attr g node) as [a|] eqn:Ea.
    2:{ exfalso. exact (Hknown node lobes Hin Ea). }
    destruct (lobe a =? 0) eqn:Ez; [now apply IHl|].
    apply Z.eqb_neq in Ez.
    assert (Hm : mem Z.eqb (lobe a) lobes = true).
    { apply (mem_In Z.eqb Z.eqb_eq).
      exact (get_successor_lobes_own g items node lobes a Hitems Hin Ea Ez). }
    rewrite Hm, andb_false_r. now apply IHl. }
  apply G. apply incl_refl.
Qed.

(** * Graph primitives: merging two edges and removing nodes *)

Lemma adj_set_get : forall adj u v a u' v',
    (row <- dget seqb (adj_set adj u v a) u' ;; dget seqb row v')
    = if seqb u u' && seqb v v' then Some a
      else (row <- dget seqb adj u' ;; dget seqb row v').
Proof.
  intros adj u v a u' v'. unfold adj_set.
  destruct (dget seqb adj u) as [row|] eqn:Er;
    rewrite (dget_dset seqb seqb_eq);
    destruct (seqb u u') eqn:Eu; simpl; try reflexivity.
  - apply seqb_eq in Eu. subst u'. rewrite Er.
    rewrite (dget_dset seqb seqb_eq). reflexivity.
  - apply seqb_eq in Eu. subst u'. rewrite Er.
    destruct (seqb v v'); reflexivity.
Qed.

Lemma add_edge_get : forall g u v a u' v',
    edge_attr (add_edge g u v a) u' v'
    = if (seqb u u' && seqb v v') || (seqb v u' && seqb u v') then Some a
      else edge_attr g u' v'.
Proof.
  intros g u v a u' v'. unfold edge_attr, adj_row, add_edge. simpl.
  rewrite adj_set_get, adj_set_get.
  destruct (seqb v u' && seqb u v'), (seqb u u' && seqb v v'); reflexivity.
Qed.

Lemma seqb_pair_false : forall a b c d : string,
    (a, b) <> (c, d) -> seqb a c && seqb b d = false.
Proof.
  intros a b c d H. destruct (seqb a c) eqn:E1; [|reflexivity].
  destruct (seqb b d) eqn:E2; [|reflexivity].
  apply seqb_eq in E1. apply seqb_eq in E2. subst. now contradiction H.
Qed.

Lemma seqb_refl : forall a, seqb a a = true.
Proof. intros a. now apply seqb_eq. Qed.

(** X1 ([merge_edges], with [distance] and [combine_group_sizes]).  When
    [merge_edges(graph, predecessor, node, successor)] returns, the edge
    between predecessor and successor exists in both directions with
    weight [distance(predecessor, successor)] and the group sizes of edge
    (predecessor, node) followed by a space and those of edge
    (node, successor); the nodes, [node] included, and every other edge
    are as before. *)
Theorem merge_edges_creates_edge :
  forall (g : Graph) (p n s : string) (g' : Graph),
    merge_edges g p n s = Some g' ->
    exists w e1 e2,
      distance g p s = Some w
      /\ edge_attr g p n = Some e1
      /\ edge_attr g n s = Some e2
      /\ edge_attr g' p s
         = Some (mkEdge w (group_sizes e1 ++ " " ++ group_sizes e2)%string)
      /\ edge_attr g' s p
         = Some (mkEdge w (group_sizes e1 ++ " " ++ group_sizes e2)%string)
      /\ g_node g' = g_node g
      /\ forall u v, (u, v) <> (p, s) -> (u, v) <> (s, p) ->
                     edge_attr g' u v = edge_attr g u v.
Proof.
  intros g p n s g' H. unfold merge_edges, combine_group_sizes in H.
  destruct (distance g p s) as [w|] eqn:Ew; [|discriminate].
  destruct (edge_attr g p n) as [e1|] eqn:E1; [|discriminate].
  destruct (edge_attr g n s) as [e2|] eqn:E2; [|discriminate].
  inversion H; subst g'. clear H.
  exists w, e1, e2.
  split; [reflexivity|]. split; [reflexivity|]. split; [reflexivity|].
  split; [|split; [|split]].
  - rewrite add_edge_get, !seqb_refl. reflexivity.
  - rewrite add_edge_get, !seqb_refl. simpl. now rewrite orb_true_r.
  - reflexivity.
  - intros u v H1 H2. rewrite add_edge_get.
    rewrite (seqb_pair_false p s u v) by congruence.
    rewrite (seqb_pair_false s p u v) by congruence. reflexivity.
Qed.

Lemma merge_edges_creates_edge_witness :
  exists w e1 e2,
    distance short_chain "0" "2" = Some w
    /\ edge_attr short_chain "0" "1" = Some e1
    /\ edge_attr short_chain "1" "2" = Some e2
    /\ edge_attr (force (merge_edges short_chain "0" "1" "2")) "0" "2"
       = Some (mkEdge w (group_sizes e1 ++ " " ++ group_sizes e2)%string)
    /\ edge_attr (force (merge_edges short_chain "0" "1" "2")) "2" "0"
       = Some (mkEdge w (group_sizes e1 ++ " " ++ group_sizes e2)%string)
    /\ g_node (force (merge_edges short_chain "0" "1" "2")) = g_node short_chain
    /\ forall u v, (u, v) <> ("0", "2") -> (u, v) <> ("2", "0") ->
                   edge_attr (force (merge_edges short_chain "0" "1" "2")) u v
                   = edge_attr short_chain u v.
Proof.
  apply (merge_edges_creates_edge short_chain "0" "1" "2").
  vm_compute. reflexivity.
Defined.

Lemma merge_edges_creates_fact : forall g p n s g',
    merge_edges g p n s = Some g' ->
    g_node g' = g_node g
    /\ edge_attr g' p s <> None
    /\ forall u v, edge_attr g u v <> None -> edge_attr g' u v <> None.
Proof.
  intros g p n s g' H. unfold merge_edges in H.
  destruct (distance g p s) as [w|]; [|discriminate].
  destruct (combine_group_sizes g p n s) as [gs|]; [|discriminate].
  inversion H; subst g'. clear H. split; [reflexivity|]. split.
  - rewrite add_edge_get, !seqb_refl. discriminate.
  - intros u v Huv. rewrite add_edge_get.
    destruct ((seqb p u && seqb s v) || (seqb s u && seqb p v));
      [discriminate | exact Huv].
Qed.

Lemma count_spaces_app : forall s1 s2,
    count_spaces (s1 ++ s2)%string = count_spaces s1 + count_spaces s2.
Proof.
  induction s1 as [|c s1 IH]; intros s2; simpl; [reflexivity|].
  rewrite IH. lia.
Qed.

Lemma mapM_app_eq : forall (A C : Type) (f : A -> option C) l1 l2,
    mapM f (l1 ++ l2)
    = (r1 <- mapM f l1 ;; r2 <- mapM f l2 ;; Some (r1 ++ r2)).
Proof.
  induction l1 as [|a l1 IH]; intros l2; simpl.
  - destruct (mapM f l2); reflexivity.
  - destruct (f a) as [b|]; [|reflexivity]. rewrite IH.
    destruct (mapM f l1); [|reflexivity].
    destruct (mapM f l2); reflexivity.
Qed.

(** X2 ([combine_group_sizes]).  The combined string holds the samples of
    the first edge followed by those of the second, it is unparsable
    exactly when one of the two is, and it holds one space more than the
    two strings together. *)
Theorem combine_group_sizes_samples :
  forall (g : Graph) (node_pre node node_suc : string) (gs : string),
    combine_group_sizes g node_pre node node_suc = Some gs ->
    exists e1 e2,
      edge_attr g node_pre node = Some e1
      /\ edge_attr g node node_suc = Some e2
      /\ str_split gs = str_split (group_sizes e1) ++ str_split (group_sizes e2)
      /\ samples gs
         = (l1 <- samples (group_sizes e1) ;;
            l2 <- samples (group_sizes e2) ;;
            Some (l1 ++ l2))
      /\ count_spaces gs
         = count_spaces (group_sizes e1) + count_spaces (group_sizes e2) + 1.
Proof.
  intros g p n s gs H. unfold combine_group_sizes in H.
  destruct (edge_attr g p n) as [e1|]; [|discriminate].
  destruct (edge_attr g n s) as [e2|]; [|discriminate].
  inversion H; subst gs. clear H.
  exists e1, e2. split; [reflexivity|]. split; [reflexivity|].
  split; [apply str_split_join|]. split.
  - unfold samples. etransitivity; [|apply mapM_app_eq].
    f_equal. apply str_split_join.
  - rewrite count_spaces_app.
    change (count_spaces (String " " (group_sizes e2)))
      with (1 + count_spaces (group_sizes e2)).
    lia.
Qed.

Lemma combine_group_sizes_samples_witness :
  exists e1 e2,
    edge_attr short_chain "0" "1" = Some e1
    /\ edge_attr short_chain "1" "2" = Some e2
    /\ str_split "10 11 12 13 14 10 11"
       = str_split (group_sizes e1) ++ str_split (group_sizes e2)
    /\ samples "10 11 12 13 14 10 11"
       = (l1 <- samples (group_sizes e1) ;;
          l2 <- samples (group_sizes e2) ;;
          Some (l1 ++ l2))
    /\ count_spaces "10 11 12 13 14 10 11"
       = count_spaces (group_sizes e1) + count_spaces (group_sizes e2) + 1.
Proof.
  apply (combine_group_sizes_samples short_chain "0" "1" "2").
  vm_compute. reflexivity.
Defined.

Lemma remove_node_edges : forall g n g' u v,
    remove_node g n = Some g' -> u <> n -> v <> n ->
    edge_attr g' u v = edge_attr g u v.
Proof.
  intros g n g' u v H Hu Hv. unfold remove_node in H.
  destruct (has_node g n); [|discriminate].
  destruct (neighbors g n) as [nbrs|]; [|discriminate].
  inversion H; subst g'. clear H.
  unfold edge_attr, adj_row. simpl.
  rewrite (dget_ddel_other seqb seqb_eq) by congruence.
  generalize (g_adj g) as adj. unfold sdict.
  induction nbrs as [|w nbrs IH]; intros adj; simpl; [reflexivity|].
  rewrite IH. destruct (dget seqb adj w) as [row|] eqn:Er; [|reflexivity].
  rewrite (dget_dset seqb seqb_eq).
  destruct (seqb w u) eqn:Ewu; [|reflexivity].
  apply seqb_eq in Ewu. subst w. rewrite Er.
  apply (dget_ddel_other seqb seqb_eq). congruence.
Qed.

Lemma remove_nodes_edges : forall l g g' u v,
    remove_nodes g l = Some g' -> ~ In u l -> ~ In v l ->
    edge_attr g' u v = edge_attr g u v.
Proof.
  unfold remove_nodes.
  induction l as [|n l IH]; simpl; intros g g' u v H Hu Hv.
  - now inversion H.
  - destruct (remove_node g n) as [g1|] eqn:E; [|discriminate].
    rewrite (IH g1 g' u v H) by tauto.
    apply (remove_node_edges g n g1 u v E); intros ->; tauto.
Qed.

Lemma remove_nodes_order : forall l g g',
    NoDup (node_ids g) -> remove_nodes g l = Some g' ->
    node_ids g' = filter (fun m => negb (mem seqb m l)) (node_ids g).
Proof.
  unfold remove_nodes.
  induction l as [|n l IH]; simpl; intros g g' ND H.
  - inversion H; subst. clear.
    induction (node_ids g') as [|a q IHq]; simpl; [reflexivity | now f_equal].
  - destruct (remove_node g n) as [g1|] eqn:E; [|discriminate].
    pose proof (remove_node_ids g n g1 ND E) as E1.
    assert (ND1 : NoDup (node_ids g1)) by (rewrite E1; now apply filter_NoDup).
    rewrite (IH g1 g' ND1 H), E1.
    clear. induction (node_ids g) as [|a q IHq]; simpl; [reflexivity|].
    destruct (seqb n a) eqn:Ena; simpl; [exact IHq|].
    destruct (mem seqb a l); simpl; [exact IHq | now rewrite IHq].
Qed.

Lemma remove_nodes_needs : forall l g g',
    NoDup (node_ids g) -> remove_nodes g l = Some g' ->
    NoDup l /\ incl l (node_ids g).
Proof.
  unfold remove_nodes.
  induction l as [|n l IH]; simpl; intros g g' ND H.
  - split; [constructor | intros ? []].
  - destruct (remove_node g n) as [g1|] eqn:E; [|discriminate].
    pose proof (remove_node_ids g n g1 ND E) as E1.
    assert (ND1 : NoDup (node_ids g1)) by (rewrite E1; now apply filter_NoDup).
    destruct (IH g1 g' ND1 H) as (NDl & Hincl).
    destruct (remove_node_nodes g n g1 E) as (Hn & _).
    apply has_node_In in Hn.
    assert (Hsub : forall m, In m (node_ids g1) -> In m (node_ids g) /\ m <> n).
    { intros m Hm. rewrite E1 in Hm. apply filter_In in Hm.
      destruct Hm as (Hm & Hne). split; [exact Hm|].
      intros ->. rewrite seqb_refl in Hne. discriminate. }
    split.
    + constructor; [|exact NDl]. intros Hin.
      destruct (Hsub n (Hincl n Hin)) as (_ & Hne). now apply Hne.
    + intros m [Hm|Hm]; [now subst|]. now apply Hsub, Hincl.
Qed.

Lemma well_formed_parts : forall g,
    well_formed g = true ->
    NoDup (node_ids g)
    /\ (forall n, In n (node_ids g) -> dmem seqb (g_adj g) n = true).
Proof.
  intros g H. unfold well_formed in H.
  apply andb_true_iff in H. destruct H as (H & _).
  apply andb_true_iff in H. destruct H as (H1 & H2).
  split; [now apply nodupb_NoDup|].
  intros n Hn. rewrite forallb_forall in H2. now apply H2.
Qed.

(** X3 ([remove_nodes]).  On a well-formed graph [remove_nodes] returns
    exactly when the list names nodes of the graph and names none twice;
    it then leaves the other nodes in their order, lowers the node count
    by the length of the list and changes no edge between the nodes that
    stay. *)
Theorem remove_nodes_exact :
  forall (g : Graph) (nodes_to_be_removed : list string),
    well_formed g = true ->
    ((exists g', remove_nodes g nodes_to_be_removed = Some g')
     <-> NoDup nodes_to_be_removed /\ incl nodes_to_be_removed (node_ids g))
    /\ forall g',
        remove_nodes g nodes_to_be_removed = Some g' ->
        node_ids g'
        = filter (fun m => negb (mem seqb m nodes_to_be_removed)) (node_ids g)
        /\ (number_of_nodes g' + length nodes_to_be_removed
            = number_of_nodes g)%nat
        /\ forall u v,
            ~ In u nodes_to_be_removed -> ~ In v nodes_to_be_removed ->
            edge_attr g' u v = edge_attr g u v.
Proof.
  intros g l WF. destruct (well_formed_parts g WF) as (ND & Hrows).
  split; [split|].
  - intros (g' & H). exact (remove_nodes_needs l g g' ND H).
  - intros (NDl & Hincl). apply remove_nodes_succeeds; [exact NDl|].
    intros n Hn. split; [apply has_node_In|]; auto.
  - intros g' H. split; [exact (remove_nodes_order l g g' ND H)|].
    split; [exact (remove_nodes_count l g g' H)|].
    intros u v Hu Hv. exact (remove_nodes_edges l g g' u v H Hu Hv).
Qed.

Lemma remove_nodes_exact_witness :
  ((exists g', remove_nodes deep_tree ["1"; "5"] = Some g')
   <-> NoDup ["1"; "5"] /\ incl ["1"; "5"] (node_ids deep_tree))
  /\ forall g',
      remove_nodes deep_tree ["1"; "5"] = Some g' ->
      node_ids g'
      = filter (fun m => negb (mem seqb m ["1"; "5"])) (node_ids deep_tree)
      /\ (number_of_nodes g' + length ["1"; "5"]
          = number_of_nodes deep_tree)%nat
      /\ forall u v,
          ~ In u ["1"; "5"] -> ~ In v ["1"; "5"] ->
          edge_attr g' u v = edge_attr deep_tree u v.
Proof.
  apply (remove_nodes_exact deep_tree ["1"; "5"]).
  vm_compute. reflexivity.
Defined.

(** * The removal rules on the breadth-first tree *)

Lemma bfs_successors_table : forall g B,
    bfs_blocks g "0" = Some B ->
    bfs_successors g "0" = Some (successor_table B).
Proof.
  intros g B H. pose proof (bfs_blocks_forest _ _ _ H) as F.
  destruct (bfs_blocks_head _ _ _ H) as (cs & B' & E). subst B.
  unfold bfs_successors, bfs_edges. rewrite H.
  pose proof (forest_NoDup_parents _ _ F) as ND.
  change (edges_of (("0", cs) :: B')) with (map (pair "0") cs ++ edges_of B').
  rewrite group_same_parent. simpl app.
  rewrite group_blocks by exact ND. reflexivity.
Qed.

Lemma bfs_edges_blocks : forall g E,
    bfs_edges g "0" = Some E ->
    exists B, bfs_blocks g "0" = Some B /\ E = edges_of B.
Proof.
  intros g E H. unfold bfs_edges in H.
  destruct (bfs_blocks g "0") as [B|]; [|discriminate].
  inversion H. eauto.
Qed.

(** Every edge the search yields is an edge of the graph. *)
Lemma bfs_edge_attr : forall g source B p c,
    bfs_blocks g source = Some B -> In (p, c) (edges_of B) ->
    exists a, edge_attr g p c = Some a.
Proof.
  intros g source B p c H Hin. unfold bfs_blocks in H.
  apply bfs_visit_run in H. destruct H as (_ & _ & _ & Hrows).
  apply edges_of_In in Hin. destruct Hin as (cs & Hb & Hc).
  destruct (Hrows p cs Hb) as (nbrs & Hn & Hincl).
  unfold neighbors in Hn. unfold edge_attr.
  destruct (adj_row g p) as [row|]; [|discriminate].
  inversion Hn; subst nbrs.
  destruct (dget seqb row c) as [a|] eqn:Ea; [eauto|].
  apply (dget_None seqb seqb_eq) in Ea. exfalso. apply Ea. now apply Hincl.
Qed.

Lemma valid_tree_well_formed : forall g,
    valid_tree g = true -> well_formed g = true.
Proof.
  intros g H. unfold valid_tree in H.
  apply andb_true_iff in H. destruct H as [H _].
  apply andb_true_iff in H. now destruct H.
Qed.

Lemma set_of_list_In : forall (l : list string) y,
    In y (set_of_list seqb l) <-> In y l.
Proof.
  intros l y. unfold set_of_list. rewrite (set_union_In seqb seqb_eq).
  simpl. tauto.
Qed.

(** The loop of [remove_minor_edges] returns when every edge it reads
    exists, and it collects no node twice. *)
Lemma minor_edge_fold_returns : forall g has_successors edges acc,
    (forall fr to, In (fr, to) edges -> edge_attr g fr to <> None) ->
    exists rem,
      foldM
        (fun nodes_to_be_removed (e : string * string) =>
           let '(fr, to) := e in
           if mem seqb to has_successors then Some nodes_to_be_removed
           else
             a <- edge_attr g fr to ;;
             if count_spaces (group_sizes a) <? REMOVE_IF_GROUP_SIZE_LESS_THAN
             then Some (nodes_to_be_removed ++ [to])
             else Some nodes_to_be_removed)
        edges acc = Some rem.
Proof.
  intros g hs edges. induction edges as [|[fr to] edges IH]; intros acc H.
  - exists acc. reflexivity.
  - simpl. assert (H' : forall fr to, In (fr, to) edges -> edge_attr g fr to <> None).
    { intros fr' to' Hin. apply H. now right. }
    destruct (mem seqb to hs); [now apply IH|].
    destruct (edge_attr g fr to) as [a|] eqn:Ea.
    + destruct (count_spaces (group_sizes a) <? REMOVE_IF_GROUP_SIZE_LESS_THAN);
        now apply IH.
    + exfalso. apply (H fr to); [now left | exact Ea].
Qed.

Lemma minor_edge_fold_NoDup : forall g has_successors edges acc rem,
    foldM
      (fun nodes_to_be_removed (e : string * string) =>
         let '(fr, to) := e in
         if mem seqb to has_successors then Some nodes_to_be_removed
         else
           a <- edge_attr g fr to ;;
           if count_spaces (group_sizes a) <? REMOVE_IF_GROUP_SIZE_LESS_THAN
           then Some (nodes_to_be_removed ++ [to])
           else Some nodes_to_be_removed)
      edges acc = Some rem ->
    NoDup (acc ++ map snd edges) -> NoDup rem.
Proof.
  intros g hs edges. induction edges as [|[fr to] edges IH]; intros acc rem H ND.
  - simpl in H. inversion H; subst. now rewrite app_nil_r in ND.
  - simpl in H, ND.
    assert (ND1 : NoDup (acc ++ map snd edges)) by (now apply NoDup_remove_1 in ND).
    assert (ND2 : NoDup ((acc ++ [to]) ++ map snd edges))
      by (now rewrite <- app_assoc).
    destruct (mem seqb to hs); [now apply (IH acc)|].
    destruct (edge_attr g fr to) as [a|]; [|discriminate].
    destruct (count_spaces (group_sizes a) <? REMOVE_IF_GROUP_SIZE_LESS_THAN).
    + now apply (IH (acc ++ [to])).
    + now apply (IH acc).
Qed.

(** What one application of minor-edge removal does on a valid tree. *)
Lemma remove_minor_edges_facts :
  forall g : Graph,
    valid_tree g = true ->
    exists E rem g',
      bfs_edges g "0" = Some E
      /\ minor_edge_nodes g = Some rem
      /\ remove_minor_edges g = Some g'
      /\ (forall n, In n rem
                    <-> exists fr a,
                          In (fr, n) E
                          /\ (forall c, ~ In (n, c) E)
                          /\ edge_attr g fr n = Some a
                          /\ count_spaces (group_sizes a) < 6)
      /\ NoDup rem
      /\ node_ids g' = filter (fun m => negb (mem seqb m rem)) (node_ids g)
      /\ has_node g' "0" = true.
Proof.
  intros g V. pose proof (valid_tree_well_formed g V) as WF.
  destruct (well_formed_parts g WF) as (ND & Hrows).
  destruct (valid_tree_visit g V) as (B & EB & _ & Hnodes & _).
  pose proof (bfs_blocks_forest _ _ _ EB) as F.
  pose proof (bfs_blocks_head _ _ _ EB) as Hhead.
  pose proof (forest_source_not_child _ _ F) as Hroot.
  pose proof (forest_NoDup_children _ _ F) as NDc.
  assert (EE : bfs_edges g "0" = Some (edges_of B)).
  { unfold bfs_edges. now rewrite EB. }
  set (hs := set_of_list seqb (map fst (successor_table B))).
  destruct (minor_edge_fold_returns g hs (edges_of B) [])
    as (rem & Hfold).
  { intros fr to Hin. destruct (bfs_edge_attr g "0" B fr to EB Hin) as (a & Ha).
    congruence. }
  assert (Hminor : minor_edge_nodes g = Some rem).
  { unfold minor_edge_nodes. rewrite (bfs_successors_table g B EB), EE.
    exact Hfold. }
  assert (Hchar : forall n, In n rem
                    <-> exists fr a,
                          In (fr, n) (edges_of B)
                          /\ (forall c, ~ In (n, c) (edges_of B))
                          /\ edge_attr g fr n = Some a
                          /\ count_spaces (group_sizes a) < 6).
  { intros n. rewrite (minor_edge_fold g hs (edges_of B) [] rem Hfold n).
    assert (Hleaf : forall fr, In (fr, n) (edges_of B) ->
                (mem seqb n hs = false <-> forall c, ~ In (n, c) (edges_of B))).
    { intros fr Hin.
      assert (Hn0 : n <> "0").
      { intros ->. apply Hroot. rewrite <- edges_of_children.
        apply in_map_iff. exists (fr, "0"). now split. }
      rewrite (mem_not_In seqb seqb_eq). unfold hs. rewrite set_of_list_In.
      rewrite <- (dmem_In seqb seqb_eq).
      rewrite (table_mem "0" B F Hhead). split.
      - intros H c Hc. apply H. right. now exists c.
      - intros H [H0|(c & Hc)]; [contradiction | exact (H c Hc)]. }
    split.
    - intros [[]|(fr & a & H1 & H2 & H3 & H4)].
      exists fr, a. split; [exact H1|]. split; [now apply (Hleaf fr)|]. tauto.
    - intros (fr & a & H1 & H2 & H3 & H4). right.
      exists fr, a. split; [exact H1|]. split; [now apply (Hleaf fr)|]. tauto. }
  assert (NDrem : NoDup rem).
  { apply (minor_edge_fold_NoDup g hs (edges_of B) [] rem Hfold).
    simpl. now rewrite edges_of_children. }
  assert (Hchild : forall n, In n rem -> In n (children_of B)).
  { intros n Hn. apply Hchar in Hn. destruct Hn as (fr & a & H1 & _).
    rewrite <- edges_of_children. apply in_map_iff. exists (fr, n). now split. }
  destruct (remove_nodes_succeeds rem g NDrem) as (g' & Hg').
  { intros n Hn.
    assert (Hin : In n (node_ids g)) by (apply Hnodes; right; now apply Hchild).
    split; [now apply has_node_In | now apply Hrows]. }
  exists (edges_of B), rem, g'.
  split; [exact EE|]. split; [exact Hminor|].
  split; [unfold remove_minor_edges; now rewrite Hminor|].
  split; [exact Hchar|]. split; [exact NDrem|].
  split; [exact (remove_nodes_order rem g g' ND Hg')|].
  apply (remove_nodes_keeps rem g g' "0" Hg').
  - intros H0. apply Hroot. now apply Hchild.
  - apply has_node_In. apply Hnodes. now left.
Qed.

(** X4 ([remove_minor_edges]).  On every valid tree the rule returns.  It
    removes exactly the nodes that the search from "0" reaches over an
    edge whose [group_sizes] holds fewer than six spaces and that have no
    child of their own; the root stays, and so does every other node, in
    the order it had. *)
Theorem remove_minor_edges_exact :
  forall g : Graph,
    valid_tree g = true ->
    exists E rem g',
      bfs_edges g "0" = Some E
      /\ minor_edge_nodes g = Some rem
      /\ remove_minor_edges g = Some g'
      /\ (forall n, In n rem
                    <-> exists fr a,
                          In (fr, n) E
                          /\ (forall c, ~ In (n, c) E)
                          /\ edge_attr g fr n = Some a
                          /\ count_spaces (group_sizes a) < 6)
      /\ NoDup rem
      /\ node_ids g' = filter (fun m => negb (mem seqb m rem)) (node_ids g)
      /\ has_node g' "0" = true.
Proof. exact remove_minor_edges_facts. Qed.

Lemma remove_minor_edges_exact_witness :
  exists E rem g',
    bfs_edges minor_tree "0" = Some E
    /\ minor_edge_nodes minor_tree = Some rem
    /\ remove_minor_edges minor_tree = Some g'
    /\ (forall n, In n rem
                  <-> exists fr a,
                        In (fr, n) E
                        /\ (forall c, ~ In (n, c) E)
                        /\ edge_attr minor_tree fr n = Some a
                        /\ count_spaces (group_sizes a) < 6)
    /\ NoDup rem
    /\ node_ids g'
       = filter (fun m => negb (mem seqb m rem)) (node_ids minor_tree)
    /\ has_node g' "0" = true.
Proof.
  apply (remove_minor_edges_exact minor_tree).
  vm_compute. reflexivity.
Defined.

(** * Minor-edge removal counts the separators *)

Lemma utf8_head_space : forall s, utf8_head space s = (32%N, 0%nat).
Proof. reflexivity. Qed.

(** No word that [str.split] returns holds a space. *)
Lemma split_ws_no_space : forall s skip cur,
    count_spaces cur = 0 ->
    Forall (fun t => count_spaces t = 0) (split_ws skip cur s).
Proof.
  induction s as [|c s IH]; intros skip cur Hcur.
  - simpl. destruct (is_empty cur); [constructor|].
    constructor; [exact Hcur | constructor].
  - cbn [split_ws]. destruct skip as [|skip]; [|now apply IH].
    destruct (utf8_head c s) as [cp more] eqn:Eh.
    destruct (is_space cp) eqn:Es.
    + destruct (is_empty cur).
      * now apply IH.
      * constructor; [exact Hcur | now apply IH].
    + apply IH. rewrite count_spaces_app, Hcur. simpl.
      destruct (Ascii.eqb c space) eqn:Ec; [|reflexivity].
      apply Ascii.eqb_eq in Ec. subst c. rewrite utf8_head_space in Eh.
      inversion Eh; subst cp. discriminate.
Qed.

Lemma single_word_no_space : forall t,
    str_split t = [t] -> count_spaces t = 0.
Proof.
  intros t H.
  pose proof (split_ws_no_space t 0%nat "" eq_refl) as F.
  fold (str_split t) in F. rewrite H in F. now inversion F.
Qed.

Lemma join_spaces_cons : forall t u rest,
    join_spaces (t :: u :: rest) = (t ++ " " ++ join_spaces (u :: rest))%string.
Proof. reflexivity. Qed.

(** Words joined by single spaces are split into these words again, and
    the spaces of the text are one less than the words. *)
Lemma join_spaces_words : forall tokens,
    tokens <> [] ->
    Forall (fun t => str_split t = [t]) tokens ->
    str_split (join_spaces tokens) = tokens
    /\ count_spaces (join_spaces tokens) + 1 = Z.of_nat (length tokens).
Proof.
  induction tokens as [|t [|u rest] IH]; intros Hne F.
  - congruence.
  - inversion F as [|? ? Ht _]; subst. simpl.
    split; [exact Ht|]. rewrite (single_word_no_space t Ht). reflexivity.
  - inversion F as [|? ? Ht F']; subst.
    destruct (IH ltac:(discriminate) F') as (IH1 & IH2).
    rewrite join_spaces_cons. split.
    + rewrite str_split_join, Ht, IH1. reflexivity.
    + rewrite count_spaces_app, (single_word_no_space t Ht).
      change (" " ++ join_spaces (u :: rest))%string
        with (String space (join_spaces (u :: rest))).
      cbn [count_spaces]. rewrite Ascii.eqb_refl.
      change (length (t :: u :: rest)) with (S (length (u :: rest))).
      rewrite Nat2Z.inj_succ. lia.
Qed.

(** C4, amended.  On every valid tree one application of minor-edge
    removal returns, and it removes a node if and only if the node has no
    child in the search from "0" and the [group_sizes] text of its
    incoming edge holds fewer than six spaces.  When that text is made of
    words joined by single spaces, as the samples are, these words are
    what [split] reads from it and the test holds exactly for at most six
    of them: a leaf behind six samples is removed, one behind seven is
    kept. *)
Theorem minor_edge_removal_counts_separators :
  forall g : Graph,
    valid_tree g = true ->
    exists E g',
      bfs_edges g "0" = Some E
      /\ remove_minor_edges g = Some g'
      /\ (forall n,
             (In n (node_ids g) /\ ~ In n (node_ids g'))
             <-> exists fr a,
                   In (fr, n) E
                   /\ (forall c, ~ In (n, c) E)
                   /\ edge_attr g fr n = Some a
                   /\ count_spaces (group_sizes a) < 6)
      /\ forall fr n a tokens,
          edge_attr g fr n = Some a ->
          tokens <> [] ->
          Forall (fun t => str_split t = [t]) tokens ->
          group_sizes a = join_spaces tokens ->
          str_split (group_sizes a) = tokens
          /\ (count_spaces (group_sizes a) < 6 <-> (length tokens <= 6)%nat).
Proof.
  intros g V.
  destruct (remove_minor_edges_facts g V)
    as (E & rem & g' & HE & _ & Hg' & Hchar & _ & Hids & _).
  exists E, g'. split; [exact HE|]. split; [exact Hg'|]. split.
  - intros n. rewrite <- Hchar. rewrite Hids, filter_In. split.
    + intros (Hin & Hout).
      destruct (mem seqb n rem) eqn:Em; [now apply (mem_In seqb seqb_eq)|].
      exfalso. apply Hout. now split.
    + intros Hrem. split.
      * apply Hchar in Hrem. destruct Hrem as (fr & a & Hin & _).
        destruct (valid_tree_visit g V) as (B & EB & _ & Hnodes & _).
        unfold bfs_edges in HE. rewrite EB in HE. inversion HE; subst E.
        apply Hnodes. right. rewrite <- edges_of_children.
        apply in_map_iff. exists (fr, n). now split.
      * intros (_ & Hneg). apply (mem_In seqb seqb_eq) in Hrem.
        rewrite Hrem in Hneg. discriminate.
  - intros fr n a tokens _ Hne F ->.
    destruct (join_spaces_words tokens Hne F) as (H1 & H2).
    split; [exact H1 | lia].
Qed.

Lemma minor_edge_removal_counts_separators_witness :
  exists E g',
    bfs_edges six_sample_leaf "0" = Some E
    /\ remove_minor_edges six_sample_leaf = Some g'
    /\ (forall n,
           (In n (node_ids six_sample_leaf) /\ ~ In n (node_ids g'))
           <-> exists fr a,
                 In (fr, n) E
                 /\ (forall c, ~ In (n, c) E)
                 /\ edge_attr six_sample_leaf fr n = Some a
                 /\ count_spaces (group_sizes a) < 6)
    /\ forall fr n a tokens,
        edge_attr six_sample_leaf fr n = Some a ->
        tokens <> [] ->
        Forall (fun t => str_split t = [t]) tokens ->
        group_sizes a = join_spaces tokens ->
        str_split (group_sizes a) = tokens
        /\ (count_spaces (group_sizes a) < 6 <-> (length tokens <= 6)%nat).
Proof.
  apply (minor_edge_removal_counts_separators six_sample_leaf).
  vm_compute. reflexivity.
Defined.

(** ** Straightening *)

Lemma only_single_successor_In : forall T n s,
    In (n, s) (only_single_successor T) <-> In (n, [s]) T.
Proof.
  induction T as [|[m cs] T IH]; intros n s; simpl; [tauto|].
  destruct cs as [|c [|c' cs]]; simpl; rewrite IH.
  - split; [tauto | intros [H|H]; [discriminate | exact H]].
  - split; intros [H|H]; try tauto; left; congruence.
  - split; [tauto | intros [H|H]; [discriminate | exact H]].
Qed.

Lemma only_single_successor_keys : forall T n,
    In n (map fst (only_single_successor T)) -> In n (map fst T).
Proof.
  intros T n H. apply in_map_iff in H. destruct H as ([n' s] & Hn & Hin).
  simpl in Hn. subst n'. apply only_single_successor_In in Hin.
  apply in_map_iff. exists (n, [s]). now split.
Qed.

Lemma only_single_successor_NoDup : forall T,
    NoDup (map fst T) -> NoDup (map fst (only_single_successor T)).
Proof.
  induction T as [|[m cs] T IH]; intros ND; simpl; [constructor|].
  simpl in ND. inversion ND as [|? ? Hm ND']; subst.
  destruct cs as [|c [|c' cs]]; simpl; try now apply IH.
  constructor; [|now apply IH].
  intros H. apply Hm. now apply only_single_successor_keys.
Qed.

Lemma children_later_tail : forall b T,
    children_later (b :: T) -> children_later T.
Proof.
  intros b T H T1 n cs T2 c E Hc Hin.
  apply (H (b :: T1) n cs T2 c); [now rewrite E | exact Hc|].
  simpl. now right.
Qed.

(** A node that has a single child is listed before that child. *)
Lemma only_single_successor_order : forall T,
    children_later T ->
    forall L1 n s L2,
      only_single_successor T = L1 ++ (n, s) :: L2 ->
      ~ In s (map fst (L1 ++ [(n, s)])).
Proof.
  induction T as [|[m cs] T IH]; intros HT L1 n s L2 E.
  - destruct L1; discriminate.
  - pose proof (children_later_tail _ _ HT) as HT'.
    assert (Skip : only_single_successor ((m, cs) :: T) = only_single_successor T ->
                   ~ In s (map fst (L1 ++ [(n, s)]))).
    { intros E'. rewrite E' in E. exact (IH HT' L1 n s L2 E). }
    destruct cs as [|c [|c' cs]]; [now apply Skip | | now apply Skip].
    simpl in E. destruct L1 as [|[m' c1] L1].
    + simpl in E. inversion E; subst. simpl.
      specialize (HT [] n [s] T s eq_refl (or_introl eq_refl)).
      exact HT.
    + simpl in E. inversion E; subst m' c1.
      match goal with H : only_single_successor T = _ |- _ => rename H into ET end.
      pose proof (IH HT' L1 n s L2 ET) as Hlater.
      simpl. intros [Hm|Hin]; [|now apply Hlater].
      subst m.
      assert (Hin : In (n, [s]) T).
      { apply only_single_successor_In. rewrite ET.
        apply in_or_app. right. now left. }
      apply in_split in Hin. destruct Hin as (T1 & T2 & ET2).
      apply (HT ((s, [c]) :: T1) n [s] T2 s).
      * now rewrite ET2.
      * now left.
      * simpl. now left.
Qed.

Lemma filter_split : forall (A : Type) (f : A -> bool) l l1 a l2,
    filter f l = l1 ++ a :: l2 ->
    exists m1 m2, l = m1 ++ a :: m2 /\ filter f m1 = l1 /\ filter f m2 = l2.
Proof.
  induction l as [|b l IH]; intros l1 a l2 E; simpl in E.
  - destruct l1; discriminate.
  - destruct (f b) eqn:Eb.
    + destruct l1 as [|b1 l1]; simpl in E; inversion E; subst.
      * exists [], l. split; [reflexivity|]. split; reflexivity.
      * match goal with H : filter f l = _ |- _ => rename H into El end.
        destruct (IH _ _ _ El) as (m1 & m2 & E1 & E2 & E3).
        exists (b1 :: m1), m2. split; [now rewrite E1|].
        split; [simpl; now rewrite Eb, E2 | exact E3].
    + destruct (IH _ _ _ E) as (m1 & m2 & E1 & E2 & E3).
      exists (b :: m1), m2. split; [now rewrite E1|].
      split; [simpl; now rewrite Eb | exact E3].
Qed.

Lemma forest_children_later : forall source B,
    is_forest source B -> children_later B.
Proof.
  intros source B F T1 n cs T2 c E Hc.
  exact (forest_child_block_later source B T1 n cs T2 c F E Hc).
Qed.

Lemma successor_table_later : forall source B,
    is_forest source B -> children_later (successor_table B).
Proof.
  intros source B F. pose proof (forest_children_later source B F) as HB.
  destruct B as [|b B']; simpl.
  - intros T1 n cs T2 c E. destruct T1; discriminate.
  - intros T1 n cs T2 c E Hc. destruct T1 as [|b1 T1]; simpl in E.
    + inversion E; subst. exact (HB [] n cs B' c eq_refl Hc).
    + inversion E; subst b1.
      match goal with H : filter has_children B' = _ |- _ => rename H into EF end.
      destruct (filter_split _ _ _ _ _ _ EF) as (m1 & m2 & E1 & E2 & E3).
      intros Hin.
      apply (HB (b :: m1) n cs m2 c); [now rewrite E1 | exact Hc|].
      simpl in Hin. simpl. destruct Hin as [Hin|Hin]; [now left|]. right.
      rewrite map_app in Hin. rewrite map_app.
      apply in_app_or in Hin. apply in_or_app.
      destruct Hin as [Hin|Hin]; [|now right]. left.
      rewrite <- E2 in Hin. apply in_map_iff in Hin.
      destruct Hin as (y & Hy & Hin). apply filter_In in Hin.
      apply in_map_iff. exists y. tauto.
Qed.

Lemma straighten_edges_plan : forall g,
    straighten_edges g
    = ('(g1, rem, _) <- straighten_plan g ;; remove_nodes g1 rem).
Proof.
  intros g. unfold straighten_edges, straighten_plan.
  destruct (predecessors_dict g) as [preds|]; [|reflexivity].
  destruct (bfs_successors g "0") as [succ|]; reflexivity.
Qed.

(** The loop of [straighten_edges], edge by edge. *)
Lemma straighten_fold : forall g preds L,
    NoDup (map fst L) ->
    (forall L1 n s L2, L = L1 ++ (n, s) :: L2 ->
                       ~ In s (map fst (L1 ++ [(n, s)]))) ->
    forall L2 L1 ga ra ca gb rb cb,
      L = L1 ++ L2 ->
      straighten_invariant L L1 ra ca ->
      g_node ga = g_node g ->
      (forall u v, edge_attr g u v <> None -> edge_attr ga u v <> None) ->
      (forall n, In n ra ->
         exists p, dget seqb preds n = Some p
                   /\ forall s, In (n, s) L -> edge_attr ga p s <> None) ->
      foldM (straighten_step preds) L2 (ga, ra, ca) = Some (gb, rb, cb) ->
      straighten_invariant L L rb cb
      /\ g_node gb = g_node g
      /\ (forall u v, edge_attr g u v <> None -> edge_attr gb u v <> None)
      /\ (forall n, In n rb ->
            exists p, dget seqb preds n = Some p
                      /\ forall s, In (n, s) L -> edge_attr gb p s <> None).
Proof.
  intros g preds L NDL Hord.
  induction L2 as [|[n s] L2 IH]; intros L1 ga ra ca gb rb cb E Inv Hn He Hm Hf.
  - simpl in Hf. injection Hf as H1 H2 H3. subst gb rb cb.
    rewrite app_nil_r in E. subst L1.
    split; [exact Inv|]. split; [exact Hn|]. split; [exact He | exact Hm].
  - assert (E' : L = (L1 ++ [(n, s)]) ++ L2) by (now rewrite <- app_assoc).
    destruct Inv as (I1 & I2 & I3 & I4).
    assert (Hn1 : ~ In n (map fst L1)).
    { rewrite E, map_app in NDL. simpl in NDL. apply NoDup_remove_2 in NDL.
      intros H. apply NDL. apply in_or_app. now left. }
    assert (Hlater : ~ In s (map fst (L1 ++ [(n, s)]))) by (exact (Hord _ _ _ _ E)).
    assert (Huniq : forall s', In (n, s') L -> s' = s).
    { intros s' Hin.
      assert (Hin2 : In (n, s) L) by (rewrite E; apply in_or_app; right; now left).
      assert (G : forall (l : list (string * string)) k v v',
                 NoDup (map fst l) -> In (k, v) l -> In (k, v') l -> v = v').
      { intros l k v v' NDl H1 H2.
        apply (dget_NoDup seqb seqb_eq _ _ _ NDl) in H1.
        apply (dget_NoDup seqb seqb_eq _ _ _ NDl) in H2. congruence. }
      exact (G L n s' s NDL Hin Hin2). }
    simpl in Hf. destruct (mem seqb n ca) eqn:Emem.
    + apply (IH (L1 ++ [(n, s)]) ga ra ca gb rb cb E'); try assumption.
      split; [exact I1|]. split; [|split; [exact I3 | exact I4]].
      intros m Hin. destruct (I2 m Hin) as (H1 & H2). split; [|exact H2].
      rewrite map_app. apply in_or_app. now left.
    + apply (mem_not_In seqb seqb_eq) in Emem.
      destruct (dget seqb preds n) as [p|] eqn:Ep; [|discriminate].
      destruct (merge_edges ga p n s) as [gm|] eqn:Eg; [|discriminate].
      destruct (merge_edges_creates_fact ga p n s gm Eg) as (Hnodes & Hps & Hmono).
      apply (IH (L1 ++ [(n, s)]) gm (ra ++ [n]) (set_add seqb ca s) gb rb cb E');
        try assumption.
      * split; [|split; [|split]].
        -- apply (set_add_In seqb seqb_eq). now left.
        -- intros m Hin. apply in_app_or in Hin. destruct Hin as [Hin|[Hin|[]]].
           ++ destruct (I2 m Hin) as (H1 & H2). split.
              ** rewrite map_app. apply in_or_app. now left.
              ** intros Hc. apply (set_add_In seqb seqb_eq) in Hc.
                 destruct Hc as [Hc|Hc]; [now apply H2|]. subst m.
                 apply Hlater. rewrite map_app. apply in_or_app. now left.
           ++ subst m. split.
              ** rewrite map_app. apply in_or_app. right. now left.
              ** intros Hc. apply (set_add_In seqb seqb_eq) in Hc.
                 destruct Hc as [Hc|Hc]; [now apply Emem|]. subst s.
                 apply Hlater. rewrite map_app. apply in_or_app. right. now left.
        -- intros m s' Hin Hin'. apply (set_add_In seqb seqb_eq).
           apply in_app_or in Hin. destruct Hin as [Hin|[Hin|[]]].
           ++ left. exact (I3 m s' Hin Hin').
           ++ subst m. right. now apply Huniq.
        -- apply NoDup_app; [exact I4 | repeat constructor; intros [] |].
           intros m Hin [Hm'|[]]. subst m. apply Hn1. now apply I2.
      * congruence.
      * intros u v Huv. apply Hmono. now apply He.
      * intros m Hin. apply in_app_or in Hin. destruct Hin as [Hin|[Hin|[]]].
        -- destruct (Hm m Hin) as (pm & Hpm & Hedges). exists pm.
           split; [exact Hpm|]. intros s' Hs'. apply Hmono. now apply Hedges.
        -- subst m. exists p. split; [exact Ep|].
           intros s' Hs'. rewrite (Huniq s' Hs'). exact Hps.
Qed.

Lemma predecessors_dict_edges : forall g B preds n p,
    bfs_blocks g "0" = Some B ->
    predecessors_dict g = Some preds ->
    dget seqb preds n = Some p -> In (p, n) (edges_of B).
Proof.
  intros g B preds n p EB Hp Hget.
  pose proof (forest_NoDup_children _ _ (bfs_blocks_forest _ _ _ EB)) as NDc.
  unfold predecessors_dict, bfs_predecessors, bfs_edges in Hp.
  rewrite EB in Hp. inversion Hp; subst preds. clear Hp.
  rewrite dict_of_list_NoDup in Hget; [|exact seqb_eq|].
  - apply (dget_In seqb seqb_eq) in Hget. apply in_map_iff in Hget.
    destruct Hget as ([p' n'] & Hpair & Hin). simpl in Hpair.
    inversion Hpair; subst. exact Hin.
  - rewrite map_map. simpl. fold (map (@snd string string) (edges_of B)).
    now rewrite edges_of_children.
Qed.

(** What one pass of [straighten_edges] has decided when its loop ends. *)
Lemma straighten_plan_facts : forall g B g1 rem cant,
    bfs_blocks g "0" = Some B ->
    straighten_plan g = Some (g1, rem, cant) ->
    straighten_invariant
      (only_single_successor (successor_table B))
      (only_single_successor (successor_table B)) rem cant
    /\ g_node g1 = g_node g
    /\ (forall u v, edge_attr g u v <> None -> edge_attr g1 u v <> None)
    /\ (forall n, In n rem ->
          exists p, In (p, n) (edges_of B)
                    /\ forall s,
                        In (n, s) (only_single_successor (successor_table B)) ->
                        edge_attr g1 p s <> None).
Proof.
  intros g B g1 rem cant EB Hplan.
  pose proof (bfs_blocks_forest _ _ _ EB) as F.
  unfold straighten_plan in Hplan.
  destruct (predecessors_dict g) as [preds|] eqn:Ep; [|discriminate].
  rewrite (bfs_successors_table g B EB) in Hplan.
  set (L := only_single_successor (successor_table B)) in *.
  assert (NDL : NoDup (map fst L)).
  { apply only_single_successor_NoDup. apply successor_table_keys.
    exact (forest_NoDup_parents _ _ F). }
  assert (Hord : forall L1 n s L2, L = L1 ++ (n, s) :: L2 ->
                                   ~ In s (map fst (L1 ++ [(n, s)]))).
  { apply only_single_successor_order.
    exact (successor_table_later "0" B F). }
  destruct (straighten_fold g preds L NDL Hord L [] g [] ["0"] g1 rem cant)
    as (I & Hn & He & Hm); try assumption; try reflexivity.
  - split; [now left|]. split; [intros ? []|]. split; [intros ? ? []|constructor].
  - intros u v H. exact H.
  - intros ? [].
  - split; [exact I|]. split; [exact Hn|]. split; [exact He|].
    intros n Hin. destruct (Hm n Hin) as (p & Hp & Hedges).
    exists p. split; [|exact Hedges].
    exact (predecessors_dict_edges g B preds n p EB Ep Hp).
Qed.

(** X5 ([straighten_edges]).  One pass of straightening never removes the
    root.  Every node it removes has exactly one child in the search tree;
    neither that child nor the parent of the node is removed in the same
    pass, and in the tree the pass returns the parent is adjacent to the
    child.  The pass lowers the node count by the number of nodes it
    removes and keeps every other node. *)
Theorem straighten_protects :
  forall (g : Graph) (E : list (string * string)) (g1 : Graph)
         (rem cant : list string),
    bfs_edges g "0" = Some E ->
    straighten_plan g = Some (g1, rem, cant) ->
    ~ In "0" rem
    /\ NoDup rem
    /\ g_node g1 = g_node g
    /\ (forall n, In n rem ->
          exists p s,
            In (p, n) E
            /\ (forall c, In (n, c) E <-> c = s)
            /\ ~ In p rem
            /\ ~ In s rem
            /\ edge_attr g1 p s <> None)
    /\ forall g',
        straighten_edges g = Some g' ->
        (number_of_nodes g' + length rem = number_of_nodes g)%nat
        /\ (forall m, ~ In m rem -> has_node g m = true -> has_node g' m = true)
        /\ (forall n p s, In n rem -> In (p, n) E -> In (n, s) E ->
                          edge_attr g' p s <> None).
Proof.
  intros g E g1 rem cant HE Hplan.
  destruct (bfs_edges_blocks g E HE) as (B & EB & ->).
  pose proof (bfs_blocks_forest _ _ _ EB) as F.
  pose proof (bfs_blocks_head _ _ _ EB) as Hhead.
  destruct (straighten_plan_facts g B g1 rem cant EB Hplan)
    as ((I1 & I2 & I3 & I4) & Hn & He & Hm).
  set (L := only_single_successor (successor_table B)) in *.
  assert (Hroot : ~ In "0" rem).
  { intros H. now apply (I2 "0" H). }
  assert (Hsingle : forall n s, In (n, s) L ->
                      forall c, In (n, c) (edges_of B) <-> c = s).
  { intros n s Hin c. apply only_single_successor_In in Hin.
    apply (dget_NoDup seqb seqb_eq) in Hin;
      [|apply successor_table_keys; exact (forest_NoDup_parents _ _ F)].
    apply (table_get "0" B F Hhead) in Hin. destruct Hin as (Hin & _).
    rewrite edges_of_In. split.
    - intros (cs & Hcs & Hc).
      rewrite (forest_block_unique "0" B F n cs [s] Hcs Hin) in Hc.
      destruct Hc as [Hc|[]]. now subst.
    - intros ->. exists [s]. split; [exact Hin | now left]. }
  assert (Hremoved : forall n, In n rem ->
            exists p s,
              In (p, n) (edges_of B)
              /\ In (n, s) L
              /\ ~ In p rem
              /\ ~ In s rem
              /\ edge_attr g1 p s <> None).
  { intros n Hin. destruct (I2 n Hin) as (Hkey & Hcant).
    apply in_map_iff in Hkey. destruct Hkey as ([n' s] & Hfst & HL).
    simpl in Hfst. subst n'.
    destruct (Hm n Hin) as (p & Hp & Hedges).
    exists p, s. split; [exact Hp|]. split; [exact HL|].
    split; [|split; [|now apply Hedges]].
    - intros Hprem. destruct (I2 p Hprem) as (Hpkey & _).
      apply in_map_iff in Hpkey. destruct Hpkey as ([p' s'] & Hfst & HpL).
      simpl in Hfst. subst p'.
      assert (n = s') by (now apply (Hsingle p s' HpL)). subst s'.
      apply Hcant. exact (I3 p n Hprem HpL).
    - intros Hsrem. destruct (I2 s Hsrem) as (_ & Hscant).
      apply Hscant. exact (I3 n s Hin HL). }
  split; [exact Hroot|]. split; [exact I4|]. split; [exact Hn|].
  split.
  - intros n Hin. destruct (Hremoved n Hin) as (p & s & H1 & H2 & H3 & H4 & H5).
    exists p, s. split; [exact H1|]. split; [exact (Hsingle n s H2)|].
    split; [exact H3|]. split; [exact H4 | exact H5].
  - intros g' Hg'. rewrite straighten_edges_plan, Hplan in Hg'.
    split; [|split].
    + pose proof (remove_nodes_count rem g1 g' Hg') as Hc.
      unfold number_of_nodes in *. now rewrite <- Hn.
    + intros m Hm' Hhas. apply (remove_nodes_keeps rem g1 g' m Hg' Hm').
      unfold has_node in *. now rewrite Hn.
    + intros n p s Hin Hpn Hns.
      destruct (Hremoved n Hin) as (p' & s' & H1 & H2 & H3 & H4 & H5).
      assert (p = p') by (exact (forest_parent_unique "0" B F p p' n Hpn H1)).
      assert (s = s') by (now apply (Hsingle n s' H2)).
      subst p' s'.
      now rewrite (remove_nodes_edges rem g1 g' p s Hg' H3 H4).
Qed.

Lemma straighten_protects_witness :
  ~ In "0" ["2"; "4"]
  /\ NoDup ["2"; "4"]
  /\ g_node (force (option_map (fun t => fst (fst t)) (straighten_plan deep_tree)))
     = g_node deep_tree
  /\ (forall n, In n ["2"; "4"] ->
        exists p s,
          In (p, n) [("0", "1"); ("0", "2"); ("2", "3"); ("3", "4"); ("4", "5")]
          /\ (forall c,
                In (n, c)
                  [("0", "1"); ("0", "2"); ("2", "3"); ("3", "4"); ("4", "5")]
                <-> c = s)
          /\ ~ In p ["2"; "4"]
          /\ ~ In s ["2"; "4"]
          /\ edge_attr
               (force (option_map (fun t => fst (fst t))
                         (straighten_plan deep_tree))) p s <> None)
  /\ forall g',
      straighten_edges deep_tree = Some g' ->
      (number_of_nodes g' + length ["2"; "4"] = number_of_nodes deep_tree)%nat
      /\ (forall m, ~ In m ["2"; "4"] -> has_node deep_tree m = true ->
                    has_node g' m = true)
      /\ (forall n p s,
            In n ["2"; "4"] ->
            In (p, n) [("0", "1"); ("0", "2"); ("2", "3"); ("3", "4"); ("4", "5")] ->
            In (n, s) [("0", "1"); ("0", "2"); ("2", "3"); ("3", "4"); ("4", "5")] ->
            edge_attr g' p s <> None).
Proof.
  apply (straighten_protects deep_tree
           [("0", "1"); ("0", "2"); ("2", "3"); ("3", "4"); ("4", "5")]
           (force (option_map (fun t => fst (fst t)) (straighten_plan deep_tree)))
           ["2"; "4"] ["0"; "3"; "5"]);
    vm_compute; reflexivity.
Defined.

(** ** Close-node merging: the edges the pass examines *)

Lemma is_close_samples : forall curr b,
    is_close curr = Some b ->
    exists nums, samples (group_sizes curr) = Some nums /\ nums <> [].
Proof.
  intros curr b H. unfold is_close in H.
  destruct (samples (group_sizes curr)) as [nums|]; [|discriminate].
  exists nums. split; [reflexivity|]. intros ->. discriminate.
Qed.

Lemma merge_close_fold_examines : forall g T E,
    NoDup (map snd E) ->
    forall E2 E1 rem merges cant rem' merges' cant',
      E = E1 ++ E2 ->
      (forall n, In n rem -> In n (map snd E1)) ->
      (forall p c, In (p, c) E1 -> ~ In c cant ->
         exists curr nums b,
           edge_attr g p c = Some curr
           /\ samples (group_sizes curr) = Some nums
           /\ nums <> []
           /\ is_close curr = Some b
           /\ (b = true <-> In c rem)) ->
      foldM (merge_close_step g T) E2 (rem, merges, cant)
      = Some (rem', merges', cant') ->
      forall p c, In (p, c) E -> ~ In c cant' ->
        exists curr nums b,
          edge_attr g p c = Some curr
          /\ samples (group_sizes curr) = Some nums
          /\ nums <> []
          /\ is_close curr = Some b
          /\ (b = true <-> In c rem').
Proof.
  intros g T E ND.
  induction E2 as [|[p0 c0] E2 IH];
    intros E1 rem merges cant rem' merges' cant' HE Hrem Hdone Hf.
  - simpl in Hf. injection Hf as H1 H2 H3. subst rem' merges' cant'.
    rewrite app_nil_r in HE. subst E1. exact Hdone.
  - assert (HE' : E = (E1 ++ [(p0, c0)]) ++ E2) by (now rewrite <- app_assoc).
    assert (Hc0 : ~ In c0 (map snd E1)).
    { rewrite HE, map_app in ND. simpl in ND. apply NoDup_remove_2 in ND.
      intros H. apply ND. apply in_or_app. now left. }
    assert (Hgrow : forall n, In n (map snd E1) -> In n (map snd (E1 ++ [(p0, c0)]))).
    { intros n Hn. rewrite map_app. apply in_or_app. now left. }
    simpl in Hf. destruct (mem seqb c0 cant) eqn:Emem.
    + apply (IH (E1 ++ [(p0, c0)]) rem merges cant rem' merges' cant' HE');
        [auto | | exact Hf].
      intros p c Hin Hc. apply in_app_or in Hin. destruct Hin as [Hin|[Hin|[]]].
      * now apply Hdone.
      * inversion Hin; subst. exfalso. apply Hc.
        now apply (mem_In seqb seqb_eq).
    + destruct (edge_attr g p0 c0) as [curr|] eqn:Ecurr; [|discriminate].
      destruct (is_close curr) as [b|] eqn:Eclose; [|discriminate].
      destruct (is_close_samples curr b Eclose) as (nums & Hnums & Hne).
      destruct b.
      * apply (fun H1 H2 => IH (E1 ++ [(p0, c0)]) _ _ _ rem' merges' cant' HE' H1 H2 Hf).
        -- intros n Hn. apply in_app_or in Hn. destruct Hn as [Hn|[Hn|[]]].
           ++ auto.
           ++ subst n. rewrite map_app. apply in_or_app. right. now left.
        -- intros p c Hin Hc. apply in_app_or in Hin.
           destruct Hin as [Hin|[Hin|[]]].
           ++ destruct (Hdone p c Hin) as (cu & nu & b & H1 & H2 & H3 & H4 & H5).
              { intros H. apply Hc. apply (set_union_In seqb seqb_eq). now left. }
              exists cu, nu, b. split; [exact H1|]. split; [exact H2|].
              split; [exact H3|]. split; [exact H4|]. rewrite H5. split.
              ** intros H. apply in_or_app. now left.
              ** intros H. apply in_app_or in H. destruct H as [H|[H|[]]]; [exact H|].
                 subst c. exfalso. apply Hc0. apply in_map_iff.
                 exists (p, c0). now split.
           ++ inversion Hin; subst p c. exists curr, nums, true.
              split; [exact Ecurr|]. split; [exact Hnums|]. split; [exact Hne|].
              split; [exact Eclose|]. split; [|reflexivity].
              intros _. apply in_or_app. right. now left.
      * apply (IH (E1 ++ [(p0, c0)]) rem merges cant rem' merges' cant' HE');
          [auto | | exact Hf].
        intros p c Hin Hc. apply in_app_or in Hin. destruct Hin as [Hin|[Hin|[]]].
        -- now apply Hdone.
        -- inversion Hin; subst p c. exists curr, nums, false.
           split; [exact Ecurr|]. split; [exact Hnums|]. split; [exact Hne|].
           split; [exact Eclose|]. split; [discriminate|].
           intros H. exfalso. apply Hc0. now apply Hrem.
Qed.

(** X6 ([merge_close_nodes]).  When the planning loop of close-node
    merging returns, every edge of the search tree whose child the loop
    has not protected was examined: its samples parse into a non-empty
    list of integers, the closeness test returned, and the child is among
    the nodes to remove exactly when the test held.  An edge without
    samples or with an unparsable sample is fatal unless its child is
    protected. *)
Theorem merge_close_examines :
  forall (g : Graph) (E : list (string * string)) (rem : list string)
         (merges : list (string * string * string)) (cant : list string)
         (p c : string),
    bfs_edges g "0" = Some E ->
    merge_close_plan g = Some (rem, merges, cant) ->
    In (p, c) E -> ~ In c cant ->
    exists curr nums b,
      edge_attr g p c = Some curr
      /\ samples (group_sizes curr) = Some nums
      /\ nums <> []
      /\ is_close curr = Some b
      /\ (b = true <-> In c rem).
Proof.
  intros g E rem merges cant p c HE Hplan Hin Hc.
  destruct (bfs_edges_blocks g E HE) as (B & EB & ->).
  pose proof (forest_NoDup_children _ _ (bfs_blocks_forest _ _ _ EB)) as NDc.
  unfold merge_close_plan in Hplan.
  rewrite (successors_dict_table g B EB), HE in Hplan.
  apply (merge_close_fold_examines g (successor_table B) (edges_of B)
           ltac:(now rewrite edges_of_children)
           (edges_of B) [] [] [] ["0"] rem merges cant);
    try assumption; try reflexivity.
  - intros ? [].
  - intros ? ? [].
Qed.

Lemma merge_close_examines_witness :
  exists curr nums b,
    edge_attr close_chain "0" "1" = Some curr
    /\ samples (group_sizes curr) = Some nums
    /\ nums <> []
    /\ is_close curr = Some b
    /\ (b = true <-> In "1" ["1"]).
Proof.
  apply (merge_close_examines close_chain [("0", "1"); ("1", "2")]
           ["1"] [("0", "1", "2")] ["0"; "2"] "0" "1").
  - vm_compute. reflexivity.
  - vm_compute. reflexivity.
  - now left.
  - simpl. intros [H|[H|[]]]; discriminate.
Defined.

(** * The removal loop: the root, and the fixed point *)

Lemma root_not_child : forall g E fr,
    bfs_edges g "0" = Some E -> ~ In (fr, "0") E.
Proof.
  intros g E fr HE Hin. destruct (bfs_edges_blocks g E HE) as (B & EB & ->).
  apply (forest_source_not_child _ _ (bfs_blocks_forest _ _ _ EB)).
  rewrite <- edges_of_children. apply in_map_iff. exists (fr, "0"). now split.
Qed.

Lemma remove_minor_edges_keeps_root : forall g g',
    has_node g "0" = true -> remove_minor_edges g = Some g' ->
    has_node g' "0" = true.
Proof.
  intros g g' Hroot H. unfold remove_minor_edges in H.
  destruct (minor_edge_nodes g) as [rem|] eqn:Em; [|discriminate].
  apply (remove_nodes_keeps rem g g' "0" H); [|exact Hroot].
  unfold minor_edge_nodes in Em.
  destruct (bfs_successors g "0") as [succ|]; [|discriminate].
  destruct (bfs_edges g "0") as [E|] eqn:HE; [|discriminate].
  intros Hin. apply (minor_edge_fold _ _ _ _ _ Em) in Hin.
  destruct Hin as [[]|(fr & a & Hfr & _)].
  exact (root_not_child g E fr HE Hfr).
Qed.

Lemma straighten_edges_keeps_root : forall g g',
    has_node g "0" = true -> straighten_edges g = Some g' ->
    has_node g' "0" = true.
Proof.
  intros g g' Hroot H. rewrite straighten_edges_plan in H.
  destruct (straighten_plan g) as [[[g1 rem] cant]|] eqn:Ep; [|discriminate].
  assert (HB : exists B, bfs_blocks g "0" = Some B).
  { unfold straighten_plan, predecessors_dict, bfs_predecessors, bfs_edges in Ep.
    destruct (bfs_blocks g "0") as [B|]; [eauto | discriminate]. }
  destruct HB as (B & EB).
  destruct (straighten_plan_facts g B g1 rem cant EB Ep)
    as ((I1 & I2 & _) & Hn & _).
  apply (remove_nodes_keeps rem g1 g' "0" H).
  - intros Hin. now apply (I2 "0" Hin).
  - unfold has_node in *. now rewrite Hn.
Qed.

Lemma merge_close_nodes_keeps_root : forall g g',
    has_node g "0" = true -> merge_close_nodes g = Some g' ->
    has_node g' "0" = true.
Proof.
  intros g g' Hroot H. pose proof H as H'. unfold merge_close_nodes in H'.
  destruct (merge_close_plan g) as [[[rem merges] cant]|] eqn:Ep; [|discriminate].
  apply (merge_close_nodes_keeps g g' rem merges cant "0" Ep H); [|exact Hroot].
  destruct (merge_close_plan_invariant g _ Ep) as (E & HE & Hinv).
  destruct Hinv as (_ & Hdone & _).
  intros Hin. apply Hdone in Hin. apply in_map_iff in Hin.
  destruct Hin as ([fr to] & Hto & Hin). simpl in Hto. subst to.
  exact (root_not_child g E fr HE Hin).
Qed.

Lemma remove_children_without_children_keeps_root : forall g g',
    has_node g "0" = true -> remove_children_without_children g = Some g' ->
    has_node g' "0" = true.
Proof.
  intros g g' Hroot H. pose proof H as H'.
  unfold remove_children_without_children in H'.
  destruct (childless_nodes g) as [rem|] eqn:Ec; [|discriminate].
  pose proof Ec as Ec'. unfold childless_nodes in Ec'.
  destruct (successors_dict g) as [T|] eqn:ET; [|discriminate].
  assert (HE : exists E, bfs_edges g "0" = Some E).
  { unfold successors_dict, bfs_successors in ET.
    destruct (bfs_edges g "0") as [E|]; [eauto | discriminate]. }
  destruct HE as (E & HE).
  destruct (childless_pruning_spec g E T rem HE ET Ec) as (_ & _ & Hres).
  destruct (Hres g' H) as (Hkeep & _). now apply Hkeep.
Qed.

Lemma removal_cycle_keeps_root : forall g g',
    has_node g "0" = true -> removal_cycle g = Some g' ->
    has_node g' "0" = true.
Proof.
  intros g g' Hroot H. unfold removal_cycle in H.
  destruct (remove_minor_edges g) as [g1|] eqn:E1; [|discriminate].
  destruct (straighten_edges g1) as [g2|] eqn:E2; [|discriminate].
  destruct (merge_close_nodes g2) as [g3|] eqn:E3; [|discriminate].
  apply (remove_children_without_children_keeps_root g3 g'); [|exact H].
  apply (merge_close_nodes_keeps_root g2 g3); [|exact E3].
  apply (straighten_edges_keeps_root g1 g2); [|exact E2].
  exact (remove_minor_edges_keeps_root g g1 Hroot E1).
Qed.

(** X7 (the removal rules and the loop of [main]).  A tree that holds the
    root "0" still holds it after each of the four removal rules, after a
    whole cycle, and when the loop ends. *)
Theorem removal_keeps_root :
  forall g : Graph,
    has_node g "0" = true ->
    (forall g', remove_minor_edges g = Some g' -> has_node g' "0" = true)
    /\ (forall g', straighten_edges g = Some g' -> has_node g' "0" = true)
    /\ (forall g', merge_close_nodes g = Some g' -> has_node g' "0" = true)
    /\ (forall g', remove_children_without_children g = Some g' ->
                   has_node g' "0" = true)
    /\ (forall g', removal_cycle g = Some g' -> has_node g' "0" = true)
    /\ (forall fuel g', removal_loop fuel g = Finished g' ->
                        has_node g' "0" = true).
Proof.
  intros g Hroot.
  split; [intros g'; now apply remove_minor_edges_keeps_root|].
  split; [intros g'; now apply straighten_edges_keeps_root|].
  split; [intros g'; now apply merge_close_nodes_keeps_root|].
  split; [intros g'; now apply remove_children_without_children_keeps_root|].
  split; [intros g'; now apply removal_cycle_keeps_root|].
  intros fuel. revert g Hroot.
  induction fuel as [|fuel IH]; intros g Hroot g' H; [discriminate|].
  simpl in H. destruct (removal_cycle g) as [g1|] eqn:Ec; [|discriminate].
  pose proof (removal_cycle_keeps_root g g1 Hroot Ec) as H1.
  destruct (number_of_nodes g =? number_of_nodes g1)%nat.
  - inversion H; subst. exact H1.
  - exact (IH g1 H1 g' H).
Qed.

Lemma removal_keeps_root_witness :
  (forall g', remove_minor_edges short_chain = Some g' -> has_node g' "0" = true)
  /\ (forall g', straighten_edges short_chain = Some g' -> has_node g' "0" = true)
  /\ (forall g', merge_close_nodes short_chain = Some g' -> has_node g' "0" = true)
  /\ (forall g', remove_children_without_children short_chain = Some g' ->
                 has_node g' "0" = true)
  /\ (forall g', removal_cycle short_chain = Some g' -> has_node g' "0" = true)
  /\ (forall fuel g', removal_loop fuel short_chain = Finished g' ->
                      has_node g' "0" = true).
Proof.
  apply (removal_keeps_root short_chain). vm_compute. reflexivity.
Defined.

(** A rule that removes no node returns the tree it was given. *)
Lemma remove_nodes_none : forall g rem g',
    remove_nodes g rem = Some g' ->
    number_of_nodes g' = number_of_nodes g -> rem = [] /\ g' = g.
Proof.
  intros g rem g' H Hc. pose proof (remove_nodes_count rem g g' H) as Hn.
  destruct rem as [|n rem]; [|simpl in Hn; lia].
  split; [reflexivity|]. unfold remove_nodes in H. simpl in H. now inversion H.
Qed.

Lemma remove_minor_edges_stable : forall g g',
    remove_minor_edges g = Some g' ->
    number_of_nodes g' = number_of_nodes g -> g' = g.
Proof.
  intros g g' H Hc. unfold remove_minor_edges in H.
  destruct (minor_edge_nodes g) as [rem|]; [|discriminate].
  exact (proj2 (remove_nodes_none g rem g' H Hc)).
Qed.

Lemma straighten_edges_stable : forall g g',
    straighten_edges g = Some g' ->
    number_of_nodes g' = number_of_nodes g -> g' = g.
Proof.
  intros g g' H Hc. unfold straighten_edges in H.
  destruct (predecessors_dict g) as [preds|]; [|discriminate].
  destruct (bfs_successors g "0") as [succ|]; [|discriminate].
  match type of H with
  | context [foldM ?f ?l ?a] => destruct (foldM f l a) as [[[g1 rem] cant]|] eqn:Ef
  end; [|discriminate].
  assert (Hinv : g_node g1 = g_node g /\ (rem = [] -> g1 = g)).
  { apply (foldM_invariant _ _
             (fun st : Graph * list string * list string =>
                g_node (fst (fst st)) = g_node g
                /\ (snd (fst st) = [] -> fst (fst st) = g))
             (straighten_step preds) (only_single_successor succ)
             (g, [], ["0"]) (g1, rem, cant));
      [| split; reflexivity | exact Ef].
    intros [[ga ra] ca] [node successor] [[gb rb] cb] (Ha & Hb) Hs. simpl in *.
    destruct (mem seqb node ca); [inversion Hs; subst; now split|].
    destruct (dget seqb preds node); [|discriminate].
    destruct (merge_edges ga s node successor) as [gm|] eqn:Em; [|discriminate].
    inversion Hs; subst. apply merge_edges_nodes in Em. split; [congruence|].
    intros Hnil. apply app_eq_nil in Hnil. destruct Hnil; discriminate. }
  destruct Hinv as (Hn & Hnil).
  assert (Hc1 : number_of_nodes g' = number_of_nodes g1).
  { unfold number_of_nodes in *. now rewrite Hn. }
  destruct (remove_nodes_none g1 rem g' H Hc1) as (Hrem & Hg).
  rewrite Hg. now apply Hnil.
Qed.

Lemma merge_close_nodes_stable : forall g g',
    merge_close_nodes g = Some g' ->
    number_of_nodes g' = number_of_nodes g -> g' = g.
Proof.
  intros g g' H Hc. unfold merge_close_nodes in H.
  destruct (merge_close_plan g) as [[[rem merges] cant]|] eqn:Ep; [|discriminate].
  match type of H with
  | context [foldM ?f ?l ?a] => destruct (foldM f l a) as [g1|] eqn:Ef
  end; [|discriminate].
  assert (Hn : g_node g1 = g_node g).
  { apply (foldM_invariant _ _ (fun ga : Graph => g_node ga = g_node g)
             (fun g1 (m : string * string * string) =>
                let '(p, n, s) := m in merge_edges g1 p n s)
             merges g g1); [| reflexivity | exact Ef].
    intros ga [[p n] s] gb Ha Hm. apply merge_edges_nodes in Hm. congruence. }
  assert (Hnil : rem = [] -> merges = []).
  { unfold merge_close_plan in Ep.
    destruct (successors_dict g) as [T|]; [|discriminate].
    destruct (bfs_edges g "0") as [E|]; [|discriminate].
    apply (foldM_invariant _ _
             (fun st : close_state =>
                fst (fst st) = [] -> snd (fst st) = [])
             (merge_close_step g T) E ([], [], ["0"]) (rem, merges, cant));
      [| reflexivity | exact Ep].
    intros [[ra ma] ca] [p n] [[rb mb] cb] Ha Hs. simpl in *.
    destruct (mem seqb n ca); [inversion Hs; subst; exact Ha|].
    destruct (edge_attr g p n) as [curr|]; [|discriminate].
    destruct (is_close curr) as [[|]|]; [| |discriminate].
    - inversion Hs; subst. intros Hnil.
      apply app_eq_nil in Hnil. destruct Hnil; discriminate.
    - inversion Hs; subst. exact Ha. }
  assert (Hc1 : number_of_nodes g' = number_of_nodes g1).
  { unfold number_of_nodes in *. now rewrite Hn. }
  destruct (remove_nodes_none g1 rem g' H Hc1) as (Hrem & Hg).
  rewrite (Hnil Hrem) in Ef. simpl in Ef. inversion Ef. congruence.
Qed.

Lemma remove_children_without_children_stable : forall g g',
    remove_children_without_children g = Some g' ->
    number_of_nodes g' = number_of_nodes g -> g' = g.
Proof.
  intros g g' H Hc. unfold remove_children_without_children in H.
  destruct (childless_nodes g) as [rem|]; [|discriminate].
  exact (proj2 (remove_nodes_none g rem g' H Hc)).
Qed.

(** A cycle that keeps the node count changes nothing at all. *)
Lemma removal_cycle_stable : forall g g',
    removal_cycle g = Some g' ->
    number_of_nodes g = number_of_nodes g' ->
    g' = g
    /\ remove_minor_edges g = Some g
    /\ straighten_edges g = Some g
    /\ merge_close_nodes g = Some g
    /\ remove_children_without_children g = Some g.
Proof.
  intros g g' H Hc. unfold removal_cycle in H.
  destruct (remove_minor_edges g) as [g1|] eqn:E1; [|discriminate].
  destruct (straighten_edges g1) as [g2|] eqn:E2; [|discriminate].
  destruct (merge_close_nodes g2) as [g3|] eqn:E3; [|discriminate].
  pose proof (remove_minor_edges_count g g1 E1) as C1.
  pose proof (straighten_edges_count g1 g2 E2) as C2.
  pose proof (merge_close_nodes_count g2 g3 E3) as C3.
  pose proof (remove_children_without_children_count g3 g' H) as C4.
  assert (G1 : g1 = g) by (apply (remove_minor_edges_stable g g1 E1); lia).
  subst g1.
  assert (G2 : g2 = g) by (apply (straighten_edges_stable g g2 E2); lia).
  subst g2.
  assert (G3 : g3 = g) by (apply (merge_close_nodes_stable g g3 E3); lia).
  subst g3.
  assert (G4 : g' = g)
    by (apply (remove_children_without_children_stable g g' H); lia).
  subst g'. repeat split; assumption.
Qed.

(** The tree the loop ends with is returned unchanged by every rule. *)
Lemma removal_loop_stable : forall fuel g g',
    removal_loop fuel g = Finished g' ->
    remove_minor_edges g' = Some g'
    /\ straighten_edges g' = Some g'
    /\ merge_close_nodes g' = Some g'
    /\ remove_children_without_children g' = Some g'
    /\ removal_cycle g' = Some g'.
Proof.
  induction fuel as [|fuel IH]; intros g g' H; [discriminate|].
  simpl in H. destruct (removal_cycle g) as [g1|] eqn:Ec; [|discriminate].
  destruct (number_of_nodes g =? number_of_nodes g1)%nat eqn:En.
  - inversion H; subst g1. apply Nat.eqb_eq in En.
    destruct (removal_cycle_stable g g' Ec En) as (-> & H1 & H2 & H3 & H4).
    split; [exact H1|]. split; [exact H2|]. split; [exact H3|].
    split; [exact H4 | exact Ec].
  - exact (IH g1 g' H).
Qed.

(** X8 (the removal loop of [main]).  The tree the loop ends with is a
    fixed point: each of the four rules returns it unchanged, so does a
    whole cycle, and the loop started on it again stops after one cycle
    with the same tree. *)
Theorem removal_loop_fixed_point :
  forall (fuel : nat) (g g' : Graph),
    removal_loop fuel g = Finished g' ->
    remove_minor_edges g' = Some g'
    /\ straighten_edges g' = Some g'
    /\ merge_close_nodes g' = Some g'
    /\ remove_children_without_children g' = Some g'
    /\ removal_cycle g' = Some g'
    /\ forall fuel', removal_loop (S fuel') g' = Finished g'.
Proof.
  intros fuel g g' H.
  destruct (removal_loop_stable fuel g g' H) as (H1 & H2 & H3 & H4 & Hc).
  split; [exact H1|]. split; [exact H2|]. split; [exact H3|].
  split; [exact H4|]. split; [exact Hc|].
  intros fuel'. simpl. rewrite Hc, Nat.eqb_refl. reflexivity.
Qed.

Lemma removal_loop_fixed_point_witness :
  remove_minor_edges stable_tree = Some stable_tree
  /\ straighten_edges stable_tree = Some stable_tree
  /\ merge_close_nodes stable_tree = Some stable_tree
  /\ remove_children_without_children stable_tree = Some stable_tree
  /\ removal_cycle stable_tree = Some stable_tree
  /\ forall fuel', removal_loop (S fuel') stable_tree = Finished stable_tree.
Proof.
  apply (removal_loop_fixed_point 20 nearly_stable_tree stable_tree).
  vm_compute. reflexivity.
Defined.

(** * Descendant lobes: what [get_successor_lobes] returns *)

Lemma lobe_count_app : forall g a b l,
    lobe_count g (a ++ b) l = lobe_count g a l + lobe_count g b l.
Proof.
  induction a as [|m a IH]; intros b l; simpl; [reflexivity|].
  rewrite IH. lia.
Qed.

Lemma lobe_count_nonneg : forall g nodes l, 0 <= lobe_count g nodes l.
Proof.
  induction nodes as [|m nodes IH]; intros l; simpl; [lia|].
  specialize (IH l).
  destruct (node_attr g m) as [a|]; [destruct (lobe a =? l)|]; lia.
Qed.

Lemma lobe_count_pos : forall g nodes l,
    0 < lobe_count g nodes l
    <-> exists m a, In m nodes /\ node_attr g m = Some a /\ lobe a = l.
Proof.
  induction nodes as [|m nodes IH]; intros l; simpl.
  - split; [lia | intros (m & a & [] & _)].
  - pose proof (lobe_count_nonneg g nodes l) as Hn. split.
    + intros H. destruct (node_attr g m) as [a|] eqn:Ea.
      * destruct (lobe a =? l) eqn:El.
        -- apply Z.eqb_eq in El. exists m, a. split; [now left|]. now split.
        -- apply IH in H. destruct H as (m' & a' & H1 & H2).
           exists m', a'. split; [now right | exact H2].
      * apply IH in H. destruct H as (m' & a' & H1 & H2).
        exists m', a'. split; [now right | exact H2].
    + intros (m' & a' & [Hm|Hm] & Ha & Hl).
      * subst m'. rewrite Ha. apply Z.eqb_eq in Hl. rewrite Hl. lia.
      * assert (0 < lobe_count g nodes l) by (apply IH; eauto).
        destruct (node_attr g m) as [a|]; [destruct (lobe a =? l)|]; lia.
Qed.

Lemma absorb_get : forall child d l,
    NoDup (map fst child) ->
    dget Z.eqb (fold_left (fun d1 kv => add_occ d1 (fst kv) (snd kv)) child d) l
    = match dget Z.eqb child l with
      | Some v => Some (zget d l + v)
      | None => dget Z.eqb d l
      end.
Proof.
  induction child as [|[k v] child IH]; intros d l ND; simpl; [reflexivity|].
  inversion ND as [|? ? Hk ND']; subst. rewrite (IH _ _ ND').
  unfold add_occ at 2. unfold zget at 1. unfold add_occ at 1.
  rewrite !(dget_dset Z.eqb Z.eqb_eq).
  destruct (k =? l) eqn:Ekl.
  - apply Z.eqb_eq in Ekl. subst l.
    assert (Hnone : dget Z.eqb child k = None)
      by (now apply (dget_None Z.eqb Z.eqb_eq)).
    now rewrite Hnone.
  - reflexivity.
Qed.

Lemma absorb_NoDup : forall child d,
    NoDup (map fst d) ->
    NoDup (map fst (fold_left (fun d1 kv => add_occ d1 (fst kv) (snd kv)) child d)).
Proof.
  induction child as [|[k v] child IH]; intros d ND; simpl; [exact ND|].
  apply IH. unfold add_occ. now apply (dset_NoDup Z.eqb Z.eqb_eq).
Qed.

Lemma occurrence_entry_add : forall va vc l,
    0 <= va -> 0 <= vc ->
    match occurrence_entry vc l with
    | Some v =>
        Some (match occurrence_entry va l with Some w => w | None => 0 end + v)
    | None => occurrence_entry va l
    end
    = occurrence_entry (va + vc) l.
Proof.
  intros va vc l Ha Hc. unfold occurrence_entry.
  destruct (l =? 0); simpl; [reflexivity|].
  destruct (Z.eqb_spec vc 0) as [Ec|Ec];
    destruct (Z.eqb_spec va 0) as [Ea|Ea];
    destruct (Z.eqb_spec (va + vc) 0) as [Es|Es];
    try reflexivity; try lia; f_equal; lia.
Qed.

Lemma counts_lobes_nil : forall g, counts_lobes g [] [].
Proof.
  intros g. split; [constructor|]. intros l. simpl. unfold occurrence_entry.
  now rewrite orb_true_r.
Qed.

(** Absorbing the dictionary of a child adds its occurrences. *)
Lemma counts_lobes_absorb : forall g nodes_a nodes_c occ_a child,
    counts_lobes g nodes_a occ_a ->
    counts_lobes g nodes_c child ->
    counts_lobes g (nodes_a ++ nodes_c)
      (fold_left (fun d1 kv => add_occ d1 (fst kv) (snd kv)) child occ_a).
Proof.
  intros g na nc occ_a child (NDa & Ha) (NDc & Hc). split.
  - now apply absorb_NoDup.
  - intros l. rewrite (absorb_get child occ_a l NDc).
    unfold zget. rewrite Ha, Hc, lobe_count_app.
    apply occurrence_entry_add; apply lobe_count_nonneg.
Qed.

(** Adding the lobe of the node itself. *)
Lemma counts_lobes_own : forall g n a nodes occ,
    node_attr g n = Some a ->
    counts_lobes g nodes occ ->
    counts_lobes g (n :: nodes)
      (if lobe a =? 0 then occ else add_occ occ (lobe a) 1).
Proof.
  intros g n a nodes occ Ha (ND & Hocc).
  pose proof (lobe_count_nonneg g nodes) as Hnn.
  destruct (lobe a =? 0) eqn:Ez.
  - split; [exact ND|]. intros l. rewrite Hocc. cbn [lobe_count]. rewrite Ha.
    apply Z.eqb_eq in Ez. rewrite Ez. unfold occurrence_entry.
    destruct (l =? 0) eqn:El; [reflexivity|].
    assert (E0 : (0 =? l) = false) by (rewrite Z.eqb_sym; exact El).
    rewrite E0. reflexivity.
  - split; [unfold add_occ; now apply (dset_NoDup Z.eqb Z.eqb_eq)|].
    intros l. unfold add_occ, zget. rewrite (dget_dset Z.eqb Z.eqb_eq).
    cbn [lobe_count]. rewrite Ha. destruct (lobe a =? l) eqn:El.
    + apply Z.eqb_eq in El. subst l. rewrite Hocc.
      unfold occurrence_entry. rewrite Ez. cbn [orb].
      specialize (Hnn (lobe a)).
      assert (E1 : (1 + lobe_count g nodes (lobe a) =? 0) = false)
        by (apply Z.eqb_neq; lia).
      rewrite E1.
      destruct (Z.eqb_spec (lobe_count g nodes (lobe a)) 0) as [Ec|Ec];
        f_equal; lia.
    + rewrite Hocc. reflexivity.
Qed.

Lemma lobes_recorded_weaken : forall g B lo lo' st m,
    (lo' <= lo)%nat -> lobes_recorded g B lo st m -> lobes_recorded g B lo' st m.
Proof.
  intros g B lo lo' st m Hle (r & occ & H1 & H2 & H3 & H4).
  exists r, occ. split; [exact H1|]. split; [lia|]. now split.
Qed.

Section LobeCounts.
Variable g : Graph.
Variable B : list (string * list string).
Hypothesis F : is_forest "0" B.
Hypothesis Hhead : exists cs B', B = ("0", cs) :: B'.

(** The recursion of [get_successor_lobes]: a call that returns has
    allocated a new dictionary for its node, has left the older ones as
    they were, and has recorded, for the node and each of its descendants,
    the occurrences of every lobe at or below it. *)
Lemma successor_lobes_exact : forall fuel st n st' r,
    successor_lobes fuel g (successor_table B) st n = Some (st', r) ->
    r = length (objs st)
    /\ (length (objs st) < length (objs st'))%nat
    /\ (forall j, (j < length (objs st))%nat ->
                  nth_error (objs st') j = nth_error (objs st) j)
    /\ (exists occ, nth_error (objs st') r = Some occ
                    /\ counts_lobes g (n :: desc_in B n) occ)
    /\ (forall m, ~ In m (n :: desc_in B n) ->
                  dget seqb (all_succ st') m = dget seqb (all_succ st) m)
    /\ (forall m, In m (n :: desc_in B n) ->
                  lobes_recorded g B (length (objs st)) st' m)
    /\ (NoDup (map fst (all_succ st)) -> NoDup (map fst (all_succ st'))).
Proof.
  induction fuel as [|fuel IH]; intros st n st' r H; [discriminate|].
  simpl in H.
  set (r0 := length (objs st)) in *.
  set (st0 := mkLobes (objs st ++ [[]]) (all_succ st)) in *.
  assert (Hlen0 : length (objs st0) = S r0).
  { unfold st0, r0. simpl. rewrite length_app. simpl. lia. }
  assert (Hr0 : nth_error (objs st0) r0 = Some []).
  { unfold st0, r0. simpl. rewrite nth_error_app2 by lia.
    now rewrite Nat.sub_diag. }
  assert (Fold : forall l sta stb occ_a nodes_a,
             foldM
               (fun st' succ =>
                  '(st'', r_s) <- successor_lobes fuel g (successor_table B) st' succ ;;
                  child <- nth_error (objs st'') r_s ;;
                  Some (absorb st'' r0 child)) l sta = Some stb ->
             (r0 < length (objs sta))%nat ->
             nth_error (objs sta) r0 = Some occ_a ->
             counts_lobes g nodes_a occ_a ->
             (length (objs sta) <= length (objs stb))%nat
             /\ (forall j, (j < length (objs sta))%nat -> j <> r0 ->
                           nth_error (objs stb) j = nth_error (objs sta) j)
             /\ (exists occ_b,
                    nth_error (objs stb) r0 = Some occ_b
                    /\ counts_lobes g (nodes_a ++ forest_list B l) occ_b)
             /\ (forall m, ~ In m (forest_list B l) ->
                           dget seqb (all_succ stb) m = dget seqb (all_succ sta) m)
             /\ (forall m, In m (forest_list B l) ->
                           lobes_recorded g B (length (objs sta)) stb m)
             /\ (NoDup (map fst (all_succ sta)) -> NoDup (map fst (all_succ stb)))).
  { induction l as [|c l IHl]; intros sta stb occ_a nodes_a Hf Hlt Hocc Hcnt.
    - simpl in Hf. inversion Hf; subst stb.
      split; [lia|]. split; [reflexivity|].
      split; [exists occ_a; split; [exact Hocc | now rewrite app_nil_r]|].
      split; [reflexivity|]. split; [intros m []|]. tauto.
    - simpl in Hf.
      destruct (successor_lobes fuel g (successor_table B) sta c)
        as [[st'' r_s]|] eqn:Ec; [|discriminate].
      destruct (nth_error (objs st'') r_s) as [child|] eqn:Echild; [|discriminate].
      destruct (IH _ _ _ _ Ec) as (Hrs & Hlen & Hpre & (occ_c & Hoc & Hcc) & Hout & Hrec & Hnd).
      rewrite Echild in Hoc. inversion Hoc; subst occ_c. clear Hoc.
      set (stm := absorb st'' r0 child) in *.
      assert (Hlenm : length (objs stm) = length (objs st'')).
      { unfold stm. simpl. apply update_at_length. }
      assert (Hnthm : forall j, nth_error (objs stm) j
                        = if (r0 =? j)%nat
                          then option_map
                                 (fun d => fold_left
                                             (fun d1 kv => add_occ d1 (fst kv) (snd kv))
                                             child d)
                                 (nth_error (objs st'') j)
                          else nth_error (objs st'') j).
      { intros j. unfold stm. simpl. apply nth_error_update_at. }
      assert (Hoccm : nth_error (objs stm) r0
                      = Some (fold_left
                                (fun d1 kv => add_occ d1 (fst kv) (snd kv))
                                child occ_a)).
      { rewrite Hnthm, Nat.eqb_refl, (Hpre r0 Hlt), Hocc. reflexivity. }
      destruct (IHl stm stb _ (nodes_a ++ (c :: desc_in B c)) Hf
                  ltac:(lia) Hoccm
                  (counts_lobes_absorb g _ _ _ _ Hcnt Hcc))
        as (Hlen2 & Hpre2 & (occ_b & Hob & Hcb) & Hout2 & Hrec2 & Hnd2).
      split; [lia|]. split; [|split; [|split; [|split]]].
      + intros j Hj Hne. rewrite Hpre2 by lia.
        rewrite Hnthm. apply Nat.eqb_neq in Hne. rewrite Nat.eqb_sym in Hne.
        rewrite Hne. now apply Hpre.
      + exists occ_b. split; [exact Hob|].
        change (forest_list B (c :: l))
          with ((c :: desc_in B c) ++ forest_list B l).
        now rewrite app_assoc.
      + intros m Hm.
        change (forest_list B (c :: l))
          with ((c :: desc_in B c) ++ forest_list B l) in Hm.
        rewrite Hout2 by (intros Hin; apply Hm; apply in_or_app; now right).
        unfold stm. simpl. apply Hout.
        intros Hin; apply Hm; apply in_or_app; now left.
      + intros m Hm.
        change (forest_list B (c :: l))
          with ((c :: desc_in B c) ++ forest_list B l) in Hm.
        destruct (in_dec string_dec m (forest_list B l)) as [Hin|Hnin].
        * apply (lobes_recorded_weaken g B (length (objs stm))); [lia|].
          now apply Hrec2.
        * apply in_app_or in Hm. destruct Hm as [Hm|Hm]; [|contradiction].
          destruct (Hrec m Hm) as (rm & occ & G1 & G2 & G3 & G4).
          exists rm, occ. split; [|split; [exact G2|split; [|exact G4]]].
          -- rewrite (Hout2 m Hnin). exact G1.
          -- assert (Hrm : (rm < length (objs st''))%nat).
             { apply nth_error_Some. congruence. }
             rewrite Hpre2 by lia. rewrite Hnthm.
             assert (Hne : (r0 =? rm)%nat = false) by (apply Nat.eqb_neq; lia).
             rewrite Hne. exact G3.
      + intros ND. apply Hnd2. unfold stm. simpl. now apply Hnd. }
  assert (Hst1 : exists st1 occ1,
             (S r0 <= length (objs st1))%nat
             /\ (forall j, (j < r0)%nat ->
                           nth_error (objs st1) j = nth_error (objs st) j)
             /\ nth_error (objs st1) r0 = Some occ1
             /\ counts_lobes g (desc_in B n) occ1
             /\ (forall m, ~ In m (desc_in B n) ->
                           dget seqb (all_succ st1) m = dget seqb (all_succ st) m)
             /\ (forall m, In m (desc_in B n) ->
                           lobes_recorded g B (S r0) st1 m)
             /\ (NoDup (map fst (all_succ st)) -> NoDup (map fst (all_succ st1)))
             /\ (a <- node_attr g n ;;
                 (if lobe a =? 0
                  then Some (mkLobes (objs st1) (dset seqb (all_succ st1) n r0), r0)
                  else Some (mkLobes
                               (update_at (objs st1) r0 (fun d => add_occ d (lobe a) 1))
                               (dset seqb (all_succ st1) n r0), r0)))
                = Some (st', r)).
  { destruct (dget seqb (successor_table B) n) as [cs|] eqn:ET.
    - match type of H with
      | context [foldM ?f cs st0] => destruct (foldM f cs st0) as [st1|] eqn:Ef
      end; [|discriminate].
      apply (table_get "0" B F Hhead) in ET. destruct ET as [Hin _].
      rewrite (desc_equation "0" B n cs F Hin). fold (forest_list B cs).
      destruct (Fold cs st0 st1 [] [] Ef ltac:(lia) Hr0 (counts_lobes_nil g))
        as (G1 & G2 & (occ1 & G3 & G4) & G5 & G6 & G7).
      exists st1, occ1. split; [lia|]. split; [|split; [exact G3|split; [exact G4|]]].
      + intros j Hj. rewrite G2 by lia. unfold st0. simpl.
        apply nth_error_app1. fold r0. lia.
      + split; [exact G5|]. split; [|split; [exact G7 | exact H]].
        intros m Hm. rewrite <- Hlen0. now apply G6.
    - rewrite (table_none_desc B F Hhead n ET).
      exists st0, []. split; [lia|]. split; [|split; [exact Hr0|]].
      + intros j Hj. unfold st0. simpl. apply nth_error_app1. fold r0. lia.
      + split; [apply counts_lobes_nil|]. split; [reflexivity|].
        split; [intros m []|]. split; [tauto | exact H]. }
  destruct Hst1 as (st1 & occ1 & L1 & P1 & O1 & C1 & D1 & R1 & N1 & Hres).
  clear H Fold.
  destruct (node_attr g n) as [a|] eqn:Ea; [|discriminate].
  pose proof (counts_lobes_own g n a (desc_in B n) occ1 Ea C1) as Cn.
  assert (Hres' : r = r0
                  /\ all_succ st' = dset seqb (all_succ st1) n r0
                  /\ length (objs st') = length (objs st1)
                  /\ nth_error (objs st') r0
                     = Some (if lobe a =? 0 then occ1 else add_occ occ1 (lobe a) 1)
                  /\ forall j, j <> r0 -> nth_error (objs st') j = nth_error (objs st1) j).
  { destruct (lobe a =? 0); inversion Hres; subst st' r; simpl.
    - split; [reflexivity|]. split; [reflexivity|]. split; [reflexivity|].
      split; [exact O1 | reflexivity].
    - split; [reflexivity|]. split; [reflexivity|].
      split; [apply update_at_length|]. split.
      + rewrite nth_error_update_at, Nat.eqb_refl, O1. reflexivity.
      + intros j Hj. rewrite nth_error_update_at.
        apply Nat.eqb_neq in Hj. rewrite Nat.eqb_sym in Hj. now rewrite Hj. }
  destruct Hres' as (-> & Hall & Hlen' & Hobj & Hother). clear Hres.
  split; [reflexivity|]. split; [lia|].
  split; [|split; [|split; [|split]]].
  - intros j Hj. rewrite Hother by lia. now apply P1.
  - eexists. split; [exact Hobj | exact Cn].
  - intros m Hm. rewrite Hall, (dget_dset seqb seqb_eq).
    destruct (seqb n m) eqn:Enm.
    + apply seqb_eq in Enm. subst m. exfalso. apply Hm. now left.
    + apply D1. intros Hin. apply Hm. now right.
  - intros m Hm. destruct (string_dec m n) as [->|Hne].
    + exists r0. eexists. split; [|split; [lia|split; [exact Hobj | exact Cn]]].
      rewrite Hall, (dget_dset seqb seqb_eq), seqb_refl. reflexivity.
    + destruct Hm as [Hm|Hm]; [congruence|].
      destruct (R1 m Hm) as (rm & occ & G1 & G2 & G3 & G4).
      exists rm, occ. split; [|split; [lia|split; [|exact G4]]].
      * rewrite Hall, (dget_dset seqb seqb_eq).
        assert (Enm : seqb n m = false).
        { destruct (seqb n m) eqn:E; [|reflexivity].
          apply seqb_eq in E. congruence. }
        now rewrite Enm.
      * rewrite Hother by lia. exact G3.
  - intros ND. rewrite Hall. apply (dset_NoDup seqb seqb_eq). now apply N1.
Qed.

End LobeCounts.

Lemma mapM_objects : forall (O : list (zdict Z)) (l : sdict nat) all,
    mapM (fun item : string * nat =>
            occ <- nth_error O (snd item) ;; Some (fst item, occ)) l = Some all ->
    map fst all = map fst l
    /\ forall n, dget seqb all n = (r <- dget seqb l n ;; nth_error O r).
Proof.
  intros O. induction l as [|[k r] l IH]; intros all H; simpl in H.
  - inversion H; subst. split; [reflexivity|]. intros n. reflexivity.
  - destruct (nth_error O r) as [occ|] eqn:Eo; [|discriminate].
    match type of H with
    | context [mapM ?f l] => destruct (mapM f l) as [rest|] eqn:Er
    end; [|discriminate].
    inversion H; subst all. destruct (IH rest eq_refl) as (IH1 & IH2).
    split; [simpl; now rewrite IH1|].
    intros n. simpl. destruct (seqb k n); [now rewrite Eo | apply IH2].
Qed.

Lemma dget_map_values : forall (V W : Type) (f : V -> W) (l : sdict V) n,
    dget seqb (map (fun item => (fst item, f (snd item))) l) n
    = option_map f (dget seqb l n).
Proof.
  intros V W f. induction l as [|[k v] l IH]; intros n; simpl; [reflexivity|].
  destruct (seqb k n); [reflexivity | apply IH].
Qed.

Lemma forest_nodes : forall B n,
    is_forest "0" B ->
    (In n ("0" :: desc_in B "0") <-> In n ("0" :: children_of B)).
Proof.
  intros B n (Hrun & ND).
  pose proof (forest_list_perm ["0"] B Hrun ND) as P.
  unfold forest_list in P. simpl in P. rewrite app_nil_r in P.
  split; intros H.
  - exact (Permutation_in n P H).
  - exact (Permutation_in n (Permutation_sym P) H).
Qed.

(** The dictionaries [get_successor_lobes] builds on a valid tree. *)
Lemma lobe_table : forall g,
    valid_tree g = true ->
    exists B all,
      bfs_blocks g "0" = Some B
      /\ get_successor_lobes_count g = Some all
      /\ NoDup (map fst all)
      /\ (forall n, In n (map fst all) <-> In n (node_ids g))
      /\ forall n occ, dget seqb all n = Some occ ->
                       counts_lobes g (n :: desc_in B n) occ.
Proof.
  intros g V.
  destruct (valid_tree_visit g V) as (B & EB & _ & Hnodes & _).
  pose proof (bfs_blocks_forest _ _ _ EB) as F.
  pose proof (bfs_blocks_head _ _ _ EB) as Hhead.
  destruct (get_successor_lobes_returns g V) as (items & Hitems & _).
  unfold get_successor_lobes in Hitems.
  destruct (get_successor_lobes_count g) as [all|] eqn:Eall; [|discriminate].
  clear Hitems. exists B, all. split; [exact EB|]. split; [reflexivity|].
  unfold get_successor_lobes_count in Eall.
  rewrite (successors_dict_table g B EB) in Eall.
  destruct (successor_lobes (S (length (g_adj g))) g (successor_table B)
              (mkLobes [] []) "0") as [[st r]|] eqn:Es; [|discriminate].
  destruct (successor_lobes_exact g B F Hhead _ _ _ _ _ Es)
    as (_ & _ & _ & _ & Hout & Hrec & Hnd).
  destruct (mapM_objects (objs st) (all_succ st) all Eall) as (Hkeys & Hget).
  assert (Hin : forall n, In n (map fst (all_succ st))
                          <-> In n ("0" :: desc_in B "0")).
  { intros n. split.
    - intros H. destruct (in_dec string_dec n ("0" :: desc_in B "0")) as [Hy|Hn];
        [exact Hy|].
      exfalso. apply (dget_None seqb seqb_eq (all_succ st) n); [|exact H].
      rewrite (Hout n Hn). reflexivity.
    - intros H. destruct (Hrec n H) as (rn & occ & G1 & _).
      exact (dget_Some_key seqb seqb_eq _ _ _ G1). }
  split; [rewrite Hkeys; apply Hnd; constructor|].
  split.
  - intros n. rewrite Hkeys, Hin, (forest_nodes B n F). symmetry. apply Hnodes.
  - intros n occ Hn.
    assert (Hkey : In n (map fst (all_succ st))).
    { rewrite <- Hkeys. exact (dget_Some_key seqb seqb_eq _ _ _ Hn). }
    apply Hin in Hkey. destruct (Hrec n Hkey) as (rn & occ' & G1 & _ & G3 & G4).
    rewrite Hget, G1 in Hn. simpl in Hn. congruence.
Qed.

(** X9 ([get_successor_lobes] with [return_count=True]).  On every valid
    tree the recomputation returns a dictionary for each node and for
    nothing else; the dictionary of a node maps every non-neutral lobe
    that occurs on the node itself or on one of its descendants to the
    number of those nodes that carry it, and holds no other key. *)
Theorem get_successor_lobes_count_exact :
  forall g : Graph,
    valid_tree g = true ->
    exists E all,
      bfs_edges g "0" = Some E
      /\ get_successor_lobes_count g = Some all
      /\ (forall n, In n (map fst all) <-> In n (node_ids g))
      /\ forall n occ,
          dget seqb all n = Some occ ->
          exists ds,
            NoDup ds
            /\ (forall d, In d ds <-> descendant E n d)
            /\ forall l,
                dget Z.eqb occ l
                = if (l =? 0) || (lobe_count g (n :: ds) l =? 0) then None
                  else Some (lobe_count g (n :: ds) l).
Proof.
  intros g V. destruct (lobe_table g V) as (B & all & EB & Hall & _ & Hkeys & Hocc).
  pose proof (bfs_blocks_forest _ _ _ EB) as F.
  pose proof (bfs_blocks_head _ _ _ EB) as Hhead.
  exists (edges_of B), all.
  split; [unfold bfs_edges; now rewrite EB|].
  split; [exact Hall|]. split; [exact Hkeys|].
  intros n occ Hn. exists (desc_in B n).
  split; [exact (desc_in_NoDup B F n)|]. split.
  - intros d. split; [apply desc_in_sound | apply (desc_in_complete B F)].
  - intros l. destruct (Hocc n occ Hn) as (_ & H). exact (H l).
Qed.

Lemma get_successor_lobes_count_exact_witness :
  exists E all,
    bfs_edges lobes_tree "0" = Some E
    /\ get_successor_lobes_count lobes_tree = Some all
    /\ (forall n, In n (map fst all) <-> In n (node_ids lobes_tree))
    /\ forall n occ,
        dget seqb all n = Some occ ->
        exists ds,
          NoDup ds
          /\ (forall d, In d ds <-> descendant E n d)
          /\ forall l,
              dget Z.eqb occ l
              = if (l =? 0) || (lobe_count lobes_tree (n :: ds) l =? 0) then None
                else Some (lobe_count lobes_tree (n :: ds) l).
Proof.
  apply (get_successor_lobes_count_exact lobes_tree). vm_compute. reflexivity.
Defined.

(** The keys of a dictionary of occurrences. *)
Lemma counts_lobes_keys : forall g nodes occ l,
    counts_lobes g nodes occ ->
    (In l (map fst occ)
     <-> l <> 0 /\ exists m a, In m nodes /\ node_attr g m = Some a /\ lobe a = l).
Proof.
  intros g nodes occ l (ND & H). rewrite <- lobe_count_pos.
  pose proof (lobe_count_nonneg g nodes l) as Hnn.
  rewrite <- (dmem_In Z.eqb Z.eqb_eq). unfold dmem. rewrite H.
  unfold occurrence_entry.
  destruct (Z.eqb_spec l 0) as [El|El]; simpl.
  - split; [discriminate | tauto].
  - destruct (Z.eqb_spec (lobe_count g nodes l) 0) as [Ec|Ec].
    + split; [discriminate | lia].
    + split; [intros _; split; [exact El | lia] | reflexivity].
Qed.

(** The sets [get_successor_lobes] builds on a valid tree. *)
Lemma lobe_sets : forall g,
    valid_tree g = true ->
    exists B items,
      bfs_blocks g "0" = Some B
      /\ get_successor_lobes g = Some items
      /\ NoDup (map fst items)
      /\ (forall n, In n (map fst items) <-> In n (node_ids g))
      /\ forall n lobes,
          dget seqb items n = Some lobes ->
          NoDup lobes
          /\ forall l,
              In l lobes
              <-> l <> 0
                  /\ exists m a, In m (n :: desc_in B n)
                                 /\ node_attr g m = Some a /\ lobe a = l.
Proof.
  intros g V. destruct (lobe_table g V) as (B & all & EB & Hall & ND & Hkeys & Hocc).
  pose (items := map (fun item : string * zdict Z =>
                        (fst item, map fst (snd item))) all).
  exists B, items.
  assert (Hfst : map fst items = map fst all).
  { unfold items. rewrite map_map. reflexivity. }
  split; [exact EB|].
  split; [unfold get_successor_lobes; now rewrite Hall|].
  split; [now rewrite Hfst|]. split; [intros n; rewrite Hfst; apply Hkeys|].
  intros n lobes Hn. unfold items in Hn. rewrite dget_map_values in Hn.
  destruct (dget seqb all n) as [occ|] eqn:Eo; [|discriminate].
  simpl in Hn. inversion Hn; subst lobes.
  pose proof (Hocc n occ Eo) as Hc. split; [exact (proj1 Hc)|].
  intros l. exact (counts_lobes_keys g _ occ l Hc).
Qed.

(** X10 ([get_successor_lobes]).  On every valid tree the function
    returns a set for each node and for nothing else; the set of a node
    holds exactly the non-neutral lobes carried by the node itself or by
    one of its descendants. *)
Theorem get_successor_lobes_exact :
  forall g : Graph,
    valid_tree g = true ->
    exists E items,
      bfs_edges g "0" = Some E
      /\ get_successor_lobes g = Some items
      /\ (forall n, In n (map fst items) <-> In n (node_ids g))
      /\ forall n lobes,
          dget seqb items n = Some lobes ->
          NoDup lobes
          /\ forall l,
              In l lobes
              <-> l <> 0
                  /\ exists m a,
                      (m = n \/ descendant E n m)
                      /\ node_attr g m = Some a /\ lobe a = l.
Proof.
  intros g V. destruct (lobe_sets g V) as (B & items & EB & Hitems & _ & Hkeys & Hsets).
  pose proof (bfs_blocks_forest _ _ _ EB) as F.
  exists (edges_of B), items.
  split; [unfold bfs_edges; now rewrite EB|].
  split; [exact Hitems|]. split; [exact Hkeys|].
  intros n lobes Hn. destruct (Hsets n lobes Hn) as (ND & H).
  split; [exact ND|]. intros l. rewrite H. split.
  - intros (Hl & m & a & [Hm|Hm] & Ha). 
    + split; [exact Hl|]. exists m, a. split; [left; congruence | exact Ha].
    + split; [exact Hl|]. exists m, a. split; [|exact Ha].
      right. now apply desc_in_sound.
  - intros (Hl & m & a & [Hm|Hm] & Ha).
    + split; [exact Hl|]. exists m, a. split; [left; congruence | exact Ha].
    + split; [exact Hl|]. exists m, a. split; [|exact Ha].
      right. now apply (desc_in_complete B F).
Qed.

Lemma get_successor_lobes_exact_witness :
  exists E items,
    bfs_edges lobes_tree "0" = Some E
    /\ get_successor_lobes lobes_tree = Some items
    /\ (forall n, In n (map fst items) <-> In n (node_ids lobes_tree))
    /\ forall n lobes,
        dget seqb items n = Some lobes ->
        NoDup lobes
        /\ forall l,
            In l lobes
            <-> l <> 0
                /\ exists m a,
                    (m = n \/ descendant E n m)
                    /\ node_attr lobes_tree m = Some a /\ lobe a = l.
Proof.
  apply (get_successor_lobes_exact lobes_tree). vm_compute. reflexivity.
Defined.

(** * Writing lobes *)

Lemma set_lobe_attr : forall g n v g',
    set_lobe g n v = Some g' ->
    exists a,
      node_attr g n = Some a
      /\ g_adj g' = g_adj g
      /\ node_ids g' = node_ids g
      /\ forall m, node_attr g' m
                   = if seqb n m then Some (with_lobe v a) else node_attr g m.
Proof.
  intros g n v g' H. unfold set_lobe in H.
  destruct (node_attr g n) as [a|] eqn:Ea; [|discriminate].
  inversion H; subst g'. clear H. exists a.
  split; [reflexivity|]. split; [reflexivity|]. split.
  - unfold node_ids. simpl. apply (dset_keys_old seqb seqb_eq).
    exact (dget_Some_key seqb seqb_eq _ _ _ Ea).
  - intros m. unfold node_attr. simpl. apply (dget_dset seqb seqb_eq).
Qed.

Lemma set_lobe_returns : forall g n v,
    node_attr g n <> None -> exists g', set_lobe g n v = Some g'.
Proof.
  intros g n v H. unfold set_lobe.
  destruct (node_attr g n) as [a|]; [eauto | contradiction].
Qed.

Lemma map_dset_same : forall (V W : Type) (f : string * V -> W)
    (d : sdict V) k v v',
    dget seqb d k = Some v -> f (k, v') = f (k, v) ->
    map f (dset seqb d k v') = map f d.
Proof.
  intros V W f. induction d as [|[k0 v0] d IH]; intros k v v' H Hf; simpl in *;
    [discriminate|].
  destruct (seqb k0 k) eqn:E.
  - apply seqb_eq in E. subst k0. inversion H; subst v0. simpl. now rewrite Hf.
  - simpl. f_equal. exact (IH k v v' H Hf).
Qed.

Lemma set_lobe_erase : forall g n v g',
    set_lobe g n v = Some g' -> erase_lobes g' = erase_lobes g.
Proof.
  intros g n v g' H. unfold set_lobe in H.
  destruct (node_attr g n) as [a|] eqn:Ea; [|discriminate].
  inversion H; subst g'. clear H. unfold erase_lobes. simpl. f_equal.
  apply (map_dset_same _ _ _ (g_node g) n a); [exact Ea | reflexivity].
Qed.

Lemma node_attr_lobes_in : forall g n a,
    node_attr g n = Some a -> In (lobe a) (lobes_in g).
Proof.
  intros g n a H. apply (dget_In seqb seqb_eq) in H.
  unfold lobes_in. apply in_map_iff. exists (n, a). now split.
Qed.

Lemma set_lobe_lobes : forall g n v g' l,
    set_lobe g n v = Some g' -> In l (lobes_in g') -> l = v \/ In l (lobes_in g).
Proof.
  intros g n v g' l H Hin. unfold set_lobe in H.
  destruct (node_attr g n) as [a|]; [|discriminate].
  inversion H; subst g'. clear H. unfold lobes_in in *. simpl in Hin.
  apply in_map_iff in Hin. destruct Hin as ([k a'] & Hl & Hin). simpl in Hl.
  apply (dset_In seqb seqb_eq) in Hin. destruct Hin as [Hin|Hin].
  - inversion Hin; subst. now left.
  - right. apply in_map_iff. exists (k, a'). now split.
Qed.

Lemma erase_lobes_shape : forall g g',
    erase_lobes g' = erase_lobes g ->
    g_adj g' = g_adj g
    /\ node_ids g' = node_ids g
    /\ forall n, option_map (with_lobe 0) (node_attr g' n)
                 = option_map (with_lobe 0) (node_attr g n).
Proof.
  intros g g' H. unfold erase_lobes in H. injection H as Hn Ha.
  split; [exact Ha|].
  assert (G : forall (d1 d2 : sdict NodeAttr),
             map (fun na => (fst na, with_lobe 0 (snd na))) d1
             = map (fun na => (fst na, with_lobe 0 (snd na))) d2 ->
             map fst d1 = map fst d2
             /\ forall n, option_map (with_lobe 0) (dget seqb d1 n)
                          = option_map (with_lobe 0) (dget seqb d2 n)).
  { induction d1 as [|[k1 a1] d1 IH]; intros [|[k2 a2] d2] E; simpl in E;
      try discriminate.
    - split; reflexivity.
    - injection E as Hk Hx Hy Hz Hl Hs Ht. subst k2.
      assert (Hw : with_lobe 0 a1 = with_lobe 0 a2)
        by (unfold with_lobe; congruence).
      destruct (IH d2 Ht) as (IH1 & IH2).
      split; [simpl; now rewrite IH1|].
      intros n. simpl. destruct (seqb k1 n); [simpl; now rewrite Hw | apply IH2]. }
  destruct (G _ _ Hn) as (G1 & G2). split; [exact G1 | exact G2].
Qed.

Lemma erase_lobes_attr : forall g g' n,
    erase_lobes g' = erase_lobes g ->
    (node_attr g' n <> None <-> node_attr g n <> None).
Proof.
  intros g g' n H. destruct (erase_lobes_shape g g' H) as (_ & _ & Hn).
  specialize (Hn n).
  destruct (node_attr g' n), (node_attr g n); simpl in Hn;
    try discriminate; split; intros; congruence.
Qed.

Lemma erase_lobes_level : forall g g' n a a',
    erase_lobes g' = erase_lobes g ->
    node_attr g n = Some a -> node_attr g' n = Some a' ->
    level a' = level a.
Proof.
  intros g g' n a a' H Ha Ha'.
  destruct (erase_lobes_shape g g' H) as (_ & _ & Hn).
  specialize (Hn n). rewrite Ha, Ha' in Hn. simpl in Hn.
  inversion Hn. reflexivity.
Qed.

Lemma bfs_visit_adj : forall g g' fuel visited queue,
    g_adj g' = g_adj g ->
    bfs_visit fuel g' visited queue = bfs_visit fuel g visited queue.
Proof.
  intros g g' fuel. induction fuel as [|fuel IH]; intros visited queue H;
    simpl; [reflexivity|].
  destruct queue as [|p queue]; [reflexivity|].
  unfold neighbors, adj_row. rewrite H.
  destruct (dget seqb (g_adj g) p) as [row|]; [|reflexivity].
  now rewrite IH.
Qed.

Lemma bfs_blocks_adj : forall g g' source,
    g_adj g' = g_adj g -> bfs_blocks g' source = bfs_blocks g source.
Proof.
  intros g g' source H. unfold bfs_blocks. rewrite H.
  now apply bfs_visit_adj.
Qed.

Lemma successors_dict_adj : forall g g',
    g_adj g' = g_adj g -> successors_dict g' = successors_dict g.
Proof.
  intros g g' H. unfold successors_dict, bfs_successors, bfs_edges.
  now rewrite (bfs_blocks_adj g g' "0" H).
Qed.

Lemma forallb_eq : forall (A : Type) (f f' : A -> bool) l,
    (forall a, f a = f' a) -> forallb f l = forallb f' l.
Proof.
  intros A f f' l H. induction l as [|a l IH]; simpl; [reflexivity|].
  now rewrite H, IH.
Qed.

(** A graph that differs from a valid tree in its lobes only is a valid
    tree. *)
Lemma valid_tree_erase : forall g g',
    erase_lobes g' = erase_lobes g -> valid_tree g' = valid_tree g.
Proof.
  intros g g' H. destruct (erase_lobes_shape g g' H) as (Ha & Hi & _).
  assert (Hlen : number_of_nodes g' = number_of_nodes g).
  { unfold number_of_nodes. rewrite <- (length_map fst (g_node g')).
    rewrite <- (length_map fst (g_node g)). fold (node_ids g') (node_ids g).
    now rewrite Hi. }
  assert (Hhas : forall n, has_node g' n = has_node g n).
  { intros n. destruct (has_node g n) eqn:E.
    - apply has_node_In. rewrite Hi. now apply has_node_In.
    - destruct (has_node g' n) eqn:E'; [|reflexivity].
      apply has_node_In in E'. rewrite Hi in E'. apply has_node_In in E'.
      congruence. }
  unfold valid_tree, well_formed, number_of_edges, is_connected, bfs_edges.
  rewrite (bfs_blocks_adj g g' "0" Ha), Hlen, Ha, Hi.
  f_equal. f_equal. f_equal.
  apply forallb_eq. intros kr. rewrite Hhas. f_equal.
  apply forallb_eq. intros n. apply Hhas.
Qed.

Lemma with_lobe_idem : forall v v' a, with_lobe v (with_lobe v' a) = with_lobe v a.
Proof. intros v v' a. reflexivity. Qed.

Lemma mem_app : forall (m : string) a b,
    mem seqb m (a ++ b) = mem seqb m a || mem seqb m b.
Proof.
  intros m. induction a as [|c a IH]; intros b; simpl; [reflexivity|].
  rewrite IH. now rewrite orb_assoc.
Qed.

Lemma painted_refl : forall v g, painted v g g [].
Proof. intros v g. split; [reflexivity|]. split; reflexivity. Qed.

Lemma painted_app : forall v g1 g2 g3 S1 S2,
    painted v g1 g2 S1 -> painted v g2 g3 S2 -> painted v g1 g3 (S1 ++ S2).
Proof.
  intros v g1 g2 g3 S1 S2 (A1 & A2 & A3) (B1 & B2 & B3).
  split; [congruence|]. split; [congruence|].
  intros m. rewrite B3, A3, mem_app.
  destruct (mem seqb m S1), (mem seqb m S2); simpl; try reflexivity.
  destruct (node_attr g1 m); reflexivity.
Qed.

Lemma painted_set : forall v g n g',
    set_lobe g n v = Some g' -> painted v g g' [n].
Proof.
  intros v g n g' H. destruct (set_lobe_attr g n v g' H) as (a & Ha & H1 & H2 & H3).
  split; [exact H1|]. split; [exact H2|].
  intros m. rewrite H3. simpl. rewrite orb_false_r.
  destruct (seqb n m) eqn:E; [|reflexivity].
  apply seqb_eq in E. subst m. now rewrite Ha.
Qed.

Lemma painted_attr : forall v g1 g2 nodes m,
    painted v g1 g2 nodes ->
    (node_attr g2 m <> None <-> node_attr g1 m <> None).
Proof.
  intros v g1 g2 nodes m (_ & _ & H). rewrite H.
  destruct (mem seqb m nodes), (node_attr g1 m); simpl; split; intros; congruence.
Qed.

Section Paint.
Variable B : list (string * list string).
Hypothesis F : is_forest "0" B.
Hypothesis Hhead : exists cs B', B = ("0", cs) :: B'.
Variable value : Z.

(** The recursion of [set_attribute_recursively]: a call on a node whose
    block is among the last [fuel - 1] blocks writes the lobe on the node
    and on all its descendants, and on nothing else. *)
Lemma rec_traverse_paints : forall fuel B1 B2 n g1,
    B = B1 ++ B2 -> (length B2 < fuel)%nat -> ~ In n (map fst B1) ->
    (forall m, In m (n :: desc_in B n) -> node_attr g1 m <> None) ->
    exists g2,
      rec_traverse fuel (successor_table B) value g1 n = Some g2
      /\ painted value g1 g2 (n :: desc_in B n).
Proof.
  induction fuel as [|fuel IH]; intros B1 B2 n g1 E Hlen Hn Hattr; [lia|].
  simpl.
  destruct (set_lobe_returns g1 n value (Hattr n (or_introl eq_refl)))
    as (g1' & Hset).
  rewrite Hset. pose proof (painted_set value g1 n g1' Hset) as P1.
  destruct (dget seqb (successor_table B) n) as [cs|] eqn:ET.
  - apply (table_get "0" B F Hhead) in ET. destruct ET as [Hin _].
    assert (Hin2 : In (n, cs) B2).
    { rewrite E in Hin. apply in_app_or in Hin. destruct Hin as [Hin|Hin]; [|exact Hin].
      exfalso. apply Hn. apply in_map_iff. exists (n, cs). now split. }
    apply in_split in Hin2. destruct Hin2 as (B2a & B2b & E2).
    assert (EB : B = (B1 ++ B2a) ++ (n, cs) :: B2b).
    { rewrite E, E2. now rewrite <- app_assoc. }
    assert (Hlen' : (length B2b < fuel)%nat).
    { rewrite E2, length_app in Hlen. simpl in Hlen. lia. }
    assert (Hcs : forall c, In c cs -> ~ In c (map fst ((B1 ++ B2a) ++ [(n, cs)]))).
    { intros c Hc. eapply forest_child_block_later; eauto. }
    assert (EB' : B = ((B1 ++ B2a) ++ [(n, cs)]) ++ B2b).
    { rewrite EB at 1.
      rewrite <- (app_assoc (B1 ++ B2a) [(n, cs)] B2b). reflexivity. }
    pose proof (desc_equation "0" B n cs F Hin) as Hdesc.
    fold (forest_list B cs) in Hdesc.
    assert (Fold : forall l ga,
               incl l cs ->
               (forall m, In m (forest_list B l) -> node_attr ga m <> None) ->
               exists gb,
                 foldM (rec_traverse fuel (successor_table B) value) l ga = Some gb
                 /\ painted value ga gb (forest_list B l)).
    { induction l as [|c l IHl]; intros ga Hincl Hga.
      - exists ga. split; [reflexivity | apply painted_refl].
      - assert (Hc : In c cs) by (apply Hincl; now left).
        change (forest_list B (c :: l))
          with ((c :: desc_in B c) ++ forest_list B l) in *.
        destruct (IH _ _ c ga EB' Hlen' (Hcs c Hc)) as (gm & Hcall & Pm).
        { intros m Hm. apply Hga. apply in_or_app. now left. }
        destruct (IHl gm) as (gb & Hfold & Pb).
        { intros y Hy. apply Hincl. now right. }
        { intros m Hm. apply (painted_attr value ga gm _ m Pm).
          apply Hga. apply in_or_app. now right. }
        exists gb. split; [simpl; now rewrite Hcall|].
        exact (painted_app value ga gm gb _ _ Pm Pb). }
    destruct (Fold cs g1' (incl_refl cs)) as (gb & Hfold & Pb).
    { intros m Hm. apply (painted_attr value g1 g1' _ m P1).
      apply Hattr. right. now rewrite Hdesc. }
    exists gb. split; [exact Hfold|]. rewrite Hdesc.
    exact (painted_app value g1 g1' gb [n] _ P1 Pb).
  - rewrite (table_none_desc B F Hhead n ET). exists g1'.
    split; [reflexivity | exact P1].
Qed.

End Paint.

Lemma rec_traverse_erase : forall fuel T v g n g',
    rec_traverse fuel T v g n = Some g' ->
    erase_lobes g' = erase_lobes g /\ no_new_lobe_but v g g'.
Proof.
  induction fuel as [|fuel IH]; intros T v g n g' H; [discriminate|].
  simpl in H. destruct (set_lobe g n v) as [g1|] eqn:Es; [|discriminate].
  pose proof (set_lobe_erase g n v g1 Es) as E1.
  assert (L1 : no_new_lobe_but v g g1).
  { intros l Hl. exact (set_lobe_lobes g n v g1 l Es Hl). }
  destruct (dget seqb T n) as [cs|].
  - apply (foldM_invariant _ _
             (fun ga : Graph =>
                erase_lobes ga = erase_lobes g /\ no_new_lobe_but v g ga)
             (rec_traverse fuel T v) cs g1 g'); [| now split | exact H].
    intros ga c gb (Ha & La) Hc. destruct (IH T v ga c gb Hc) as (Hb & Lb).
    split; [congruence|].
    intros l Hl. destruct (Lb l Hl) as [Hv|Hin]; [now left | now apply La].
  - inversion H; subst. now split.
Qed.

Lemma set_attribute_recursively_erase : forall g n v g',
    set_attribute_recursively g n v = Some g' ->
    erase_lobes g' = erase_lobes g /\ no_new_lobe_but v g g'.
Proof.
  intros g n v g' H. unfold set_attribute_recursively in H.
  destruct (successors_dict g) as [T|]; [|discriminate].
  exact (rec_traverse_erase _ T v g n g' H).
Qed.

Lemma valid_tree_nodes : forall g,
    valid_tree g = true ->
    exists B,
      bfs_blocks g "0" = Some B
      /\ (length B <= length (g_adj g))%nat
      /\ (forall n, In n (node_ids g) <-> In n ("0" :: children_of B))
      /\ (forall n, In n (node_ids g) -> node_attr g n <> None).
Proof.
  intros g V. destruct (valid_tree_visit g V) as (B & EB & _ & Hnodes & Hlen).
  exists B. split; [exact EB|]. split; [exact Hlen|]. split; [exact Hnodes|].
  intros n Hn. apply has_node_In in Hn. unfold has_node, dmem in Hn.
  unfold node_attr. destruct (dget seqb (g_node g) n); [discriminate | discriminate].
Qed.

Lemma mem_seqb_In : forall (m : string) l, mem seqb m l = true <-> In m l.
Proof. intros m l. apply (mem_In seqb seqb_eq). Qed.

(** [set_attribute_recursively] on a tree whose nodes all have attributes. *)
Lemma set_attribute_recursively_returns : forall g B n v,
    bfs_blocks g "0" = Some B ->
    (length B <= length (g_adj g))%nat ->
    (forall m, In m ("0" :: children_of B) -> node_attr g m <> None) ->
    In n ("0" :: children_of B) ->
    exists g',
      set_attribute_recursively g n v = Some g'
      /\ painted v g g' (n :: desc_in B n).
Proof.
  intros g B n v EB Hlen Hattr Hn.
  pose proof (bfs_blocks_forest _ _ _ EB) as F.
  pose proof (bfs_blocks_head _ _ _ EB) as Hhead.
  unfold set_attribute_recursively. rewrite (successors_dict_table g B EB).
  apply (rec_traverse_paints B F Hhead v (S (length (g_adj g))) [] B n g);
    [reflexivity | lia | intros [] |].
  intros m [Hm|Hm]; [subst; now apply Hattr|].
  apply Hattr. right. exact (desc_in_children B n m Hm).
Qed.

(** X11 ([set_attribute_recursively] for the attribute ['lobe']).  On a
    valid tree the call returns for every node of the tree; it writes the
    value on that node and on each of its descendants, leaves the
    attributes of every other node as they were, and changes nothing but
    lobes. *)
Theorem set_attribute_recursively_paints :
  forall (g : Graph) (node : string) (value : Z),
    valid_tree g = true ->
    In node (node_ids g) ->
    exists E g',
      bfs_edges g "0" = Some E
      /\ set_attribute_recursively g node value = Some g'
      /\ erase_lobes g' = erase_lobes g
      /\ (forall m, m = node \/ descendant E node m ->
                    lobe_of g' m = Some value)
      /\ (forall m, m <> node -> ~ descendant E node m ->
                    node_attr g' m = node_attr g m).
Proof.
  intros g node value V Hnode.
  destruct (valid_tree_nodes g V) as (B & EB & Hlen & Hnodes & Hattr).
  pose proof (bfs_blocks_forest _ _ _ EB) as F.
  destruct (set_attribute_recursively_returns g B node value EB Hlen)
    as (g' & Hret & (_ & _ & Hp)).
  { intros m Hm. apply Hattr. now apply Hnodes. }
  { now apply Hnodes. }
  exists (edges_of B), g'.
  split; [unfold bfs_edges; now rewrite EB|]. split; [exact Hret|].
  split; [exact (proj1 (set_attribute_recursively_erase g node value g' Hret))|].
  split.
  - intros m Hm.
    assert (Hin : In m (node :: desc_in B node)).
    { destruct Hm as [Hm|Hm]; [left; congruence|].
      right. now apply (desc_in_complete B F). }
    assert (Hex : node_attr g m <> None).
    { apply Hattr. apply Hnodes. destruct Hin as [Hin|Hin]; [subst; now apply Hnodes|].
      right. exact (desc_in_children B node m Hin). }
    unfold lobe_of. rewrite Hp.
    apply mem_seqb_In in Hin. rewrite Hin.
    destruct (node_attr g m) as [a|]; [reflexivity | contradiction].
  - intros m Hne Hnd. rewrite Hp.
    destruct (mem seqb m (node :: desc_in B node)) eqn:E; [|reflexivity].
    apply mem_seqb_In in E. destruct E as [E|E]; [congruence|].
    exfalso. apply Hnd. now apply desc_in_sound.
Qed.

Lemma set_attribute_recursively_paints_witness :
  exists E g',
    bfs_edges lobes_tree "0" = Some E
    /\ set_attribute_recursively lobes_tree "1" 5 = Some g'
    /\ erase_lobes g' = erase_lobes lobes_tree
    /\ (forall m, m = "1" \/ descendant E "1" m -> lobe_of g' m = Some 5)
    /\ (forall m, m <> "1" -> ~ descendant E "1" m ->
                  node_attr g' m = node_attr lobes_tree m).
Proof.
  apply (set_attribute_recursively_paints lobes_tree "1" 5).
  - vm_compute. reflexivity.
  - vm_compute. right. now left.
Defined.

(** * Neutralising ambiguous nodes near the root *)

Lemma neutral_step_attr : forall g k ls a,
    node_attr g k = Some a ->
    exists g',
      neutral_step g (k, ls) = Some g'
      /\ erase_lobes g' = erase_lobes g
      /\ no_new_lobe g g'
      /\ forall m,
          node_attr g' m
          = if seqb k m
            then Some (if (level a <=? 4) && negb (lobe a =? 0)
                          && (1 <? length ls)%nat
                       then with_lobe 0 a else a)
            else node_attr g m.
Proof.
  intros g k ls a Ha. unfold neutral_step. rewrite Ha.
  assert (Same : exists g',
             Some g = Some g'
             /\ erase_lobes g' = erase_lobes g
             /\ no_new_lobe g g'
             /\ forall m, node_attr g' m
                          = if seqb k m then Some a else node_attr g m).
  { exists g. split; [reflexivity|]. split; [reflexivity|].
    split; [intros l Hl; now right|].
    intros m. destruct (seqb k m) eqn:E; [|reflexivity].
    apply seqb_eq in E. now subst. }
  destruct ((level a <=? 4) && negb (lobe a =? 0)); simpl; [|exact Same].
  destruct (1 <? length ls)%nat; [|exact Same].
  destruct (set_lobe_returns g k 0) as (g' & Hs); [congruence|].
  exists g'. split; [exact Hs|].
  split; [exact (set_lobe_erase g k 0 g' Hs)|]. split.
  - intros l Hl. exact (set_lobe_lobes g k 0 g' l Hs Hl).
  - destruct (set_lobe_attr g k 0 g' Hs) as (a' & Ha' & _ & _ & H).
    rewrite Ha in Ha'. inversion Ha'; subst a'. exact H.
Qed.

Lemma no_new_lobe_trans : forall g1 g2 g3,
    no_new_lobe g1 g2 -> no_new_lobe g2 g3 -> no_new_lobe g1 g3.
Proof.
  intros g1 g2 g3 H12 H23 l Hl.
  destruct (H23 l Hl) as [H|H]; [now left | now apply H12].
Qed.

Lemma no_new_lobe_refl : forall g, no_new_lobe g g.
Proof. intros g l Hl. now right. Qed.

(** The loop of [possibly_make_neutral_above_level_4] decides for every
    node from the tree it started with. *)
Lemma neutral_fold : forall items g1,
    NoDup (map fst items) ->
    (forall k, In k (map fst items) -> node_attr g1 k <> None) ->
    exists g2,
      foldM neutral_step items g1 = Some g2
      /\ erase_lobes g2 = erase_lobes g1
      /\ no_new_lobe g1 g2
      /\ forall n,
          node_attr g2 n
          = match dget seqb items n with
            | Some ls =>
                option_map
                  (fun a => if (level a <=? 4) && negb (lobe a =? 0)
                               && (1 <? length ls)%nat
                            then with_lobe 0 a else a)
                  (node_attr g1 n)
            | None => node_attr g1 n
            end.
Proof.
  induction items as [|[k ls] items IH]; intros g1 ND Hattr.
  - exists g1. split; [reflexivity|]. split; [reflexivity|].
    split; [apply no_new_lobe_refl | reflexivity].
  - simpl in ND. inversion ND as [|? ? Hk ND']; subst.
    destruct (node_attr g1 k) as [a|] eqn:Ea;
      [|exfalso; apply (Hattr k); [now left | exact Ea]].
    destruct (neutral_step_attr g1 k ls a Ea) as (gm & Hstep & Em & Lm & Hm).
    destruct (IH gm ND') as (g2 & Hfold & E2 & L2 & H2).
    { intros k' Hk'. apply (erase_lobes_attr g1 gm k' Em). apply Hattr. now right. }
    exists g2. split; [cbn [foldM]; now rewrite Hstep|].
    split; [congruence|]. split; [exact (no_new_lobe_trans g1 gm g2 Lm L2)|].
    intros n. rewrite H2, Hm. simpl. destruct (seqb k n) eqn:E.
    + apply seqb_eq in E. subst n.
      assert (Hnone : dget seqb items k = None)
        by (now apply (dget_None seqb seqb_eq)).
      rewrite Hnone, Ea. reflexivity.
    + reflexivity.
Qed.

Lemma two_elements : forall (l : list Z) a b,
    In a l -> In b l -> a <> b -> (1 <? length l)%nat = true.
Proof.
  intros [|u [|v l]] a b Ha Hb Hne; simpl in *.
  - contradiction.
  - destruct Ha as [Ha|[]], Hb as [Hb|[]]. congruence.
  - reflexivity.
Qed.

Lemma other_element : forall (l : list Z) a,
    NoDup l -> (1 <? length l)%nat = true -> exists b, In b l /\ b <> a.
Proof.
  intros [|u [|v l]] a ND Hlen; simpl in Hlen; try discriminate.
  inversion ND as [|? ? Hu _]; subst.
  destruct (Z.eq_dec u a) as [->|Hne].
  - exists v. split; [right; now left|]. intros ->. apply Hu. now left.
  - exists u. split; [now left | exact Hne].
Qed.

(** X12 ([possibly_make_neutral_above_level_4]).  On every valid tree the
    pass returns and changes nothing but lobes.  A non-neutral node at
    level 4 or less becomes neutral when one of its descendants carries a
    non-neutral lobe other than the node's own, and every node of which
    this does not hold keeps its lobe: a neutral node, a node below
    level 4, a node all of whose descendants are neutral or carry the
    node's own lobe.  The decision is taken for all nodes from the tree as
    it was when the pass began. *)
Theorem possibly_make_neutral_exact :
  forall g : Graph,
    valid_tree g = true ->
    exists E g',
      bfs_edges g "0" = Some E
      /\ possibly_make_neutral_above_level_4 g = Some g'
      /\ erase_lobes g' = erase_lobes g
      /\ forall n a,
          node_attr g n = Some a ->
          (level a <= 4 -> lobe a <> 0 ->
           (exists d ad, descendant E n d /\ node_attr g d = Some ad
                         /\ lobe ad <> 0 /\ lobe ad <> lobe a) ->
           lobe_of g' n = Some 0)
          /\ (~ (level a <= 4 /\ lobe a <> 0
                 /\ exists d ad, descendant E n d /\ node_attr g d = Some ad
                                 /\ lobe ad <> 0 /\ lobe ad <> lobe a) ->
              lobe_of g' n = Some (lobe a)).
Proof.
  intros g V.
  destruct (lobe_sets g V) as (B & items & EB & Hitems & ND & Hkeys & Hsets).
  destruct (valid_tree_nodes g V) as (B' & EB' & _ & _ & Hattr).
  pose proof (bfs_blocks_forest _ _ _ EB) as F.
  destruct (neutral_fold items g ND) as (g' & Hfold & Eg & _ & Hres).
  { intros k Hk. apply Hattr. now apply Hkeys. }
  exists (edges_of B), g'.
  split; [unfold bfs_edges; now rewrite EB|].
  split; [unfold possibly_make_neutral_above_level_4; now rewrite Hitems|].
  split; [exact Eg|].
  intros n a Ha.
  assert (Hin : In n (map fst items)).
  { apply Hkeys. apply has_node_In. unfold has_node, dmem.
    unfold node_attr in Ha. now rewrite Ha. }
  destruct (dget seqb items n) as [ls|] eqn:Els;
    [|exfalso; now apply (dget_None seqb seqb_eq items n)].
  destruct (Hsets n ls Els) as (NDls & Hls).
  assert (Hlobe : lobe_of g' n
                  = Some (lobe (if (level a <=? 4) && negb (lobe a =? 0)
                                   && (1 <? length ls)%nat
                                then with_lobe 0 a else a))).
  { unfold lobe_of. rewrite Hres, Els, Ha. reflexivity. }
  split.
  - intros Hlvl Hnz (d & ad & Hd & Had & Hdz & Hdne). rewrite Hlobe.
    assert (H1 : (level a <=? 4) = true) by (now apply Z.leb_le).
    assert (H2 : (lobe a =? 0) = false) by (now apply Z.eqb_neq).
    assert (H3 : (1 <? length ls)%nat = true).
    { apply (two_elements ls (lobe a) (lobe ad)); [| |congruence].
      - apply Hls. split; [exact Hnz|]. exists n, a.
        split; [now left|]. now split.
      - apply Hls. split; [exact Hdz|]. exists d, ad.
        split; [right; now apply (desc_in_complete B F)|]. now split. }
    rewrite H1, H2, H3. reflexivity.
  - intros Hcase. rewrite Hlobe.
    destruct ((level a <=? 4) && negb (lobe a =? 0) && (1 <? length ls)%nat)
      eqn:Ec; [|reflexivity].
    apply andb_true_iff in Ec. destruct Ec as (Ec & H3).
    apply andb_true_iff in Ec. destruct Ec as (H1 & H2).
    apply Z.leb_le in H1. apply negb_true_iff in H2. apply Z.eqb_neq in H2.
    exfalso. apply Hcase. split; [exact H1|]. split; [exact H2|].
    destruct (other_element ls (lobe a) NDls H3) as (b & Hb & Hne).
    apply Hls in Hb. destruct Hb as (Hbz & m & am & Hm & Ham & Hbm).
    destruct Hm as [Hm|Hm].
    + subst m. rewrite Ha in Ham. inversion Ham; subst am. congruence.
    + apply desc_in_sound in Hm. exists m, am.
      split; [exact Hm|]. split; [exact Ham|]. split; congruence.
Qed.

Lemma possibly_make_neutral_exact_witness :
  exists E g',
    bfs_edges lobes_tree "0" = Some E
    /\ possibly_make_neutral_above_level_4 lobes_tree = Some g'
    /\ erase_lobes g' = erase_lobes lobes_tree
    /\ forall n a,
        node_attr lobes_tree n = Some a ->
        (level a <= 4 -> lobe a <> 0 ->
         (exists d ad, descendant E n d /\ node_attr lobes_tree d = Some ad
                       /\ lobe ad <> 0 /\ lobe ad <> lobe a) ->
         lobe_of g' n = Some 0)
        /\ (~ (level a <= 4 /\ lobe a <> 0
               /\ exists d ad, descendant E n d /\ node_attr lobes_tree d = Some ad
                               /\ lobe ad <> 0 /\ lobe ad <> lobe a) ->
            lobe_of g' n = Some (lobe a)).
Proof.
  apply (possibly_make_neutral_exact lobes_tree). vm_compute. reflexivity.
Defined.

(** * Filling neutral parents *)

Lemma count_of_nonneg : forall lobes l, 0 <= count_of lobes l.
Proof.
  induction lobes as [|k lobes IH]; intros l; simpl; [lia|].
  specialize (IH l). destruct (k =? l); lia.
Qed.

Lemma count_of_pos : forall lobes l, 0 < count_of lobes l <-> In l lobes.
Proof.
  induction lobes as [|k lobes IH]; intros l; simpl; [split; [lia | tauto]|].
  pose proof (count_of_nonneg lobes l) as Hn.
  destruct (Z.eqb_spec k l) as [E|E].
  - split; [now left | lia].
  - rewrite Z.add_0_l, IH. split; [now right | intros [H|H]; [congruence | exact H]].
Qed.

Lemma dset_keys_add : forall (d : zdict Z) k v,
    map fst (dset Z.eqb d k v) = set_add Z.eqb (map fst d) k.
Proof.
  unfold set_add. induction d as [|[k0 v0] d IH]; intros k v; simpl; [reflexivity|].
  destruct (k0 =? k) eqn:E; simpl; [reflexivity|].
  rewrite IH. destruct (mem Z.eqb k (map fst d)); reflexivity.
Qed.

(** The dictionary [{k: f(k) for k in l}]. *)
Lemma tabulate_fold : forall (f : Z -> Z) l d0,
    NoDup (map fst d0) ->
    (forall k v, In (k, v) d0 -> v = f k) ->
    NoDup (map fst (fold_left (fun d kv => dset Z.eqb d (fst kv) (snd kv))
                      (map (fun k => (k, f k)) l) d0))
    /\ (forall k v,
           In (k, v) (fold_left (fun d kv => dset Z.eqb d (fst kv) (snd kv))
                        (map (fun k => (k, f k)) l) d0) ->
           v = f k)
    /\ map fst (fold_left (fun d kv => dset Z.eqb d (fst kv) (snd kv))
                  (map (fun k => (k, f k)) l) d0)
       = set_union Z.eqb (map fst d0) l.
Proof.
  intros f. induction l as [|k l IH]; intros d0 ND Hf; simpl.
  - split; [exact ND|]. split; [exact Hf | reflexivity].
  - destruct (IH (dset Z.eqb d0 k (f k))) as (H1 & H2 & H3).
    + now apply (dset_NoDup Z.eqb Z.eqb_eq).
    + intros k' v' Hin. apply (dset_In Z.eqb Z.eqb_eq) in Hin.
      destruct Hin as [Hin|Hin]; [now inversion Hin | now apply Hf].
    + split; [exact H1|]. split; [exact H2|].
      rewrite H3, dset_keys_add. reflexivity.
Qed.

Lemma occurrences_spec : forall lobes,
    NoDup (map fst (occurrences lobes))
    /\ (forall k v, In (k, v) (occurrences lobes) -> v = count_of lobes k)
    /\ map fst (occurrences lobes) = set_of_list Z.eqb lobes.
Proof.
  intros lobes. unfold occurrences, dict_of_list, set_of_list.
  apply (tabulate_fold (count_of lobes) lobes []); [constructor | intros ? ? []].
Qed.

Lemma max_values_spec : forall values m,
    max_values values = Some m ->
    In m values /\ forall v, In v values -> v <= m.
Proof.
  intros [|v rest] m H; simpl in H; [discriminate|].
  inversion H; subst m. clear H. revert v.
  induction rest as [|w rest IH]; intros v; simpl.
  - split; [now left | intros u [Hu|[]]; lia].
  - destruct (IH (Z.max v w)) as (H1 & H2). split.
    + destruct H1 as [H1|H1]; [|right; now right].
      rewrite <- H1. destruct (Z.max_spec v w) as [[_ E]|[_ E]]; rewrite E.
      * right. now left.
      * now left.
    + intros u [Hu|[Hu|Hu]].
      * subst u. specialize (H2 (Z.max v w) (or_introl eq_refl)). lia.
      * subst u. specialize (H2 (Z.max v w) (or_introl eq_refl)). lia.
      * apply H2. now right.
Qed.

Lemma filterM_filter : forall (A : Type) (f : A -> option bool) (p : A -> bool) l,
    (forall a, In a l -> f a = Some (p a)) ->
    filterM f l = Some (filter p l).
Proof.
  intros A f p. induction l as [|a l IH]; intros H; simpl; [reflexivity|].
  rewrite (H a (or_introl eq_refl)), IH by (intros b Hb; apply H; now right).
  destruct (p a); reflexivity.
Qed.

Lemma map_fst_filter : forall (l : zdict Z) (p : Z * Z -> bool) (q : Z -> bool),
    (forall k v, In (k, v) l -> p (k, v) = q k) ->
    map fst (filter p l) = filter q (map fst l).
Proof.
  induction l as [|[k v] l IH]; intros p q H; simpl; [reflexivity|].
  rewrite (H k v (or_introl eq_refl)).
  assert (IH' : map fst (filter p l) = filter q (map fst l))
    by (apply IH; intros k' v' Hin; apply H; now right).
  destruct (q k); simpl; now rewrite IH'.
Qed.

(** The candidates [add_new_parent_for_lobe] computes from the lobes of
    the children of a node. *)
Lemma new_lobe_list_filter : forall lobes,
    exists keep,
      new_lobe_list lobes = Some (filter keep (set_of_list Z.eqb lobes))
      /\ forall l, In l lobes ->
           (keep l = true
            <-> 1 < count_of lobes l
                /\ forall l', count_of lobes l' <= count_of lobes l).
Proof.
  intros lobes. destruct (occurrences_spec lobes) as (ND & Hval & Hkeys).
  unfold new_lobe_list.
  destruct (max_values (map snd (occurrences lobes))) as [m|] eqn:Em.
  - destruct (max_values_spec _ m Em) as (Hm & Hmax).
    exists (fun l => (1 <? count_of lobes l) && (count_of lobes l =? m)).
    split.
    + rewrite (filterM_filter _ _
                 (fun item : Z * Z => (1 <? snd item) && (snd item =? m))).
      * rewrite (map_fst_filter _ _
                   (fun l => (1 <? count_of lobes l) && (count_of lobes l =? m))).
        -- now rewrite Hkeys.
        -- intros k v Hin. simpl. now rewrite (Hval k v Hin).
      * intros [k v] _. simpl. destruct (1 <? v); reflexivity.
    + intros l Hl. rewrite andb_true_iff, Z.ltb_lt, Z.eqb_eq.
      apply in_map_iff in Hm. destruct Hm as ([km vm] & Hvm & Hin).
      simpl in Hvm. subst vm. pose proof (Hval km m Hin) as Hkm.
      assert (Hle : forall l', count_of lobes l' <= m).
      { intros l'. destruct (in_dec Z.eq_dec l' lobes) as [Hy|Hn].
        - assert (Hk : In l' (map fst (occurrences lobes))).
          { rewrite Hkeys. unfold set_of_list.
            apply (set_union_In Z.eqb Z.eqb_eq). now right. }
          apply in_map_iff in Hk. destruct Hk as ([k' v'] & Hk' & Hin').
          simpl in Hk'. subst k'. rewrite <- (Hval l' v' Hin').
          apply Hmax. apply in_map_iff. exists (l', v'). now split.
        - assert (count_of lobes l' = 0).
          { pose proof (count_of_nonneg lobes l') as H0.
            destruct (Z.eq_dec (count_of lobes l') 0) as [E|E]; [exact E|].
            exfalso. apply Hn. apply count_of_pos. lia. }
          pose proof (count_of_nonneg lobes km). lia. }
      split.
      * intros (H1 & H2). split; [exact H1|]. intros l'. rewrite H2. apply Hle.
      * intros (H1 & H2). split; [exact H1|].
        specialize (H2 km). specialize (Hle l). lia.
  - exists (fun _ => false). split.
    + assert (Hnil : occurrences lobes = []).
      { destruct (occurrences lobes) as [|[k v] occ]; [reflexivity | discriminate]. }
      rewrite Hnil. simpl.
      assert (Hs : set_of_list Z.eqb lobes = []) by (now rewrite <- Hkeys, Hnil).
      now rewrite Hs.
    + intros l Hl. exfalso.
      assert (Hk : In l (map fst (occurrences lobes))).
      { rewrite Hkeys. unfold set_of_list.
        apply (set_union_In Z.eqb Z.eqb_eq). now right. }
      destruct (occurrences lobes) as [|[k v] occ]; [contradiction | discriminate].
Qed.

(** X13 (the choice of [new_lobe] in [add_new_parent_for_lobe]).  The
    list comprehension never raises.  A lobe is among the candidates
    exactly when it occurs more than once among the lobes of the children
    and no lobe occurs more often; ties are all kept, no candidate is
    listed twice, and the candidates come in the order in which they
    first occur among the children. *)
Theorem new_lobe_list_spec :
  forall lobes : list Z,
    exists new_lobe keep,
      new_lobe_list lobes = Some new_lobe
      /\ new_lobe = filter keep (set_of_list Z.eqb lobes)
      /\ NoDup new_lobe
      /\ forall l,
          In l new_lobe
          <-> 1 < count_of lobes l
              /\ forall l', count_of lobes l' <= count_of lobes l.
Proof.
  intros lobes. destruct (new_lobe_list_filter lobes) as (keep & Hnew & Hkeep).
  exists (filter keep (set_of_list Z.eqb lobes)), keep.
  split; [exact Hnew|]. split; [reflexivity|]. split.
  - apply filter_NoDup. unfold set_of_list.
    apply (set_union_NoDup Z.eqb Z.eqb_eq). constructor.
  - intros l. rewrite filter_In. unfold set_of_list.
    rewrite (set_union_In Z.eqb Z.eqb_eq). simpl. split.
    + intros ([[]|Hl] & Hk). now apply Hkeep.
    + intros (H1 & H2).
      assert (Hl : In l lobes) by (apply count_of_pos; lia).
      split; [now right|]. apply Hkeep; [exact Hl|]. now split.
Qed.

Lemma new_lobe_list_head : forall lobes l rest,
    new_lobe_list lobes = Some (l :: rest) -> 1 < count_of lobes l.
Proof.
  intros lobes l rest H.
  destruct (new_lobe_list_filter lobes) as (keep & Hnew & Hkeep).
  rewrite Hnew in H. inversion H as [Hf].
  assert (Hin : In l (filter keep (set_of_list Z.eqb lobes)))
    by (rewrite Hf; now left).
  apply filter_In in Hin. destruct Hin as (Hs & Hk).
  unfold set_of_list in Hs. apply (set_union_In Z.eqb Z.eqb_eq) in Hs.
  destruct Hs as [[]|Hs]. now apply (Hkeep l Hs).
Qed.

Lemma new_lobe_list_returns : forall lobes, new_lobe_list lobes <> None.
Proof.
  intros lobes. destruct (new_lobe_list_filter lobes) as (keep & Hnew & _).
  congruence.
Qed.

Lemma count_of_mapM_mono : forall (f1 f2 : string -> option Z) cs L1 v,
    mapM f1 cs = Some L1 ->
    (forall c, In c cs -> f1 c = Some v -> f2 c = Some v) ->
    (forall c, In c cs -> f2 c <> None) ->
    exists L2, mapM f2 cs = Some L2 /\ count_of L1 v <= count_of L2 v.
Proof.
  intros f1 f2. induction cs as [|c cs IH]; intros L1 v H1 Hkeep Hex; simpl in *.
  - inversion H1; subst. exists []. split; [reflexivity | simpl; lia].
  - destruct (f1 c) as [x|] eqn:E1; [|discriminate].
    destruct (mapM f1 cs) as [L1'|] eqn:Em; [|discriminate].
    inversion H1; subst L1.
    destruct (IH L1' v eq_refl) as (L2' & Hm2 & Hle).
    { intros c' Hc'. apply Hkeep. now right. }
    { intros c' Hc'. apply Hex. now right. }
    destruct (f2 c) as [y|] eqn:E2;
      [|exfalso; apply (Hex c); [now left | exact E2]].
    exists (y :: L2'). rewrite Hm2. split; [reflexivity|]. simpl.
    destruct (Z.eqb_spec x v) as [Ex|Ex].
    + subst x. rewrite (Hkeep c (or_introl eq_refl) E1) in E2.
      inversion E2; subst y. rewrite Z.eqb_refl. lia.
    + pose proof (count_of_nonneg L2' v). destruct (y =? v); lia.
Qed.

(** The body of the loop of [add_new_parent_for_lobe]: it returns, and it
    either leaves the tree as it is or gives a neutral node a non-neutral
    lobe that more than one of its children carries. *)
Lemma new_parent_step_cases : forall T g n a,
    node_attr g n = Some a ->
    (forall cs c, dget seqb T n = Some cs -> In c cs -> node_attr g c <> None) ->
    exists g',
      new_parent_step T g n = Some g'
      /\ (g' = g
          \/ exists cs lobes l,
               lobe a = 0
               /\ dget seqb T n = Some cs
               /\ mapM (lobe_of g) cs = Some lobes
               /\ 1 < count_of lobes l
               /\ l <> 0
               /\ set_lobe g n l = Some g').
Proof.
  intros T g n a Ha Hch. unfold new_parent_step. rewrite Ha.
  destruct (Z.eqb_spec (lobe a) 0) as [Ez|Ez]; [|exists g; split; [reflexivity | now left]].
  destruct (dget seqb T n) as [cs|] eqn:ET; [|exists g; split; [reflexivity | now left]].
  destruct (mapM_succeeds _ _ (lobe_of g) cs) as (lobes & Hl).
  { intros c Hc. unfold lobe_of. specialize (Hch cs c eq_refl Hc).
    destruct (node_attr g c); [discriminate | contradiction]. }
  change (mapM (fun succ => s <- node_attr g succ ;; Some (lobe s)) cs)
    with (mapM (lobe_of g) cs).
  rewrite Hl.
  destruct (new_lobe_list lobes) as [[|l rest]|] eqn:En.
  - exists g. split; [reflexivity | now left].
  - rewrite Ez. destruct (Z.eqb_spec l 0) as [El|El]; simpl.
    + exists g. split; [reflexivity | now left].
    + destruct (set_lobe_returns g n l) as (g' & Hs); [congruence|].
      exists g'. split; [exact Hs|]. right. exists cs, lobes, l.
      split; [reflexivity|]. split; [reflexivity|]. split; [exact Hl|].
      split; [exact (new_lobe_list_head lobes l rest En)|]. now split.
  - exfalso. exact (new_lobe_list_returns lobes En).
Qed.

Lemma lobe_of_attr : forall g m l,
    lobe_of g m = Some l <-> exists a, node_attr g m = Some a /\ lobe a = l.
Proof.
  intros g m l. unfold lobe_of. destruct (node_attr g m) as [a|].
  - split; [intros H; inversion H; eauto | intros (a' & H1 & H2); congruence].
  - split; [discriminate | intros (a' & H1 & _); discriminate].
Qed.

(** The loop of [add_new_parent_for_lobe]. *)
Lemma new_parent_fold : forall T nodes g1,
    (forall n, In n nodes -> node_attr g1 n <> None) ->
    (forall n cs c, dget seqb T n = Some cs -> In c cs -> node_attr g1 c <> None) ->
    exists g2,
      foldM (new_parent_step T) nodes g1 = Some g2
      /\ erase_lobes g2 = erase_lobes g1
      /\ no_new_lobe g1 g2
      /\ (forall m a, node_attr g1 m = Some a -> lobe a <> 0 ->
                      node_attr g2 m = Some a)
      /\ (forall m, dget seqb T m = None -> node_attr g2 m = node_attr g1 m)
      /\ (forall m l, lobe_of g1 m = Some 0 -> lobe_of g2 m = Some l -> l <> 0 ->
            exists cs lobes,
              dget seqb T m = Some cs
              /\ mapM (lobe_of g2) cs = Some lobes
              /\ 1 < count_of lobes l).
Proof.
  intros T. induction nodes as [|n nodes IH]; intros g1 Hnodes Hch.
  - exists g1. split; [reflexivity|]. split; [reflexivity|].
    split; [apply no_new_lobe_refl|]. split; [auto|]. split; [auto|].
    intros m l H0 Hl Hne. rewrite H0 in Hl. inversion Hl. congruence.
  - destruct (node_attr g1 n) as [a|] eqn:Ea;
      [|exfalso; apply (Hnodes n); [now left | exact Ea]].
    destruct (new_parent_step_cases T g1 n a Ea (Hch n))
      as (gm & Hstep & Hcase).
    assert (Facts : erase_lobes gm = erase_lobes g1
                    /\ no_new_lobe g1 gm
                    /\ (forall m b, node_attr g1 m = Some b -> lobe b <> 0 ->
                                    node_attr gm m = Some b)
                    /\ (forall m, dget seqb T m = None ->
                                  node_attr gm m = node_attr g1 m)
                    /\ (forall m, m <> n -> node_attr gm m = node_attr g1 m)).
    { destruct Hcase as [->|(cs & lobes & l & Hz & Hcs & Hl & Hcnt & Hne & Hs)].
      - split; [reflexivity|]. split; [apply no_new_lobe_refl|]. auto.
      - destruct (set_lobe_attr g1 n l gm Hs) as (a' & Ha' & _ & _ & Hat).
        assert (Hother : forall m, m <> n -> node_attr gm m = node_attr g1 m).
        { intros m Hm. rewrite Hat.
          destruct (seqb n m) eqn:E; [|reflexivity].
          apply seqb_eq in E. congruence. }
        split; [exact (set_lobe_erase g1 n l gm Hs)|]. split; [|split; [|split]].
        + intros k Hk. destruct (set_lobe_lobes g1 n l gm k Hs Hk) as [->|Hin];
            [|now right].
          right. assert (Hin : In l lobes) by (apply count_of_pos; lia).
          destruct (mapM_In _ _ _ _ _ _ Hl Hin) as (c & Hc & Hlc).
          apply lobe_of_attr in Hlc. destruct Hlc as (ac & Hac & <-).
          exact (node_attr_lobes_in g1 c ac Hac).
        + intros m b Hb Hbz. rewrite Hother; [exact Hb|].
          intros ->. rewrite Ea in Hb. inversion Hb; subst b. contradiction.
        + intros m Hm. apply Hother. intros ->. congruence.
        + exact Hother. }
    destruct Facts as (Em & Lm & Sm & Um & Om).
    destruct (IH gm) as (g2 & Hfold & E2 & L2 & S2 & U2 & F2).
    { intros k Hk. apply (erase_lobes_attr g1 gm k Em). apply Hnodes. now right. }
    { intros k cs c Hk Hc. apply (erase_lobes_attr g1 gm c Em).
      exact (Hch k cs c Hk Hc). }
    exists g2. split; [cbn [foldM]; now rewrite Hstep|].
    split; [congruence|]. split; [exact (no_new_lobe_trans g1 gm g2 Lm L2)|].
    split; [|split].
    + intros m b Hb Hbz. apply S2; [now apply Sm | exact Hbz].
    + intros m Hm. rewrite (U2 m Hm). now apply Um.
    + intros m l H0 Hl Hne.
      destruct (lobe_of gm m) as [lm|] eqn:Elm.
      2:{ exfalso. apply lobe_of_attr in H0. destruct H0 as (b & Hb & _).
          assert (Hx : node_attr gm m <> None)
            by (apply (erase_lobes_attr g1 gm m Em); congruence).
          unfold lobe_of in Elm. destruct (node_attr gm m); [discriminate | contradiction]. }
      destruct (Z.eq_dec lm 0) as [->|Hlm]; [exact (F2 m l Elm Hl Hne)|].
      assert (Hmn : m = n).
      { destruct (string_dec m n) as [E|E]; [exact E|].
        exfalso. unfold lobe_of in Elm, H0. rewrite (Om m E) in Elm. congruence. }
      subst m.
      destruct Hcase as [->|(cs & lobes & l0 & Hz & Hcs & Hl0 & Hcnt & Hne0 & Hs)];
        [congruence|].
      destruct (set_lobe_attr g1 n l0 gm Hs) as (a' & Ha' & _ & _ & Hat).
      rewrite Ea in Ha'. inversion Ha'; subst a'.
      assert (Hgm : node_attr gm n = Some (with_lobe l0 a)).
      { rewrite Hat, seqb_refl. reflexivity. }
      assert (Hl0m : lm = l0).
      { unfold lobe_of in Elm. rewrite Hgm in Elm. now inversion Elm. }
      subst lm.
      assert (Hg2 : node_attr g2 n = Some (with_lobe l0 a)) by (now apply S2).
      assert (Hll : l = l0).
      { unfold lobe_of in Hl. rewrite Hg2 in Hl. now inversion Hl. }
      subst l.
      destruct (count_of_mapM_mono (lobe_of g1) (lobe_of g2) cs lobes l0 Hl0)
        as (lobes2 & Hl2 & Hle).
      { intros c Hc Hlc. apply lobe_of_attr in Hlc.
        destruct Hlc as (ac & Hac & Hacl). apply lobe_of_attr.
        exists ac. split; [|exact Hacl].
        apply S2; [|congruence]. apply Sm; [exact Hac | congruence]. }
      { intros c Hc Hnone.
        assert (Hx : node_attr g2 c <> None).
        { apply (erase_lobes_attr gm g2 c E2).
          apply (erase_lobes_attr g1 gm c Em). exact (Hch n cs c Hcs Hc). }
        unfold lobe_of in Hnone. destruct (node_attr g2 c); [discriminate | contradiction]. }
      exists cs, lobes2. split; [exact Hcs|]. split; [exact Hl2 | lia].
Qed.

(** X14 ([add_new_parent_for_lobe]).  On every valid tree the pass
    returns and changes nothing but lobes.  A node that is not neutral
    and a node without children keep their attributes.  A neutral node
    that the pass gives a lobe has, in the tree the pass returns, more
    than one child carrying that lobe. *)
Theorem add_new_parent_fills :
  forall g : Graph,
    valid_tree g = true ->
    exists T g',
      successors_dict g = Some T
      /\ add_new_parent_for_lobe g = Some g'
      /\ erase_lobes g' = erase_lobes g
      /\ (forall n a, node_attr g n = Some a -> lobe a <> 0 ->
                      node_attr g' n = Some a)
      /\ (forall n, dget seqb T n = None -> node_attr g' n = node_attr g n)
      /\ (forall n l, lobe_of g n = Some 0 -> lobe_of g' n = Some l -> l <> 0 ->
            exists cs lobes,
              dget seqb T n = Some cs
              /\ mapM (lobe_of g') cs = Some lobes
              /\ 1 < count_of lobes l).
Proof.
  intros g V.
  destruct (valid_tree_nodes g V) as (B & EB & _ & Hnodes & Hattr).
  pose proof (bfs_blocks_forest _ _ _ EB) as F.
  pose proof (bfs_blocks_head _ _ _ EB) as Hhead.
  destruct (new_parent_fold (successor_table B) (node_ids g) g Hattr)
    as (g' & Hfold & E' & _ & S' & U' & F').
  { intros n cs c Hn Hc. apply Hattr. apply Hnodes. right.
    apply (table_get "0" B F Hhead) in Hn. destruct Hn as (Hn & _).
    apply children_of_In. now exists n, cs. }
  exists (successor_table B), g'.
  split; [exact (successors_dict_table g B EB)|].
  split; [unfold add_new_parent_for_lobe;
          now rewrite (successors_dict_table g B EB)|].
  split; [exact E'|]. split; [exact S'|]. split; [exact U' | exact F'].
Qed.

Lemma add_new_parent_fills_witness :
  exists T g',
    successors_dict lobes_tree = Some T
    /\ add_new_parent_for_lobe lobes_tree = Some g'
    /\ erase_lobes g' = erase_lobes lobes_tree
    /\ (forall n a, node_attr lobes_tree n = Some a -> lobe a <> 0 ->
                    node_attr g' n = Some a)
    /\ (forall n, dget seqb T n = None -> node_attr g' n = node_attr lobes_tree n)
    /\ (forall n l, lobe_of lobes_tree n = Some 0 -> lobe_of g' n = Some l ->
                    l <> 0 ->
          exists cs lobes,
            dget seqb T n = Some cs
            /\ mapM (lobe_of g') cs = Some lobes
            /\ 1 < count_of lobes l).
Proof.
  apply (add_new_parent_fills lobes_tree). vm_compute. reflexivity.
Defined.

(** * The recoloring schedule of [main] on a valid tree *)

Lemma node_attr_exists : forall g n,
    In n (node_ids g) -> exists a, node_attr g n = Some a.
Proof.
  intros g n H. apply has_node_In in H. unfold has_node, dmem in H.
  unfold node_attr. destruct (dget seqb (g_node g) n) as [a|]; [eauto | discriminate].
Qed.

Lemma adjacent_lobes_returns : forall g node,
    well_formed g = true -> In node (node_ids g) ->
    exists adjacent,
      adjacent_lobes g node = Some adjacent
      /\ forall s, In s adjacent -> s <> 0 /\ In s (lobes_in g).
Proof.
  intros g node WF Hnode.
  destruct (well_formed_parts g WF) as (_ & Hrows).
  pose proof (Hrows node Hnode) as Hrow. unfold dmem in Hrow.
  unfold adjacent_lobes, neighbors, adj_row.
  destruct (dget seqb (g_adj g) node) as [row|] eqn:Er; [|discriminate].
  assert (Hnb : neighbors g node = Some (map fst row)).
  { unfold neighbors, adj_row. now rewrite Er. }
  destruct (well_formed_rows g node (map fst row) WF Hnb) as (_ & Hincl & _).
  destruct (mapM_succeeds _ _
              (fun adj => a <- node_attr g adj ;; Some (lobe a)) (map fst row))
    as (lobes & Hl).
  { intros c Hc. destruct (node_attr_exists g c (Hincl c Hc)) as (a & Ha).
    rewrite Ha. discriminate. }
  rewrite Hl. eexists. split; [reflexivity|].
  intros s Hs. unfold set_of_list in Hs.
  apply (set_union_In Z.eqb Z.eqb_eq) in Hs. destruct Hs as [[]|Hs].
  apply filter_In in Hs. destruct Hs as (Hs & Hnz).
  apply negb_true_iff in Hnz. apply Z.eqb_neq in Hnz. split; [exact Hnz|].
  destruct (mapM_In _ _ _ _ _ _ Hl Hs) as (c & Hc & Hlc).
  destruct (node_attr g c) as [a|] eqn:Ea; [|discriminate].
  inversion Hlc; subst s. exact (node_attr_lobes_in g c a Ea).
Qed.

(** The body of the loop of
    [recolor_if_all_adjacent_have_different_color] returns when the
    counters hold every non-neutral lobe of the tree. *)
Lemma adjacent_step_returns : forall g (root : zdict Z) node,
    well_formed g = true -> In node (node_ids g) ->
    (forall l, In l (lobes_in g) -> l <> 0 -> In l (map fst root)) ->
    exists g',
      adjacent_recolor_step (g, root) node = Some (g', root)
      /\ erase_lobes g' = erase_lobes g
      /\ no_new_lobe g g'.
Proof.
  intros g root node WF Hnode Hkeys.
  assert (Same : Some (g, root) = Some (g, root)
                 /\ erase_lobes g = erase_lobes g /\ no_new_lobe g g).
  { split; [reflexivity|]. split; [reflexivity | apply no_new_lobe_refl]. }
  assert (Hres : exists g' root',
             adjacent_recolor_step (g, root) node = Some (g', root')
             /\ erase_lobes g' = erase_lobes g
             /\ no_new_lobe g g').
  { unfold adjacent_recolor_step.
    destruct (node_attr_exists g node Hnode) as (a & Ha). rewrite Ha.
    destruct (Z.eqb_spec (lobe a) 0) as [Ez|Ez]; [exists g, root; exact Same|].
    destruct (adjacent_lobes_returns g node WF Hnode) as (adjacent & Hadj & Hin).
    rewrite Hadj. destruct adjacent as [|s [|s' rest]];
      [exists g, root; exact Same | | exists g, root; exact Same].
    destruct (Hin s (or_introl eq_refl)) as (Hsz & Hsl).
    destruct (Z.eqb_spec s (lobe a)) as [Es|Es]; [exists g, root; exact Same|].
    assert (Hka : In (lobe a) (map fst root)).
    { apply Hkeys; [exact (node_attr_lobes_in g node a Ha) | exact Ez]. }
    apply (dmem_In Z.eqb Z.eqb_eq) in Hka. unfold dmem in Hka.
    destruct (dget Z.eqb root (lobe a)) as [c|] eqn:Ec; [|discriminate].
    destruct (1 <? c); [|exists g, root; exact Same].
    destruct (set_lobe_returns g node s) as (g1 & Hs); [congruence|].
    rewrite Hs.
    destruct (set_lobe_attr g node s g1 Hs) as (a' & Ha' & _ & _ & Hat).
    rewrite Ha in Ha'. inversion Ha'; subst a'.
    rewrite Hat, seqb_refl. cbn [lobe with_lobe].
    assert (Hks : In s (map fst root)) by (now apply Hkeys).
    apply (dmem_In Z.eqb Z.eqb_eq) in Hks. unfold dmem in Hks.
    destruct (dget Z.eqb root s) as [c1|] eqn:Ec1; [|discriminate].
    rewrite (dget_dset Z.eqb Z.eqb_eq), Z.eqb_refl.
    eexists. eexists. split; [reflexivity|].
    split; [exact (set_lobe_erase g node s g1 Hs)|].
    intros l Hl. destruct (set_lobe_lobes g node s g1 l Hs Hl) as [->|H];
      now right. }
  destruct Hres as (g' & root' & Hstep & He & Hl).
  pose proof (adjacent_step_counters g root node g' root' Hstep) as Hr.
  subst root'. exists g'. now split.
Qed.

Lemma valid_tree_root : forall g, valid_tree g = true -> In "0" (node_ids g).
Proof.
  intros g V. destruct (valid_tree_visit g V) as (B & _ & _ & Hnodes & _).
  apply Hnodes. now left.
Qed.

(** The counters of the root hold every non-neutral lobe of the tree. *)
Lemma root_counters : forall g,
    valid_tree g = true ->
    exists all root,
      get_successor_lobes_count g = Some all
      /\ dget seqb all "0" = Some root
      /\ forall l, In l (lobes_in g) -> l <> 0 -> In l (map fst root).
Proof.
  intros g V. destruct (lobe_table g V) as (B & all & EB & Hall & ND & Hkeys & Hocc).
  destruct (valid_tree_visit g V) as (B' & EB' & NDn & Hnodes & _).
  rewrite EB in EB'. inversion EB'; subst B'. clear EB'.
  pose proof (bfs_blocks_forest _ _ _ EB) as F.
  assert (H0 : In "0" (map fst all)) by (apply Hkeys, valid_tree_root, V).
  apply (dmem_In seqb seqb_eq) in H0. unfold dmem in H0.
  destruct (dget seqb all "0") as [root|] eqn:Er; [|discriminate].
  exists all, root. split; [exact Hall|]. split; [exact Er|].
  intros l Hl Hz. apply (counts_lobes_keys g _ root l (Hocc "0" root Er)).
  split; [exact Hz|]. unfold lobes_in in Hl. apply in_map_iff in Hl.
  destruct Hl as ([m a] & Hla & Hin). simpl in Hla.
  exists m, a. split; [|split; [|exact Hla]].
  - apply (forest_nodes B m F). apply Hnodes. apply in_map_iff.
    exists (m, a). now split.
  - unfold node_attr. exact (dget_NoDup seqb seqb_eq _ _ _ NDn Hin).
Qed.

Lemma recolor_adjacent_returns : forall g,
    valid_tree g = true ->
    exists g',
      recolor_if_all_adjacent_have_different_color g = Some g'
      /\ erase_lobes g' = erase_lobes g
      /\ no_new_lobe g g'.
Proof.
  intros g V. destruct (root_counters g V) as (all & root & Hall & Hroot & Hkeys).
  assert (Fold : forall nodes gi,
             incl nodes (node_ids g) ->
             erase_lobes gi = erase_lobes g -> no_new_lobe g gi ->
             exists g',
               foldM adjacent_recolor_step nodes (gi, root) = Some (g', root)
               /\ erase_lobes g' = erase_lobes g
               /\ no_new_lobe g g').
  { induction nodes as [|n nodes IH]; intros gi Hincl Ei Li.
    - exists gi. split; [reflexivity|]. now split.
    - assert (Vi : valid_tree gi = true) by (now rewrite (valid_tree_erase g gi Ei)).
      destruct (erase_lobes_shape g gi Ei) as (_ & Hids & _).
      destruct (adjacent_step_returns gi root n (valid_tree_well_formed gi Vi))
        as (gm & Hstep & Em & Lm).
      { rewrite Hids. apply Hincl. now left. }
      { intros l Hl Hz. destruct (Li l Hl) as [H|H]; [contradiction|].
        now apply Hkeys. }
      destruct (IH gm) as (g' & Hfold & E' & L').
      { intros m Hm. apply Hincl. now right. }
      { congruence. }
      { exact (no_new_lobe_trans g gi gm Li Lm). }
      exists g'. split; [cbn [foldM]; now rewrite Hstep|]. now split. }
  destruct (Fold (node_ids g) g (incl_refl _) eq_refl (no_new_lobe_refl g))
    as (g' & Hfold & E' & L').
  exists g'. split; [|now split].
  unfold recolor_if_all_adjacent_have_different_color, recolor_adjacent_run.
  now rewrite Hall, Hroot, Hfold.
Qed.

Lemma insert_desc_In : forall e e' l,
    In e (insert_desc e' l) <-> e = e' \/ In e l.
Proof.
  intros e e'. induction l as [|x l IH]; simpl.
  - split; [intros [H|[]]; now left | intros [H|[]]; now left].
  - destruct (snd e' <? snd x); simpl; [rewrite IH|]; intuition congruence.
Qed.

Lemma sorted_desc_In : forall e l, In e (sorted_desc l) <-> In e l.
Proof.
  intros e. unfold sorted_desc. induction l as [|x l IH]; simpl; [tauto|].
  rewrite insert_desc_In, IH. intuition congruence.
Qed.

Lemma recolor_drastic_returns : forall g,
    valid_tree g = true ->
    exists g',
      recolor_entire_subtree_to_majority_at_level_4_or_5 g = Some g'
      /\ erase_lobes g' = erase_lobes g
      /\ no_new_lobe g g'.
Proof.
  intros g V. destruct (lobe_table g V) as (B & all & EB & Hall & ND & Hkeys & Hocc).
  destruct (root_counters g V) as (all' & root & Hall' & Hroot & _).
  rewrite Hall in Hall'. inversion Hall'; subst all'. clear Hall'.
  assert (Fold : forall items gi,
             incl items all ->
             erase_lobes gi = erase_lobes g -> no_new_lobe g gi ->
             exists g',
               foldM (drastic_step root) items gi = Some g'
               /\ erase_lobes g' = erase_lobes g
               /\ no_new_lobe g g').
  { induction items as [|[node sl] items IH]; intros gi Hincl Ei Li.
    - exists gi. split; [reflexivity|]. now split.
    - assert (Hitem : In (node, sl) all) by (apply Hincl; now left).
      assert (Vi : valid_tree gi = true) by (now rewrite (valid_tree_erase g gi Ei)).
      destruct (erase_lobes_shape g gi Ei) as (_ & Hids & _).
      assert (Hnode : In node (node_ids gi)).
      { rewrite Hids. apply Hkeys. apply in_map_iff. exists (node, sl). now split. }
      assert (Hstep : exists gm,
                 drastic_step root gi (node, sl) = Some gm
                 /\ erase_lobes gm = erase_lobes gi
                 /\ no_new_lobe g gm).
      { unfold drastic_step.
        destruct (1 <? length sl)%nat; [|exists gi; now split].
        destruct (node_attr_exists gi node Hnode) as (n & Hn). rewrite Hn.
        destruct (at_level_4_or_5 (level n) sl); [|exists gi; now split].
        destruct (find (keeps_every_lobe root sl) (map fst (sorted_desc sl)))
          as [new_lobe|] eqn:Ef; [|exists gi; now split].
        apply find_some in Ef. destruct Ef as (Hin & _).
        apply in_map_iff in Hin. destruct Hin as ([k v] & Hk & Hin).
        simpl in Hk. subst k. apply (proj1 (sorted_desc_In _ _)) in Hin.
        assert (Hlobe : In new_lobe (lobes_in g)).
        { pose proof (dget_NoDup seqb seqb_eq _ _ _ ND Hitem) as Hget.
          assert (Hkey : In new_lobe (map fst sl)).
          { apply in_map_iff. exists (new_lobe, v). now split. }
          apply (counts_lobes_keys g _ sl new_lobe (Hocc node sl Hget)) in Hkey.
          destruct Hkey as (_ & m & a & _ & Ha & <-).
          exact (node_attr_lobes_in g m a Ha). }
        destruct (valid_tree_nodes gi Vi) as (Bi & EBi & Hlen & Hnodes & Hattr).
        destruct (set_attribute_recursively_returns gi Bi node new_lobe EBi Hlen)
          as (gm & Hret & _).
        { intros m Hm. apply Hattr. now apply Hnodes. }
        { now apply Hnodes. }
        destruct (set_attribute_recursively_erase gi node new_lobe gm Hret)
          as (Em & Lm).
        exists gm. split; [exact Hret|]. split; [exact Em|].
        intros l Hl. destruct (Lm l Hl) as [->|H]; [now right | now apply Li]. }
      destruct Hstep as (gm & Hstep & Em & Lm).
      destruct (IH gm) as (g' & Hfold & E' & L').
      { intros y Hy. apply Hincl. now right. }
      { congruence. }
      { exact Lm. }
      exists g'. split; [cbn [foldM]; now rewrite Hstep|]. now split. }
  destruct (Fold all g (incl_refl _) eq_refl (no_new_lobe_refl g))
    as (g' & Hfold & E' & L').
  exists g'. split; [|now split].
  unfold recolor_entire_subtree_to_majority_at_level_4_or_5.
  now rewrite Hall, Hroot, Hfold.
Qed.

Lemma possibly_make_neutral_returns : forall g,
    valid_tree g = true ->
    exists g',
      possibly_make_neutral_above_level_4 g = Some g'
      /\ erase_lobes g' = erase_lobes g
      /\ no_new_lobe g g'.
Proof.
  intros g V.
  destruct (lobe_sets g V) as (B & items & EB & Hitems & ND & Hkeys & _).
  destruct (neutral_fold items g ND) as (g' & Hfold & Eg & Lg & _).
  { intros k Hk. apply Hkeys in Hk.
    destruct (node_attr_exists g k Hk) as (a & Ha). congruence. }
  exists g'. split; [|now split].
  unfold possibly_make_neutral_above_level_4. now rewrite Hitems.
Qed.

Lemma add_new_parent_returns : forall g,
    valid_tree g = true ->
    exists g',
      add_new_parent_for_lobe g = Some g'
      /\ erase_lobes g' = erase_lobes g
      /\ no_new_lobe g g'.
Proof.
  intros g V.
  destruct (valid_tree_nodes g V) as (B & EB & _ & Hnodes & Hattr).
  pose proof (bfs_blocks_forest _ _ _ EB) as F.
  pose proof (bfs_blocks_head _ _ _ EB) as Hhead.
  destruct (new_parent_fold (successor_table B) (node_ids g) g Hattr)
    as (g' & Hfold & E' & L' & _).
  { intros n cs c Hn Hc. apply Hattr. apply Hnodes. right.
    apply (table_get "0" B F Hhead) in Hn. destruct Hn as (Hn & _).
    apply children_of_In. now exists n, cs. }
  exists g'. split; [|now split].
  unfold add_new_parent_for_lobe. now rewrite (successors_dict_table g B EB).
Qed.

Lemma recolor_rounds_returns : forall k g,
    valid_tree g = true ->
    exists g',
      recolor_rounds k g = Some g'
      /\ erase_lobes g' = erase_lobes g
      /\ no_new_lobe g g'.
Proof.
  induction k as [|k IH]; intros g V.
  - exists g. split; [reflexivity|]. split; [reflexivity | apply no_new_lobe_refl].
  - destruct (recolor_adjacent_returns g V) as (g1 & H1 & E1 & L1).
    assert (V1 : valid_tree g1 = true) by (now rewrite (valid_tree_erase g g1 E1)).
    destruct (IH g1 V1) as (g' & H' & E' & L').
    exists g'. split.
    + cbn [recolor_rounds]. rewrite H1, (recolor_successors_noop g1 V1). exact H'.
    + split; [congruence | exact (no_new_lobe_trans g g1 g' L1 L')].
Qed.

(** X15 (the recoloring schedule of [main] and the five passes).  On
    every valid tree the five rounds of the two first passes followed by
    the three other passes return: no lookup fails.  The tree they return
    has the nodes, the edges and all attributes but the lobes of the tree
    they started from, so it is a valid tree, and every lobe in it is the
    neutral lobe or a lobe some node carried before. *)
Theorem recoloring_returns :
  forall g : Graph,
    valid_tree g = true ->
    exists g',
      recoloring g = Some g'
      /\ erase_lobes g' = erase_lobes g
      /\ valid_tree g' = true
      /\ forall l, In l (lobes_in g') -> l = 0 \/ In l (lobes_in g).
Proof.
  intros g V.
  destruct (recolor_rounds_returns 5 g V) as (g1 & H1 & E1 & L1).
  assert (V1 : valid_tree g1 = true) by (now rewrite (valid_tree_erase g g1 E1)).
  destruct (recolor_drastic_returns g1 V1) as (g2 & H2 & E2 & L2).
  assert (V2 : valid_tree g2 = true) by (now rewrite (valid_tree_erase g1 g2 E2)).
  destruct (possibly_make_neutral_returns g2 V2) as (g3 & H3 & E3 & L3).
  assert (V3 : valid_tree g3 = true) by (now rewrite (valid_tree_erase g2 g3 E3)).
  destruct (add_new_parent_returns g3 V3) as (g4 & H4 & E4 & L4).
  assert (V4 : valid_tree g4 = true) by (now rewrite (valid_tree_erase g3 g4 E4)).
  exists g4. split; [unfold recoloring; now rewrite H1, H2, H3|].
  split; [congruence|]. split; [exact V4|].
  exact (no_new_lobe_trans g g3 g4
           (no_new_lobe_trans g g2 g3 (no_new_lobe_trans g g1 g2 L1 L2) L3) L4).
Qed.

Lemma recoloring_returns_witness :
  exists g',
    recoloring depth_four_tree_low = Some g'
    /\ erase_lobes g' = erase_lobes depth_four_tree_low
    /\ valid_tree g' = true
    /\ forall l, In l (lobes_in g') -> l = 0 \/ In l (lobes_in depth_four_tree_low).
Proof.
  apply (recoloring_returns depth_four_tree_low). vm_compute. reflexivity.
Defined.

(** * Command-line arguments *)

Lemma skipn_nth_error : forall (A : Type) (t : list A) s a,
    nth_error t s = Some a -> skipn s t = a :: skipn (S s) t.
Proof.
  intros A. induction t as [|b t IH]; intros s a H.
  - destruct s; discriminate.
  - destruct s as [|s]; simpl in *.
    + now inversion H.
    + now apply IH.
Qed.

Lemma paths_from : forall (t : list string) k s,
    (s + k <= length t)%nat ->
    mapM (fun index => option_map mkPath (nth_error t index)) (seq s k)
    = Some (map mkPath (firstn k (skipn s t))).
Proof.
  intros t. induction k as [|k IH]; intros s H; simpl; [reflexivity|].
  destruct (nth_error t s) as [a|] eqn:Ea.
  - simpl. rewrite IH by lia. rewrite (skipn_nth_error _ t s a Ea). reflexivity.
  - apply nth_error_None in Ea. lia.
Qed.

(** X16 ([get_data_paths_from_args] in [util/util.py]).  The function
    exits when fewer than [outputs + inputs] arguments follow the program
    name; otherwise it returns exactly the first [outputs + inputs] of
    them as paths, in their order, and ignores the rest.  It never fails
    on an index. *)
Theorem get_data_paths_from_args_spec :
  forall (argv : list string) (outputs inputs : nat),
    get_data_paths_from_args argv outputs inputs
    = if (length (tl argv) <? outputs + inputs)%nat then None
      else Some (map mkPath (firstn (outputs + inputs) (tl argv))).
Proof.
  intros argv outputs inputs. unfold get_data_paths_from_args.
  destruct (Nat.ltb_spec (length (tl argv)) (outputs + inputs)) as [H|H];
    [reflexivity|].
  assert (E : forall index,
             option_map mkPath (nth_error argv (index + 1))
             = option_map mkPath (nth_error (tl argv) index)).
  { intros index. rewrite Nat.add_1_r. destruct argv as [|a t]; simpl; [|reflexivity].
    now destruct index. }
  assert (M : forall l,
             mapM (fun index => option_map mkPath (nth_error argv (index + 1))) l
             = mapM (fun index => option_map mkPath (nth_error (tl argv) index)) l).
  { induction l as [|i l IH]; simpl; [reflexivity|]. now rewrite E, IH. }
  rewrite M, (paths_from (tl argv) (outputs + inputs) 0) by lia.
  reflexivity.
Qed.

(** * More on the single passes *)

Lemma adjacent_lobes_nonzero : forall g node adjacent s,
    adjacent_lobes g node = Some adjacent -> In s adjacent -> s <> 0.
Proof.
  intros g node adjacent s H Hs. unfold adjacent_lobes in H.
  destruct (neighbors g node) as [nbrs|]; [|discriminate].
  match type of H with
  | context [mapM ?f nbrs] => destruct (mapM f nbrs) as [lobes|]
  end; [|discriminate].
  inversion H; subst adjacent. unfold set_of_list in Hs.
  apply (set_union_In Z.eqb Z.eqb_eq) in Hs. destruct Hs as [[]|Hs].
  apply filter_In in Hs. destruct Hs as (_ & Hnz).
  apply negb_true_iff in Hnz. now apply Z.eqb_neq in Hnz.
Qed.

Lemma adjacent_step_neutral : forall g (root : zdict Z) node g' root',
    adjacent_recolor_step (g, root) node = Some (g', root') ->
    erase_lobes g' = erase_lobes g
    /\ forall n, lobe_of g' n = Some 0 <-> lobe_of g n = Some 0.
Proof.
  intros g root node g' root' H.
  destruct (node_attr g node) as [a|] eqn:Ea.
  - destruct (adjacent_step_decision g root node a g' root' Ea H)
      as [(s & c & Hnz & Hadj & _ & _ & _ & Hs)|(-> & _)]; [|now split].
    assert (Hsz : s <> 0)
      by (apply (adjacent_lobes_nonzero g node [s] s Hadj); now left).
    split; [exact (set_lobe_erase g node s g' Hs)|].
    destruct (set_lobe_attr g node s g' Hs) as (a' & Ha' & _ & _ & Hat).
    rewrite Ea in Ha'. inversion Ha'; subst a'.
    intros n. unfold lobe_of. rewrite Hat.
    destruct (seqb node n) eqn:E; [|tauto].
    apply seqb_eq in E. subst n. rewrite Ea. simpl.
    split; intros H0; inversion H0; congruence.
  - unfold adjacent_recolor_step in H. rewrite Ea in H. discriminate.
Qed.

(** X17 ([recolor_if_all_adjacent_have_different_color]).  Whenever the
    pass returns it has changed nothing but lobes, and it has neither
    made a node neutral nor given a lobe to a neutral node: the neutral
    nodes of the result are those of the tree the pass began with. *)
Theorem recolor_adjacent_keeps_neutral :
  forall g g' : Graph,
    recolor_if_all_adjacent_have_different_color g = Some g' ->
    erase_lobes g' = erase_lobes g
    /\ forall n, lobe_of g' n = Some 0 <-> lobe_of g n = Some 0.
Proof.
  intros g g' H.
  unfold recolor_if_all_adjacent_have_different_color, recolor_adjacent_run in H.
  destruct (get_successor_lobes_count g) as [all|]; [|discriminate].
  destruct (dget seqb all "0") as [root|]; [|discriminate].
  destruct (foldM adjacent_recolor_step (node_ids g) (g, root))
    as [[g1 root1]|] eqn:Ef; [|discriminate].
  inversion H; subst g1. clear H.
  apply (foldM_invariant _ _
           (fun st : Graph * zdict Z =>
              erase_lobes (fst st) = erase_lobes g
              /\ forall n, lobe_of (fst st) n = Some 0 <-> lobe_of g n = Some 0)
           adjacent_recolor_step (node_ids g) (g, root) (g', root1));
    [| split; [reflexivity | tauto] | exact Ef].
  intros [ga ra] node [gb rb] (Ha & Na) Hs. simpl in *.
  destruct (adjacent_step_neutral ga ra node gb rb Hs) as (Hb & Nb).
  split; [congruence|]. intros n. rewrite Nb. apply Na.
Qed.

Lemma recolor_adjacent_keeps_neutral_witness :
  erase_lobes (force (recolor_if_all_adjacent_have_different_color two_leaf_tree))
  = erase_lobes two_leaf_tree
  /\ forall n,
      lobe_of (force (recolor_if_all_adjacent_have_different_color two_leaf_tree)) n
      = Some 0
      <-> lobe_of two_leaf_tree n = Some 0.
Proof.
  apply (recolor_adjacent_keeps_neutral two_leaf_tree).
  vm_compute. reflexivity.
Defined.

(** One step of the drastic pass leaves the tree as it is or writes a
    lobe on the subtree of a node that passed the two guards. *)
Lemma drastic_step_cases : forall root g node sl gm,
    drastic_step root g (node, sl) = Some gm ->
    gm = g
    \/ exists n new_lobe,
         node_attr g node = Some n
         /\ considered (level n) sl = true
         /\ set_attribute_recursively g node new_lobe = Some gm.
Proof.
  intros root g node sl gm H. unfold drastic_step in H. unfold considered.
  destruct (1 <? length sl)%nat; [|inversion H; now left].
  destruct (node_attr g node) as [n|]; [|discriminate].
  destruct (at_level_4_or_5 (level n) sl) eqn:El; [|inversion H; now left].
  destruct (find (keeps_every_lobe root sl) (map fst (sorted_desc sl)))
    as [new_lobe|]; [|inversion H; now left].
  right. exists n, new_lobe. split; [reflexivity|]. split; [exact El | exact H].
Qed.

(** X18 ([recolor_entire_subtree_to_majority_at_level_4_or_5]).  On a
    valid tree the drastic pass is confined to the subtrees of the nodes
    that pass its guards: a node whose attributes differ after the pass is
    such a node or one of its descendants.  The guards are read from the
    dictionaries computed when the pass begins. *)
Theorem drastic_pass_confined :
  forall g : Graph,
    valid_tree g = true ->
    exists E all g',
      bfs_edges g "0" = Some E
      /\ get_successor_lobes_count g = Some all
      /\ recolor_entire_subtree_to_majority_at_level_4_or_5 g = Some g'
      /\ forall m,
          node_attr g' m = node_attr g m
          \/ exists node sl n,
               dget seqb all node = Some sl
               /\ node_attr g node = Some n
               /\ considered (level n) sl = true
               /\ (m = node \/ descendant E node m).
Proof.
  intros g V. destruct (lobe_table g V) as (B & all & EB & Hall & ND & Hkeys & _).
  destruct (recolor_drastic_returns g V) as (g' & Hret & _).
  pose proof Hret as Hrun.
  unfold recolor_entire_subtree_to_majority_at_level_4_or_5 in Hrun.
  rewrite Hall in Hrun.
  destruct (dget seqb all "0") as [root|]; [|discriminate].
  exists (edges_of B), all, g'.
  split; [unfold bfs_edges; now rewrite EB|]. split; [exact Hall|].
  split; [exact Hret|].
  assert (Fold : forall items gi gf,
             incl items all ->
             erase_lobes gi = erase_lobes g ->
             foldM (drastic_step root) items gi = Some gf ->
             forall m,
               node_attr gf m = node_attr gi m
               \/ exists node sl n,
                    dget seqb all node = Some sl
                    /\ node_attr g node = Some n
                    /\ considered (level n) sl = true
                    /\ (m = node \/ descendant (edges_of B) node m)).
  { induction items as [|[node sl] items IH]; intros gi gf Hincl Ei Hf m.
    - simpl in Hf. inversion Hf. now left.
    - cbn [foldM] in Hf.
      destruct (drastic_step root gi (node, sl)) as [gm|] eqn:Es; [|discriminate].
      assert (Hitem : In (node, sl) all) by (apply Hincl; now left).
      assert (Hrest : incl items all) by (intros y Hy; apply Hincl; now right).
      destruct (drastic_step_cases root gi node sl gm Es)
        as [->|(n & new_lobe & Hn & Hcons & Hset)];
        [exact (IH gi gf Hrest Ei Hf m)|].
      assert (Vi : valid_tree gi = true) by (now rewrite (valid_tree_erase g gi Ei)).
      destruct (erase_lobes_shape g gi Ei) as (Hadj & Hids & _).
      destruct (valid_tree_nodes gi Vi) as (Bi & EBi & Hlen & Hnodes & Hattr).
      rewrite (bfs_blocks_adj g gi "0" Hadj), EB in EBi.
      inversion EBi; subst Bi. clear EBi.
      assert (EBi : bfs_blocks gi "0" = Some B)
        by (now rewrite (bfs_blocks_adj g gi "0" Hadj)).
      assert (Hnode : In node (node_ids gi)).
      { rewrite Hids. apply Hkeys. apply in_map_iff. exists (node, sl). now split. }
      destruct (set_attribute_recursively_returns gi B node new_lobe EBi Hlen)
        as (gm' & Hret' & (_ & _ & Hp)).
      { intros k Hk. apply Hattr. now apply Hnodes. }
      { now apply Hnodes. }
      rewrite Hset in Hret'. inversion Hret'; subst gm'. clear Hret'.
      pose proof (proj1 (set_attribute_recursively_erase gi node new_lobe gm Hset))
        as Em.
      destruct (IH gm gf Hrest ltac:(congruence) Hf m) as [Hsame|Hin];
        [|right; exact Hin].
      rewrite Hsame, Hp.
      destruct (mem seqb m (node :: desc_in B node)) eqn:Emem; [|now left].
      right. apply mem_seqb_In in Emem.
      destruct (node_attr_exists g node) as (n0 & Hn0).
      { rewrite <- Hids. exact Hnode. }
      exists node, sl, n0.
      split; [exact (dget_NoDup seqb seqb_eq _ _ _ ND Hitem)|].
      split; [exact Hn0|]. split.
      + rewrite <- (erase_lobes_level g gi node n0 n Ei Hn0 Hn). exact Hcons.
      + destruct Emem as [Emem|Emem]; [left; congruence|].
        right. now apply desc_in_sound. }
  exact (Fold all g g' (incl_refl _) eq_refl Hrun).
Qed.

Lemma drastic_pass_confined_witness :
  exists E all g',
    bfs_edges depth_four_tree_low "0" = Some E
    /\ get_successor_lobes_count depth_four_tree_low = Some all
    /\ recolor_entire_subtree_to_majority_at_level_4_or_5 depth_four_tree_low
       = Some g'
    /\ forall m,
        node_attr g' m = node_attr depth_four_tree_low m
        \/ exists node sl n,
             dget seqb all node = Some sl
             /\ node_attr depth_four_tree_low node = Some n
             /\ considered (level n) sl = true
             /\ (m = node \/ descendant E node m).
Proof.
  apply (drastic_pass_confined depth_four_tree_low). vm_compute. reflexivity.
Defined.

(** * Recomputing the descendant counts twice *)

Lemma valid_tree_shape : forall g g',
    g_adj g' = g_adj g -> node_ids g' = node_ids g ->
    valid_tree g' = valid_tree g.
Proof.
  intros g g' Ha Hi.
  assert (Hlen : number_of_nodes g' = number_of_nodes g).
  { unfold number_of_nodes. rewrite <- (length_map fst (g_node g')).
    rewrite <- (length_map fst (g_node g)). fold (node_ids g') (node_ids g).
    now rewrite Hi. }
  assert (Hhas : forall n, has_node g' n = has_node g n).
  { intros n. destruct (has_node g n) eqn:E.
    - apply has_node_In. rewrite Hi. now apply has_node_In.
    - destruct (has_node g' n) eqn:E'; [|reflexivity].
      apply has_node_In in E'. rewrite Hi in E'. apply has_node_In in E'.
      congruence. }
  unfold valid_tree, well_formed, number_of_edges, is_connected, bfs_edges.
  rewrite (bfs_blocks_adj g g' "0" Ha), Hlen, Ha, Hi.
  f_equal. f_equal. f_equal.
  apply forallb_eq. intros kr. rewrite Hhas. f_equal.
  apply forallb_eq. intros n. apply Hhas.
Qed.

(** Two dictionaries with the same keys in the same order and the same
    values are the same list. *)
Lemma dict_ext : forall (V : Type) (d1 d2 : sdict V),
    map fst d1 = map fst d2 -> NoDup (map fst d1) ->
    (forall k, dget seqb d1 k = dget seqb d2 k) -> d1 = d2.
Proof.
  intros V. induction d1 as [|[k1 v1] d1 IH]; intros [|[k2 v2] d2] Hk ND Hget;
    simpl in Hk; try discriminate; [reflexivity|].
  injection Hk as Hk1 Hk2. subst k2. simpl in ND.
  inversion ND as [|? ? Hn ND']; subst.
  pose proof (Hget k1) as H1. simpl in H1. rewrite seqb_refl in H1.
  inversion H1; subst v2. f_equal. apply IH; [exact Hk2 | exact ND'|].
  intros k. specialize (Hget k). simpl in Hget.
  destruct (seqb k1 k) eqn:E; [|exact Hget].
  apply seqb_eq in E. subst k.
  assert (N1 : dget seqb d1 k1 = None) by (now apply (dget_None seqb seqb_eq)).
  assert (N2 : dget seqb d2 k1 = None)
    by (apply (dget_None seqb seqb_eq); now rewrite <- Hk2).
  now rewrite N1, N2.
Qed.

Lemma assign_fold_adj : forall (l : sdict Z) g g',
    foldM (fun g1 (item : string * Z) =>
             set_successor_count g1 (fst item) (snd item)) l g = Some g' ->
    g_adj g' = g_adj g.
Proof.
  intros l g g' H.
  apply (foldM_invariant _ _ (fun ga : Graph => g_adj ga = g_adj g)
           (fun g1 (item : string * Z) =>
              set_successor_count g1 (fst item) (snd item)) l g g');
    [| reflexivity | exact H].
  intros ga item gb Ha Hs.
  destruct (set_successor_count_attr ga (fst item) (snd item) gb Hs) as (_ & Hb & _).
  congruence.
Qed.

(** The counts [assign_children_count] writes depend on the edges only. *)
Lemma assign_children_count_table : forall g,
    valid_tree g = true ->
    exists all,
      NoDup (map fst all)
      /\ (forall k, In k (map fst all) -> In k (node_ids g))
      /\ forall g2,
          g_adj g2 = g_adj g ->
          assign_children_count g2
          = foldM (fun g1 (item : string * Z) =>
                     set_successor_count g1 (fst item) (snd item)) all g2.
Proof.
  intros g V.
  destruct (valid_tree_visit g V) as (B & EB & ND & Hnodes & Hlen).
  pose proof (bfs_blocks_forest _ _ _ EB) as F.
  pose proof (bfs_blocks_head _ _ _ EB) as Hhead.
  destruct (successor_count_rec_correct B F Hhead (S (length (g_adj g))) [] B "0" [])
    as (all & Hcall & Hrec1 & Hrec2 & Hrec3); [reflexivity | lia | simpl; tauto|].
  exists all. split; [apply Hrec3; constructor|]. split.
  - intros k Hk. apply Hnodes. apply (forest_nodes B k F).
    destruct (in_dec string_dec k ("0" :: desc_in B "0")) as [H|H]; [exact H|].
    exfalso. specialize (Hrec2 k H). simpl in Hrec2.
    apply (dget_None seqb seqb_eq) in Hrec2. contradiction.
  - intros g2 Ha. unfold assign_children_count.
    rewrite (successors_dict_adj g g2 Ha), (successors_dict_table g B EB), Ha.
    rewrite Hcall. reflexivity.
Qed.

(** X19 ([assign_children_count]).  On a valid tree the recomputation
    changes nothing but [successor_count]: nodes, edges, coordinates,
    lobes and levels stay.  Running it again on its own result returns
    that result unchanged. *)
Theorem assign_children_count_idempotent :
  forall g : Graph,
    valid_tree g = true ->
    exists g',
      assign_children_count g = Some g'
      /\ assign_children_count g' = Some g'
      /\ g_adj g' = g_adj g
      /\ node_ids g' = node_ids g
      /\ forall n a,
          node_attr g n = Some a ->
          exists a',
            node_attr g' n = Some a'
            /\ x a' = x a /\ y a' = y a /\ z a' = z a
            /\ lobe a' = lobe a /\ level a' = level a.
Proof.
  intros g V. destruct (assign_children_count_table g V) as (all & ND & Hkeys & Htab).
  destruct (valid_tree_visit g V) as (_ & _ & NDn & _).
  destruct (assign_fold all g ND) as (g' & Hfold & Hids & Hattr).
  { intros k Hk. apply has_node_In. now apply Hkeys. }
  pose proof (assign_fold_adj all g g' Hfold) as Hadj.
  destruct (assign_fold all g' ND) as (g'' & Hfold' & Hids' & Hattr').
  { intros k Hk. apply has_node_In. rewrite Hids. now apply Hkeys. }
  pose proof (assign_fold_adj all g' g'' Hfold') as Hadj'.
  assert (Hsame : g'' = g').
  { destruct g'' as [n2 a2], g' as [n1 a1]. simpl in *. subst a2. f_equal.
    apply dict_ext.
    - exact Hids'.
    - unfold node_ids in Hids', Hids. simpl in Hids', Hids.
      rewrite Hids', Hids. exact NDn.
    - intros k. unfold node_attr in Hattr', Hattr. simpl in Hattr', Hattr.
      rewrite Hattr', Hattr.
      destruct (dget seqb (g_node g) k) as [a|]; simpl; [|reflexivity].
      destruct (dget seqb all k); reflexivity. }
  exists g'. split; [rewrite (Htab g eq_refl); exact Hfold|].
  split; [rewrite (Htab g' Hadj), Hfold'; now rewrite Hsame|].
  split; [exact Hadj|]. split; [exact Hids|].
  intros n a Ha. rewrite Hattr, Ha. simpl. eexists.
  split; [reflexivity|]. repeat split.
Qed.

Lemma assign_children_count_idempotent_witness :
  exists g',
    assign_children_count deep_tree = Some g'
    /\ assign_children_count g' = Some g'
    /\ g_adj g' = g_adj deep_tree
    /\ node_ids g' = node_ids deep_tree
    /\ forall n a,
        node_attr deep_tree n = Some a ->
        exists a',
          node_attr g' n = Some a'
          /\ x a' = x a /\ y a' = y a /\ z a' = z a
          /\ lobe a' = lobe a /\ level a' = level a.
Proof.
  apply (assign_children_count_idempotent deep_tree). vm_compute. reflexivity.
Defined.

(** * The shape of the tree the removal loop ends with *)

Lemma straighten_fold_none : forall preds L ga ra ca gb cb,
    foldM (straighten_step preds) L (ga, ra, ca) = Some (gb, [], cb) ->
    ra = [] /\ forall n s, In (n, s) L -> In n ca.
Proof.
  intros preds. induction L as [|[n s] L IH]; intros ga ra ca gb cb H; simpl in H.
  - inversion H; subst. split; [reflexivity | intros ? ? []].
  - destruct (mem seqb n ca) eqn:Em.
    + destruct (IH ga ra ca gb cb H) as (Hr & Hall). split; [exact Hr|].
      intros n' s' [Hin|Hin]; [|exact (Hall n' s' Hin)].
      inversion Hin; subst. now apply (mem_In seqb seqb_eq).
    + destruct (dget seqb preds n) as [p|]; [|discriminate].
      destruct (merge_edges ga p n s) as [gm|]; [|discriminate].
      destruct (IH _ _ _ _ _ H) as (Hr & _).
      apply app_eq_nil in Hr. destruct Hr; discriminate.
Qed.

Lemma merge_close_fold_none : forall g T E ra ma ca mb cb,
    foldM (merge_close_step g T) E (ra, ma, ca) = Some ([], mb, cb) ->
    ra = [] /\ cb = ca.
Proof.
  intros g T. induction E as [|[p n] E IH]; intros ra ma ca mb cb H; simpl in H.
  - inversion H; subst. now split.
  - destruct (mem seqb n ca); [exact (IH _ _ _ _ _ H)|].
    destruct (edge_attr g p n) as [curr|]; [|discriminate].
    destruct (is_close curr) as [[|]|]; [| |discriminate].
    + destruct (IH _ _ _ _ _ H) as (Hr & _).
      apply app_eq_nil in Hr. destruct Hr; discriminate.
    + exact (IH _ _ _ _ _ H).
Qed.

Lemma remove_nodes_same : forall g rem,
    remove_nodes g rem = Some g -> rem = [].
Proof.
  intros g rem H. exact (proj1 (remove_nodes_none g rem g H eq_refl)).
Qed.

Lemma single_child_block : forall (cs : list string) s,
    NoDup cs -> In s cs -> (forall c, In c cs -> c = s) -> cs = [s].
Proof.
  intros [|c [|c' cs]] s ND Hin Hall.
  - contradiction.
  - destruct Hin as [->|[]]. reflexivity.
  - exfalso. inversion ND as [|? ? Hc _]; subst. apply Hc.
    rewrite (Hall c (or_introl eq_refl)).
    rewrite (Hall c' (or_intror (or_introl eq_refl))). now left.
Qed.

Lemma block_children_NoDup : forall B n cs,
    NoDup (children_of B) -> In (n, cs) B -> NoDup cs.
Proof.
  induction B as [|[m ds] B IH]; intros n cs ND Hin; [contradiction|].
  change (children_of ((m, ds) :: B)) with (ds ++ children_of B) in ND.
  destruct Hin as [Hin|Hin].
  - inversion Hin; subst. exact (NoDup_app_remove_r _ _ ND).
  - apply (IH n cs); [exact (NoDup_app_remove_l _ _ ND) | exact Hin].
Qed.

(** X20 (the removal loop of [main]).  In the tree the loop ends with,
    read along the search from "0": every edge into a childless node
    holds at least six spaces in [group_sizes]; the root is the only node
    that may have exactly one child; every edge has samples that parse,
    and fails the closeness test; and every node within three levels of
    the root other than the root has a child. *)
Theorem removal_loop_normal_form :
  forall (fuel : nat) (g g' : Graph) (E : list (string * string)),
    removal_loop fuel g = Finished g' ->
    bfs_edges g' "0" = Some E ->
    (forall p c a, In (p, c) E -> (forall d, ~ In (c, d) E) ->
                   edge_attr g' p c = Some a ->
                   6 <= count_spaces (group_sizes a))
    /\ (forall n s, (forall c, In (n, c) E <-> c = s) -> n = "0")
    /\ (forall p c, In (p, c) E ->
          exists a nums,
            edge_attr g' p c = Some a
            /\ samples (group_sizes a) = Some nums
            /\ nums <> []
            /\ is_close a = Some false)
    /\ (forall k n, (k <= 3)%nat -> at_depth E k n ->
                    n = "0" \/ exists c, In (n, c) E).
Proof.
  intros fuel g g' E Hloop HE.
  destruct (removal_loop_stable fuel g g' Hloop) as (H1 & H2 & H3 & H4 & _).
  destruct (bfs_edges_blocks g' E HE) as (B & EB & ->).
  pose proof (bfs_blocks_forest _ _ _ EB) as F.
  pose proof (bfs_blocks_head _ _ _ EB) as Hhead.
  pose proof (forest_source_not_child _ _ F) as Hroot.
  pose proof (forest_NoDup_children _ _ F) as NDc.
  assert (Hchild0 : forall p c, In (p, c) (edges_of B) -> c <> "0").
  { intros p c Hin ->. apply Hroot. rewrite <- edges_of_children.
    apply in_map_iff. exists (p, "0"). now split. }
  split; [|split; [|split]].
  - intros p c a Hin Hleaf Ha.
    unfold remove_minor_edges in H1.
    destruct (minor_edge_nodes g') as [rem|] eqn:Em; [|discriminate].
    apply remove_nodes_same in H1. subst rem.
    unfold minor_edge_nodes in Em.
    rewrite (bfs_successors_table g' B EB), HE in Em.
    destruct (Z_lt_le_dec (count_spaces (group_sizes a)) 6) as [Hlt|Hge];
      [|exact Hge].
    exfalso. apply (proj2 (minor_edge_fold _ _ _ _ _ Em c)).
    right. exists p, a. split; [exact Hin|]. split; [|now split].
    apply (mem_not_In seqb seqb_eq). rewrite set_of_list_In.
    rewrite <- (dmem_In seqb seqb_eq), (table_mem "0" B F Hhead).
    intros [H0|(d & Hd)]; [exact (Hchild0 p c Hin H0) | exact (Hleaf d Hd)].
  - intros n s Hone.
    rewrite straighten_edges_plan in H2.
    destruct (straighten_plan g') as [[[g1 rem] cant]|] eqn:Ep; [|discriminate].
    destruct (straighten_plan_facts g' B g1 rem cant EB Ep) as (_ & Hn & _).
    assert (Hc : number_of_nodes g' = number_of_nodes g1)
      by (unfold number_of_nodes; now rewrite Hn).
    destruct (remove_nodes_none g1 rem g' H2 Hc) as (-> & _).
    unfold straighten_plan in Ep.
    destruct (predecessors_dict g') as [preds|]; [|discriminate].
    rewrite (bfs_successors_table g' B EB) in Ep.
    destruct (straighten_fold_none _ _ _ _ _ _ _ Ep) as (_ & Hall).
    assert (Hin : In (n, s) (edges_of B)) by (now apply Hone).
    apply edges_of_In in Hin. destruct Hin as (cs & Hb & Hs).
    assert (Hcs : cs = [s]).
    { apply single_child_block; [exact (block_children_NoDup B n cs NDc Hb) | exact Hs|].
      intros c Hc'. apply Hone. apply edges_of_In. now exists cs. }
    subst cs.
    assert (HT : In (n, [s]) (successor_table B)).
    { apply (dget_In seqb seqb_eq). apply (table_get "0" B F Hhead).
      split; [exact Hb|]. left. discriminate. }
    apply only_single_successor_In in HT.
    destruct (Hall n s HT) as [H0|[]]. now symmetry.
  - intros p c Hin.
    unfold merge_close_nodes in H3.
    destruct (merge_close_plan g') as [[[rem merges] cant]|] eqn:Ep; [|discriminate].
    match type of H3 with
    | context [foldM ?f ?l ?a] => destruct (foldM f l a) as [g1|] eqn:Ef
    end; [|discriminate].
    assert (Hn : g_node g1 = g_node g').
    { apply (foldM_invariant _ _ (fun ga : Graph => g_node ga = g_node g')
               (fun g1 (m : string * string * string) =>
                  let '(p, n, s) := m in merge_edges g1 p n s)
               merges g' g1); [| reflexivity | exact Ef].
      intros ga [[p0 n0] s0] gb Ha Hm. apply merge_edges_nodes in Hm. congruence. }
    assert (Hc : number_of_nodes g' = number_of_nodes g1)
      by (unfold number_of_nodes; now rewrite Hn).
    destruct (remove_nodes_none g1 rem g' H3 Hc) as (-> & _).
    unfold merge_close_plan in Ep.
    rewrite (successors_dict_table g' B EB), HE in Ep.
    destruct (merge_close_fold_none _ _ _ _ _ _ _ _ Ep) as (_ & ->).
    destruct (merge_close_fold_examines g' (successor_table B) (edges_of B)
                ltac:(now rewrite edges_of_children)
                (edges_of B) [] [] [] ["0"] [] merges ["0"] eq_refl
                ltac:(intros ? [])
                ltac:(intros ? ? [])
                Ep p c Hin)
      as (a & nums & b & Ha & Hs & Hne & Hb & Hiff).
    { intros [H0|[]]. exact (Hchild0 p c Hin (eq_sym H0)). }
    exists a, nums. split; [exact Ha|]. split; [exact Hs|]. split; [exact Hne|].
    destruct b; [|exact Hb]. exfalso. now apply (proj1 Hiff).
  - intros k n Hk Hd.
    unfold remove_children_without_children in H4.
    destruct (childless_nodes g') as [rem|] eqn:Ec; [|discriminate].
    apply remove_nodes_same in H4. subst rem.
    unfold childless_nodes in Ec.
    rewrite (successors_dict_table g' B EB) in Ec. inversion Ec as [Hf].
    destruct (string_dec n "0") as [H0|H0]; [now left|]. right.
    destruct (find (fun e : string * string => seqb (fst e) n) (edges_of B))
      as [[n' c]|] eqn:Efind.
    + apply find_some in Efind. destruct Efind as (Hin & Hn).
      simpl in Hn. apply seqb_eq in Hn. subst n'. now exists c.
    + exfalso.
      assert (Hin : In n (filter
                            (fun adj => negb (dmem seqb (successor_table B) adj))
                            (nodes_to_check (successor_table B)))).
      { apply (childless_filter B F Hhead). split; [now exists k|].
        split; [exact H0|]. intros c Hc.
        pose proof (find_none _ _ Efind (n, c) Hc) as Hx. simpl in Hx.
        rewrite seqb_refl in Hx. discriminate. }
      rewrite Hf in Hin. exact Hin.
Qed.

Lemma removal_loop_normal_form_witness :
  (forall p c a,
      In (p, c) (match bfs_edges stable_tree "0" with Some E => E | None => [] end) ->
      (forall d, ~ In (c, d)
                   (match bfs_edges stable_tree "0" with Some E => E | None => [] end)) ->
      edge_attr stable_tree p c = Some a ->
      6 <= count_spaces (group_sizes a))
  /\ (forall n s,
         (forall c,
             In (n, c)
               (match bfs_edges stable_tree "0" with Some E => E | None => [] end)
             <-> c = s) ->
         n = "0")
  /\ (forall p c,
         In (p, c) (match bfs_edges stable_tree "0" with Some E => E | None => [] end) ->
         exists a nums,
           edge_attr stable_tree p c = Some a
           /\ samples (group_sizes a) = Some nums
           /\ nums <> []
           /\ is_close a = Some false)
  /\ (forall k n, (k <= 3)%nat ->
         at_depth (match bfs_edges stable_tree "0" with Some E => E | None => [] end)
           k n ->
         n = "0"
         \/ exists c,
              In (n, c)
                (match bfs_edges stable_tree "0" with Some E => E | None => [] end)).
Proof.
  apply (removal_loop_normal_form 20 nearly_stable_tree stable_tree);
    vm_compute; reflexivity.
Defined.

(** * The closeness test and the order of the samples *)

Lemma fold_add_shift : forall l a, fold_left Z.add l a = a + fold_left Z.add l 0.
Proof.
  induction l as [|b l IH]; intros a; simpl; [lia|].
  rewrite (IH (a + b)), (IH b). lia.
Qed.

Lemma sum_Z_perm : forall l1 l2, Permutation l1 l2 -> sum_Z l1 = sum_Z l2.
Proof.
  unfold sum_Z. intros l1 l2 P.
  induction P as [|a l l' P IHP|a b l|l l' l'' P1 IH1 P2 IH2]; simpl.
  - reflexivity.
  - rewrite (fold_add_shift l a), (fold_add_shift l' a). now rewrite IHP.
  - f_equal. lia.
  - congruence.
Qed.

(** X21 ([merge_close_nodes], the test on one edge).  The closeness test
    reads the samples of an edge through their sum and their number only:
    two edges of the same weight whose samples are the same up to their
    order get the same answer. *)
Theorem is_close_order :
  forall (w : float) (s1 s2 : string) (l1 l2 : list Z),
    samples s1 = Some l1 -> samples s2 = Some l2 ->
    Permutation l1 l2 ->
    is_close (mkEdge w s1) = is_close (mkEdge w s2).
Proof.
  intros w s1 s2 l1 l2 H1 H2 P. unfold is_close. simpl.
  rewrite H1, H2, (sum_Z_perm l1 l2 P), (Permutation_length P). reflexivity.
Qed.

Lemma is_close_order_witness :
  is_close (mkEdge 3%float "10 12 9") = is_close (mkEdge 3%float "9 10 12").
Proof.
  apply (is_close_order 3%float "10 12 9" "9 10 12" [10; 12; 9] [9; 10; 12]).
  - vm_compute. reflexivity.
  - vm_compute. reflexivity.
  - apply Permutation_sym. apply (Permutation_cons_app [10; 12] [] 9).
    reflexivity.
Defined.

(** * What two of the passes never do *)

(** X22 ([recolor_if_successors_all_different_color]).  The pass is the
    identity: whenever it returns, it returns the tree it was given, and
    on every valid tree it returns.  The set it reads for a non-neutral
    node always holds the node's own lobe, so the test
    [curr_lobe not in successor_lobes] never holds. *)
Theorem recolor_successors_is_identity :
  (forall g g' : Graph,
      recolor_if_successors_all_different_color g = Some g' -> g' = g)
  /\ (forall g : Graph,
         valid_tree g = true ->
         recolor_if_successors_all_different_color g = Some g).
Proof.
  split.
  - exact recolor_successors_identity.
  - exact recolor_successors_noop.
Qed.

(** X23 ([recolor_if_all_adjacent_have_different_color]).  The dictionary
    [root_successors] the pass reads its occurrence test from is the same
    at the end of the pass as at its beginning, whatever the pass has
    recolored in between. *)
Theorem recolor_adjacent_counters_constant :
  forall (g : Graph) (all : sdict (zdict Z)) (root : zdict Z)
         (g' : Graph) (root' : zdict Z),
    get_successor_lobes_count g = Some all ->
    dget seqb all "0" = Some root ->
    recolor_adjacent_run g = Some (g', root') ->
    root' = root.
Proof.
  intros g all root g' root' Hall Hroot H. unfold recolor_adjacent_run in H.
  rewrite Hall, Hroot in H.
  apply (foldM_invariant _ _
           (fun st : Graph * zdict Z => snd st = root)
           adjacent_recolor_step (node_ids g) (g, root) (g', root'));
    [| reflexivity | exact H].
  intros [ga ra] node [gb rb] Ha Hs. simpl in *. subst ra.
  exact (adjacent_step_counters ga root node gb rb Hs).
Qed.

Lemma recolor_adjacent_counters_constant_witness :
  match recolor_adjacent_run two_leaf_tree with
  | Some (_, root') => root'
  | None => []
  end = [(1, 2); (2, 1)].
Proof.
  apply (recolor_adjacent_counters_constant two_leaf_tree
           [("5", [(1, 1)]); ("6", [(1, 1)]); ("4", [(1, 2); (2, 1)]);
            ("3", [(1, 2); (2, 1)]); ("2", [(1, 2); (2, 1)]);
            ("1", [(1, 2); (2, 1)]); ("0", [(1, 2); (2, 1)])]
           [(1, 2); (2, 1)]
           (force (recolor_if_all_adjacent_have_different_color two_leaf_tree))
           (match recolor_adjacent_run two_leaf_tree with
            | Some (_, root') => root'
            | None => []
            end));
    vm_compute; reflexivity.
Defined.

(** * Close-node merging reconnects the children *)

Lemma merges_fold_edges : forall merges ga gb,
    foldM (fun g1 (m : string * string * string) =>
             let '(p, n, s) := m in merge_edges g1 p n s) merges ga = Some gb ->
    (forall u v, edge_attr ga u v <> None -> edge_attr gb u v <> None)
    /\ forall p n s, In (p, n, s) merges -> edge_attr gb p s <> None.
Proof.
  induction merges as [|[[p0 n0] s0] merges IH]; intros ga gb H; simpl in H.
  - inversion H; subst. split; [auto | intros ? ? ? []].
  - destruct (merge_edges ga p0 n0 s0) as [gm|] eqn:Em; [|discriminate].
    destruct (merge_edges_creates_fact ga p0 n0 s0 gm Em) as (_ & Hps & Hmono).
    destruct (IH gm gb H) as (Hmono2 & Hall).
    split; [intros u v Huv; now apply Hmono2, Hmono|].
    intros p n s [Hin|Hin]; [|exact (Hall p n s Hin)].
    inversion Hin; subst. now apply Hmono2.
Qed.

(** X24 ([merge_close_nodes]).  When a pass of close-node merging
    returns, it has lowered the node count by the number of nodes it
    collected, and for every removed node the parent and the children the
    node had in the search tree are all kept and the parent is adjacent to
    each of these children in the tree the pass returns. *)
Theorem merge_close_reconnects :
  forall (g : Graph) (E : list (string * string)) (rem : list string)
         (merges : list (string * string * string)) (cant : list string)
         (g' : Graph),
    bfs_edges g "0" = Some E ->
    merge_close_plan g = Some (rem, merges, cant) ->
    merge_close_nodes g = Some g' ->
    (number_of_nodes g' + length rem = number_of_nodes g)%nat
    /\ forall n p s, In n rem -> In (p, n) E -> In (n, s) E ->
                     ~ In p rem /\ ~ In s rem /\ edge_attr g' p s <> None.
Proof.
  intros g E rem merges cant g' HE Hplan H.
  destruct (bfs_edges_blocks g E HE) as (B & EB & ->).
  pose proof (bfs_blocks_forest _ _ _ EB) as F.
  destruct (merge_close_plan_invariant g _ Hplan) as (E' & HE' & Hinv).
  rewrite HE in HE'. inversion HE'; subst E'. clear HE'.
  destruct Hinv as (_ & _ & _ & Hkeep & Hmerge).
  unfold merge_close_nodes in H. rewrite Hplan in H.
  match type of H with
  | context [foldM ?f ?l ?a] => destruct (foldM f l a) as [g1|] eqn:Ef
  end; [|discriminate].
  assert (Hn : g_node g1 = g_node g).
  { apply (foldM_invariant _ _ (fun ga : Graph => g_node ga = g_node g)
             (fun g1 (m : string * string * string) =>
                let '(p, n, s) := m in merge_edges g1 p n s)
             merges g g1); [| reflexivity | exact Ef].
    intros ga [[p0 n0] s0] gb Ha Hm. apply merge_edges_nodes in Hm. congruence. }
  destruct (merges_fold_edges merges g g1 Ef) as (_ & Hedges).
  split.
  - pose proof (remove_nodes_count rem g1 g' H) as Hc.
    unfold number_of_nodes in *. now rewrite <- Hn.
  - intros n p s Hin Hpn Hns.
    assert (Hp : ~ In p rem).
    { intros Hprem. exact (Hkeep p n Hprem Hpn Hin). }
    assert (Hs : ~ In s rem) by (exact (Hkeep n s Hin Hns)).
    split; [exact Hp|]. split; [exact Hs|].
    destruct (Hmerge n s Hin Hns) as (p' & Hp'n & Hm).
    assert (p' = p) by (exact (forest_parent_unique "0" B F p' p n Hp'n Hpn)).
    subst p'.
    rewrite (remove_nodes_edges rem g1 g' p s H Hp Hs).
    exact (Hedges p n s Hm).
Qed.

Lemma merge_close_reconnects_witness :
  (number_of_nodes (force (merge_close_nodes close_chain)) + length ["1"]
   = number_of_nodes close_chain)%nat
  /\ forall n p s,
      In n ["1"] -> In (p, n) [("0", "1"); ("1", "2")] ->
      In (n, s) [("0", "1"); ("1", "2")] ->
      ~ In p ["1"] /\ ~ In s ["1"]
      /\ edge_attr (force (merge_close_nodes close_chain)) p s <> None.
Proof.
  apply (merge_close_reconnects close_chain [("0", "1"); ("1", "2")]
           ["1"] [("0", "1", "2")] ["0"; "2"]
           (force (merge_close_nodes close_chain)));
    vm_compute; reflexivity.
Defined.

(** * The drastic pass, node by node *)

Lemma descendant_trans : forall E a b c,
    descendant E a b -> descendant E b c -> descendant E a c.
Proof.
  intros E a b c H. induction H as [n d H|n d e H _ IH]; intros Hc.
  - exact (desc_below E n d c H Hc).
  - exact (desc_below E n d c H (IH Hc)).
Qed.

(** The last edge of a path down to [m]. *)
Lemma descendant_last : forall E a m,
    descendant E a m ->
    exists p, In (p, m) E /\ (a = p \/ descendant E a p).
Proof.
  intros E a m H. induction H as [n c H|n c d H _ IH].
  - exists n. split; [exact H | now left].
  - destruct IH as (p & Hp & [<-|Hd]).
    + exists c. split; [exact Hp|]. right. now apply desc_child.
    + exists p. split; [exact Hp|]. right. exact (desc_below E n c p H Hd).
Qed.

(** Two nodes above the same node lie one above the other. *)
Lemma descendant_chain : forall B a m,
    is_forest "0" B ->
    descendant (edges_of B) a m ->
    forall b, descendant (edges_of B) b m ->
    a = b \/ descendant (edges_of B) a b \/ descendant (edges_of B) b a.
Proof.
  intros B a m F H. induction H as [n c H|n c d H _ IH]; intros b Hb.
  - destruct (descendant_last _ b c Hb) as (p & Hp & Hbp).
    assert (p = n) by (exact (forest_parent_unique "0" B F p n c Hp H)).
    subst p. destruct Hbp as [->|Hd]; [now left | right; now right].
  - destruct (IH b Hb) as [<-|[Hd|Hd]].
    + right. left. now apply desc_child.
    + right. left. exact (desc_below _ n c b H Hd).
    + destruct (descendant_last _ b c Hd) as (p & Hp & Hbp).
      assert (p = n) by (exact (forest_parent_unique "0" B F p n c Hp H)).
      subst p. destruct Hbp as [->|Hd']; [now left | right; now right].
Qed.

Lemma subtrees_meet : forall B a b m,
    is_forest "0" B ->
    In m (a :: desc_in B a) -> In m (b :: desc_in B b) -> a <> b ->
    descendant (edges_of B) a b \/ descendant (edges_of B) b a.
Proof.
  intros B a b m F [Ha|Ha] [Hb|Hb] Hne.
  - congruence.
  - subst m. right. now apply desc_in_sound.
  - subst m. left. now apply desc_in_sound.
  - apply desc_in_sound in Ha. apply desc_in_sound in Hb.
    destruct (descendant_chain B a m F Ha b Hb) as [H|H]; [congruence | exact H].
Qed.

Lemma levels_grow_edge : forall g E p c,
    levels_grow g = true -> bfs_edges g "0" = Some E -> In (p, c) E ->
    exists ap ac,
      node_attr g p = Some ap /\ node_attr g c = Some ac
      /\ level ap < level ac.
Proof.
  intros g E p c H HE Hin. unfold levels_grow in H.
  rewrite HE in H. rewrite forallb_forall in H.
  specialize (H (p, c) Hin). simpl in H.
  destruct (node_attr g p) as [ap|]; [|discriminate].
  destruct (node_attr g c) as [ac|]; [|discriminate].
  apply Z.ltb_lt in H. eauto.
Qed.

Lemma descendant_level : forall g E a b,
    levels_grow g = true -> bfs_edges g "0" = Some E ->
    descendant E a b ->
    exists aa ab,
      node_attr g a = Some aa /\ node_attr g b = Some ab
      /\ level aa < level ab.
Proof.
  intros g E a b L HE H. induction H as [n c H|n c d H _ IH].
  - destruct (levels_grow_edge g E n c L HE H) as (ap & ac & H1 & H2 & H3).
    exists ap, ac. split; [exact H1|]. split; [exact H2 | lia].
  - destruct (levels_grow_edge g E n c L HE H) as (ap & ac & H1 & H2 & H3).
    destruct IH as (ac' & ad & H4 & H5 & H6).
    rewrite H2 in H4. inversion H4; subst ac'.
    exists ap, ad. split; [exact H1|]. split; [exact H5 | lia].
Qed.

(** The lobes recorded for a node are recorded for every node above it. *)
Lemma aggregate_keys_nested : forall g B (all : sdict (zdict Z)) a b sla slb l,
    is_forest "0" B ->
    (forall n occ, dget seqb all n = Some occ ->
                   counts_lobes g (n :: desc_in B n) occ) ->
    descendant (edges_of B) a b ->
    dget seqb all a = Some sla -> dget seqb all b = Some slb ->
    In l (map fst slb) -> In l (map fst sla).
Proof.
  intros g B all a b sla slb l F Hocc Hd Ha Hb Hl.
  apply (counts_lobes_keys g _ slb l (Hocc b slb Hb)) in Hl.
  destruct Hl as (Hnz & m & am & Hm & Ham & Hlm).
  apply (counts_lobes_keys g _ sla l (Hocc a sla Ha)).
  split; [exact Hnz|]. exists m, am. split; [|now split].
  right. apply (desc_in_complete B F).
  destruct Hm as [<-|Hm]; [exact Hd|].
  apply (descendant_trans _ a b m Hd). now apply desc_in_sound.
Qed.

(** Of two nodes one above the other, at most one passes the level guard. *)
Lemma guard_not_nested : forall g B (all : sdict (zdict Z)) a b na nb sla slb,
    is_forest "0" B ->
    levels_grow g = true ->
    bfs_edges g "0" = Some (edges_of B) ->
    (forall n occ, dget seqb all n = Some occ ->
                   counts_lobes g (n :: desc_in B n) occ) ->
    descendant (edges_of B) a b ->
    dget seqb all a = Some sla -> dget seqb all b = Some slb ->
    node_attr g a = Some na -> node_attr g b = Some nb ->
    at_level_4_or_5 (level na) sla = true ->
    at_level_4_or_5 (level nb) slb = true ->
    False.
Proof.
  intros g B all a b na nb sla slb F L HE Hocc Hd Ha Hb Hna Hnb Ga Gb.
  destruct (descendant_level g _ a b L HE Hd) as (na' & nb' & H1 & H2 & Hlt).
  rewrite Hna in H1. rewrite Hnb in H2. inversion H1; inversion H2; subst na' nb'.
  apply at_level_4_or_5_spec in Ga. apply at_level_4_or_5_spec in Gb.
  destruct Ga as [(La & Ha4 & _)|(La & _)], Gb as [(Lb & _)|(Lb & Hb4 & _)];
    try lia.
  apply Ha4. exact (aggregate_keys_nested g B all a b sla slb 4 F Hocc Hd Ha Hb Hb4).
Qed.

Section DrasticPass.
Variable g : Graph.
Variable B : list (string * list string).
Variable all : sdict (zdict Z).
Variable root : zdict Z.
Hypothesis V : valid_tree g = true.
Hypothesis L : levels_grow g = true.
Hypothesis EB : bfs_blocks g "0" = Some B.
Hypothesis ND : NoDup (map fst all).
Hypothesis Hkeys : forall n, In n (map fst all) <-> In n (node_ids g).
Hypothesis Hocc : forall n occ,
    dget seqb all n = Some occ -> counts_lobes g (n :: desc_in B n) occ.

Lemma drastic_choice_unique : forall node sl l1 l2,
    drastic_choice g root node sl l1 -> drastic_choice g root node sl l2 ->
    l1 = l2.
Proof.
  intros node sl l1 l2 (n1 & _ & _ & _ & H1) (n2 & _ & _ & _ & H2). congruence.
Qed.

(** The subtrees of two items with an accepted candidate do not meet. *)
Lemma drastic_choice_apart : forall a b sla slb la lb m,
    In (a, sla) all -> In (b, slb) all -> a <> b ->
    drastic_choice g root a sla la -> drastic_choice g root b slb lb ->
    In m (a :: desc_in B a) -> In m (b :: desc_in B b) -> False.
Proof.
  intros a b sla slb la lb m Ia Ib Hne (na & Hna & _ & Ga & _)
         (nb & Hnb & _ & Gb & _) Ma Mb.
  pose proof (bfs_blocks_forest _ _ _ EB) as F.
  assert (HE : bfs_edges g "0" = Some (edges_of B))
    by (unfold bfs_edges; now rewrite EB).
  pose proof (dget_NoDup seqb seqb_eq _ _ _ ND Ia) as Da.
  pose proof (dget_NoDup seqb seqb_eq _ _ _ ND Ib) as Db.
  destruct (subtrees_meet B a b m F Ma Mb Hne) as [Hd|Hd].
  - exact (guard_not_nested g B all a b na nb sla slb F L HE Hocc Hd
             Da Db Hna Hnb Ga Gb).
  - exact (guard_not_nested g B all b a nb na slb sla F L HE Hocc Hd
             Db Da Hnb Hna Gb Ga).
Qed.

(** An item without an accepted candidate leaves the invariant as it is. *)
Lemma drastic_invariant_skip : forall done node sl gi,
    (forall l, ~ drastic_choice g root node sl l) ->
    drastic_invariant g B root done gi ->
    drastic_invariant g B root (done ++ [(node, sl)]) gi.
Proof.
  intros done node sl gi Hno (I1 & I2 & I3).
  split; [exact I1|]. split.
  - intros node0 sl0 l m Hin Hc Hm. apply in_app_or in Hin.
    destruct Hin as [Hin|[Hin|[]]].
    + exact (I2 node0 sl0 l m Hin Hc Hm).
    + inversion Hin; subst. exfalso. exact (Hno l Hc).
  - intros m Hm. apply I3. intros node0 sl0 l Hin Hb.
    apply Hm; [apply in_or_app; now left | exact Hb].
Qed.

Lemma drastic_step_invariant : forall done node sl gi gm,
    In (node, sl) all -> incl done all -> ~ In node (map fst done) ->
    drastic_invariant g B root done gi ->
    drastic_step root gi (node, sl) = Some gm ->
    drastic_invariant g B root (done ++ [(node, sl)]) gm.
Proof.
  intros done node sl gi gm Hitem Hdone Hnew Inv Hstep.
  pose proof Inv as (I1 & I2 & I3).
  assert (Vi : valid_tree gi = true) by (now rewrite (valid_tree_erase g gi I1)).
  destruct (erase_lobes_shape g gi I1) as (Hadj & Hids & _).
  destruct (valid_tree_nodes gi Vi) as (Bi & EBi & Hlen & Hnodes & Hattr).
  rewrite (bfs_blocks_adj g gi "0" Hadj), EB in EBi.
  inversion EBi; subst Bi. clear EBi.
  assert (EBi : bfs_blocks gi "0" = Some B)
    by (now rewrite (bfs_blocks_adj g gi "0" Hadj)).
  assert (Hnode : In node (node_ids g)).
  { apply Hkeys. apply in_map_iff. exists (node, sl). now split. }
  destruct (node_attr_exists g node Hnode) as (n & Hn).
  destruct (node_attr_exists gi node ltac:(now rewrite Hids)) as (ni & Hni).
  pose proof (erase_lobes_level g gi node n ni I1 Hn Hni) as Hlvl.
  unfold drastic_step in Hstep.
  destruct (1 <? length sl)%nat eqn:Elen.
  2:{ inversion Hstep; subst gm.
      apply drastic_invariant_skip; [|exact Inv].
      intros l (n' & _ & Hlt & _). apply Nat.ltb_lt in Hlt. congruence. }
  rewrite Hni, Hlvl in Hstep.
  destruct (at_level_4_or_5 (level n) sl) eqn:Eg.
  2:{ inversion Hstep; subst gm.
      apply drastic_invariant_skip; [|exact Inv].
      intros l (n' & Hn' & _ & Hg & _). rewrite Hn in Hn'.
      inversion Hn'; subst n'. congruence. }
  destruct (find (keeps_every_lobe root sl) (map fst (sorted_desc sl)))
    as [new_lobe|] eqn:Ef.
  2:{ inversion Hstep; subst gm.
      apply drastic_invariant_skip; [|exact Inv].
      intros l (n' & _ & _ & _ & Hf). congruence. }
  assert (Hc : drastic_choice g root node sl new_lobe).
  { exists n. split; [exact Hn|]. split; [now apply Nat.ltb_lt|]. now split. }
  destruct (set_attribute_recursively_returns gi B node new_lobe EBi Hlen)
    as (gm' & Hret & (_ & _ & Hp)).
  { intros k Hk. apply Hattr. now apply Hnodes. }
  { apply Hnodes. now rewrite Hids. }
  rewrite Hstep in Hret. inversion Hret; subst gm'. clear Hret.
  pose proof (proj1 (set_attribute_recursively_erase gi node new_lobe gm Hstep))
    as Em.
  split; [congruence|]. split.
  - intros node0 sl0 l m Hin Hc0 Hm. apply in_app_or in Hin.
    destruct Hin as [Hin|[Hin|[]]].
    + assert (Hne : node0 <> node).
      { intros ->. apply Hnew. apply in_map_iff. exists (node, sl0). now split. }
      assert (Hout : mem seqb m (node :: desc_in B node) = false).
      { apply (mem_not_In seqb seqb_eq). intros Hm'.
        exact (drastic_choice_apart node0 node sl0 sl l new_lobe m
                 (Hdone _ Hin) Hitem Hne Hc0 Hc Hm Hm'). }
      unfold lobe_of. rewrite Hp, Hout.
      exact (I2 node0 sl0 l m Hin Hc0 Hm).
    + inversion Hin; subst node0 sl0.
      rewrite (drastic_choice_unique node sl l new_lobe Hc0 Hc).
      assert (Hmem : mem seqb m (node :: desc_in B node) = true)
        by (now apply mem_seqb_In).
      assert (Hmn : In m (node_ids gi)).
      { apply Hnodes. destruct Hm as [<-|Hm].
        - apply Hnodes. now rewrite Hids.
        - right. exact (desc_in_children B node m Hm). }
      destruct (node_attr_exists gi m Hmn) as (am & Ham).
      unfold lobe_of. rewrite Hp, Hmem, Ham. reflexivity.
  - intros m Hm.
    assert (Hout : mem seqb m (node :: desc_in B node) = false).
    { apply (mem_not_In seqb seqb_eq). intros Hm'.
      apply (Hm node sl new_lobe); [apply in_or_app; right; now left | exact Hm' | exact Hc]. }
    rewrite Hp, Hout. apply I3. intros node0 sl0 l Hin Hb.
    apply Hm; [apply in_or_app; now left | exact Hb].
Qed.

Lemma drastic_fold_invariant : forall items done gi gf,
    all = done ++ items ->
    drastic_invariant g B root done gi ->
    foldM (drastic_step root) items gi = Some gf ->
    drastic_invariant g B root all gf.
Proof.
  induction items as [|[node sl] items IH]; intros done gi gf Hall Inv Hf.
  - simpl in Hf. inversion Hf; subst gf. rewrite Hall, app_nil_r. exact Inv.
  - cbn [foldM] in Hf.
    destruct (drastic_step root gi (node, sl)) as [gm|] eqn:Es; [|discriminate].
    apply (IH (done ++ [(node, sl)]) gm gf).
    + rewrite Hall, <- app_assoc. reflexivity.
    + apply (drastic_step_invariant done node sl gi gm).
      * rewrite Hall. apply in_or_app. right. now left.
      * rewrite Hall. intros y Hy. apply in_or_app. now left.
      * rewrite Hall, map_app in ND. simpl in ND.
        apply NoDup_remove_2 in ND. intros Hin. apply ND.
        apply in_or_app. now left.
      * exact Inv.
      * exact Es.
    + exact Hf.
Qed.
End DrasticPass.


